(* ===== verification/_CoqProject ===== *)
-Q . S2P
Prelude.v
Simulation.v
Iface.v
RoundRobinLB.v
WeightedLB.v
ConnMap.v
LeastConnLB.v
Dispatch.v
Workers.v
Linear.v
MainLC.v
MainRuns.v
Timed.v
Console.v
Stream.v
MainLinear.v
