(* ===== verification/Prelude.v ===== *)
(** * Verified model of the load-balancing algorithms

    The repository holds two C++ translation units under
    [src/LoadBalancingAlgorithm/]:

    - [roundrobinalgo.cpp]: the abstract class [ILoadBalancer] (one pure
      virtual, [GetNextServer]), the classes [RoundRobin] and
      [WeightRoundRobin] that override it, and a [main] that prints sixteen
      selections of a weighted balancer;
    - [leastconnecitonalgo.cpp]: a second [ILoadBalancer] (with
      [OnRequestStarted] and [OnRequestFinished] besides), the class
      [LeastConnection] that keeps a [std::unordered_map<std::string, size_t>]
      of in-flight requests guarded by a mutex, the worker body [simulate]
      and a [main] that spawns sixteen workers.

    ** How the code is modelled

    The embedding is shallow.  An object is a [Record] of its data members,
    under the members' own names ([_servers], [_curr_index], ...); a member
    function is a function from the object to its result and the object
    after the call.  The conventions below are fixed in this file and used
    by every other one.

    - [size_t] is [Z] with the wrap-around written out: [wrap] reduces
      modulo [2^64], [size_add] and [size_sub] are the machine operations,
      [size_rem] is [%] and is undefined on a zero divisor.
    - Undefined behaviour (an out-of-range [operator[]], a division by zero,
      dereferencing [end()]) is the value [None] of an [option]; a theorem
      that a call is defined therefore says something.
    - A C++ exception is the constructor [Throw] of [result]; constructors
      of classes return [result].
    - [std::vector] is [list] with [vec_size], [vec_index] ([operator[]])
      and [vec_at] ([at]).  A vector never holds more than [SIZE_MAX]
      elements; the model states this as the hypothesis [vec_fits] where a
      theorem needs it.

    ** Files

    - [Prelude] (this file): machine integers, vectors, exceptions, the
      tactics [size_lia] and [case_guards], the hint database [lb] and the
      rewrite database [size_rw].
    - [Simulation]: executions of a transition system along a list of
      labels ([runs]), what they show ([trace]), the diagram by which
      the executions of one system are matched by those of another
      ([simulation_runs]), and a system laid over another, which adds
      state and steps of its own and reaches the same states of the
      system below ([layer_reach]).
    - [Iface]: the two [ILoadBalancer] abstract classes as type classes, the
      contract [LoadBalancerOk] an implementation promises (class invariant,
      definedness and closure of [GetNextServer] on the pool) and the
      client loop [drive] with its theorems, proved against the contract
      alone: totality, composition, prefix and the periodicity principle
      [drive_periodic].
    - [RoundRobinLB], [Module RoundRobin]: [RoundRobin] of
      [roundrobinalgo.cpp].  The cursor stays in range, the [i]-th call
      returns [_servers[i mod n]], and the class meets the contract.
    - [WeightedLB], [Module WeightRoundRobin]: [WeightRoundRobin] and the
      [main] of [roundrobinalgo.cpp].  For positive weights the output is
      the reference [schedule] (server [i] repeated [weight i] times, in
      pool order) repeated for ever; a zero weight met by the advance step
      underflows [--_curr_server.second] to [SIZE_MAX], so that server is
      then returned [2^64] times in a row.
    - [ConnMap], [Module UMap]: the [std::unordered_map] operations the
      class uses ([emplace], [operator[]], iteration, [std::min_element]).
      The container is the list of its entries in iteration order; where a
      new entry lands is the parameter [Layout], since the standard leaves
      it unspecified.  [to_gmap] abstracts a container to a finite map and
      the operations commute with it.
    - [LeastConnLB], [Module LeastConnection]: the constructor,
      [GetNextServer], [OnRequestStarted] and [OnRequestFinished] of
      [leastconnecitonalgo.cpp], their invariant, minimality of the
      selection, the floor at zero, the behaviour on ids that are not in
      the pool, and the refinement to a specification on finite maps
      ([Module LCSpec]).
    - [Dispatch], [Module Dispatch]: the routing layer of the
      specification, a sequential caller of the tracking interface that
      asks for a server and reports the start of the request before it
      asks again, with the contract [TrackerOk] of an implementation and
      the instance of [LeastConnection].  The repository has no such
      caller: [main] and [simulate] make these calls from seventeen
      threads, and are [MainLC] and [Workers].
    - [Workers], [Module Conc]: the threads that run [simulate], as a
      small-step interleaving semantics.  The shared state is the map and
      the holder of the mutex; a thread is its server, its duration and
      its position in [simulate] ([pc]); [wstep] is one step of one
      thread, with [OnRequestStarted] and [OnRequestFinished] inlined and
      every critical section cut into taking the mutex, the read through
      [_connections[server]], the write and the release, and with a step
      for each of the two output statements.  [step] lets any thread move
      that can.
    - [Linear], [Module Lin]: the threads of [Conc] against the
      sequential class of [LeastConnLB].  [lin_point] is the step at which
      a call of [OnRequestStarted] or [OnRequestFinished] takes effect,
      [history] the calls of an execution in the order of these steps,
      and [lrel] the relation between the interleaved state and the
      sequential object that has taken the history.
    - [MainLC], [Module LCMain]: [main] of [leastconnecitonalgo.cpp] as a
      transition system over the threads of [Conc], the position of the
      main thread ([mpc]) and the console ([cout], a list of [event]s that
      [render] turns into text).  [mstep] is one step of the main thread:
      a comparison of the scan of [GetNextServer] ([scan_step], without
      the mutex, on the map as it is at that moment), the creation of a
      thread with a duration computed from [std::rand],
      [printConnections] under the mutex and one line at a time
      ([print_step]), the joins and the last line.  A
      [label] says which thread moves and carries the value of
      [std::rand]; [main] is the function as a whole, from the
      constructor to the exit status, along a sequence of labels.
    - [MainRuns], [Module LCRuns]: the executions of that program: the
      measure [cost] of the steps that remain, the executions that lead
      to the race and to a selection no state of the map justifies.
    - [Timed], [Module LCTimed]: the program of [MainLC] with a clock
      and the two calls of [std::this_thread::sleep_for], of [simulate]
      and of [main]: [texec] is a step of the program, a call of
      [sleep_for] or the passing of time, and the step that follows a
      pause in the code waits until the duration has passed.
      [simulate] is the function as a whole, run with no other thread
      moving: the balancer, the console and the time after the call.
    - [Console], [Module LCConsole]: the invariant of the console of
      that program ([cinv]): which lines are there, and that the lines of
      [printConnections] form whole tables ([shows]).
    - [Stream], [Module LCStream]: the program of [MainLC] with
      [std::cout] one character at a time: [sexec] is a step of the
      program, which hands the characters of its output statement to the
      stream, or one character reaching the console ([screen]), where
      the characters of the seventeen threads fall between each other;
      [join] returns for a thread when the characters of its last line
      are out ([awaited]).
    - [MainLinear], [Module LCLin]: the program of [MainLC] against the
      sequential class, with the calls of [printConnections] in the
      history ([op], [main_history]) and the relation [mrel].

    ** What the theorems show

    - Selection of [RoundRobin]: [GetNextServer_cycle],
      [GetNextServer_window], [GetNextServer_functional],
      [rr_make_throws_iff_empty].
    - Selection of [WeightRoundRobin]: equivalence with the reference
      schedule ([GetNextServer_schedule], [GetNextServer_cycles],
      [GetNextServer_counts], [boundary_obs_equiv]), the budget invariant
      ([GetNextServer_within_budget]), the class invariant as a type of
      the object for every weight ([wrr_wf_preserved]), the output of [main]
      ([main_output]), and the underflow on a weight of zero
      ([GetNextServer_zero_weight], [wrr_make_throws_iff_empty]).
    - The container: [min_element_comp_least] and the lemmas that each
      operation commutes with [to_gmap], whatever the [Layout].
    - [LeastConnection], one call at a time: the selection has least count
      ([GetNextServer_least]) and is the first such entry in iteration
      order ([GetNextServer_first], [tie_break_depends_on_layout]); the
      accounting refines [LCSpec] ([OnRequestStarted_refines],
      [OnRequestFinished_refines], [run_refines], [run_in_flight],
      [start_finish_roundtrip]); the constructor ([make_counts]); and the
      inputs the specification forbids ([OnRequestStarted_overflow],
      [unknown_server_inserted], [unknown_server_selected],
      [GetNextServer_without_mutex]).
    - The caller of the specification: requests that report their start
      before the next is sent are spread evenly over the servers
      ([dispatch_balanced]), from the contract alone.  It says what the
      class gives a caller that keeps to this order, which [main] does
      not: [select_torn].
    - The threads: the invariant [inv] (the mutex is held by exactly the
      thread inside a critical section; a count is its initial value plus
      the workers between their two writes) holds in every reachable state
      ([workers_count_in_flight], [workers_mutual_exclusion]); the counts
      are restored at the end ([workers_restore_counts]); no reachable
      state is stuck before the end ([workers_progress]); every step is
      the next of the eleven steps of its thread, so that no decrement
      is skipped, and an execution that cannot go on has taken eleven
      steps for each worker and left every worker at the end of
      [simulate] ([workers_terminate]); some execution ends
      ([workers_complete]).
    - Linearizability of the accounting calls: in every execution of
      the threads the calls, in the order of their linearization points,
      are an execution of the sequential [LeastConnection] in which each
      thread's calls keep their order, and the shared map is the map of
      the sequential object whenever the mutex is free
      ([workers_linearizable]); its counts are then those [LCSpec]
      computes from the history ([history_counts]).  The hypothesis
      [headroom] of the invariant [inv] is not needed here.
    - The program of [main]: its invariant [minv] (the map keeps the keys
      and the order the constructor gave it, so no call ever inserts a
      server; a count is the number of requests in flight; at most
      sixteen threads) gives [main_counts_in_flight] and
      [main_exit_counts] (every count is zero at the end); a scan that no
      worker interrupts is a call of [GetNextServer] and selects a server
      of least count ([select_alone_least]), while an interrupted scan can
      select a server that had not the least count at any moment of the
      call, whatever the [Layout] ([select_torn]); two accesses to a count
      race only between a comparison of the scan and the store of a
      worker ([race_only_select]), and that race is reachable
      ([select_races]); no state but the end is stuck
      ([main_progress]), every execution is finite and can end
      ([main_terminates]), and an execution that cannot go on is one in
      which [main] has returned 0 with every count back at zero
      ([main_returns]).
    - The pauses: a thread that no other thread interrupts executes
      the sequential [simulate], with its two lines on the console and
      the clock later by its duration, and does not come to
      [OnRequestFinished] earlier ([simulate_serial]); [main] takes at
      least 1600 ms, and every thread sleeps for its duration
      ([main_takes_1600ms]).  The clock of [Timed] lets any amount of
      time pass between two steps, so that the pauses forbid no
      interleaving: the program with the clock reaches the states the
      program without the pauses reaches ([sleep_transparent], a lemma
      of the layer, which holds wherever the pauses stand), and the
      theorems that leave the pauses out are theorems of the program as
      it is written.
    - The console: whatever the workers print in between, the
      lines of [printConnections] on the console form whole tables of the
      three servers with counts between zero and sixteen, and the table
      being printed is the map as it is, which the mutex keeps as it was
      ([snapshots_consistent]); the last line comes after the lines of
      all workers and the sixteen tables ([all_completed_last]).
    - The characters: a line of one thread can be cut by the characters
      of another ([text_mixed]), but what each thread has written, read
      off the console in order, is the text of the statements it has
      executed ([console_per_thread]), which for the main thread is
      the text of one table after the other ([screen_tables]); a
      character of thread [k] comes after [k] whole tables
      ([start_after_tables]) and the characters of the last line of
      [main] after every character of every thread
      ([last_line_last]); the program reaches the same
      states whether the characters are followed or not
      ([stream_transparent]), so the theorems on the console, which take
      an output statement for one event, say what each thread wrote and
      in which order the statements were executed, not where the
      characters of two threads lie.
    - Linearizability of the program: with each call of
      [printConnections] taking effect when it releases the mutex, the
      history of every execution of [main] and its threads is an
      execution of the sequential class from the map of the constructor,
      and the tables on the console are the tables [printConnections]
      prints in that execution ([main_linearizable]); at the end of
      [main] the history holds the two calls of each of the sixteen
      threads and sixteen calls of [printConnections]
      ([exit_history]).  [GetNextServer] has no place in the history:
      [select_torn].

    ** Bounds

    Nothing is recursive on fuel: [drive] recurses on the number of calls,
    [min_element] on the list, [run] on the schedule.  Integers are exact
    up to the [2^64] wrap; the theorems that exclude overflow say so in a
    hypothesis ([vec_fits], [headroom]).  A worker takes at most eleven
    steps, so an execution of [n] workers has at most [11 * n] steps; the
    theorems on the threads hold for every [n] and every interleaving.
    The program of [MainLC] is the one [main] runs, with its sixteen
    iterations: its executions have at most 385 steps, and its theorems
    hold for every interleaving and every sequence of values of
    [std::rand].  The clock of [Timed] counts milliseconds in [Z] and
    never wraps.

    ** Not modelled

    The generator behind [std::rand]: its values are inputs of the
    steps of [main].  Time is what [sleep_for] needs it to be: the
    statements take no time of their own, time passes between them in
    any amount, and nothing bounds from above the time a thread waits
    for the scheduler or for the mutex.  The buffer of [std::cout]
    and the flush of [std::endl]: the console of [Stream] is the
    sequence of the characters in the order the stream takes them, not
    the moment they appear on a terminal.  A comparison of the scan
    of [GetNextServer] is one step, and so are the lookup and the store of [operator[]]: an
    execution with a data race is given the behaviour of some
    interleaving of these steps, where C++ gives it none
    ([race_only_select] and [select_races] say which executions these
    are).  The deleted copy and move
    members only forbid code, and the loop of [roundrobinalgo.cpp] that is
    commented out is not code. *)

From Stdlib Require Import ZArith Lia.
From stdpp Require Import base tactics option list strings.

#[local] Open Scope Z_scope.

(** ** [size_t]: a 64-bit unsigned integer *)

Definition SIZE_BITS : Z := 64.
Definition SIZE_MOD : Z := 2 ^ SIZE_BITS.
Definition SIZE_MAX : Z := SIZE_MOD - 1.

(** The range of a [size_t] value. *)
Definition is_size_t (z : Z) : Prop := 0 ≤ z ≤ SIZE_MAX.

#[export] Instance is_size_t_dec (z : Z) : Decision (is_size_t z).
Proof. unfold is_size_t. apply _. Defined.

(** Reduction of a mathematical integer to its machine representation. *)
Definition wrap (z : Z) : Z := z mod SIZE_MOD.

Definition size_add (a b : Z) : Z := wrap (a + b).
Definition size_sub (a b : Z) : Z := wrap (a - b).

(** [a % b]; a zero divisor is undefined behaviour. *)
Definition size_rem (a b : Z) : option Z :=
  if decide (b = 0) then None else Some (a mod b).

Declare Scope size_scope.
Delimit Scope size_scope with sz.
Notation "a +% b" := (size_add a b) (at level 50, left associativity) : size_scope.
Notation "a -% b" := (size_sub a b) (at level 50, left associativity) : size_scope.

(** ** Exceptions *)

Inductive exn : Type :=
| runtime_error (what : string)
| out_of_range (what : string).

Inductive result (A : Type) : Type :=
| Ok (a : A)
| Throw (e : exn).
Arguments Ok {A} a.
Arguments Throw {A} e.

#[export] Instance result_ret : MRet result := @Ok.
#[export] Instance result_bind : MBind result := λ A B f r,
  match r with Ok a => f a | Throw e => Throw e end.
#[export] Instance result_fmap : FMap result := λ A B f r,
  match r with Ok a => Ok (f a) | Throw e => Throw e end.

Definition is_Ok {A} (r : result A) : Prop := ∃ a, r = Ok a.

(** ** [std::vector] *)

Definition vec_size {A} (v : list A) : Z := Z.of_nat (length v).

Definition vec_empty {A} (v : list A) : bool :=
  match v with [] => true | _ :: _ => false end.

(** [v[i]]: out of range is undefined behaviour. *)
Definition vec_index {A} (v : list A) (i : Z) : option A :=
  if decide (0 ≤ i) then v !! Z.to_nat i else None.

(** [v.at(i)]: out of range throws. *)
Definition vec_at {A} (v : list A) (i : Z) : result A :=
  match vec_index v i with
  | Some x => Ok x
  | None => Throw (out_of_range "vector::_M_range_check")
  end.

(** A vector's size is a [size_t]. *)
Definition vec_fits {A} (v : list A) : Prop := vec_size v ≤ SIZE_MAX.

(** The cursor after [(i + 1) % n]. *)
Definition next_index (n i : Z) : Z := (i + 1) mod n.

(** ** Tactics *)

Ltac size_unfold :=
  unfold vec_fits, vec_size, is_size_t, size_add, size_sub, wrap, SIZE_MAX,
    SIZE_MOD, SIZE_BITS in *.

(** Linear arithmetic with the constants of [size_t] unfolded. *)
Ltac size_lia := size_unfold; lia.

(** Case analysis on every [decide] and [bool_decide] in sight. *)
Ltac case_guards :=
  repeat first [ case_decide | case_bool_decide ]; simplify_eq/=; try done.

Create HintDb lb discriminated.
Create Rewrite HintDb size_rw.

(** ** Lemmas on [size_t] *)

Lemma SIZE_MOD_pos : 0 < SIZE_MOD.
Proof. by compute. Qed.

Lemma wrap_range z : is_size_t (wrap z).
Proof.
  pose proof (Z.mod_pos_bound z SIZE_MOD SIZE_MOD_pos).
  unfold is_size_t, wrap, SIZE_MAX. lia.
Qed.

Lemma wrap_small z : is_size_t z → wrap z = z.
Proof. intros Hz. apply Z.mod_small. size_lia. Qed.

Lemma wrap_idemp z : wrap (wrap z) = wrap z.
Proof. apply wrap_small, wrap_range. Qed.

Lemma size_add_range a b : is_size_t (size_add a b).
Proof. apply wrap_range. Qed.

Lemma size_sub_range a b : is_size_t (size_sub a b).
Proof. apply wrap_range. Qed.

Lemma size_add_small a b :
  0 ≤ a → 0 ≤ b → a + b ≤ SIZE_MAX → size_add a b = a + b.
Proof. intros. apply wrap_small. size_lia. Qed.

Lemma size_add_overflow : size_add SIZE_MAX 1 = 0.
Proof. by compute. Qed.

Lemma size_sub_small a b : 0 ≤ b ≤ a → a ≤ SIZE_MAX → size_sub a b = a - b.
Proof. intros. apply wrap_small. size_lia. Qed.

Lemma size_sub_underflow : size_sub 0 1 = SIZE_MAX.
Proof. by compute. Qed.

Lemma size_sub_add a : is_size_t a → size_sub (size_add a 1) 1 = a.
Proof.
  intros Ha. unfold size_sub, size_add, wrap.
  rewrite Zminus_mod_idemp_l. replace (a + 1 - 1) with a by lia.
  by apply wrap_small.
Qed.

Lemma size_rem_Some a b : b ≠ 0 → size_rem a b = Some (a mod b).
Proof. intros. unfold size_rem. by case_guards. Qed.

Lemma size_rem_range a b r : 0 < b → size_rem a b = Some r → 0 ≤ r < b.
Proof.
  unfold size_rem. intros Hb Hr. case_guards. by apply Z.mod_pos_bound.
Qed.

(** The advance of a cursor, [(i + 1) % n] on [size_t], is the mathematical
    successor modulo [n] whenever the cursor is in range. *)
Lemma size_advance n i :
  0 ≤ i < n → n ≤ SIZE_MAX →
  size_rem (size_add i 1) n = Some (next_index n i).
Proof.
  intros Hi Hn. rewrite size_rem_Some by lia.
  by rewrite size_add_small by lia.
Qed.

Lemma next_index_range n i : 0 < n → 0 ≤ next_index n i < n.
Proof. intros. by apply Z.mod_pos_bound. Qed.

Lemma next_index_step n i : 0 ≤ i → i + 1 < n → next_index n i = i + 1.
Proof. intros. apply Z.mod_small. lia. Qed.

Lemma next_index_last n : 0 < n → next_index n (n - 1) = 0.
Proof.
  intros. unfold next_index. replace (n - 1 + 1) with n by lia.
  apply Z_mod_same_full.
Qed.

(** ** Lemmas on vectors *)

Lemma vec_size_nonneg {A} (v : list A) : 0 ≤ vec_size v.
Proof. unfold vec_size. lia. Qed.

Lemma vec_size_app {A} (v w : list A) : vec_size (v ++ w) = vec_size v + vec_size w.
Proof. unfold vec_size. rewrite length_app. lia. Qed.

Lemma vec_size_cons {A} (x : A) (v : list A) : vec_size (x :: v) = 1 + vec_size v.
Proof. unfold vec_size. simpl. lia. Qed.

Lemma vec_empty_true {A} (v : list A) : vec_empty v = true ↔ v = [].
Proof. by destruct v. Qed.

Lemma vec_empty_false {A} (v : list A) : vec_empty v = false ↔ 0 < vec_size v.
Proof. destruct v; rewrite ?vec_size_cons; simpl; [|pose proof (vec_size_nonneg v)]; split; (done || lia). Qed.

Lemma vec_index_nat {A} (v : list A) (i : nat) : vec_index v (Z.of_nat i) = v !! i.
Proof. unfold vec_index. case_guards; [by rewrite Nat2Z.id | lia]. Qed.

Lemma vec_index_Some {A} (v : list A) i x :
  vec_index v i = Some x ↔ 0 ≤ i ∧ v !! Z.to_nat i = Some x.
Proof.
  unfold vec_index. case_decide; [by split; [|intros [_ ?]] |].
  split; [done | intros [? _]; lia].
Qed.

Lemma vec_index_is_Some {A} (v : list A) i :
  is_Some (vec_index v i) ↔ 0 ≤ i < vec_size v.
Proof.
  unfold vec_index, vec_size. case_guards.
  - rewrite lookup_lt_is_Some. lia.
  - split; [by intros [??] | lia].
Qed.

Lemma vec_index_None {A} (v : list A) i :
  vec_index v i = None ↔ i < 0 ∨ vec_size v ≤ i.
Proof.
  rewrite eq_None_not_Some, vec_index_is_Some. lia.
Qed.

Lemma vec_index_elem_of {A} (v : list A) i x : vec_index v i = Some x → x ∈ v.
Proof. rewrite vec_index_Some. intros [_ ?]. by eapply list_elem_of_lookup_2. Qed.

Lemma vec_index_app_l {A} (v w : list A) i :
  0 ≤ i < vec_size v → vec_index (v ++ w) i = vec_index v i.
Proof.
  unfold vec_index, vec_size. intros. case_guards. apply lookup_app_l. lia.
Qed.

Lemma vec_index_app_r {A} (v w : list A) i :
  vec_size v ≤ i → vec_index (v ++ w) i = vec_index w (i - vec_size v).
Proof.
  unfold vec_index, vec_size. intros. case_guards; try lia.
  rewrite lookup_app_r by lia. f_equal. lia.
Qed.

Lemma vec_at_Ok {A} (v : list A) i x : vec_at v i = Ok x ↔ vec_index v i = Some x.
Proof. unfold vec_at. destruct (vec_index v i); naive_solver. Qed.

Lemma vec_at_front {A} (x : A) (v : list A) : vec_at (x :: v) 0 = Ok x.
Proof. done. Qed.

(** ** Lemmas on lists *)

Lemma rotate_0 {A} (l : list A) : rotate 0 l = l.
Proof. unfold rotate. rewrite Nat.Div0.mod_0_l. simpl. by rewrite app_nil_r. Qed.

Lemma rotate_Permutation {A} n (l : list A) : rotate n l ≡ₚ l.
Proof. unfold rotate. by rewrite Permutation_app_comm, take_drop. Qed.

(** Replacing one summand. *)
Lemma sum_list_with_insert {A} (f : A → nat) (l : list A) i x y :
  l !! i = Some x →
  (sum_list_with f (<[i:=y]> l) + f x = sum_list_with f l + f y)%nat.
Proof.
  revert i. induction l as [|z l IH]; intros [|i] Hi; simplify_eq/=; [lia|].
  specialize (IH _ Hi). lia.
Qed.

(** A filter that nothing passes. *)
Lemma filter_none {A} (P : A → Prop) `{∀ x, Decision (P x)} (l : list A) :
  Forall (λ x, ¬ P x) l → filter P l = [].
Proof.
  induction 1 as [|x l Hx _ IH]; [done|]. by rewrite filter_cons_False.
Qed.

(** The characters of a concatenation. *)
Lemma list_ascii_of_string_app (a b : string) :
  String.list_ascii_of_string (a +:+ b) =
  String.list_ascii_of_string a ++ String.list_ascii_of_string b.
Proof. induction a as [|c a IH]; [done|]. simpl. by rewrite IH. Qed.

#[export] Hint Resolve wrap_range size_add_range size_sub_range vec_size_nonneg : lb.
#[export] Hint Rewrite size_sub_underflow size_add_overflow wrap_idemp : size_rw.
