(* ===== verification/Simulation.v ===== *)
(** * Executions along a list of labels, and simulations between them

    Every transition system of the development is a partial function
    from a label and a state to the next state, and an execution follows
    a list of labels.  [runs] is that execution and [trace] what it
    shows, each step showing a list of events of its own (none, when the
    step is internal).

    The section [simulation] is the diagram that relates two such
    systems: when every step of the first is matched by the steps of the
    second that take the events the step shows, and the relation between
    the states is kept, every execution of the first is matched by the
    execution of the second along its trace.

    The section [layer] is for a system that adds detail to another:
    its states have a state of the other as their [base], its steps are
    steps of the other or steps of their own.  When the steps of the
    detailed system are steps of the other once the detail is forgotten,
    and every step of the other can be taken by the detailed system
    after steps of its own, the two reach the same states of the other
    ([layer_reach]), and the invariants of the other hold of the states
    of the detailed system ([layer_invariant]). *)

From stdpp Require Import base tactics option list.

Section runs.
Context {L C : Type} (exec : L → C → option C).

(** The execution that takes the steps [ls], first label first. *)
Fixpoint runs (ls : list L) (c : C) : option C :=
  match ls with
  | [] => Some c
  | l :: ls => c1 ← exec l c; runs ls c1
  end.

Lemma runs_app ls1 ls2 c : runs (ls1 ++ ls2) c = runs ls1 c ≫= runs ls2.
Proof.
  revert c. induction ls1 as [|l ls1 IH]; intros c; simpl; [done|].
  destruct (exec l c); simpl; [apply IH|done].
Qed.

(** A property the steps along labels that satisfy [ok] keep is kept by
    the executions along such labels. *)
Lemma runs_invariant (P : C → Prop) (ok : L → Prop) ls c c' :
  (∀ l c c', P c → ok l → exec l c = Some c' → P c') →
  Forall ok ls → P c → runs ls c = Some c' → P c'.
Proof.
  intros Hstep Hok. revert c.
  induction Hok as [|l ls Hl _ IH]; intros c HP; simpl; [by intros [= <-]|].
  destruct (exec l c) as [c1|] eqn:Hexec; [simpl|done]. eauto.
Qed.

Context {E : Type} (proj : L → C → list E).

(** The events of the steps of the execution, in the order of the steps;
    the execution is followed as far as it is defined. *)
Fixpoint trace (ls : list L) (c : C) : list E :=
  match ls with
  | [] => []
  | l :: ls => proj l c ++ from_option (trace ls) [] (exec l c)
  end.

Lemma trace_app ls1 ls2 c c1 :
  runs ls1 c = Some c1 → trace (ls1 ++ ls2) c = trace ls1 c ++ trace ls2 c1.
Proof.
  revert c. induction ls1 as [|l ls1 IH]; intros c; simpl; [by intros [= <-]|].
  destruct (exec l c) as [c'|]; simpl; [|done]. intros Hrun.
  by rewrite (IH _ Hrun), app_assoc.
Qed.

End runs.

(** ** Executions along labels that satisfy a condition *)

Section guarded.
Context {L C E : Type} (ok : L → Prop) `{!∀ l, Decision (ok l)}.
Context (exec : L → C → option C) (proj : L → C → list E).

(** The step is taken when the label satisfies the condition. *)
Definition guarded (l : L) (c : C) : option C :=
  if decide (ok l) then exec l c else None.

Lemma runs_guarded ls c : Forall ok ls → runs guarded ls c = runs exec ls c.
Proof.
  intros Hok. revert c. induction Hok as [|l ls Hl _ IH]; intros c; [done|].
  cbn [runs]. change (guarded l c) with (if decide (ok l) then exec l c else None).
  rewrite decide_True by done.
  destruct (exec l c); simpl; [apply IH|done].
Qed.

Lemma trace_guarded ls c :
  Forall ok ls → trace guarded proj ls c = trace exec proj ls c.
Proof.
  intros Hok. revert c. induction Hok as [|l ls Hl _ IH]; intros c; [done|].
  cbn [trace]. change (guarded l c) with (if decide (ok l) then exec l c else None).
  rewrite decide_True by done.
  destruct (exec l c); simpl; [by rewrite IH|done].
Qed.

End guarded.

Section simulation.
Context {L C E A : Type}.
Variable cexec : L → C → option C.
Variable aexec : E → A → option A.
Variable proj : L → C → list E.

(** The relation between the two states, with the events shown so far. *)
Variable R : list E → C → A → Prop.

Hypothesis diagram : ∀ l c c' h a,
  R h c a → cexec l c = Some c' →
  ∃ a', runs aexec (proj l c) a = Some a' ∧ R (h ++ proj l c) c' a'.

Lemma simulation_runs ls c c' h a :
  R h c a → runs cexec ls c = Some c' →
  ∃ a', runs aexec (trace cexec proj ls c) a = Some a' ∧
        R (h ++ trace cexec proj ls c) c' a'.
Proof.
  revert c h a. induction ls as [|l ls IH]; intros c h a HR; simpl.
  - intros [= <-]. exists a. by rewrite app_nil_r.
  - destruct (cexec l c) as [c1|] eqn:Hc; [simpl|done]. intros Hrun.
    destruct (diagram _ _ _ _ _ HR Hc) as (a1 & Ha1 & HR1).
    destruct (IH _ _ _ HR1 Hrun) as (a' & Ha' & HR').
    exists a'. rewrite runs_app, Ha1, app_assoc. by split.
Qed.

End simulation.

Section layer.
Context {L C L' C' : Type}.
Variable exec : L → C → option C.
Variable exec' : L' → C' → option C'.
Variable base : C' → C.

(** The steps of the coarse system a step of the detailed one stands
    for. *)
Variable steps : L' → list L.

Hypothesis forget : ∀ l c c',
  exec' l c = Some c' → runs exec (steps l) (base c) = Some (base c').

Lemma runs_forget ls c c' :
  runs exec' ls c = Some c' → runs exec (ls ≫= steps) (base c) = Some (base c').
Proof.
  revert c. induction ls as [|l ls IH]; intros c; simpl; [by intros [= <-]|].
  destruct (exec' l c) as [c1|] eqn:Hl; [simpl|done]. intros Hrun.
  rewrite runs_app, (forget _ _ _ Hl). simpl. by apply IH.
Qed.

(** The states of the detailed system from which it can take any step
    of the coarse one, and the steps by which it takes the step [l]. *)
Variable ready : C' → Prop.
Variable fill : L → C → list L'.

Hypothesis lift : ∀ l c σ,
  ready c → exec l (base c) = Some σ →
  ∃ c', runs exec' (fill l (base c)) c = Some c' ∧ base c' = σ ∧ ready c'.

(** An execution of the coarse system with the detail filled in. *)
Fixpoint filled (ls : list L) (σ : C) : list L' :=
  match ls with
  | [] => []
  | l :: ls => fill l σ ++ from_option (filled ls) [] (exec l σ)
  end.

Lemma runs_filled ls c σ :
  ready c → runs exec ls (base c) = Some σ →
  ∃ c', runs exec' (filled ls (base c)) c = Some c' ∧ base c' = σ ∧ ready c'.
Proof.
  revert c. induction ls as [|l ls IH]; intros c Hr; simpl.
  - intros [= <-]. by exists c.
  - destruct (exec l (base c)) as [σ1|] eqn:Hl; [simpl|done]. intros Hrun.
    destruct (lift _ _ _ Hr Hl) as (c1 & Hc1 & <- & Hr1).
    destruct (IH _ Hr1 Hrun) as (c' & Hc' & <- & Hr').
    exists c'. by rewrite runs_app, Hc1.
Qed.

(** The two systems reach the same states of the coarse one, along
    labels that satisfy [ok] and [ok']. *)
Variable ok : L → Prop.
Variable ok' : L' → Prop.
Hypothesis ok_steps : ∀ l, ok' l → Forall ok (steps l).
Hypothesis ok_fill : ∀ l σ, ok l → Forall ok' (fill l σ).

Lemma filled_ok ls σ : Forall ok ls → Forall ok' (filled ls σ).
Proof.
  intros Hv. revert σ. induction Hv as [|l ls Hl _ IH]; intros σ; simpl; [done|].
  apply Forall_app_2; [by apply ok_fill|]. by destruct (exec l σ); simpl.
Qed.

Lemma steps_ok ls : Forall ok' ls → Forall ok (ls ≫= steps).
Proof.
  intros Hv. apply Forall_bind. eapply Forall_impl; [exact Hv|]. apply ok_steps.
Qed.

(** An invariant of the coarse system holds of the coarse part of the
    states the detailed system reaches. *)
Lemma layer_invariant (P : C → Prop) ls c c' :
  (∀ l σ σ', P σ → ok l → exec l σ = Some σ' → P σ') →
  Forall ok' ls → P (base c) → runs exec' ls c = Some c' → P (base c').
Proof.
  intros Hstep Hv HP Hrun%runs_forget.
  by apply (runs_invariant exec P ok (ls ≫= steps) (base c)); [|apply steps_ok|..].
Qed.

Lemma layer_reach c0 σ :
  ready c0 →
  (∃ ls' c, Forall ok' ls' ∧ runs exec' ls' c0 = Some c ∧ base c = σ) ↔
  (∃ ls, Forall ok ls ∧ runs exec ls (base c0) = Some σ).
Proof.
  intros Hr. split.
  - intros (ls' & c & Hv & Hrun & <-). exists (ls' ≫= steps).
    split; [by apply steps_ok|by apply runs_forget].
  - intros (ls & Hv & Hrun). exists (filled ls (base c0)).
    destruct (runs_filled ls c0 σ Hr Hrun) as (c & Hc & <- & _).
    exists c. split_and!; [by apply filled_ok|done..].
Qed.

End layer.
