(* ===== verification/Iface.v ===== *)
(** * The abstract classes and their clients

    [ILoadBalancer] is declared twice in the repository: with one pure
    virtual in [roundrobinalgo.cpp] ([Module Select]) and with three in
    [leastconnecitonalgo.cpp] ([Module Track]).  A class that derives from
    one of them is an [Instance].

    [LoadBalancerOk] is what an implementation promises its callers, and
    [drive] is the caller: the loop that asks for the next server [n]
    times.  Every theorem on [drive] is proved from the contract, never
    from an implementation. *)

From Stdlib Require Import ZArith Lia.
From stdpp Require Import base tactics option list strings.
From S2P Require Import Prelude.

Module Select.

(** [class ILoadBalancer] of [roundrobinalgo.cpp].  The state changes with
    the call, and [None] is undefined behaviour. *)
Class ILoadBalancer (St : Type) : Type := {
  GetNextServer : St → option (string * St);
}.

End Select.

Module Track.

(** [class ILoadBalancer] of [leastconnecitonalgo.cpp].  A [void] member
    function returns the object after the call; [None] is a call that does
    not return. *)
Class ILoadBalancer (St : Type) : Type := {
  GetNextServer : St → option (string * St);
  OnRequestStarted : string → St → option St;
  OnRequestFinished : string → St → option St;
}.

(** Forgetting the accounting gives back the selector. *)
#[global] Instance selector `{ILoadBalancer St} : Select.ILoadBalancer St :=
  {| Select.GetNextServer := GetNextServer |}.

End Track.

Export Select.

(** The contract of [GetNextServer]: on a state that satisfies the class
    invariant the call is defined, returns a member of the pool and leaves
    an object that satisfies the invariant over the same pool. *)
Class LoadBalancerOk (St : Type) `{ILoadBalancer St} : Type := {
  lb_inv : St → Prop;
  lb_pool : St → list string;
  lb_total s : lb_inv s → is_Some (GetNextServer s);
  lb_step s x s' :
    lb_inv s → GetNextServer s = Some (x, s') →
    lb_inv s' ∧ lb_pool s' = lb_pool s ∧ x ∈ lb_pool s;
}.

Section client.
Context `{ILoadBalancer St}.
Implicit Types (s : St) (n i : nat) (xs : list string).

(** [for (i = 0; i < n; i++) out << lb.GetNextServer();] with the servers
    in the order they were returned. *)
Fixpoint drive n s : option (list string * St) :=
  match n with
  | O => Some ([], s)
  | S n =>
      '(x, s1) ← GetNextServer s;
      '(xs, s2) ← drive n s1;
      Some (x :: xs, s2)
  end.

(** The server returned by call number [i], counting from zero. *)
Definition nth_call i s : option string :=
  '(xs, _) ← drive (S i) s; last xs.

(** Two objects a caller cannot tell apart. *)
Definition obs_equiv s1 s2 : Prop :=
  ∀ n, fst <$> drive n s1 = fst <$> drive n s2.

#[export] Instance obs_equiv_equivalence : Equivalence obs_equiv.
Proof.
  split; [by intros ?? | by intros ??? n | intros ??? H1 H2 n].
  by rewrite H1, H2.
Qed.

Lemma drive_S n s :
  drive (S n) s =
  '(x, s1) ← GetNextServer s; '(xs, s2) ← drive n s1; Some (x :: xs, s2).
Proof. done. Qed.

Lemma drive_cons n s x s1 xs s2 :
  GetNextServer s = Some (x, s1) → drive n s1 = Some (xs, s2) →
  drive (S n) s = Some (x :: xs, s2).
Proof. intros H1 H2. by rewrite drive_S, H1; simpl; rewrite H2. Qed.

Lemma drive_S_inv n s ys s2 :
  drive (S n) s = Some (ys, s2) →
  ∃ x s1 xs, GetNextServer s = Some (x, s1) ∧ drive n s1 = Some (xs, s2) ∧
             ys = x :: xs.
Proof.
  rewrite drive_S. destruct (GetNextServer s) as [[x s1]|]; [simpl|done].
  destruct (drive n s1) as [[xs s2']|] eqn:Hd; [simpl|done].
  intros ?; simplify_eq. by exists x, s1, xs.
Qed.

Lemma drive_length n s xs s' : drive n s = Some (xs, s') → length xs = n.
Proof.
  revert s xs s'. induction n as [|n IH]; intros s xs s'.
  - by intros [= <- _].
  - intros (x & s1 & ys & _ & Hd & ->)%drive_S_inv. simpl. f_equal. eauto.
Qed.

(** Two loops in a row are one loop. *)
Lemma drive_add n m s xs s1 ys s2 :
  drive n s = Some (xs, s1) → drive m s1 = Some (ys, s2) →
  drive (n + m) s = Some (xs ++ ys, s2).
Proof.
  revert s xs. induction n as [|n IH]; intros s xs.
  - by intros [= <- <-].
  - intros (x & s' & zs & Hx & Hd & ->)%drive_S_inv Hm.
    simpl plus. eapply drive_cons; eauto.
Qed.

(** A loop that is defined is defined up to any earlier iteration. *)
Lemma drive_split n m s zs s2 :
  drive (n + m) s = Some (zs, s2) →
  ∃ s1, drive n s = Some (take n zs, s1) ∧ drive m s1 = Some (drop n zs, s2).
Proof.
  revert s zs. induction n as [|n IH]; intros s zs; [by eexists|].
  simpl plus. intros (x & s' & xs & Hx & Hd & ->)%drive_S_inv.
  destruct (IH _ _ Hd) as (s1 & Hn & Hm). exists s1. split; [|done].
  simpl. eapply drive_cons; eauto.
Qed.

Lemma nth_call_lt n i s xs s1 :
  drive n s = Some (xs, s1) → (i < n)%nat → nth_call i s = xs !! i.
Proof.
  intros Hd Hi. replace n with (S i + (n - S i))%nat in Hd by lia.
  apply drive_split in Hd as (s' & Hd & _). unfold nth_call. rewrite Hd. simpl.
  pose proof (drive_length _ _ _ _ Hd) as Hlen.
  rewrite last_lookup, Hlen. simpl. rewrite lookup_take_lt by lia. done.
Qed.

Lemma nth_call_add n i s xs s1 :
  drive n s = Some (xs, s1) → nth_call (n + i) s = nth_call i s1.
Proof.
  intros Hd. unfold nth_call.
  destruct (drive (S i) s1) as [[ys s2]|] eqn:Hi.
  - replace (S (n + i)) with (n + S i)%nat by lia.
    rewrite (drive_add _ _ _ _ _ _ _ Hd Hi). simpl.
    pose proof (drive_length _ _ _ _ Hi). destruct ys; [done|].
    by rewrite last_app_cons.
  - destruct (drive (S (n + i)) s) as [[zs s2]|] eqn:Hz; [|done].
    replace (S (n + i)) with (n + S i)%nat in Hz by lia.
    apply drive_split in Hz as (s1' & Hd' & Hm). congruence.
Qed.

(** The periodicity principle: a loop of [p] calls that brings the object
    back to where it started fixes every later answer. *)
Lemma drive_periodic p s out :
  drive p s = Some (out, s) → ∀ q r, (r < p)%nat →
  nth_call (q * p + r) s = out !! r.
Proof.
  intros Hp q r Hr. induction q as [|q IH]; simpl.
  - by eapply nth_call_lt.
  - rewrite <-Nat.add_assoc. by rewrite (nth_call_add _ _ _ _ _ Hp).
Qed.

Lemma drive_periodic_mod p s out i :
  drive p s = Some (out, s) → (0 < p)%nat →
  nth_call i s = out !! (i mod p)%nat.
Proof.
  intros Hp Hpos. rewrite (Nat.div_mod_eq i p) at 1.
  rewrite (Nat.mul_comm p). apply drive_periodic; [done|].
  apply Nat.mod_upper_bound. lia.
Qed.

(** [p] calls repeated [c] times. *)
Lemma drive_mul p s out c :
  drive p s = Some (out, s) →
  drive (c * p) s = Some (concat (replicate c out), s).
Proof.
  intros Hp. induction c as [|c IH]; [done|]. simpl.
  by apply drive_add with s.
Qed.

Section contract.
Context `{!LoadBalancerOk St}.

(** Under the class invariant the loop is defined for every [n], every
    server it returns is in the pool, and the invariant holds afterwards. *)
Lemma drive_ok n s :
  lb_inv s →
  ∃ xs s', drive n s = Some (xs, s') ∧ lb_inv s' ∧
           lb_pool s' = lb_pool s ∧ Forall (.∈ lb_pool s) xs.
Proof.
  revert s. induction n as [|n IH]; intros s Hs.
  - exists [], s. by repeat split.
  - destruct (lb_total s Hs) as [[x s1] Hx].
    destruct (lb_step _ _ _ Hs Hx) as (Hs1 & Hp1 & Hin).
    destruct (IH s1 Hs1) as (xs & s2 & Hd & Hs2 & Hp2 & Hall).
    exists (x :: xs), s2. split; [by eapply drive_cons|].
    rewrite Hp1 in *. by repeat split; [..|constructor].
Qed.

Lemma drive_total n s : lb_inv s → is_Some (drive n s).
Proof. intros (xs & s' & -> & _)%(drive_ok n). by eexists. Qed.

Lemma nth_call_total i s : lb_inv s → ∃ x, nth_call i s = Some x ∧ x ∈ lb_pool s.
Proof.
  intros (xs & s' & Hd & _ & _ & Hall)%(drive_ok (S i)).
  unfold nth_call. rewrite Hd. simpl.
  pose proof (drive_length _ _ _ _ Hd) as Hlen.
  destruct (last xs) as [x|] eqn:Hlast.
  - exists x. split; [done|]. rewrite Forall_forall in Hall.
    apply Hall. rewrite last_lookup in Hlast. by eapply list_elem_of_lookup_2.
  - apply last_None in Hlast. by subst.
Qed.

(** Two objects that give the same answer to every call are
    indistinguishable by the loop. *)
Lemma obs_equiv_nth_call s1 s2 :
  lb_inv s1 → lb_inv s2 → (∀ i, nth_call i s1 = nth_call i s2) →
  obs_equiv s1 s2.
Proof.
  intros Hs1 Hs2 Heq n.
  destruct (drive_ok n s1 Hs1) as (xs & s1' & Hd1 & _).
  destruct (drive_ok n s2 Hs2) as (ys & s2' & Hd2 & _).
  rewrite Hd1, Hd2. simpl. f_equal. apply list_eq. intros i.
  pose proof (drive_length _ _ _ _ Hd1). pose proof (drive_length _ _ _ _ Hd2).
  destruct (decide (i < n)%nat).
  - by rewrite <-(nth_call_lt _ _ _ _ _ Hd1), <-(nth_call_lt _ _ _ _ _ Hd2).
  - by rewrite !lookup_ge_None_2 by lia.
Qed.

End contract.
End client.

(** Objects a caller cannot tell apart give the same answer to every
    call, so [obs_equiv] can be rewritten under [nth_call]. *)
#[export] Instance nth_call_proper `{ILoadBalancer St} i : Proper (obs_equiv ==> (=)) (nth_call i).
Proof.
  intros s1 s2 Heq. unfold nth_call. specialize (Heq (S i)).
  destruct (drive (S i) s1) as [[xs ?]|], (drive (S i) s2) as [[ys ?]|];
    by simplify_eq/=.
Qed.

(** A caller's answers from equivalent objects agree call by call. *)
Lemma obs_equiv_answers `{ILoadBalancer St} (s1 s2 : St) i :
  obs_equiv s1 s2 → nth_call i s1 = nth_call i s2.
Proof. by intros ->. Qed.

#[export] Hint Resolve drive_total : lb.
