(* ===== verification/RoundRobinLB.v ===== *)
(** * [class RoundRobin] of [roundrobinalgo.cpp]

    The object is the vector of servers and a cursor.  [GetNextServer]
    reads the server under the cursor and advances the cursor modulo the
    size of the vector.  The theorems: the constructor rejects the empty
    vector and nothing else; the cursor never leaves the vector, so
    [operator[]] and [%] are always defined; [n] calls from any cursor
    return the pool rotated to that cursor and restore the object; call
    number [i] of a fresh object returns [_servers[i mod n]]. *)

From Stdlib Require Import ZArith Lia.
From stdpp Require Import base tactics option list strings.
From S2P Require Import Prelude Iface.

#[local] Open Scope Z_scope.

Module RoundRobin.

(** The data members. *)
Record t : Type := mk {
  _servers : list string;
  _curr_index : Z;
}.

(** [explicit RoundRobin(const std::vector<std::string>& servers)]. *)
Definition make (servers : list string) : result t :=
  if vec_empty servers then Throw (runtime_error "empty server list")
  else Ok {| _servers := servers; _curr_index := 0 |}.

(** [std::string GetNextServer() override]. *)
Definition GetNextServer (lb : t) : option (string * t) :=
  server ← vec_index (_servers lb) (_curr_index lb);
  idx ← size_rem (size_add (_curr_index lb) 1) (vec_size (_servers lb));
  Some (server, {| _servers := _servers lb; _curr_index := idx |}).

#[export] Instance balancer : ILoadBalancer t :=
  {| Iface.Select.GetNextServer := GetNextServer |}.

(** The class invariant: the cursor is an index of the vector. *)
Definition wf (lb : t) : Prop :=
  vec_fits (_servers lb) ∧ 0 ≤ _curr_index lb < vec_size (_servers lb).

#[export] Instance wf_dec lb : Decision (wf lb).
Proof. unfold wf, vec_fits. apply _. Defined.

(** The object whose cursor is at [i]. *)
Definition at_index (servers : list string) (i : nat) : t :=
  {| _servers := servers; _curr_index := Z.of_nat i |}.

(** ** The constructor *)

Lemma rr_make_empty : make [] = Throw (runtime_error "empty server list").
Proof. done. Qed.

Lemma make_nonempty servers :
  servers ≠ [] → make servers = Ok (at_index servers 0).
Proof. by destruct servers. Qed.

Lemma rr_make_Ok_inv servers lb :
  make servers = Ok lb → servers ≠ [] ∧ lb = at_index servers 0.
Proof. destruct servers; [done|]. by intros [= <-]. Qed.

Lemma rr_make_wf servers lb : vec_fits servers → make servers = Ok lb → wf lb.
Proof.
  intros Hfit [Hne ->]%rr_make_Ok_inv. split; [done|]. simpl.
  destruct servers; [done|]. rewrite vec_size_cons.
  pose proof (vec_size_nonneg servers). lia.
Qed.

(** ** One call *)

Lemma wf_at_index servers i :
  vec_fits servers → (i < length servers)%nat → wf (at_index servers i).
Proof. intros. split; [done|]. unfold vec_size. simpl. lia. Qed.

Lemma rr_GetNextServer_spec lb :
  wf lb →
  ∃ server, vec_index (_servers lb) (_curr_index lb) = Some server ∧
    GetNextServer lb = Some (server,
      {| _servers := _servers lb;
         _curr_index := next_index (vec_size (_servers lb)) (_curr_index lb) |}).
Proof.
  intros [Hfit Hidx].
  destruct (proj2 (vec_index_is_Some (_servers lb) _) Hidx) as [server Hs].
  exists server. split; [done|]. unfold GetNextServer.
  rewrite Hs, size_advance by done. done.
Qed.

Lemma GetNextServer_wf lb server lb' :
  wf lb → GetNextServer lb = Some (server, lb') → wf lb'.
Proof.
  intros Hwf Hcall. destruct (rr_GetNextServer_spec lb Hwf) as (? & _ & Heq).
  rewrite Heq in Hcall. simplify_eq. destruct Hwf as [Hfit Hidx].
  split; [done|]. simpl. apply next_index_range. lia.
Qed.

Lemma GetNextServer_at servers i server :
  vec_fits servers → servers !! i = Some server →
  GetNextServer (at_index servers i) =
  Some (server, at_index servers (S i mod length servers)).
Proof.
  intros Hfit Hi. pose proof (lookup_lt_Some _ _ _ Hi) as Hlt.
  destruct (rr_GetNextServer_spec (at_index servers i)) as (x & Hx & ->);
    [by apply wf_at_index|].
  simpl in *. rewrite vec_index_nat in Hx. simplify_eq.
  unfold at_index, next_index, vec_size. do 3 f_equal.
  rewrite Nat2Z.inj_mod. f_equal. lia.
Qed.

(** ** Runs of calls *)

(** [k] calls that do not pass the end of the vector return the [k]
    servers from the cursor on. *)
Lemma drive_run servers (k i : nat) :
  vec_fits servers → (i < length servers)%nat → (i + k ≤ length servers)%nat →
  drive k (at_index servers i) =
  Some (take k (drop i servers), at_index servers ((i + k) mod length servers)).
Proof.
  intros Hfit. revert i. induction k as [|k IH]; intros i Hi Hk.
  - by rewrite Nat.add_0_r, Nat.mod_small.
  - destruct (lookup_lt_is_Some_2 servers i Hi) as [x Hx].
    rewrite (drop_S _ _ _ Hx). simpl take.
    eapply drive_cons; [by apply GetNextServer_at|].
    destruct (decide (S i < length servers)%nat) as [Hlt|Hge].
    + rewrite Nat.mod_small by done. rewrite IH by lia.
      by rewrite Nat.add_succ_comm.
    + assert (k = 0%nat) as -> by lia. assert (S i = length servers) as -> by lia.
      rewrite Nat.Div0.mod_same. simpl. do 3 f_equal.
      replace (i + 1)%nat with (length servers) by lia.
      by rewrite Nat.Div0.mod_same.
Qed.

(** A window of [n] calls from any cursor returns the pool rotated to that
    cursor, each server once, and restores the object. *)
Lemma drive_window servers (i : nat) :
  vec_fits servers → (i < length servers)%nat →
  drive (length servers) (at_index servers i) =
  Some (rotate i servers, at_index servers i).
Proof.
  intros Hfit Hi.
  replace (length servers) with ((length servers - i) + i)%nat at 1 by lia.
  unfold rotate. rewrite Nat.mod_small by done.
  eapply drive_add.
  - rewrite drive_run by (done || lia).
    rewrite take_ge by (rewrite length_drop; lia).
    replace (i + _)%nat with (length servers) by lia.
    by rewrite Nat.Div0.mod_same.
  - rewrite drive_run by (done || lia). simpl. by rewrite Nat.mod_small.
Qed.

(** ** The class meets the contract of [Iface] *)

#[export] Instance balancer_ok : LoadBalancerOk t.
Proof.
  refine {| lb_inv := wf; lb_pool := _servers |}.
  - intros lb (server & _ & Heq)%rr_GetNextServer_spec.
    by eexists; apply Heq.
  - intros lb x lb' Hwf Hcall. split; [by eapply GetNextServer_wf|].
    destruct (rr_GetNextServer_spec lb Hwf) as (server & Hs & Heq).
    change (GetNextServer lb = Some (x, lb')) in Hcall.
    rewrite Heq in Hcall. simplify_eq. split; [done|].
    by eapply vec_index_elem_of.
Defined.

(** ** Theorems of the component *)

(** The constructor throws [runtime_error] exactly on the empty vector;
    on any other it builds the object with the cursor at zero, which
    satisfies the class invariant when the vector fits the address
    space. *)
Theorem rr_make_throws_iff_empty servers :
  (make servers = Throw (runtime_error "empty server list") ↔ servers = []) ∧
  (servers ≠ [] →
   make servers = Ok {| _servers := servers; _curr_index := 0 |} ∧
   (vec_fits servers → wf {| _servers := servers; _curr_index := 0 |})).
Proof.
  split; [by destruct servers|]. intros Hne. split; [by apply make_nonempty|].
  intros Hfit. apply (wf_at_index servers 0 Hfit). destruct servers; simpl; [done|lia].
Qed.

(** A call on an object that satisfies the invariant is defined, returns
    the server under the cursor, moves the cursor to its successor modulo
    the size of the pool and leaves the pool unchanged. *)
Theorem GetNextServer_functional lb :
  wf lb →
  ∃ server lb',
    GetNextServer lb = Some (server, lb') ∧
    _servers lb !! Z.to_nat (_curr_index lb) = Some server ∧
    _servers lb' = _servers lb ∧
    _curr_index lb' = (_curr_index lb + 1) mod vec_size (_servers lb) ∧
    wf lb'.
Proof.
  intros Hwf. destruct (rr_GetNextServer_spec lb Hwf) as (server & Hs & Heq).
  eexists _, _. split; [exact Heq|].
  apply vec_index_Some in Hs as [_ Hs].
  repeat split; try done; by eapply (GetNextServer_wf lb); [|exact Heq].
Qed.

(** C6: call number [i] (from zero) on a freshly constructed balancer
    returns [servers[i mod n]]. *)
Theorem GetNextServer_cycle servers lb (i : nat) :
  vec_fits servers → make servers = Ok lb →
  nth_call i lb = servers !! (i mod length servers)%nat.
Proof.
  intros Hfit [Hne ->]%rr_make_Ok_inv.
  assert (0 < length servers)%nat as Hpos by (destruct servers; simpl; [done|lia]).
  rewrite (drive_periodic_mod (length servers) _ servers); [done| |done].
  by rewrite drive_window, rotate_0.
Qed.

(** C32: any [n] consecutive calls, from whatever cursor, return every server
    of the pool exactly once (a rotation of the pool), and the object is
    then back in the state it had before. *)
Theorem GetNextServer_window lb :
  wf lb →
  drive (length (_servers lb)) lb =
  Some (rotate (Z.to_nat (_curr_index lb)) (_servers lb), lb).
Proof.
  intros [Hfit Hidx]. destruct lb as [servers idx]. simpl in *.
  unfold vec_size in Hidx.
  replace (mk servers idx) with (at_index servers (Z.to_nat idx))
    by (unfold at_index; f_equal; lia).
  apply drive_window; [done|lia].
Qed.

(** ** Witnesses *)

Definition pool3 : list string := ["A"; "B"; "C"]%string.

Lemma vec_fits_pool3 : vec_fits pool3.
Proof. by vm_compute. Qed.

Lemma wf_pool3_1 : wf (at_index pool3 1).
Proof. by apply wf_at_index; [apply vec_fits_pool3|simpl; lia]. Qed.

Lemma GetNextServer_functional_witness :
  ∃ server lb',
    GetNextServer (at_index pool3 1) = Some (server, lb') ∧
    _servers (at_index pool3 1) !! Z.to_nat (_curr_index (at_index pool3 1))
      = Some server ∧
    _servers lb' = _servers (at_index pool3 1) ∧
    _curr_index lb' =
      (_curr_index (at_index pool3 1) + 1) mod vec_size (_servers (at_index pool3 1)) ∧
    wf lb'.
Proof. exact (GetNextServer_functional (at_index pool3 1) wf_pool3_1). Defined.

Lemma GetNextServer_cycle_witness :
  nth_call 4 (at_index pool3 0) = pool3 !! (4 mod length pool3)%nat.
Proof. exact (GetNextServer_cycle pool3 _ 4 vec_fits_pool3 eq_refl). Defined.

Lemma GetNextServer_window_witness :
  drive (length (_servers (at_index pool3 1))) (at_index pool3 1) =
  Some (rotate (Z.to_nat (_curr_index (at_index pool3 1)))
          (_servers (at_index pool3 1)), at_index pool3 1).
Proof. exact (GetNextServer_window (at_index pool3 1) wf_pool3_1). Defined.

(** The example of the specification: pool [A, B, C], five calls. *)
Example five_calls :
  fst <$> drive 5 (at_index pool3 0) = Some ["A"; "B"; "C"; "A"; "B"]%string.
Proof. by vm_compute. Qed.

End RoundRobin.
