(* ===== verification/WeightedLB.v ===== *)
(** * [class WeightRoundRobin] and [main] of [roundrobinalgo.cpp]

    The object is the vector of (server, weight) pairs, the index of the
    current server and a private copy of the current pair whose second
    component is the budget left.  [GetNextServer] moves to the next pair
    when the budget is used up, then takes one unit of budget and returns
    the current server.

    The reference is [schedule]: every server repeated as often as its
    weight says, in pool order.  For positive weights the balancer returns
    [schedule] over and over ([GetNextServer_schedule]).  A weight of zero
    is not skipped: the decrement of a budget that was loaded as zero wraps
    to [SIZE_MAX] ([GetNextServer_zero_weight]). *)

From Stdlib Require Import ZArith Lia.
From stdpp Require Import base tactics option list strings.
From S2P Require Import Prelude Iface.

#[local] Open Scope Z_scope.

Module WeightRoundRobin.

(** [using weight_server_type = std::pair<std::string, size_t>]. *)
Abbreviation weight_server_type := (string * Z)%type.

(** The data members. *)
Record t : Type := mk {
  _servers : list weight_server_type;
  _curr_server_index : Z;
  _curr_server : weight_server_type;
}.

(** [explicit WeightRoundRobin(const std::vector<weight_server_type>&)]. *)
Definition make (servers : list weight_server_type) : result t :=
  if vec_empty servers then Throw (runtime_error "server list is empty")
  else
    curr ← vec_at servers 0;
    Ok {| _servers := servers; _curr_server_index := 0; _curr_server := curr |}.

(** The body of the [if] of [GetNextServer]: step the index and reload the
    private copy of the pair. *)
Definition advance (lb : t) : option t :=
  idx ← size_rem (size_add (_curr_server_index lb) 1) (vec_size (_servers lb));
  curr ← vec_index (_servers lb) idx;
  Some {| _servers := _servers lb; _curr_server_index := idx;
          _curr_server := curr |}.

(** [std::string GetNextServer() override]. *)
Definition GetNextServer (lb : t) : option (string * t) :=
  lb1 ← (if decide ((_curr_server lb).2 ≤ 0) then advance lb else Some lb);
  let curr := ((_curr_server lb1).1, size_sub (_curr_server lb1).2 1) in
  Some (curr.1, {| _servers := _servers lb1;
                   _curr_server_index := _curr_server_index lb1;
                   _curr_server := curr |}).

#[export] Instance balancer : ILoadBalancer t :=
  {| Iface.Select.GetNextServer := GetNextServer |}.

(** [server_list2] of [main]. *)
Definition server_list2 : list weight_server_type :=
  [("server1"%string, 5); ("server2"%string, 1); ("server3"%string, 1)].

(** [main]: the lines it prints, in order.  The constructor may throw and
    the loop may be undefined, hence the two layers. *)
Definition main : result (option (list string)) :=
  load_balancer2 ← make server_list2;
  Ok (fst <$> drive 16 load_balancer2).

(** ** Reference definitions *)

(** One cycle as the specification describes it. *)
Definition schedule (servers : list weight_server_type) : list string :=
  servers ≫= λ sw, replicate (Z.to_nat sw.2) sw.1.

(** The number of calls in a cycle. *)
Definition total_weight (servers : list weight_server_type) : nat :=
  length (schedule servers).

Definition positive_weights (servers : list weight_server_type) : Prop :=
  Forall (λ sw, 0 < sw.2) servers.

(** The vector as the constructor may receive it: its size and its weights
    are [size_t] values. *)
Definition wf_servers (servers : list weight_server_type) : Prop :=
  vec_fits servers ∧ Forall (λ sw, is_size_t sw.2) servers.

(** The class invariant: the index is in the vector, the budget is a
    [size_t] and the private copy names the server under the index. *)
Definition wf (lb : t) : Prop :=
  wf_servers (_servers lb) ∧
  is_size_t (_curr_server lb).2 ∧
  ∃ w, vec_index (_servers lb) (_curr_server_index lb) = Some ((_curr_server lb).1, w).

(** The budget never exceeds the weight configured for the current
    server.  This is an invariant only for positive weights. *)
Definition within_budget (lb : t) : Prop :=
  ∃ w, vec_index (_servers lb) (_curr_server_index lb) = Some ((_curr_server lb).1, w) ∧
       (_curr_server lb).2 ≤ w.

(** The object with index [i], current server [s] and budget [r]. *)
Definition state (servers : list weight_server_type) (i : nat) (s : string) (r : Z) : t :=
  {| _servers := servers; _curr_server_index := Z.of_nat i; _curr_server := (s, r) |}.

#[export] Instance positive_weights_dec servers : Decision (positive_weights servers).
Proof. unfold positive_weights. apply _. Defined.

#[export] Instance wf_servers_dec servers : Decision (wf_servers servers).
Proof. unfold wf_servers, vec_fits. apply _. Defined.

(** ** The constructor *)

Lemma wrr_make_empty : make [] = Throw (runtime_error "server list is empty").
Proof. done. Qed.

Lemma make_cons s w servers :
  make ((s, w) :: servers) = Ok (state ((s, w) :: servers) 0 s w).
Proof. done. Qed.

Lemma wrr_make_Ok_inv servers lb :
  make servers = Ok lb →
  ∃ s w rest, servers = (s, w) :: rest ∧ lb = state servers 0 s w.
Proof. destruct servers as [|[s w] rest]; [done|]. intros [= <-]. by eexists _, _, _. Qed.

Lemma wf_state servers i s r w :
  wf_servers servers → is_size_t r → servers !! i = Some (s, w) →
  wf (state servers i s r).
Proof.
  intros ? ? Hi. split_and!; [done..|]. exists w. simpl. by rewrite vec_index_nat.
Qed.

Lemma wrr_make_wf servers lb : wf_servers servers → make servers = Ok lb → wf lb.
Proof.
  intros Hwf (s & w & rest & -> & ->)%wrr_make_Ok_inv.
  eapply wf_state; [done| |done].
  destruct Hwf as [_ Hw]. by inversion Hw.
Qed.

(** ** One call *)

(** While there is budget, the call takes one unit of it. *)
Lemma GetNextServer_budget servers i s r :
  0 < r ≤ SIZE_MAX →
  GetNextServer (state servers i s r) = Some (s, state servers i s (r - 1)).
Proof.
  intros Hr. unfold GetNextServer. simpl. case_decide; [lia|]. simpl.
  by rewrite size_sub_small by lia.
Qed.

Lemma advance_state servers i s r s' w' :
  vec_fits servers → (i < length servers)%nat →
  servers !! (S i mod length servers)%nat = Some (s', w') →
  advance (state servers i s r) = Some (state servers (S i mod length servers) s' w').
Proof.
  intros Hfit Hi Hnext. unfold advance. simpl.
  rewrite size_advance by size_lia. simpl.
  replace (next_index _ _) with (Z.of_nat (S i mod length servers)).
  - by rewrite vec_index_nat, Hnext.
  - unfold next_index, vec_size. rewrite Nat2Z.inj_mod. f_equal. lia.
Qed.

(** Without budget, the call moves to the next pair and takes one unit of
    the budget loaded from it, whatever that budget is. *)
Lemma GetNextServer_advance servers i s r s' w' :
  r ≤ 0 → vec_fits servers → (i < length servers)%nat →
  servers !! (S i mod length servers)%nat = Some (s', w') →
  GetNextServer (state servers i s r) =
  Some (s', state servers (S i mod length servers) s' (size_sub w' 1)).
Proof.
  intros Hr Hfit Hi Hnext. unfold GetNextServer. simpl. case_decide; [|lia].
  by erewrite advance_state.
Qed.

Lemma wf_inv lb :
  wf lb → ∃ servers i s r w,
    lb = state servers i s r ∧ wf_servers servers ∧ is_size_t r ∧
    servers !! i = Some (s, w).
Proof.
  destruct lb as [servers idx [s r]]. intros (Hs & Hr & w & Hw). simpl in *.
  apply vec_index_Some in Hw as [Hidx Hw].
  exists servers, (Z.to_nat idx), s, r, w. split_and!; try done.
  unfold state. f_equal. lia.
Qed.

Lemma next_lookup (servers : list weight_server_type) i :
  (i < length servers)%nat → is_Some (servers !! (S i mod length servers)%nat).
Proof. intros. apply lookup_lt_is_Some_2, Nat.mod_upper_bound. lia. Qed.

Lemma wf_servers_lookup servers i s w :
  wf_servers servers → servers !! i = Some (s, w) → is_size_t w.
Proof.
  intros [_ Hw] Hi. rewrite Forall_forall in Hw.
  by apply (Hw (s, w)), list_elem_of_lookup_2 with i.
Qed.

(** The call as a whole, on an object that satisfies the invariant. *)
Lemma wrr_GetNextServer_spec lb :
  wf lb → ∃ s lb', GetNextServer lb = Some (s, lb') ∧ wf lb' ∧
                   _servers lb' = _servers lb ∧ s ∈ (_servers lb).*1.
Proof.
  intros (servers & i & s & r & w & -> & Hs & Hr & Hi)%wf_inv.
  pose proof (lookup_lt_Some _ _ _ Hi) as Hlt.
  destruct (decide (r ≤ 0)) as [Hle|Hgt].
  - destruct (next_lookup servers i Hlt) as [[s' w'] Hnext].
    exists s', (state servers (S i mod length servers) s' (size_sub w' 1)).
    split_and!; [apply GetNextServer_advance; by try apply Hs| |done|].
    + eapply wf_state; [done|apply size_sub_range|done].
    + apply list_elem_of_fmap. exists (s', w'). split; [done|].
      by eapply list_elem_of_lookup_2.
  - exists s, (state servers i s (r - 1)).
    split_and!; [apply GetNextServer_budget; size_lia| |done|].
    + eapply wf_state; [done|size_lia|done].
    + apply list_elem_of_fmap. exists (s, w). split; [done|].
      by eapply list_elem_of_lookup_2.
Qed.

#[export] Instance balancer_ok : LoadBalancerOk t.
Proof.
  refine {| lb_inv := wf; lb_pool := λ lb, (_servers lb).*1 |}.
  - intros lb (s & lb' & Heq & _)%wrr_GetNextServer_spec. by eexists; apply Heq.
  - intros lb x lb' Hwf Hcall.
    destruct (wrr_GetNextServer_spec lb Hwf) as (s & lb1 & Heq & Hwf1 & Hsrv & Hin).
    change (GetNextServer lb = Some (x, lb')) in Hcall.
    rewrite Heq in Hcall. simplify_eq. by rewrite Hsrv.
Defined.

(** ** Runs of calls *)

(** [k] calls within the budget return the current server [k] times. *)
Lemma drive_block servers i s r (k : nat) :
  Z.of_nat k ≤ r ≤ SIZE_MAX →
  drive k (state servers i s r) =
  Some (replicate k s, state servers i s (r - Z.of_nat k)).
Proof.
  revert r. induction k as [|k IH]; intros r Hr.
  - simpl. by rewrite Z.sub_0_r.
  - eapply drive_cons; [apply GetNextServer_budget; lia|].
    rewrite IH by lia. do 3 f_equal. lia.
Qed.

(** From a used-up budget, the next pair is served for as many calls as
    its weight says, provided the weight is positive. *)
Lemma drive_segment servers i s s' w' :
  wf_servers servers → (i < length servers)%nat →
  servers !! (S i mod length servers)%nat = Some (s', w') → 0 < w' →
  drive (Z.to_nat w') (state servers i s 0) =
  Some (replicate (Z.to_nat w') s', state servers (S i mod length servers) s' 0).
Proof.
  intros Hwf Hi Hnext Hpos.
  pose proof (wf_servers_lookup _ _ _ _ Hwf Hnext) as Hw'.
  replace (Z.to_nat w') with (S (Z.to_nat (w' - 1))) by lia.
  eapply drive_cons; [apply GetNextServer_advance; by try apply Hwf|].
  rewrite size_sub_small by size_lia.
  rewrite drive_block by size_lia. do 3 f_equal. lia.
Qed.

(** The index that precedes [j] in the cycle. *)
Definition before (n j : nat) : nat := ((j + n - 1) mod n)%nat.

Arguments before : simpl never.

Lemma before_lt n j : (0 < n)%nat → (before n j < n)%nat.
Proof. intros. apply Nat.mod_upper_bound. lia. Qed.

Lemma S_before n j : (j < n)%nat → (S (before n j) mod n)%nat = j.
Proof.
  intros Hj. unfold before. destruct (decide (j = 0%nat)) as [->|Hne].
  - rewrite Nat.add_0_l, (Nat.mod_small (n - 1)) by lia.
    replace (S (n - 1)) with n by lia. apply Nat.Div0.mod_same.
  - replace (j + n - 1)%nat with ((j - 1) + 1 * n)%nat by lia.
    rewrite Nat.Div0.mod_add, (Nat.mod_small (j - 1)) by lia.
    rewrite Nat.mod_small; lia.
Qed.

Lemma before_S n j : (j < n)%nat → before n (S j) = j.
Proof.
  intros Hj. unfold before. replace (S j + n - 1)%nat with (j + 1 * n)%nat by lia.
  rewrite Nat.Div0.mod_add. by apply Nat.mod_small.
Qed.

Lemma before_n n : (0 < n)%nat → before n n = (n - 1)%nat.
Proof. intros. destruct n; [lia|]. rewrite before_S by lia. lia. Qed.

(** The name of the server at index [i]. *)
Definition name_at (servers : list weight_server_type) (i : nat) : string :=
  from_option fst ""%string (servers !! i).

(** The object when the budget of server [i] has just been used up. *)
Definition boundary (servers : list weight_server_type) (i : nat) : t :=
  state servers i (name_at servers i) 0.

Lemma schedule_cons s w servers :
  schedule ((s, w) :: servers) = replicate (Z.to_nat w) s ++ schedule servers.
Proof. done. Qed.

Lemma total_weight_cons s w servers :
  total_weight ((s, w) :: servers) = (Z.to_nat w + total_weight servers)%nat.
Proof. unfold total_weight. by rewrite schedule_cons, length_app, length_replicate. Qed.

(** From the boundary before [j], serving the pairs from [j] to the end of
    the vector returns their part of the schedule. *)
Lemma drive_suffix servers (j : nat) :
  wf_servers servers → positive_weights servers → servers ≠ [] →
  (j ≤ length servers)%nat →
  drive (total_weight (drop j servers)) (boundary servers (before (length servers) j)) =
  Some (schedule (drop j servers), boundary servers (length servers - 1)).
Proof.
  intros Hwf Hpos Hne Hj.
  assert (0 < length servers)%nat as Hn by (destruct servers; simpl; [done|lia]).
  remember (length servers - j)%nat as d eqn:Hd. revert j Hj Hd.
  induction d as [|d IH]; intros j Hj Hd.
  - assert (j = length servers) as -> by lia.
    by rewrite drop_all, before_n.
  - destruct (lookup_lt_is_Some_2 servers j) as [[s w] Hsw]; [lia|].
    rewrite (drop_S _ _ _ Hsw), schedule_cons, total_weight_cons.
    assert (0 < w) as Hw.
    { unfold positive_weights in Hpos. rewrite Forall_forall in Hpos.
      by apply (Hpos (s, w)), list_elem_of_lookup_2 with j. }
    eapply drive_add.
    + unfold boundary. apply drive_segment; [done|by apply before_lt| |done].
      rewrite S_before by lia. done.
    + rewrite S_before by lia. specialize (IH (S j)).
      rewrite before_S in IH by lia. unfold boundary in IH at 1.
      unfold name_at in IH at 1. rewrite Hsw in IH. apply IH; lia.
Qed.

(** A whole cycle from the last boundary returns the schedule and ends at
    the last boundary again. *)
Lemma drive_cycle servers :
  wf_servers servers → positive_weights servers → servers ≠ [] →
  drive (total_weight servers) (boundary servers (length servers - 1)) =
  Some (schedule servers, boundary servers (length servers - 1)).
Proof.
  intros Hwf Hpos Hne. pose proof (drive_suffix servers 0 Hwf Hpos Hne) as H.
  rewrite drop_0 in H. unfold before in H.
  assert (0 < length servers)%nat as Hn by (destruct servers; simpl; [done|lia]).
  rewrite Nat.add_0_l, Nat.mod_small in H by lia. apply H. lia.
Qed.

(** The first cycle of a fresh object returns the schedule too, and ends
    at the last boundary. *)
Lemma drive_first_cycle servers lb :
  wf_servers servers → positive_weights servers → make servers = Ok lb →
  drive (total_weight servers) lb =
  Some (schedule servers, boundary servers (length servers - 1)).
Proof.
  intros Hwf Hpos (s & w & rest & -> & ->)%wrr_make_Ok_inv.
  rewrite total_weight_cons, schedule_cons.
  assert (is_size_t w) as Hw by (by eapply (wf_servers_lookup _ 0%nat)).
  eapply drive_add; [apply drive_block; size_lia|].
  pose proof (drive_suffix _ 1 Hwf Hpos) as H.
  rewrite (before_S _ 0%nat) in H by (simpl; lia).
  change (drop 1 ((s, w) :: rest)) with (drop 0 rest) in H. rewrite drop_0 in H.
  replace (state _ _ _ _) with (boundary ((s, w) :: rest) 0).
  - apply H; [done|simpl; lia].
  - unfold boundary, name_at, state. simpl. do 2 f_equal. size_lia.
Qed.

(** ** The reference schedule *)

Lemma total_weight_pos servers :
  positive_weights servers → servers ≠ [] → (0 < total_weight servers)%nat.
Proof.
  destruct servers as [|[s w] rest]; [done|]. intros Hpos _.
  rewrite total_weight_cons. inversion_clear Hpos. simpl in *. lia.
Qed.

(** A server that is not in the pool is not in the schedule. *)
Lemma schedule_filter_notin servers s :
  s ∉ servers.*1 → filter (s =.) (schedule servers) = [].
Proof.
  induction servers as [|[s' w'] rest IH]; [done|].
  rewrite fmap_cons, not_elem_of_cons, schedule_cons, filter_app. simpl.
  intros [Hne Hnotin]. rewrite IH by done. rewrite app_nil_r.
  induction (Z.to_nat w') as [|k IHk]; [done|]. simpl.
  by rewrite filter_cons_False.
Qed.

Lemma filter_replicate_eq (s : string) k : filter (s =.) (replicate k s) = replicate k s.
Proof. induction k as [|k IH]; [done|]. simpl. by rewrite filter_cons_True, IH. Qed.

(** In one cycle of the schedule a server of the pool occurs as often as
    its weight says, when servers are named once. *)
Lemma schedule_count servers s w :
  NoDup servers.*1 → (s, w) ∈ servers →
  length (filter (s =.) (schedule servers)) = Z.to_nat w.
Proof.
  induction servers as [|[s' w'] rest IH]; [by intros _ ?%elem_of_nil|].
  rewrite fmap_cons, NoDup_cons, schedule_cons, filter_app, length_app.
  intros [Hnotin Hnodup] [?|Hin]%elem_of_cons; simplify_eq/=.
  - rewrite filter_replicate_eq, length_replicate.
    by rewrite schedule_filter_notin.
  - rewrite IH by done.
    assert (s ≠ s') as Hne.
    { intros ->. apply Hnotin, list_elem_of_fmap. by exists (s', w). }
    clear -Hne. induction (Z.to_nat w') as [|k IHk]; [done|]. simpl.
    by rewrite filter_cons_False.
Qed.

(** ** Theorems of the component *)

Lemma nth_call_boundary servers i :
  wf_servers servers → positive_weights servers → servers ≠ [] →
  nth_call i (boundary servers (length servers - 1)) =
  schedule servers !! (i mod total_weight servers)%nat.
Proof.
  intros Hwf Hpos Hne. apply drive_periodic_mod.
  - by apply drive_cycle.
  - by apply total_weight_pos.
Qed.

(** Call number [i] of a fresh object is element [i mod W] of the
    schedule. *)
Lemma nth_call_fresh servers lb (i : nat) :
  wf_servers servers → positive_weights servers → make servers = Ok lb →
  nth_call i lb = schedule servers !! (i mod total_weight servers)%nat.
Proof.
  intros Hwf Hpos Hmake.
  assert (servers ≠ []) as Hne by (by destruct servers).
  pose proof (total_weight_pos _ Hpos Hne) as HW.
  pose proof (drive_first_cycle _ _ Hwf Hpos Hmake) as Hfirst.
  destruct (decide (i < total_weight servers)%nat) as [Hlt|Hge].
  - rewrite Nat.mod_small by done. by eapply nth_call_lt.
  - replace i with (total_weight servers + (i - total_weight servers))%nat at 1 by lia.
    rewrite (nth_call_add _ _ _ _ _ Hfirst), nth_call_boundary by done.
    f_equal. replace i with ((i - total_weight servers) + 1 * total_weight servers)%nat at 2 by lia.
    by rewrite Nat.Div0.mod_add.
Qed.

(** C1: for positive weights, call number [i] (from zero) of a freshly
    constructed balancer is defined and returns element [i mod W] of the
    reference schedule, where [W] is the sum of the weights: every server
    is served [weight] times in a row, in pool order, cycle after cycle. *)
Theorem GetNextServer_schedule servers lb (i : nat) :
  wf_servers servers → positive_weights servers → make servers = Ok lb →
  ∃ s, nth_call i lb = Some s ∧
       schedule servers !! (i mod total_weight servers)%nat = Some s.
Proof.
  intros Hwf Hpos Hmake.
  assert (servers ≠ []) as Hne by (by destruct servers).
  rewrite (nth_call_fresh servers) by done.
  destruct (lookup_lt_is_Some_2 (schedule servers) (i mod total_weight servers))
    as [s Hs]; [|by exists s].
  pose proof (total_weight_pos _ Hpos Hne). unfold total_weight in *.
  apply Nat.mod_upper_bound. lia.
Qed.

(** For positive weights, [c + 1] whole cycles of a fresh balancer
    return the reference schedule [c + 1] times and leave the object at the
    last boundary. *)
Theorem GetNextServer_cycles servers lb (c : nat) :
  wf_servers servers → positive_weights servers → make servers = Ok lb →
  drive (S c * total_weight servers) lb =
  Some (concat (replicate (S c) (schedule servers)),
        boundary servers (length servers - 1)).
Proof.
  intros Hwf Hpos Hmake.
  assert (servers ≠ []) as Hne by (by destruct servers).
  rewrite Nat.mul_succ_l, Nat.add_comm. simpl.
  eapply drive_add; [by apply drive_first_cycle|].
  by apply drive_mul, drive_cycle.
Qed.

(** C18: for positive weights and a pool that names every server once, in
    cycle number [c] (the calls [c * W] to [c * W + W - 1]) every server of
    the pool is returned exactly as often as its weight says. *)
Theorem GetNextServer_counts servers lb (c : nat) :
  wf_servers servers → positive_weights servers → NoDup servers.*1 →
  make servers = Ok lb →
  ∃ pre lb1 out lb2,
    drive (c * total_weight servers) lb = Some (pre, lb1) ∧
    drive (total_weight servers) lb1 = Some (out, lb2) ∧
    ∀ s w, (s, w) ∈ servers → length (filter (s =.) out) = Z.to_nat w.
Proof.
  intros Hwf Hpos Hnodup Hmake.
  assert (servers ≠ []) as Hne by (by destruct servers).
  destruct c as [|c].
  - exists [], lb, (schedule servers), (boundary servers (length servers - 1)).
    split_and!; [done|by apply drive_first_cycle|].
    intros. by apply schedule_count.
  - eexists _, _, (schedule servers), _.
    split_and!; [|by apply drive_cycle|].
    + rewrite Nat.mul_succ_l, Nat.add_comm.
      eapply drive_add; [by apply drive_first_cycle|by apply drive_mul, drive_cycle].
    + intros. by apply schedule_count.
Qed.

(** C34: for positive weights the budget never exceeds the weight of the
    current server: [within_budget] is preserved by [GetNextServer]. *)
Theorem GetNextServer_within_budget lb s lb' :
  wf lb → positive_weights (_servers lb) → within_budget lb →
  GetNextServer lb = Some (s, lb') → within_budget lb'.
Proof.
  intros (servers & i & s0 & r & w & -> & Hs & Hr & Hi)%wf_inv Hpos (w0 & Hw0 & Hle).
  simpl in *. rewrite vec_index_nat, Hi in Hw0. simplify_eq.
  pose proof (lookup_lt_Some _ _ _ Hi) as Hlt.
  destruct (decide (r ≤ 0)) as [Hr0|Hr0].
  - destruct (next_lookup servers i Hlt) as [[s' w'] Hnext].
    rewrite (GetNextServer_advance _ _ _ _ s' w') by (done || apply Hs).
    intros [= <- <-]. exists w'. simpl. rewrite vec_index_nat. split; [done|].
    assert (0 < w').
    { unfold positive_weights in Hpos. rewrite Forall_forall in Hpos.
      by apply (Hpos (s', w')), list_elem_of_lookup_2 with (S i mod length servers)%nat. }
    pose proof (wf_servers_lookup _ _ _ _ Hs Hnext).
    rewrite size_sub_small by size_lia. lia.
  - rewrite GetNextServer_budget by size_lia. intros [= <- <-].
    exists w0. simpl. rewrite vec_index_nat. split; [done|lia].
Qed.

(** C2: a weight of zero is not skipped.  When the budget is used up and the
    next pair has weight zero, the call returns that server, the decrement
    wraps the budget to [SIZE_MAX], and the next [SIZE_MAX] calls return
    the same server: [2^64] selections in a row of a server that should
    receive none. *)
Theorem GetNextServer_zero_weight servers i s s' (k : nat) :
  vec_fits servers → (i < length servers)%nat →
  servers !! (S i mod length servers)%nat = Some (s', 0) →
  Z.of_nat k ≤ SIZE_MAX →
  GetNextServer (state servers i s 0) =
    Some (s', state servers (S i mod length servers) s' SIZE_MAX) ∧
  drive (S k) (state servers i s 0) =
    Some (replicate (S k) s',
          state servers (S i mod length servers) s' (SIZE_MAX - Z.of_nat k)).
Proof.
  intros Hfit Hi Hnext Hk.
  assert (GetNextServer (state servers i s 0) =
          Some (s', state servers (S i mod length servers) s' SIZE_MAX)) as Hcall.
  { rewrite (GetNextServer_advance _ _ _ _ s' 0) by done.
    by rewrite size_sub_underflow. }
  split; [done|]. eapply drive_cons; [exact Hcall|].
  by apply drive_block.
Qed.

(** The vector of servers is never written. *)
Lemma drive_servers (n : nat) lb out lb' :
  wf lb → drive n lb = Some (out, lb') → _servers lb' = _servers lb.
Proof.
  revert lb out. induction n as [|n IH]; intros lb out Hwf.
  - by intros [= _ <-].
  - intros (x & lb1 & xs & Hx & Hd & ->)%drive_S_inv.
    destruct (wrr_GetNextServer_spec lb Hwf) as (s & lb2 & Heq & Hwf2 & Hsrv & _).
    change (GetNextServer lb = Some (x, lb1)) in Hx. rewrite Heq in Hx.
    simplify_eq. rewrite <-Hsrv. by eapply IH.
Qed.

(** C33: the class invariant is a type for the object: the constructor
    establishes it for every vector of weights, a weight of zero included,
    and every call keeps it.  So any number of calls on a constructed
    balancer is defined (the index stays in the vector, the budget is a
    [size_t]), leaves the pool as it was and returns servers of the
    pool. *)
Theorem wrr_wf_preserved servers lb (n : nat) :
  wf_servers servers → make servers = Ok lb →
  ∃ out lb', drive n lb = Some (out, lb') ∧ wf lb' ∧
             _servers lb' = servers ∧ Forall (.∈ servers.*1) out.
Proof.
  intros Hwf Hmake. pose proof (wrr_make_wf _ _ Hwf Hmake) as Hlb.
  destruct (drive_ok n lb) as (out & lb' & Hd & Hwf' & _ & Hall); [done|].
  change (drive n lb = Some (out, lb')) in Hd.
  assert (_servers lb = servers) as Hsrv
    by (by apply wrr_make_Ok_inv in Hmake as (s & w & rest & -> & ->)).
  exists out, lb'. split_and!; [done..| |].
  - by rewrite (drive_servers n lb out lb').
  - simpl in Hall. by rewrite Hsrv in Hall.
Qed.

(** C40: the constructor throws [runtime_error] on the empty vector, and on
    no other: in particular it accepts a pool whose weights are all zero. *)
Theorem wrr_make_throws_iff_empty servers :
  (make servers = Throw (runtime_error "server list is empty") ↔ servers = []) ∧
  (servers ≠ [] → ∃ s w, servers !! 0%nat = Some (s, w) ∧
     make servers = Ok {| _servers := servers; _curr_server_index := 0;
                          _curr_server := (s, w) |}).
Proof.
  split; [by destruct servers as [|[s w] rest]|].
  destruct servers as [|[s w] rest]; [done|]. intros _. by exists s, w.
Qed.

(** [main] prints sixteen lines: two whole cycles of
    [server1 x5, server2, server3] and the first two calls of a third. *)
Theorem main_output :
  main = Ok (Some (concat (replicate 2 (schedule server_list2)) ++
                   ["server1"; "server1"]%string)).
Proof. by vm_compute. Qed.

(** A cycle boundary and a fresh object cannot be told apart by any
    number of calls (positive weights). *)
Theorem boundary_obs_equiv servers lb :
  wf_servers servers → positive_weights servers → make servers = Ok lb →
  obs_equiv lb (boundary servers (length servers - 1)).
Proof.
  intros Hwf Hpos Hmake.
  assert (servers ≠ []) as Hne by (by destruct servers).
  pose proof (drive_first_cycle _ _ Hwf Hpos Hmake) as Hfirst.
  destruct (drive_ok (total_weight servers) lb) as (? & ? & Hd & Hwfb & _);
    [by eapply wrr_make_wf|].
  change (drive (total_weight servers) lb = Some (x, x0)) in Hd.
  rewrite Hfirst in Hd. simplify_eq.
  apply (obs_equiv_nth_call (St:=t)); [by eapply wrr_make_wf|done|].
  intros i. by rewrite (nth_call_fresh servers), nth_call_boundary.
Qed.

(** ** Witnesses and examples *)

Lemma wf_server_list2 : wf_servers server_list2.
Proof. apply (bool_decide_unpack _). by vm_compute. Qed.

Lemma positive_server_list2 : positive_weights server_list2.
Proof. apply (bool_decide_unpack _). by vm_compute. Qed.

Lemma NoDup_server_list2 : NoDup server_list2.*1.
Proof. apply (bool_decide_unpack _). by vm_compute. Qed.

(** The object [main] constructs. *)
Definition fresh2 : t := state server_list2 0 "server1" 5.

Lemma wf_fresh2 : wf fresh2.
Proof. by apply (wrr_make_wf server_list2); [apply wf_server_list2|]. Qed.

Lemma within_budget_fresh2 : within_budget fresh2.
Proof. exists 5. by vm_compute. Qed.

Lemma GetNextServer_schedule_witness :
  ∃ s, nth_call 9 fresh2 = Some s ∧
       schedule server_list2 !! (9 mod total_weight server_list2)%nat = Some s.
Proof.
  exact (GetNextServer_schedule server_list2 fresh2 9 wf_server_list2
           positive_server_list2 eq_refl).
Defined.

Lemma GetNextServer_cycles_witness :
  drive (S 1 * total_weight server_list2) fresh2 =
  Some (concat (replicate (S 1) (schedule server_list2)),
        boundary server_list2 (length server_list2 - 1)).
Proof.
  exact (GetNextServer_cycles server_list2 fresh2 1 wf_server_list2
           positive_server_list2 eq_refl).
Defined.

Lemma GetNextServer_counts_witness :
  ∃ pre lb1 out lb2,
    drive (2 * total_weight server_list2) fresh2 = Some (pre, lb1) ∧
    drive (total_weight server_list2) lb1 = Some (out, lb2) ∧
    ∀ s w, (s, w) ∈ server_list2 → length (filter (s =.) out) = Z.to_nat w.
Proof.
  exact (GetNextServer_counts server_list2 fresh2 2 wf_server_list2
           positive_server_list2 NoDup_server_list2 eq_refl).
Defined.

Lemma GetNextServer_within_budget_witness :
  within_budget (state server_list2 0 "server1" 4).
Proof.
  exact (GetNextServer_within_budget fresh2 "server1" _ wf_fresh2
           positive_server_list2 within_budget_fresh2 eq_refl).
Defined.

Lemma boundary_obs_equiv_witness :
  obs_equiv fresh2 (boundary server_list2 (length server_list2 - 1)).
Proof.
  exact (boundary_obs_equiv server_list2 fresh2 wf_server_list2
           positive_server_list2 eq_refl).
Defined.

(** A pool with a zero weight in the middle. *)
Definition zero_pool : list weight_server_type :=
  [("A"%string, 1); ("B"%string, 0); ("C"%string, 1)].

Lemma vec_fits_zero_pool : vec_fits zero_pool.
Proof. by vm_compute. Qed.

Lemma GetNextServer_zero_weight_witness :
  GetNextServer (state zero_pool 0 "A" 0) =
    Some ("B"%string, state zero_pool (1 mod length zero_pool) "B" SIZE_MAX) ∧
  drive 4 (state zero_pool 0 "A" 0) =
    Some (replicate 4 "B"%string,
          state zero_pool (1 mod length zero_pool) "B" (SIZE_MAX - Z.of_nat 3)).
Proof.
  refine (GetNextServer_zero_weight zero_pool 0 "A" "B" 3 vec_fits_zero_pool _ eq_refl _).
  - simpl. lia.
  - by vm_compute.
Defined.

Lemma wf_zero_pool : wf_servers zero_pool.
Proof. apply (bool_decide_unpack _). by vm_compute. Qed.

Lemma wrr_wf_preserved_witness :
  ∃ out lb', drive 40 (state zero_pool 0 "A" 1) = Some (out, lb') ∧ wf lb' ∧
             _servers lb' = zero_pool ∧ Forall (.∈ zero_pool.*1) out.
Proof. exact (wrr_wf_preserved zero_pool _ 40 wf_zero_pool eq_refl). Defined.

(** The balancer built from [zero_pool] serves [A] once and then [B], whose
    weight is zero, on every later call; [C] is never reached. *)
Example zero_weight_served :
  (λ lb, fst <$> drive 6 lb) <$> make zero_pool =
  Ok (Some ["A"; "B"; "B"; "B"; "B"; "B"]%string).
Proof. by vm_compute. Qed.

(** A zero weight in front is skipped by the first call, and met by the
    advance step one cycle later. *)
Example zero_weight_in_front :
  (λ lb, fst <$> drive 5 lb) <$> make [("A"%string, 0); ("B"%string, 2)] =
  Ok (Some ["B"; "B"; "A"; "A"; "A"]%string).
Proof. by vm_compute. Qed.

(** A pool whose only weight is zero is accepted and served. *)
Example all_zero_accepted :
  (λ lb, fst <$> drive 3 lb) <$> make [("A"%string, 0)] =
  Ok (Some ["A"; "A"; "A"]%string).
Proof. by vm_compute. Qed.

(** The example of the specification: weights 5, 1, 1. *)
Example weights_5_1_1 :
  (λ lb, fst <$> drive 7 lb) <$>
    make [("A"%string, 5); ("B"%string, 1); ("C"%string, 1)] =
  Ok (Some ["A"; "A"; "A"; "A"; "A"; "B"; "C"]%string).
Proof. by vm_compute. Qed.

End WeightRoundRobin.
