(* ===== verification/ConnMap.v ===== *)
(** * [std::unordered_map<std::string, size_t>] as [LeastConnection] uses it

    The container is the list of its entries in iteration order, with
    every key at most once ([wf]).  Reading and writing through a reference
    do not move entries.  Where an insertion puts the new entry is left
    open by the C++ standard; it is the parameter [Layout], of which
    [front_layout] (the new entry is iterated first: libstdc++ while no two
    keys share a bucket) and [back_layout] (insertion order) are instances.

    [min_element] is [std::min_element] over the iteration order: the
    first entry that no other entry is smaller than.

    [to_gmap] forgets the iteration order.  Each operation commutes with it
    ([to_gmap_emplace], [to_gmap_index], [to_gmap_assign]); these lemmas
    carry the refinement proof of [LeastConnLB]. *)

From Stdlib Require Import ZArith Lia.
From stdpp Require Import base tactics option list strings gmap.
From S2P Require Import Prelude.

#[local] Open Scope Z_scope.

Module UMap.

(** Where an insertion puts the new entry among the old ones. *)
Class Layout : Type := {
  place : string * Z → list (string * Z) → list (string * Z);
  place_perm e m : place e m ≡ₚ e :: m;
}.

#[export] Program Instance front_layout : Layout := {| place e m := e :: m |}.
Next Obligation. done. Qed.

#[export] Program Instance back_layout : Layout | 10 := {| place e m := m ++ [e] |}.
Next Obligation. intros e m. by rewrite Permutation_app_comm. Qed.

(** [m.find(k)->second], when [k] is a key. *)
Fixpoint get (k : string) (m : list (string * Z)) : option Z :=
  match m with
  | [] => None
  | e :: m' => if decide (e.1 = k) then Some e.2 else get k m'
  end.

(** A write through the reference [m[k]] of a key that is present. *)
Definition assign (k : string) (v : Z) (m : list (string * Z)) : list (string * Z) :=
  (λ e, if decide (e.1 = k) then (k, v) else e) <$> m.

(** The comparison closure of the call to [std::min_element]:
    [a.second < b.second]. *)
Definition comp (a b : string * Z) : bool := bool_decide (a.2 < b.2).

(** The loop of [std::min_element]: [smallest] is the best position so far
    with its entry, [i] the position of the head of [l]. *)
Fixpoint min_element_from {A} (comp : A → A → bool)
    (smallest : nat * A) (i : nat) (l : list A) : nat :=
  match l with
  | [] => smallest.1
  | x :: l' =>
      min_element_from comp (if comp x smallest.2 then (i, x) else smallest) (S i) l'
  end.

(** [std::min_element(first, last, comp)] as a position; on the empty
    range it is [last]. *)
Definition min_element {A} (comp : A → A → bool) (l : list A) : nat :=
  match l with
  | [] => 0%nat
  | x :: l' => min_element_from comp (0%nat, x) 1 l'
  end.

(** The contents without the order. *)
Definition to_gmap (m : list (string * Z)) : gmap string Z := list_to_map m.

(** The container's invariant: keys are unique, counts are [size_t]. *)
Definition wf (m : list (string * Z)) : Prop :=
  NoDup m.*1 ∧ Forall (λ e, is_size_t e.2) m.

#[export] Instance wf_dec m : Decision (wf m).
Proof. unfold wf. apply _. Defined.

Section ops.
Context `{Layout}.

(** [m.emplace(k, v)]: nothing happens when the key is present. *)
Definition emplace (k : string) (v : Z) (m : list (string * Z)) : list (string * Z) :=
  match get k m with
  | Some _ => m
  | None => place (k, v) m
  end.

(** [m[k]]: the container after the access and the value the reference
    designates.  An absent key is inserted with a value-initialised count. *)
Definition index (k : string) (m : list (string * Z)) : list (string * Z) * Z :=
  match get k m with
  | Some v => (m, v)
  | None => (place (k, 0) m, 0)
  end.

End ops.

(** ** Reading *)

Lemma get_to_gmap k m : get k m = to_gmap m !! k.
Proof.
  induction m as [|[k' v'] m IH]; [done|]. unfold to_gmap in *. simpl.
  rewrite lookup_insert. by repeat case_decide.
Qed.

Lemma get_None k m : get k m = None ↔ k ∉ m.*1.
Proof. rewrite get_to_gmap. symmetry. apply not_elem_of_list_to_map. Qed.

Lemma get_is_Some k m : is_Some (get k m) ↔ k ∈ m.*1.
Proof.
  rewrite <-not_eq_None_Some, get_None. destruct (decide (k ∈ m.*1)); naive_solver.
Qed.

Lemma get_Some_elem_of k v m : get k m = Some v → (k, v) ∈ m.
Proof. rewrite get_to_gmap. apply elem_of_list_to_map_2. Qed.

Lemma elem_of_get k v m : NoDup m.*1 → (k, v) ∈ m → get k m = Some v.
Proof. rewrite get_to_gmap. apply elem_of_list_to_map_1. Qed.

Lemma get_lookup (m : list (string * Z)) i k v :
  NoDup m.*1 → m !! i = Some (k, v) → get k m = Some v.
Proof. intros ? ?%list_elem_of_lookup_2. by apply elem_of_get. Qed.

Lemma wf_get m k v : wf m → get k m = Some v → is_size_t v.
Proof.
  intros [_ Hall] Hin%get_Some_elem_of. rewrite Forall_forall in Hall.
  by apply (Hall (k, v)).
Qed.

(** Two containers with the same keys in the same order and the same
    contents are the same container. *)
Lemma eq_of_keys_gmap m1 m2 :
  NoDup m1.*1 → m1.*1 = m2.*1 → to_gmap m1 = to_gmap m2 → m1 = m2.
Proof.
  intros Hnd Hkeys Hmap. apply list_eq. intros i.
  pose proof (f_equal (.!! i) Hkeys) as Hi. rewrite !list_lookup_fmap in Hi.
  destruct (m1 !! i) as [[k v1]|] eqn:H1, (m2 !! i) as [[k2 v2]|] eqn:H2;
    simplify_eq/=; [|done].
  do 2 f_equal. apply (get_lookup _ _ _ _ Hnd) in H1.
  rewrite Hkeys in Hnd. apply (get_lookup _ _ _ _ Hnd) in H2.
  rewrite !get_to_gmap, Hmap in *. congruence.
Qed.

(** ** Writing through a reference *)

Lemma keys_assign k v m : (assign k v m).*1 = m.*1.
Proof.
  unfold assign. rewrite <-list_fmap_compose. apply list_fmap_ext.
  intros i [k' v'] _. simpl. by case_decide.
Qed.

Lemma length_assign k v m : length (assign k v m) = length m.
Proof. apply length_fmap. Qed.

Lemma get_assign k v m k' :
  get k' (assign k v m) = if decide (k = k') then (λ _, v) <$> get k m else get k' m.
Proof.
  induction m as [|[k0 v0] m IH]; simpl; [by case_decide|].
  repeat (case_decide; simplify_eq/=); try done.
Qed.

Lemma assign_absent k v m : k ∉ m.*1 → assign k v m = m.
Proof.
  intros Hk. unfold assign. rewrite <-(list_fmap_id m) at 2.
  apply list_fmap_ext. intros i [k' v'] Hi. simpl. case_decide; [|done].
  simplify_eq/=. destruct Hk. apply list_elem_of_fmap. exists (k, v').
  split; [done|]. by eapply list_elem_of_lookup_2.
Qed.

Lemma to_gmap_assign k v m :
  k ∈ m.*1 → to_gmap (assign k v m) = <[k:=v]> (to_gmap m).
Proof.
  intros [v0 Hk]%get_is_Some. apply map_eq. intros k'.
  rewrite <-get_to_gmap, get_assign, lookup_insert, <-get_to_gmap, Hk.
  by case_decide.
Qed.

Lemma wf_assign k v m : wf m → is_size_t v → wf (assign k v m).
Proof.
  intros [Hnd Hall] Hv. split; [by rewrite keys_assign|].
  unfold assign. rewrite Forall_fmap. eapply Forall_impl; [exact Hall|].
  intros [k' v'] ?. simpl. by case_decide.
Qed.

(** A write leaves every entry where it was. *)
Lemma lookup_assign k v (m : list (string * Z)) i :
  assign k v m !! i =
  (λ e, if decide (e.1 = k) then (k, v) else e) <$> m !! i.
Proof. apply list_lookup_fmap. Qed.

(** ** Inserting *)

Section ops_lemmas.
Context `{Layout}.

Lemma keys_place e m : (place e m).*1 ≡ₚ e.1 :: m.*1.
Proof. by rewrite place_perm. Qed.

Lemma wf_place k v m : wf m → k ∉ m.*1 → is_size_t v → wf (place (k, v) m).
Proof.
  intros [Hnd Hall] Hk Hv. split.
  - rewrite keys_place. by constructor.
  - rewrite place_perm. by constructor.
Qed.

Lemma to_gmap_place k v m :
  NoDup m.*1 → k ∉ m.*1 → to_gmap (place (k, v) m) = <[k:=v]> (to_gmap m).
Proof.
  intros Hnd Hk. unfold to_gmap. rewrite <-list_to_map_cons.
  apply list_to_map_proper; [|apply place_perm].
  rewrite keys_place. by constructor.
Qed.

Lemma length_place e m : length (place e m) = S (length m).
Proof. by rewrite place_perm. Qed.

Lemma emplace_present k v m : k ∈ m.*1 → emplace k v m = m.
Proof. intros [v0 Hk]%get_is_Some. unfold emplace. by rewrite Hk. Qed.

Lemma emplace_absent k v m : k ∉ m.*1 → emplace k v m = place (k, v) m.
Proof. intros Hk%get_None. unfold emplace. by rewrite Hk. Qed.

Lemma wf_emplace k v m : wf m → is_size_t v → wf (emplace k v m).
Proof.
  intros Hwf Hv. destruct (decide (k ∈ m.*1)).
  - by rewrite emplace_present.
  - rewrite emplace_absent by done. by apply wf_place.
Qed.

(** [emplace] never overwrites. *)
Lemma to_gmap_emplace k v m :
  NoDup m.*1 →
  to_gmap (emplace k v m) =
  match to_gmap m !! k with Some _ => to_gmap m | None => <[k:=v]> (to_gmap m) end.
Proof.
  intros Hnd. rewrite <-get_to_gmap. unfold emplace.
  destruct (get k m) eqn:Hk; [done|]. apply to_gmap_place; [done|].
  by apply get_None.
Qed.

Lemma keys_emplace k v m :
  (emplace k v m).*1 ≡ₚ if decide (k ∈ m.*1) then m.*1 else k :: m.*1.
Proof.
  case_decide.
  - by rewrite emplace_present.
  - rewrite emplace_absent by done. apply keys_place.
Qed.

Lemma NoDup_emplace k v m : NoDup m.*1 → NoDup (emplace k v m).*1.
Proof.
  intros Hnd. rewrite keys_emplace. destruct (decide (k ∈ m.*1)); [done|].
  by constructor.
Qed.

Lemma index_present k v m : get k m = Some v → index k m = (m, v).
Proof. intros Hk. unfold index. by rewrite Hk. Qed.

Lemma index_absent k m : k ∉ m.*1 → index k m = (place (k, 0) m, 0).
Proof. intros Hk%get_None. unfold index. by rewrite Hk. Qed.

(** After [m[k]] the key is present, with the value the reference
    designates. *)
Lemma get_index k m : NoDup m.*1 → get k (index k m).1 = Some (index k m).2.
Proof.
  intros Hnd. unfold index. destruct (get k m) eqn:Hk; [done|]. simpl.
  apply get_None in Hk. rewrite get_to_gmap, to_gmap_place by done.
  apply lookup_insert_eq.
Qed.

Lemma index_in_keys k m : NoDup m.*1 → k ∈ (index k m).1.*1.
Proof. intros Hnd. apply get_is_Some. rewrite get_index by done. by eexists. Qed.

Lemma index_value k m : (index k m).2 = default 0 (get k m).
Proof. unfold index. by destruct (get k m). Qed.

Lemma wf_index k m : wf m → wf (index k m).1.
Proof.
  intros Hwf. unfold index. destruct (get k m) eqn:Hk; [done|]. simpl.
  apply get_None in Hk. by apply wf_place.
Qed.

Lemma wf_index_nodup k m : NoDup m.*1 → NoDup (index k m).1.*1.
Proof.
  intros Hnd. unfold index. destruct (get k m) eqn:Hk; [done|]. simpl.
  apply get_None in Hk. rewrite keys_place. by constructor.
Qed.

Lemma to_gmap_index k m :
  NoDup m.*1 →
  to_gmap (index k m).1 = <[k:=default 0 (to_gmap m !! k)]> (to_gmap m).
Proof.
  intros Hnd. rewrite <-get_to_gmap. unfold index.
  destruct (get k m) eqn:Hk; simpl.
  - symmetry. apply insert_id. by rewrite <-get_to_gmap.
  - apply to_gmap_place; [done|]. by apply get_None.
Qed.

Lemma keys_index k m :
  (index k m).1.*1 ≡ₚ if decide (k ∈ m.*1) then m.*1 else k :: m.*1.
Proof.
  case_decide as Hk.
  - apply get_is_Some in Hk as [v Hk]. by rewrite (index_present _ v).
  - rewrite index_absent by done. apply keys_place.
Qed.

Lemma index_idemp k m : NoDup m.*1 → index k (index k m).1 = index k m.
Proof.
  intros Hnd. pose proof (get_index k m Hnd) as Hget.
  rewrite (index_present _ _ _ Hget). by destruct (index k m).
Qed.

End ops_lemmas.

(** ** [std::min_element] *)

Section min_element.
Context {A : Type} (f : A → Z).

(** The closure [f a < f b]. *)
Definition less (a b : A) : bool := bool_decide (f a < f b).

(** What the loop has established after scanning [pre]: [b] sits at [bi],
    nothing in [pre] is below it and everything before it is above it. *)
Definition best_of (pre : list A) (bi : nat) (b : A) : Prop :=
  pre !! bi = Some b ∧
  (∀ j x, pre !! j = Some x → f b ≤ f x) ∧
  (∀ j x, pre !! j = Some x → (j < bi)%nat → f b < f x).

Lemma best_of_snoc pre bi b x :
  best_of pre bi b →
  best_of (pre ++ [x]) (if less x b then length pre else bi)
                       (if less x b then x else b).
Proof.
  intros (Hb & Hmin & Hfirst). unfold less. pose proof (lookup_lt_Some _ _ _ Hb).
  case_bool_decide as Hlt; split_and!.
  - by rewrite lookup_app_r, Nat.sub_diag.
  - intros j y [Hy|[? Hy]]%lookup_app_Some.
    + specialize (Hmin _ _ Hy). lia.
    + apply list_lookup_singleton_Some in Hy as [_ ->]. lia.
  - intros j y [Hy|[? ?]]%lookup_app_Some ?; [|lia].
    specialize (Hmin _ _ Hy). lia.
  - by apply lookup_app_l_Some.
  - intros j y [Hy|[? Hy]]%lookup_app_Some; [by eapply Hmin|].
    apply list_lookup_singleton_Some in Hy as [_ ->]. lia.
  - intros j y [Hy|[? Hy]]%lookup_app_Some ?; [by eapply Hfirst|lia].
Qed.

Lemma min_element_from_best pre bi b l :
  best_of pre bi b →
  ∃ e, best_of (pre ++ l) (min_element_from less (bi, b) (length pre) l) e.
Proof.
  revert pre bi b. induction l as [|x l IH]; intros pre bi b Hbest.
  - exists b. by rewrite app_nil_r.
  - apply (best_of_snoc _ _ _ x) in Hbest. simpl.
    rewrite (cons_middle x pre l), app_assoc.
    replace (S (length pre)) with (length (pre ++ [x]))
      by (rewrite length_app; simpl; lia).
    destruct (IH _ _ _ Hbest) as [e He]. exists e.
    by destruct (less x b).
Qed.

(** On a range that is not empty, [std::min_element] designates an entry
    that nothing is below and that everything before it is above. *)
Lemma min_element_best l :
  l ≠ [] → ∃ e, best_of l (min_element less l) e.
Proof.
  destruct l as [|x l]; [done|]. intros _.
  apply (min_element_from_best [x] 0 x l). split_and!; [done|..].
  - intros j y Hy. apply list_lookup_singleton_Some in Hy as [_ ->]. lia.
  - intros j y _ ?. lia.
Qed.

Lemma min_element_empty : min_element less [] = 0%nat.
Proof. done. Qed.

End min_element.

Lemma comp_less : comp = less snd.
Proof. done. Qed.

(** ** Theorems of the component *)

(** On a map that is not empty, [std::min_element] with the closure of
    [GetNextServer] designates an entry whose count no entry is below, and
    every entry iterated before it has a greater count. *)
Theorem min_element_comp_least m :
  m ≠ [] →
  ∃ e, m !! min_element comp m = Some e ∧
       (∀ e', e' ∈ m → e.2 ≤ e'.2) ∧
       (∀ j e', m !! j = Some e' → (j < min_element comp m)%nat → e.2 < e'.2).
Proof.
  intros Hne. rewrite comp_less.
  destruct (min_element_best snd m Hne) as (e & He & Hmin & Hfirst).
  exists e. split_and!; [done| |done].
  intros e' [j Hj]%list_elem_of_lookup_1. by eapply Hmin.
Qed.

(** What [m[k]] reads and what the map holds afterwards do not depend
    on where the implementation puts a new entry. *)
Theorem index_layout_independent (L1 L2 : Layout) k m :
  NoDup m.*1 →
  to_gmap (@index L1 k m).1 = to_gmap (@index L2 k m).1 ∧
  (@index L1 k m).2 = (@index L2 k m).2.
Proof. intros Hnd. by rewrite !to_gmap_index, !index_value. Qed.

(** A value written through [m[k]] is the value the next [m[k]] reads,
    and the second access inserts nothing. *)
Theorem index_assign_roundtrip `{Layout} k v m :
  NoDup m.*1 →
  index k (assign k v (index k m).1) = (assign k v (index k m).1, v).
Proof.
  intros Hnd. apply index_present.
  by rewrite get_assign, decide_True, get_index by done.
Qed.

(** ** Witnesses *)

Definition abc : list (string * Z) := [("A", 2); ("B", 0); ("C", 0)]%string.

Lemma NoDup_abc : NoDup abc.*1.
Proof. apply (bool_decide_unpack _). by vm_compute. Qed.

Lemma min_element_comp_least_witness :
  ∃ e, abc !! min_element comp abc = Some e ∧
       (∀ e', e' ∈ abc → e.2 ≤ e'.2) ∧
       (∀ j e', abc !! j = Some e' → (j < min_element comp abc)%nat → e.2 < e'.2).
Proof. exact (min_element_comp_least abc ltac:(done)). Defined.

Lemma index_layout_independent_witness :
  to_gmap (@index front_layout "D" abc).1 = to_gmap (@index back_layout "D" abc).1 ∧
  (@index front_layout "D" abc).2 = (@index back_layout "D" abc).2.
Proof. exact (index_layout_independent front_layout back_layout "D" abc NoDup_abc). Defined.

Lemma index_assign_roundtrip_witness :
  index "D" (assign "D" 7 (index "D" abc).1) = (assign "D" 7 (index "D" abc).1, 7).
Proof. exact (index_assign_roundtrip "D" 7 abc NoDup_abc). Defined.

(** Of the two servers without a connection the one iterated first is
    designated. *)
Example min_element_abc : min_element comp abc = 1%nat.
Proof. done. Qed.

End UMap.
