(* ===== verification/LeastConnLB.v ===== *)
(** * [class LeastConnection] of [leastconnecitonalgo.cpp]

    The object is the map of connection counts and the mutex.  This file is
    the sequential model: one member function at a time, each taking and
    releasing the mutex as [std::lock_guard] does.  [Workers] interleaves
    the same critical sections.

    [Module LCSpec] is the specification on finite maps: a started request
    adds one to the count of its server, a finished one takes one away
    unless the count is zero, and the selection is a server of least
    count.  [Module LeastConnection] is the code, and its theorems are the
    refinement ([OnRequestStarted_refines], [OnRequestFinished_refines],
    [GetNextServer_least]), the class invariant, and what the code does on
    the inputs the specification forbids. *)

From Stdlib Require Import ZArith Lia.
From stdpp Require Import base tactics option list strings gmap.
From S2P Require Import Prelude Iface ConnMap.

#[local] Open Scope Z_scope.

Module LCSpec.

(** The count of a server; a server that is not tracked has none. *)
Definition count (m : gmap string Z) (s : string) : Z := default 0 (m !! s).

Definition started (s : string) (m : gmap string Z) : gmap string Z :=
  <[s := wrap (count m s + 1)]> m.

Definition finished (s : string) (m : gmap string Z) : gmap string Z :=
  <[s := if decide (count m s > 0) then wrap (count m s - 1) else count m s]> m.

(** [s] is tracked and no tracked server has fewer connections. *)
Definition least (m : gmap string Z) (s : string) : Prop :=
  ∃ v, m !! s = Some v ∧ ∀ s' v', m !! s' = Some v' → v ≤ v'.

(** The calls of the accounting interface. *)
Inductive call : Type :=
| Started (server : string)
| Finished (server : string).

Definition apply_call (c : call) (m : gmap string Z) : gmap string Z :=
  match c with
  | Started s => started s m
  | Finished s => finished s m
  end.

(** A sequence of calls, first call first. *)
Definition run (cs : list call) (m : gmap string Z) : gmap string Z :=
  foldl (λ m c, apply_call c m) m cs.

(** Starts minus finishes of server [s] in [cs]. *)
Fixpoint net (s : string) (cs : list call) : Z :=
  match cs with
  | [] => 0
  | Started s' :: cs => (if decide (s' = s) then 1 else 0) + net s cs
  | Finished s' :: cs => (if decide (s' = s) then -1 else 0) + net s cs
  end.

(** Every count is a [size_t]. *)
Definition bounded (m : gmap string Z) : Prop :=
  map_Forall (λ _ v, is_size_t v) m.

Lemma count_started s m s' :
  count (started s m) s' = if decide (s = s') then wrap (count m s + 1) else count m s'.
Proof. unfold count, started. rewrite lookup_insert. by case_decide. Qed.

Lemma count_finished s m s' :
  count (finished s m) s' =
  if decide (s = s') then
    (if decide (count m s > 0) then wrap (count m s - 1) else count m s)
  else count m s'.
Proof. unfold count at 1, finished. rewrite lookup_insert. by case_decide. Qed.

Lemma count_range m s : bounded m → is_size_t (count m s).
Proof.
  intros Hm. unfold count. destruct (m !! s) as [v|] eqn:Hs; simpl.
  - by apply (Hm s).
  - by compute.
Qed.

Lemma bounded_started s m : bounded m → bounded (started s m).
Proof. intros Hm. apply map_Forall_insert_2; [apply wrap_range|done]. Qed.

Lemma bounded_finished s m : bounded m → bounded (finished s m).
Proof.
  intros Hm. apply map_Forall_insert_2; [|done].
  case_decide; [apply wrap_range|by apply count_range].
Qed.

(** A finish undoes a start, as long as the start did not overflow. *)
Lemma finished_started s m :
  bounded m → count m s < SIZE_MAX →
  finished s (started s m) = <[s := count m s]> m.
Proof.
  intros Hm Hlt. pose proof (count_range m s Hm) as Hr.
  unfold finished. rewrite count_started, (decide_True (P:=s = s)) by done.
  rewrite (wrap_small (count m s + 1)) by size_lia.
  unfold started. rewrite insert_insert_eq. f_equal.
  case_decide; [|size_lia]. rewrite wrap_small by size_lia. lia.
Qed.

Lemma bounded_apply_call c m : bounded m → bounded (apply_call c m).
Proof. destruct c; [apply bounded_started|apply bounded_finished]. Qed.

(** One call changes the count of [s] by its contribution to [net], as
    long as the result is a [size_t]. *)
Lemma count_apply_call c m s :
  bounded m → 0 ≤ count m s + net s [c] ≤ SIZE_MAX →
  count (apply_call c m) s = count m s + net s [c].
Proof.
  intros Hm Hr. pose proof (count_range m s Hm).
  destruct c as [s'|s']; simpl in *;
    rewrite ?count_started, ?count_finished;
    destruct (decide (s' = s)) as [->|Hne]; try lia.
  - apply wrap_small. size_lia.
  - case_decide; [|size_lia]. rewrite wrap_small by size_lia. lia.
Qed.

Lemma net_cons c cs s : net s (c :: cs) = net s [c] + net s cs.
Proof. destruct c; simpl; lia. Qed.

(** The count of a server is its initial count plus the requests in
    flight, provided no prefix of the calls finishes more requests than
    were started or starts more than [SIZE_MAX]. *)
Lemma run_count cs m s :
  bounded m →
  (∀ k, 0 ≤ count m s + net s (take k cs) ≤ SIZE_MAX) →
  count (run cs m) s = count m s + net s cs.
Proof.
  revert m. induction cs as [|c cs IH]; intros m Hm Hpre; simpl; [lia|].
  pose proof (Hpre 1%nat) as H1. rewrite firstn_cons, take_0 in H1.
  pose proof (count_apply_call c m s Hm H1) as Hc.
  change (count (run cs (apply_call c m)) s = count m s + net s (c :: cs)).
  rewrite IH; [rewrite Hc, (net_cons c cs); lia|by apply bounded_apply_call|].
  intros k. rewrite Hc. specialize (Hpre (S k)).
  rewrite firstn_cons, net_cons in Hpre. lia.
Qed.

Lemma bounded_run cs m : bounded m → bounded (run cs m).
Proof.
  revert m. induction cs as [|c cs IH]; intros m Hm; [done|].
  by apply IH, bounded_apply_call.
Qed.

End LCSpec.

Module LeastConnection.
Import UMap.

(** The data members. *)
Record t : Type := mk {
  _connections : list (string * Z);
  _mtx : bool;
}.

(** [std::lock_guard<std::mutex> lk(_mtx)]: taking a mutex that is held
    does not return. *)
Definition lock (lb : t) : option t :=
  if _mtx lb then None
  else Some {| _connections := _connections lb; _mtx := true |}.

(** The destructor of the guard. *)
Definition unlock (lb : t) : t :=
  {| _connections := _connections lb; _mtx := false |}.

Section impl.
Context `{Layout}.

(** [explicit LeastConnection(const std::vector<std::string>& servers)]. *)
Definition make (servers : list string) : result t :=
  if vec_empty servers then Throw (runtime_error "server list is emply")
  else Ok {| _connections := foldl (λ m server, emplace server 0 m) [] servers;
             _mtx := false |}.

(** [std::string GetNextServer()]: the key of the entry that
    [std::min_element] designates.  The mutex is not taken. *)
Definition GetNextServer (lb : t) : option (string * t) :=
  let least_load_server := min_element comp (_connections lb) in
  e ← _connections lb !! least_load_server;
  Some (e.1, lb).

(** [_connections[server]++]. *)
Definition started_body (server : string) (m : list (string * Z)) : list (string * Z) :=
  let '(m1, v) := index server m in
  assign server (size_add v 1) m1.

(** [if (_connections[server] > 0) { _connections[server]--; }]. *)
Definition finished_body (server : string) (m : list (string * Z)) : list (string * Z) :=
  let '(m1, v) := index server m in
  if decide (v > 0) then
    let '(m2, v2) := index server m1 in
    assign server (size_sub v2 1) m2
  else m1.

(** [void OnRequestStarted(const std::string& server) override]. *)
Definition OnRequestStarted (server : string) (lb : t) : option t :=
  lk ← lock lb;
  Some (unlock {| _connections := started_body server (_connections lk);
                  _mtx := _mtx lk |}).

(** [void OnRequestFinished(const std::string& server) override]. *)
Definition OnRequestFinished (server : string) (lb : t) : option t :=
  lk ← lock lb;
  Some (unlock {| _connections := finished_body server (_connections lk);
                  _mtx := _mtx lk |}).

(** [void printConnections()]: the entries in the order they are printed. *)
Definition printConnections (lb : t) : option (list (string * Z) * t) :=
  lk ← lock lb;
  Some (_connections lk, unlock lk).

(** One call of the accounting interface. *)
Definition do_call (c : LCSpec.call) (lb : t) : option t :=
  match c with
  | LCSpec.Started server => OnRequestStarted server lb
  | LCSpec.Finished server => OnRequestFinished server lb
  end.

(** A sequence of calls, first call first. *)
Fixpoint run (cs : list LCSpec.call) (lb : t) : option t :=
  match cs with
  | [] => Some lb
  | c :: cs => lb1 ← do_call c lb; run cs lb1
  end.

End impl.

#[export] Instance balancer `{Layout} : Track.ILoadBalancer t := {|
  Track.GetNextServer := GetNextServer;
  Track.OnRequestStarted := OnRequestStarted;
  Track.OnRequestFinished := OnRequestFinished;
|}.

(** The class invariant between calls: the map is well formed and tracks
    at least one server, and the mutex is free. *)
Definition wf (lb : t) : Prop :=
  UMap.wf (_connections lb) ∧ _connections lb ≠ [] ∧ _mtx lb = false.

(** The abstraction function to [LCSpec]. *)
Definition counts (lb : t) : gmap string Z := to_gmap (_connections lb).

(** Name the two components of [index k m] in the goal. *)
Ltac index_pair k m :=
  let m1 := fresh "m1" in let v := fresh "v" in let Hi := fresh "Hi" in
  destruct (index k m) as [m1 v] eqn:Hi;
  assert (m1 = (index k m).1) as -> by (by rewrite Hi);
  assert (v = (index k m).2) as -> by (by rewrite Hi);
  clear Hi.

Section lemmas.
Context `{Layout}.
Implicit Types (lb : t) (m : list (string * Z)) (s server : string).

(** ** The critical sections *)

Lemma index_count s m : (index s m).2 = LCSpec.count (to_gmap m) s.
Proof. by rewrite index_value, get_to_gmap. Qed.

Lemma started_body_gmap s m :
  NoDup m.*1 → to_gmap (started_body s m) = LCSpec.started s (to_gmap m).
Proof.
  intros Hnd. unfold started_body. index_pair s m.
  rewrite to_gmap_assign by (by apply index_in_keys).
  rewrite to_gmap_index, insert_insert_eq by done.
  by rewrite index_count.
Qed.

Lemma finished_body_gmap s m :
  NoDup m.*1 → to_gmap (finished_body s m) = LCSpec.finished s (to_gmap m).
Proof.
  intros Hnd. unfold finished_body, LCSpec.finished. index_pair s m.
  rewrite <-index_count. case_decide.
  - pose proof (wf_index_nodup s m Hnd) as Hnd1.
    rewrite index_idemp by done. index_pair s m.
    rewrite to_gmap_assign by (by apply index_in_keys).
    by rewrite to_gmap_index, insert_insert_eq, index_count.
  - by rewrite to_gmap_index, index_count.
Qed.

Lemma wf_started_body s m : UMap.wf m → UMap.wf (started_body s m).
Proof.
  intros Hwf. unfold started_body. index_pair s m.
  apply wf_assign; [by apply wf_index|apply size_add_range].
Qed.

Lemma wf_finished_body s m : UMap.wf m → UMap.wf (finished_body s m).
Proof.
  intros Hwf. unfold finished_body. index_pair s m. case_decide.
  - rewrite index_idemp by apply Hwf. index_pair s m.
    apply wf_assign; [by apply wf_index|apply size_sub_range].
  - by apply wf_index.
Qed.

Lemma length_index s m : (length m ≤ length (index s m).1)%nat.
Proof.
  unfold index. destruct (get s m); simpl; [done|]. rewrite length_place. lia.
Qed.

Lemma started_body_nonempty s m : started_body s m ≠ [].
Proof.
  unfold started_body. index_pair s m. intros Hnil%(f_equal length).
  rewrite length_assign in Hnil. simpl in Hnil.
  unfold index in Hnil. destruct (get s m) eqn:Hs; simpl in Hnil.
  - apply length_zero_iff_nil in Hnil. by subst.
  - by rewrite length_place in Hnil.
Qed.

Lemma finished_body_nonempty s m : m ≠ [] → finished_body s m ≠ [].
Proof.
  intros Hne Hnil%(f_equal length). apply Hne, length_zero_iff_nil.
  revert Hnil. unfold finished_body. index_pair s m.
  pose proof (length_index s m). case_decide; simpl; [|lia].
  index_pair s (index s m).1. rewrite length_assign.
  pose proof (length_index s (index s m).1). lia.
Qed.

(** On a server that is tracked the critical sections move no entry. *)
Lemma started_body_keys s m : s ∈ m.*1 → (started_body s m).*1 = m.*1.
Proof.
  intros [v Hv]%get_is_Some. unfold started_body.
  rewrite (index_present _ v) by done. apply keys_assign.
Qed.

Lemma finished_body_keys s m : s ∈ m.*1 → (finished_body s m).*1 = m.*1.
Proof.
  intros [v Hv]%get_is_Some. unfold finished_body.
  rewrite (index_present _ v) by done. case_decide; [|done].
  rewrite (index_present _ v) by done. apply keys_assign.
Qed.

End lemmas.

Lemma wf_bounded m : UMap.wf m → LCSpec.bounded (to_gmap m).
Proof.
  intros [_ Hall] s v Hs. rewrite <-get_to_gmap in Hs.
  apply get_Some_elem_of in Hs. rewrite Forall_forall in Hall.
  by apply (Hall (s, v)).
Qed.

Section theorems.
Context `{Layout}.
Implicit Types (lb : t) (m : list (string * Z)) (s server : string).

(** ** The constructor *)

(** The map after the loop of the constructor, started from [m]. *)
Definition init_map (m : list (string * Z)) (servers : list string) : list (string * Z) :=
  foldl (λ m server, emplace server 0 m) m servers.

Lemma wf_init_map m servers : UMap.wf m → UMap.wf (init_map m servers).
Proof.
  revert m. induction servers as [|s servers IH]; intros m Hwf; [done|].
  simpl. apply IH, wf_emplace; [done|by compute].
Qed.

Lemma decide_elem_of_cons_ne {A} s s0 (servers : list string) (x y : A) :
  s ≠ s0 →
  (if decide (s ∈ servers) then x else y) =
  (if decide (s ∈ s0 :: servers) then x else y).
Proof.
  intros Hne. apply decide_ext. rewrite elem_of_cons.
  split; [by right | by intros [?|?]].
Qed.

Lemma lookup_init_map m servers s :
  NoDup m.*1 →
  to_gmap (init_map m servers) !! s =
  match to_gmap m !! s with
  | Some v => Some v
  | None => if decide (s ∈ servers) then Some 0 else None
  end.
Proof.
  revert m. induction servers as [|s0 servers IH]; intros m Hnd; simpl.
  - by destruct (_ !! _).
  - pose proof (NoDup_emplace s0 0 m Hnd) as Hnd'.
    rewrite IH, to_gmap_emplace by done.
    destruct (to_gmap m !! s0) eqn:Hs0.
    + destruct (to_gmap m !! s) eqn:Hs; [done|].
      apply decide_elem_of_cons_ne. congruence.
    + destruct (decide (s0 = s)) as [->|Hne].
      * rewrite lookup_insert_eq, Hs0. by rewrite decide_True by constructor.
      * rewrite lookup_insert_ne by done. destruct (to_gmap m !! s); [done|].
        apply decide_elem_of_cons_ne. congruence.
Qed.

Lemma init_map_nonempty servers : servers ≠ [] → init_map [] servers ≠ [].
Proof.
  destruct servers as [|s servers]; [done|]. intros _ Hnil.
  pose proof (lookup_init_map [] (s :: servers) s NoDup_nil_2) as Hl.
  rewrite Hnil in Hl. unfold to_gmap in Hl. simpl in Hl.
  rewrite lookup_empty, decide_True in Hl by constructor. done.
Qed.

Lemma lc_make_Ok_inv servers lb :
  make servers = Ok lb → servers ≠ [] ∧ lb = mk (init_map [] servers) false.
Proof. destruct servers; [done|]. by intros [= <-]. Qed.

(** ** Selection *)

Lemma lc_GetNextServer_spec lb :
  _connections lb ≠ [] →
  ∃ i s v, _connections lb !! i = Some (s, v) ∧
    GetNextServer lb = Some (s, lb) ∧
    (∀ j e, _connections lb !! j = Some e → v ≤ e.2) ∧
    (∀ j e, _connections lb !! j = Some e → (j < i)%nat → v < e.2).
Proof.
  intros Hne. destruct (min_element_best snd _ Hne) as ([s v] & Hb & Hmin & Hfirst).
  exists (min_element (less snd) (_connections lb)), s, v.
  split_and!; [done| |done..].
  unfold GetNextServer. rewrite comp_less. simpl. by rewrite Hb.
Qed.

(** ** Accounting *)

Lemma OnRequestStarted_free server lb :
  _mtx lb = false →
  OnRequestStarted server lb =
  Some (mk (started_body server (_connections lb)) false).
Proof. intros Hm. unfold OnRequestStarted, lock. by rewrite Hm. Qed.

Lemma OnRequestFinished_free server lb :
  _mtx lb = false →
  OnRequestFinished server lb =
  Some (mk (finished_body server (_connections lb)) false).
Proof. intros Hm. unfold OnRequestFinished, lock. by rewrite Hm. Qed.

(** One accounting call returns with the mutex released, keeps the class
    invariant and does on the counts what [LCSpec] says. *)
Lemma do_call_ok c lb :
  wf lb →
  ∃ lb', do_call c lb = Some lb' ∧ wf lb' ∧
         counts lb' = LCSpec.apply_call c (counts lb).
Proof.
  intros (Hwf & Hne & Hm). destruct c as [server|server]; simpl.
  - rewrite OnRequestStarted_free by done. eexists. split; [done|].
    split; [split_and!|]; simpl;
      [by apply wf_started_body|apply started_body_nonempty|done|].
    apply started_body_gmap, Hwf.
  - rewrite OnRequestFinished_free by done. eexists. split; [done|].
    split; [split_and!|]; simpl;
      [by apply wf_finished_body|by apply finished_body_nonempty|done|].
    apply finished_body_gmap, Hwf.
Qed.

Lemma run_ok cs lb :
  wf lb →
  ∃ lb', run cs lb = Some lb' ∧ wf lb' ∧ counts lb' = LCSpec.run cs (counts lb).
Proof.
  revert lb. induction cs as [|c cs IH]; intros lb Hwf; [by exists lb|].
  destruct (do_call_ok c lb Hwf) as (lb1 & Hc & Hwf1 & Hcounts).
  destruct (IH lb1 Hwf1) as (lb' & Hrun & Hwf' & Hcounts').
  exists lb'. simpl. rewrite Hc. simpl. split_and!; try done.
  by rewrite Hcounts', Hcounts.
Qed.

(** A server that is not tracked has no connection. *)
Lemma count_untracked server lb :
  server ∉ (_connections lb).*1 → LCSpec.count (counts lb) server = 0.
Proof.
  intros Hnotin%get_None. rewrite get_to_gmap in Hnotin.
  unfold LCSpec.count, counts. by rewrite Hnotin.
Qed.

(** The entry [GetNextServer] returns, seen in the counts. *)
Lemma lc_GetNextServer_counts lb :
  wf lb →
  ∃ s v, GetNextServer lb = Some (s, lb) ∧ counts lb !! s = Some v ∧
         ∀ s' v', counts lb !! s' = Some v' → v ≤ v'.
Proof.
  intros ([Hnd Hall] & Hne & Hm).
  destruct (lc_GetNextServer_spec lb Hne) as (i & s & v & Hi & Hcall & Hmin & _).
  exists s, v. unfold counts. split_and!; [done| |].
  - rewrite <-get_to_gmap. by eapply get_lookup.
  - intros s' v' Hs'. rewrite <-get_to_gmap in Hs'.
    apply get_Some_elem_of, list_elem_of_lookup_1 in Hs' as [j Hj].
    apply (Hmin j _ Hj).
Qed.

(** ** Theorems of the component *)

(** C37: the constructor throws [runtime_error] exactly on the empty
    vector.  Otherwise the object satisfies the class invariant and tracks
    exactly the servers of the vector, each with count zero; a server
    named twice is tracked once. *)
Theorem make_counts servers :
  (servers = [] → make servers = Throw (runtime_error "server list is emply")) ∧
  (servers ≠ [] → ∃ lb, make servers = Ok lb ∧ wf lb ∧
     ∀ s, counts lb !! s = if decide (s ∈ servers) then Some 0 else None).
Proof.
  split; [by intros ->|]. intros Hne.
  exists (mk (init_map [] servers) false). split_and!.
  - by destruct servers.
  - split_and!; [|by apply init_map_nonempty|done].
    apply wf_init_map. split; constructor.
  - intros s. unfold counts. simpl.
    by rewrite lookup_init_map by constructor.
Qed.

(** C3: on an object that satisfies the invariant, [GetNextServer] is
    defined, does not change the object, and returns a tracked server whose
    count is the minimum of all counts. *)
Theorem GetNextServer_least lb :
  wf lb → ∃ s, GetNextServer lb = Some (s, lb) ∧ LCSpec.least (counts lb) s.
Proof.
  intros (s & v & Hcall & Hv & Hmin)%lc_GetNextServer_counts.
  exists s. split; [done|]. by exists v.
Qed.

(** C11: among the servers of least count, [GetNextServer] returns the one
    that the map iterates first: every entry before the returned one has a
    strictly greater count. *)
Theorem GetNextServer_first lb s lb' :
  wf lb → GetNextServer lb = Some (s, lb') →
  ∃ i v, _connections lb !! i = Some (s, v) ∧
    ∀ j s' v', _connections lb !! j = Some (s', v') → (j < i)%nat → v < v'.
Proof.
  intros (_ & Hne & _) Hcall.
  destruct (lc_GetNextServer_spec lb Hne) as (i & s0 & v & Hi & Hcall' & _ & Hfirst).
  rewrite Hcall' in Hcall. simplify_eq. exists i, v. split; [done|].
  intros j s' v' Hj. apply (Hfirst j _ Hj).
Qed.

(** C25: [OnRequestStarted] returns with the mutex released, keeps the class
    invariant and refines [LCSpec.started]: the count of the server goes up
    by one modulo [2^64] and no other count changes. *)
Theorem OnRequestStarted_refines server lb :
  wf lb →
  ∃ lb', OnRequestStarted server lb = Some lb' ∧ wf lb' ∧ _mtx lb' = false ∧
         counts lb' = LCSpec.started server (counts lb) ∧
         ∀ s, s ≠ server →
              LCSpec.count (counts lb') s = LCSpec.count (counts lb) s.
Proof.
  intros Hwf.
  destruct (do_call_ok (LCSpec.Started server) lb Hwf) as (lb' & Hc & Hwf' & Hcnt).
  exists lb'. split_and!; [done..|apply Hwf'|done|].
  intros s Hs. rewrite Hcnt. simpl. rewrite LCSpec.count_started. by case_decide.
Qed.

(** C26: [OnRequestFinished] returns with the mutex released, keeps the class
    invariant and refines [LCSpec.finished]: a positive count goes down by
    one, a count of zero stays zero, and no other count changes. *)
Theorem OnRequestFinished_refines server lb :
  wf lb →
  ∃ lb', OnRequestFinished server lb = Some lb' ∧ wf lb' ∧ _mtx lb' = false ∧
         counts lb' = LCSpec.finished server (counts lb) ∧
         ∀ s, s ≠ server →
              LCSpec.count (counts lb') s = LCSpec.count (counts lb) s.
Proof.
  intros Hwf.
  destruct (do_call_ok (LCSpec.Finished server) lb Hwf) as (lb' & Hc & Hwf' & Hcnt).
  exists lb'. split_and!; [done..|apply Hwf'|done|].
  intros s Hs. rewrite Hcnt. simpl. rewrite LCSpec.count_finished. by case_decide.
Qed.

(** C7: any sequence of [OnRequestStarted] and [OnRequestFinished] calls
    returns, keeps the class invariant (so every count stays between zero
    and [SIZE_MAX], whatever the number of finishes) and refines the same
    sequence on [LCSpec]. *)
Theorem run_refines cs lb :
  wf lb →
  ∃ lb', run cs lb = Some lb' ∧ wf lb' ∧
         counts lb' = LCSpec.run cs (counts lb) ∧
         Forall (λ e, 0 ≤ e.2 ≤ SIZE_MAX) (_connections lb').
Proof.
  intros (lb' & Hrun & Hwf' & Hcounts)%(run_ok cs).
  exists lb'. split_and!; [done..|apply Hwf'].
Qed.

(** After any sequence of calls in which no prefix finishes more
    requests of [server] than it started (nor starts [2^64] of them), the
    count of [server] is its count before plus the number of its requests
    in flight. *)
Theorem run_in_flight cs lb server :
  wf lb →
  (∀ k, 0 ≤ LCSpec.count (counts lb) server + LCSpec.net server (take k cs)
        ≤ SIZE_MAX) →
  ∃ lb', run cs lb = Some lb' ∧
    LCSpec.count (counts lb') server =
    LCSpec.count (counts lb) server + LCSpec.net server cs.
Proof.
  intros Hwf Hpre. destruct (run_ok cs lb Hwf) as (lb' & Hrun & _ & Hc).
  exists lb'. split; [done|]. rewrite Hc. apply LCSpec.run_count; [|done].
  apply wf_bounded, Hwf.
Qed.

(** C36: a start followed by a finish on a tracked server restores the
    object, entry for entry, unless the count was [SIZE_MAX]. *)
Theorem start_finish_roundtrip server lb :
  wf lb → server ∈ (_connections lb).*1 →
  LCSpec.count (counts lb) server < SIZE_MAX →
  ∃ lb1, OnRequestStarted server lb = Some lb1 ∧
         OnRequestFinished server lb1 = Some lb.
Proof.
  intros Hwf Hin Hlt.
  destruct (do_call_ok (LCSpec.Started server) lb Hwf) as (lb1 & H1 & Hwf1 & Hc1).
  destruct (do_call_ok (LCSpec.Finished server) lb1 Hwf1) as (lb2 & H2 & Hwf2 & Hc2).
  simpl in *. exists lb1. split; [done|]. rewrite H2. f_equal.
  rewrite OnRequestStarted_free in H1 by apply Hwf.
  rewrite OnRequestFinished_free in H2 by apply Hwf1. simplify_eq/=.
  destruct lb as [m mtx]. destruct Hwf as (Hm & _ & Hmtx). simpl in *. subst.
  f_equal. symmetry. apply eq_of_keys_gmap; [apply Hm| |].
  - rewrite finished_body_keys, started_body_keys; [done..|].
    by rewrite started_body_keys.
  - unfold counts in *. simpl in *. rewrite Hc2, Hc1.
    rewrite LCSpec.finished_started; [|by apply wf_bounded|done].
    apply get_is_Some in Hin as [v Hv]. rewrite get_to_gmap in Hv.
    symmetry. apply insert_id. unfold LCSpec.count. by rewrite Hv.
Qed.

(** C38: [OnRequestStarted] on a count of [SIZE_MAX] wraps it to zero. *)
Theorem OnRequestStarted_overflow server lb :
  wf lb → counts lb !! server = Some SIZE_MAX →
  ∃ lb', OnRequestStarted server lb = Some lb' ∧ counts lb' !! server = Some 0.
Proof.
  intros Hwf Hmax.
  destruct (do_call_ok (LCSpec.Started server) lb Hwf) as (lb' & H1 & _ & Hc).
  exists lb'. split; [done|]. rewrite Hc. simpl. unfold LCSpec.started, LCSpec.count.
  rewrite Hmax, lookup_insert_eq. simpl. f_equal.
Qed.

(** C9: the accounting calls do not reject a server that is not tracked.
    [OnRequestStarted] inserts it with count one and [OnRequestFinished]
    inserts it with count zero; every other count is unchanged. *)
Theorem unknown_server_inserted server lb :
  wf lb → server ∉ (_connections lb).*1 →
  (∃ lb', OnRequestStarted server lb = Some lb' ∧
          counts lb' = <[server := 1]> (counts lb) ∧
          (_connections lb').*1 ≡ₚ server :: (_connections lb).*1) ∧
  (∃ lb', OnRequestFinished server lb = Some lb' ∧
          counts lb' = <[server := 0]> (counts lb) ∧
          (_connections lb').*1 ≡ₚ server :: (_connections lb).*1).
Proof.
  intros Hwf Hnotin. pose proof (count_untracked _ _ Hnotin) as Hzero.
  split.
  - destruct (do_call_ok (LCSpec.Started server) lb Hwf) as (lb' & H1 & _ & Hc).
    simpl in *.
    exists lb'. split_and!; [done|by rewrite Hc; unfold LCSpec.started; rewrite Hzero|].
    rewrite OnRequestStarted_free in H1 by apply Hwf. simplify_eq/=.
    unfold started_body. rewrite index_absent by done.
    by rewrite keys_assign, keys_place.
  - destruct (do_call_ok (LCSpec.Finished server) lb Hwf) as (lb' & H1 & _ & Hc).
    simpl in *. exists lb'. split_and!; [done| |].
    + rewrite Hc. unfold LCSpec.finished. rewrite Hzero. by case_decide.
    + rewrite OnRequestFinished_free in H1 by apply Hwf. simplify_eq/=.
      unfold finished_body. rewrite index_absent by done.
      rewrite decide_False by lia. by rewrite keys_place.
Qed.

(** C39: when every tracked server has a connection, a stray
    [OnRequestFinished] for a name that was never in the pool makes that
    name the answer of the next [GetNextServer]. *)
Theorem unknown_server_selected server lb :
  wf lb → server ∉ (_connections lb).*1 →
  (∀ s v, counts lb !! s = Some v → 0 < v) →
  ∃ lb', OnRequestFinished server lb = Some lb' ∧
         GetNextServer lb' = Some (server, lb').
Proof.
  intros Hwf Hnotin Hbusy.
  destruct (do_call_ok (LCSpec.Finished server) lb Hwf) as (lb' & Hfin & Hwf' & Hc).
  simpl in *. exists lb'. split; [done|].
  destruct (lc_GetNextServer_counts lb' Hwf') as (s & v & Hcall & Hv & Hmin).
  destruct (decide (s = server)) as [->|Hne]; [done|].
  rewrite Hc in Hv, Hmin. unfold LCSpec.finished in Hv, Hmin.
  rewrite (count_untracked _ _ Hnotin), decide_False in Hv, Hmin by lia.
  rewrite lookup_insert_ne in Hv by done.
  specialize (Hmin server 0). rewrite lookup_insert_eq in Hmin.
  specialize (Hmin eq_refl). specialize (Hbusy _ _ Hv). lia.
Qed.

(** [GetNextServer] does not take the mutex: it answers while the mutex
    is held, where [OnRequestStarted] and [OnRequestFinished] do not
    return. *)
Theorem GetNextServer_without_mutex m server :
  m ≠ [] →
  is_Some (GetNextServer (mk m true)) ∧
  fst <$> GetNextServer (mk m true) = fst <$> GetNextServer (mk m false) ∧
  OnRequestStarted server (mk m true) = None ∧
  OnRequestFinished server (mk m true) = None.
Proof.
  intros Hne.
  destruct (lc_GetNextServer_spec (mk m true) Hne) as (i & s & v & Hi & Hcall & _).
  destruct (lc_GetNextServer_spec (mk m false) Hne) as (i' & s' & v' & Hi' & Hcall' & _).
  split_and!; [by eexists| |done..].
  rewrite Hcall, Hcall'. simpl. f_equal.
  unfold GetNextServer in Hcall, Hcall'. simpl in *.
  destruct (m !! min_element comp m); by simplify_eq/=.
Qed.

End theorems.

(** The class meets the contract of [Iface]; the pool is what the map
    tracks at the time of the call. *)
#[export] Instance balancer_ok `{Layout} : LoadBalancerOk t.
Proof.
  refine {| lb_inv := wf; lb_pool := λ lb, (_connections lb).*1 |}.
  - intros lb (s & v & Hcall & _)%lc_GetNextServer_counts. by eexists.
  - intros lb x lb' Hwf Hcall.
    destruct (lc_GetNextServer_counts lb Hwf) as (s & v & Hcall' & Hv & _).
    change (GetNextServer lb = Some (x, lb')) in Hcall.
    rewrite Hcall' in Hcall. simplify_eq. split_and!; [done..|].
    unfold counts in Hv. rewrite <-get_to_gmap in Hv.
    apply get_is_Some. by eexists.
Defined.


#[export] Instance wf_dec lb : Decision (wf lb).
Proof. unfold wf. apply _. Defined.

(** Which of several servers of least count is returned depends on the
    layout of the map and not on the order of the pool: on a fresh balancer
    over [A, B, C] the answer is [C] when new entries are iterated first
    and [A] when they are iterated last. *)
Theorem tie_break_depends_on_layout :
  (λ lb, fst <$> GetNextServer lb) <$>
    make (H:=front_layout) ["A"; "B"; "C"]%string = Ok (Some "C"%string) ∧
  (λ lb, fst <$> GetNextServer lb) <$>
    make (H:=back_layout) ["A"; "B"; "C"]%string = Ok (Some "A"%string).
Proof. by vm_compute. Qed.

(** ** Witnesses and examples *)

(** The counts of the example of the specification, in insertion order. *)
Definition lb3 : t :=
  mk [("A"%string, 2); ("B"%string, 1); ("C"%string, 0)] false.

Lemma wf_lb3 : wf lb3.
Proof. apply (bool_decide_unpack _). by vm_compute. Qed.

Definition lb_busy : t := mk [("A"%string, 1)] false.

Lemma wf_lb_busy : wf lb_busy.
Proof. apply (bool_decide_unpack _). by vm_compute. Qed.

Definition lb_full : t := mk [("A"%string, SIZE_MAX)] false.

Lemma wf_lb_full : wf lb_full.
Proof. apply (bool_decide_unpack _). by vm_compute. Qed.

Lemma GetNextServer_least_witness :
  ∃ s, GetNextServer lb3 = Some (s, lb3) ∧ LCSpec.least (counts lb3) s.
Proof. exact (GetNextServer_least lb3 wf_lb3). Defined.

Lemma GetNextServer_first_witness :
  ∃ i v, _connections lb3 !! i = Some ("C"%string, v) ∧
    ∀ j s' v', _connections lb3 !! j = Some (s', v') → (j < i)%nat → v < v'.
Proof. exact (GetNextServer_first lb3 "C" lb3 wf_lb3 eq_refl). Defined.

Lemma OnRequestStarted_refines_witness :
  ∃ lb', OnRequestStarted (H:=front_layout) "B" lb3 = Some lb' ∧ wf lb' ∧
         _mtx lb' = false ∧
         counts lb' = LCSpec.started "B" (counts lb3) ∧
         ∀ s, s ≠ "B"%string →
              LCSpec.count (counts lb') s = LCSpec.count (counts lb3) s.
Proof. exact (OnRequestStarted_refines "B" lb3 wf_lb3). Defined.

Lemma OnRequestFinished_refines_witness :
  ∃ lb', OnRequestFinished (H:=front_layout) "C" lb3 = Some lb' ∧ wf lb' ∧
         _mtx lb' = false ∧
         counts lb' = LCSpec.finished "C" (counts lb3) ∧
         ∀ s, s ≠ "C"%string →
              LCSpec.count (counts lb') s = LCSpec.count (counts lb3) s.
Proof. exact (OnRequestFinished_refines "C" lb3 wf_lb3). Defined.

Definition calls3 : list LCSpec.call :=
  [LCSpec.Finished "C"; LCSpec.Started "C"; LCSpec.Finished "A";
   LCSpec.Finished "C"; LCSpec.Finished "C"]%string.

Lemma run_refines_witness :
  ∃ lb', run (H:=front_layout) calls3 lb3 = Some lb' ∧ wf lb' ∧
         counts lb' = LCSpec.run calls3 (counts lb3) ∧
         Forall (λ e, 0 ≤ e.2 ≤ SIZE_MAX) (_connections lb').
Proof. exact (run_refines calls3 lb3 wf_lb3). Defined.

Definition calls_paired : list LCSpec.call :=
  [LCSpec.Started "B"; LCSpec.Started "A"; LCSpec.Finished "B"]%string.

Lemma calls_paired_prefixes k :
  0 ≤ LCSpec.count (counts lb3) "B" + LCSpec.net "B" (take k calls_paired)
    ≤ SIZE_MAX.
Proof. by destruct k as [|[|[|[|k]]]]; vm_compute. Qed.

Lemma run_in_flight_witness :
  ∃ lb', run (H:=front_layout) calls_paired lb3 = Some lb' ∧
    LCSpec.count (counts lb') "B" =
    LCSpec.count (counts lb3) "B" + LCSpec.net "B" calls_paired.
Proof. exact (run_in_flight calls_paired lb3 "B" wf_lb3 calls_paired_prefixes). Defined.

Lemma A_in_lb3 : "A"%string ∈ (_connections lb3).*1.
Proof. by apply (bool_decide_unpack _). Qed.

Lemma A_below_max : LCSpec.count (counts lb3) "A" < SIZE_MAX.
Proof. by vm_compute. Qed.

Lemma start_finish_roundtrip_witness :
  ∃ lb1, OnRequestStarted (H:=front_layout) "A" lb3 = Some lb1 ∧
         OnRequestFinished (H:=front_layout) "A" lb1 = Some lb3.
Proof. exact (start_finish_roundtrip "A" lb3 wf_lb3 A_in_lb3 A_below_max). Defined.

Lemma OnRequestStarted_overflow_witness :
  ∃ lb', OnRequestStarted (H:=front_layout) "A" lb_full = Some lb' ∧
         counts lb' !! "A"%string = Some 0.
Proof. exact (OnRequestStarted_overflow "A" lb_full wf_lb_full eq_refl). Defined.

Lemma ghost_not_in_lb_busy : "ghost"%string ∉ (_connections lb_busy).*1.
Proof. by apply (bool_decide_unpack _). Qed.

Lemma unknown_server_inserted_witness :
  (∃ lb', OnRequestStarted (H:=front_layout) "ghost" lb_busy = Some lb' ∧
          counts lb' = <["ghost"%string := 1]> (counts lb_busy) ∧
          (_connections lb').*1 ≡ₚ "ghost"%string :: (_connections lb_busy).*1) ∧
  (∃ lb', OnRequestFinished (H:=front_layout) "ghost" lb_busy = Some lb' ∧
          counts lb' = <["ghost"%string := 0]> (counts lb_busy) ∧
          (_connections lb').*1 ≡ₚ "ghost"%string :: (_connections lb_busy).*1).
Proof.
  exact (unknown_server_inserted "ghost" lb_busy wf_lb_busy ghost_not_in_lb_busy).
Defined.

Lemma lb_busy_all_busy s v : counts lb_busy !! s = Some v → 0 < v.
Proof.
  unfold counts. rewrite <-get_to_gmap. simpl.
  destruct (decide ("A"%string = s)); [by intros [= <-]|done].
Qed.

Lemma unknown_server_selected_witness :
  ∃ lb', OnRequestFinished (H:=front_layout) "ghost" lb_busy = Some lb' ∧
         GetNextServer lb' = Some ("ghost"%string, lb').
Proof.
  exact (unknown_server_selected "ghost" lb_busy wf_lb_busy ghost_not_in_lb_busy
           lb_busy_all_busy).
Defined.

Lemma GetNextServer_without_mutex_witness :
  is_Some (GetNextServer (mk (_connections lb3) true)) ∧
  fst <$> GetNextServer (mk (_connections lb3) true) =
    fst <$> GetNextServer (mk (_connections lb3) false) ∧
  OnRequestStarted (H:=front_layout) "A" (mk (_connections lb3) true) = None ∧
  OnRequestFinished (H:=front_layout) "A" (mk (_connections lb3) true) = None.
Proof.
  refine (GetNextServer_without_mutex (_connections lb3) "A" _). done.
Defined.

(** The example of the specification, with entries kept in insertion
    order: three starts, a selection, two finishes. *)
Example spec_example :
  make (H:=back_layout) ["A"; "B"; "C"]%string =
    Ok (mk [("A"%string, 0); ("B"%string, 0); ("C"%string, 0)] false) ∧
  run (H:=back_layout)
    [LCSpec.Started "A"; LCSpec.Started "B"; LCSpec.Started "A"]%string
    (mk [("A"%string, 0); ("B"%string, 0); ("C"%string, 0)] false) = Some lb3 ∧
  GetNextServer lb3 = Some ("C"%string, lb3) ∧
  run (H:=back_layout) [LCSpec.Finished "A"; LCSpec.Finished "A"]%string lb3 =
    Some (mk [("A"%string, 0); ("B"%string, 1); ("C"%string, 0)] false).
Proof. by vm_compute. Qed.

(** A third finish of [A] is absorbed: the count stays at zero. *)
Example extra_finish_absorbed :
  _connections <$> run (H:=back_layout)
    [LCSpec.Finished "A"; LCSpec.Finished "A"; LCSpec.Finished "A"]%string lb3 =
  Some [("A"%string, 0); ("B"%string, 1); ("C"%string, 0)].
Proof. by vm_compute. Qed.

(** A server named twice in the pool is tracked once. *)
Example duplicate_server_merged :
  _connections <$> make (H:=back_layout) ["A"; "B"; "A"]%string =
  Ok [("A"%string, 0); ("B"%string, 0)].
Proof. by vm_compute. Qed.

End LeastConnection.
