(* ===== verification/Dispatch.v ===== *)
(** * Requests sent through the tracking interface

    The specification has a routing layer that asks the interface for
    the next server and reports the start of the request.  [Module
    Dispatch] is that caller, one request after the other: each request
    reports its start before the next server is asked for.  It is
    written from the specification, not from the repository, whose only
    callers are [main], which asks, and [simulate], which reports the
    start and the end from a thread of its own while [main] goes on;
    these are [MainLC] and [Workers].

    [TrackerOk] is what an implementation of the interface promises a
    caller, in the terms of [LCSpec]; the theorems of the section
    [client] are proved from it alone, and [tracker_ok] discharges it for
    [LeastConnection].  The theorem: requests sent to a balancer whose
    counts are zero are spread evenly, no server ever having two requests
    more than another ([dispatch_balanced]). *)

From Stdlib Require Import ZArith Lia.
From stdpp Require Import base tactics option list strings gmap.
From S2P Require Import Prelude Iface ConnMap LeastConnLB.

#[local] Open Scope Z_scope.

Module Dispatch.

(** ** The contract of the tracking interface *)

(** On an object that satisfies the invariant, [GetNextServer] returns a
    server of least count and leaves the object as it is, and
    [OnRequestStarted] returns and does on the counts what [LCSpec]
    says. *)
Class TrackerOk (St : Type) `{Track.ILoadBalancer St} : Type := {
  tr_inv : St → Prop;
  tr_counts : St → gmap string Z;
  tr_bounded s : tr_inv s → LCSpec.bounded (tr_counts s);
  tr_select s :
    tr_inv s →
    ∃ x, Track.GetNextServer s = Some (x, s) ∧ LCSpec.least (tr_counts s) x;
  tr_started x s :
    tr_inv s →
    ∃ s', Track.OnRequestStarted x s = Some s' ∧ tr_inv s' ∧
          tr_counts s' = LCSpec.started x (tr_counts s);
}.

(** ** Counts that are spread evenly *)

(** No server has two connections more than another. *)
Definition balanced (m : gmap string Z) : Prop :=
  ∀ x y v w, m !! x = Some v → m !! y = Some w → v ≤ w + 1.

(** No server has more than [k] connections. *)
Definition at_most (k : Z) (m : gmap string Z) : Prop :=
  map_Forall (λ _ v, v ≤ k) m.

Lemma at_most_weaken k k' m : k ≤ k' → at_most k m → at_most k' m.
Proof.
  intros Hk Hm. eapply map_Forall_impl; [done|]. intros ? v ?. simpl in *. lia.
Qed.

(** A request started on a server of least count keeps the counts
    spread evenly. *)
Lemma started_least m x k :
  LCSpec.bounded m → balanced m → at_most k m → k < SIZE_MAX →
  LCSpec.least m x →
  LCSpec.count (LCSpec.started x m) x = LCSpec.count m x + 1 ∧
  balanced (LCSpec.started x m) ∧ at_most (k + 1) (LCSpec.started x m).
Proof.
  intros Hbd Hbal Hk Hmax (v & Hv & Hmin).
  pose proof (Hbd x v Hv) as Hr. pose proof (Hk x v Hv) as Hvk. simpl in *.
  assert (LCSpec.count m x = v) as Hc by (unfold LCSpec.count; by rewrite Hv).
  assert (wrap (v + 1) = v + 1) as Hw by (apply wrap_small; size_lia).
  unfold LCSpec.started. rewrite Hc, Hw. split_and!.
  - unfold LCSpec.count. by rewrite lookup_insert_eq.
  - intros y z a b [[-> <-]|[? Hy]]%lookup_insert_Some
                   [[-> <-]|[? Hz]]%lookup_insert_Some; [lia|..].
    + specialize (Hmin _ _ Hz). lia.
    + specialize (Hbal _ _ _ _ Hy Hv). lia.
    + by eapply Hbal.
  - apply map_Forall_insert_2; [lia|]. by apply (at_most_weaken k); [lia|].
Qed.

(** ** The caller *)

Section client.
Context `{Track.ILoadBalancer St}.
Implicit Types (s : St) (n : nat) (x : string) (xs : list string).

(** One request: the server [GetNextServer] returns, and the object
    after the call of [OnRequestStarted] for it. *)
Definition dispatch s : option (string * St) :=
  '(x, s1) ← Track.GetNextServer s;
  s2 ← Track.OnRequestStarted x s1;
  Some (x, s2).

(** [n] requests in a row, with the servers in the order they were
    chosen. *)
Fixpoint dispatches n s : option (list string * St) :=
  match n with
  | O => Some ([], s)
  | S n =>
      '(x, s1) ← dispatch s;
      '(xs, s2) ← dispatches n s1;
      Some (x :: xs, s2)
  end.

Context `{!TrackerOk St}.

(** One request from an object whose counts are spread evenly. *)
Lemma dispatch_ok s k :
  tr_inv s → balanced (tr_counts s) → at_most k (tr_counts s) → k < SIZE_MAX →
  ∃ x s', dispatch s = Some (x, s') ∧ tr_inv s' ∧
          LCSpec.least (tr_counts s) x ∧
          tr_counts s' = LCSpec.started x (tr_counts s) ∧
          balanced (tr_counts s') ∧ at_most (k + 1) (tr_counts s').
Proof.
  intros Hinv Hbal Hk Hmax.
  destruct (tr_select s Hinv) as (x & Hsel & Hleast).
  destruct (tr_started x s Hinv) as (s' & Hst & Hinv' & Hc).
  destruct (started_least _ x k (tr_bounded s Hinv) Hbal Hk Hmax Hleast)
    as (_ & Hbal' & Hk').
  exists x, s'. unfold dispatch. rewrite Hsel. simpl. rewrite Hst, Hc.
  by split_and!.
Qed.

(** The requests a count has seen. *)
Lemma count_started_occ m x y :
  LCSpec.bounded m → LCSpec.count m x < SIZE_MAX →
  LCSpec.count (LCSpec.started x m) y =
  LCSpec.count m y + Z.of_nat (length (filter (y =.) [x])).
Proof.
  intros Hbd Hx. pose proof (LCSpec.count_range m x Hbd).
  rewrite LCSpec.count_started, wrap_small by size_lia.
  rewrite filter_cons, filter_nil.
  destruct (decide (x = y)) as [->|]; [by rewrite decide_True|].
  rewrite decide_False by done. simpl. lia.
Qed.

(** [n] requests from an object whose counts are spread evenly and at
    most [k]: the loop is defined, the counts stay spread evenly, and
    each has grown by the requests sent to its server. *)
Lemma dispatches_ok n s k :
  tr_inv s → balanced (tr_counts s) → at_most k (tr_counts s) →
  k + Z.of_nat n ≤ SIZE_MAX →
  ∃ xs s', dispatches n s = Some (xs, s') ∧ tr_inv s' ∧ length xs = n ∧
           balanced (tr_counts s') ∧ at_most (k + Z.of_nat n) (tr_counts s') ∧
           ∀ y, LCSpec.count (tr_counts s') y =
                LCSpec.count (tr_counts s) y + Z.of_nat (length (filter (y =.) xs)).
Proof.
  revert s k. induction n as [|n IH]; intros s k Hinv Hbal Hk Hmax.
  - exists [], s. rewrite Z.add_0_r. split_and!; try done. intros y. simpl. lia.
  - destruct (dispatch_ok s k Hinv Hbal Hk ltac:(lia))
      as (x & s1 & Hd & Hinv1 & (v & Hv & _) & Hc1 & Hbal1 & Hk1).
    destruct (IH s1 (k + 1) Hinv1 Hbal1 Hk1 ltac:(lia))
      as (xs & s2 & Hds & Hinv2 & Hlen & Hbal2 & Hk2 & Hc2).
    exists (x :: xs), s2. simpl. rewrite Hd. simpl. rewrite Hds. simpl.
    replace (k + Z.of_nat (S n)) with (k + 1 + Z.of_nat n) by lia.
    split_and!; [done|done|by rewrite Hlen|done|done|].
    intros y. rewrite Hc2, Hc1, (count_started_occ _ x y (tr_bounded s Hinv)).
    + change (x :: xs) with ([x] ++ xs). rewrite filter_app, length_app. lia.
    + pose proof (Hk x v Hv) as Hvk. unfold LCSpec.count. rewrite Hv. simpl in *. lia.
Qed.

End client.

(** ** [LeastConnection] keeps the contract *)

Section instance.
Context `{UMap.Layout}.
Import LeastConnection.

#[export] Instance tracker_ok : TrackerOk t.
Proof.
  refine {| tr_inv := wf; tr_counts := counts |}.
  - intros lb (Hwf & _). by apply wf_bounded.
  - intros lb Hwf.
    destruct (lc_GetNextServer_counts lb Hwf) as (s & v & Hsel & Hv & Hmin).
    exists s. split; [done|by exists v].
  - intros x lb Hwf.
    destruct (do_call_ok (LCSpec.Started x) lb Hwf) as (lb' & ? & ? & ?). by exists lb'.
Defined.

(** The counts the constructor leaves are zero. *)
Lemma make_zero servers lb x v :
  make servers = Ok lb → counts lb !! x = Some v → v = 0.
Proof.
  intros [_ ->]%lc_make_Ok_inv. unfold counts. simpl.
  rewrite lookup_init_map by constructor.
  change (UMap.to_gmap [] !! x) with (@None Z). by case_decide; intros [= <-].
Qed.

Lemma make_wf servers lb : make servers = Ok lb → wf lb.
Proof.
  intros [Hne ->]%lc_make_Ok_inv.
  split_and!; [|by apply init_map_nonempty|done].
  apply wf_init_map. split; constructor.
Qed.

(** C16: [n] requests sent through a freshly constructed [LeastConnection],
    each reporting its start before the next server is asked for, are
    spread evenly: the loop is defined, the count of a server is the
    number of requests sent to it, and no server has two requests more
    than another. *)
Theorem dispatch_balanced servers lb (n : nat) :
  make servers = Ok lb → Z.of_nat n ≤ SIZE_MAX →
  ∃ xs lb', dispatches n lb = Some (xs, lb') ∧ wf lb' ∧ length xs = n ∧
            balanced (counts lb') ∧
            ∀ s, LCSpec.count (counts lb') s = Z.of_nat (length (filter (s =.) xs)).
Proof.
  intros Hmake Hn.
  destruct (dispatches_ok n lb 0) as (xs & lb' & Hd & Hwf & Hlen & Hbal & _ & Hc).
  - by eapply make_wf.
  - intros x y v w Hx Hy. rewrite (make_zero _ _ _ _ Hmake Hx).
    rewrite (make_zero _ _ _ _ Hmake Hy). lia.
  - intros x v Hx. rewrite (make_zero _ _ _ _ Hmake Hx). simpl. lia.
  - lia.
  - exists xs, lb'. split_and!; [done..|]. intros s. rewrite Hc.
    assert (LCSpec.count (tr_counts lb) s = 0) as ->; [|lia].
    unfold LCSpec.count. destruct (tr_counts lb !! s) as [v|] eqn:Hs; [|done].
    by rewrite (make_zero _ _ _ _ Hmake Hs).
Qed.

End instance.

(** ** Witness: seven requests over three servers *)

(** The balancer the constructor builds over [A], [B], [C] when new
    entries are iterated first. *)
Definition fresh3 : LeastConnection.t :=
  LeastConnection.mk
    (LeastConnection.init_map (H:=UMap.front_layout) [] ["A"; "B"; "C"]%string)
    false.

Lemma dispatch_balanced_witness :
  ∃ xs lb', dispatches (H:=LeastConnection.balancer (H:=UMap.front_layout)) 7 fresh3 =
              Some (xs, lb') ∧
            LeastConnection.wf lb' ∧ length xs = 7%nat ∧
            balanced (LeastConnection.counts lb') ∧
            ∀ s, LCSpec.count (LeastConnection.counts lb') s =
                 Z.of_nat (length (filter (s =.) xs)).
Proof.
  exact (dispatch_balanced (H:=UMap.front_layout) ["A"; "B"; "C"]%string fresh3 7
           eq_refl ltac:(done)).
Defined.

(** The servers of the seven requests. *)
Example dispatch_seven :
  fst <$> dispatches (H:=LeastConnection.balancer (H:=UMap.front_layout)) 7 fresh3 =
  Some ["C"; "B"; "A"; "C"; "B"; "A"; "C"]%string.
Proof. by vm_compute. Qed.

End Dispatch.
