(* ===== verification/Workers.v ===== *)
(** * The workers of [leastconnecitonalgo.cpp], interleaved

    [simulate] calls [OnRequestStarted], prints a line, sleeps, calls
    [OnRequestFinished] and prints a second line.  [main] runs one
    [simulate] per thread on a shared [LeastConnection].  This file is the
    small-step semantics of a pool of such threads: a step is one thread
    doing one thing, and any thread that can do something may be the next.

    The two accounting calls are inlined and cut where another thread
    could come in between if the mutex did not prevent it: taking the
    mutex, evaluating [_connections[server]] and reading through it,
    writing through it, and releasing the mutex.  The mutex is state
    ([_mtx] is the thread that holds it), and taking it is a step that is
    not enabled while it is held.  The two output statements are steps of
    their own, taken outside the critical sections; what they write is
    [LCMain.emits] of [MainLC].

    The theorems: the mutex stays with the threads inside the critical
    sections ([owned], kept by every step whatever the counts); the
    invariant [inv] (the mutex is held by exactly the
    thread that is inside a critical section, and the count of a server is
    its initial count plus the number of workers between their two
    writes), which [inv_spawn] extends to a thread started on the way;
    every count is back at its initial value when all workers are done; a
    state in which some worker is not done has a step; every step is the
    next of the eleven steps of its thread, and an execution that cannot
    go on has taken them all.  One thread on its own against the
    sequential [simulate] is in [Timed]. *)

From Stdlib Require Import ZArith Lia.
From stdpp Require Import base tactics option list strings gmap relations.
From S2P Require Import Prelude ConnMap LeastConnLB.

#[local] Open Scope Z_scope.

Module Conc.
Import UMap.

(** The object the threads share: the map, and who holds the mutex. *)
Record shared : Type := mkShared {
  _connections : list (string * Z);
  _mtx : option nat;
}.

(** Where a worker is in [simulate].  The values carried are the ones the
    thread has read and not yet written back. *)
Inductive pc : Type :=
| Idle
| StartLocked
| StartLoaded (v : Z)
| StartStored
| Started
| Working
| FinishLocked
| FinishTested
| FinishLoaded (v : Z)
| FinishStored
| Finished
| Done.

(** A thread running [simulate(lb, server, duration)]. *)
Record worker : Type := mkWorker {
  server : string;
  duration : Z;
  at_pc : pc;
}.

(** The thread of [w] at position [p]. *)
Definition at_point (w : worker) (p : pc) : worker :=
  mkWorker (server w) (duration w) p.

(** The program: the shared object and the threads, a thread's identifier
    being its position. *)
Record state : Type := mkState {
  sh : shared;
  workers : list worker;
}.

#[export] Instance pc_eq_dec : EqDecision pc.
Proof. solve_decision. Defined.

#[export] Instance worker_eq_dec : EqDecision worker.
Proof. solve_decision. Defined.

(** [std::lock_guard]'s constructor: enabled only while the mutex is free. *)
Definition acquire (tid : nat) (s : shared) : option shared :=
  match _mtx s with
  | None => Some (mkShared (_connections s) (Some tid))
  | Some _ => None
  end.

(** [std::lock_guard]'s destructor. *)
Definition release (s : shared) : shared := mkShared (_connections s) None.

Section sem.
Context `{Layout}.

(** One step of thread [tid]: the shared object and the thread's position
    afterwards, or [None] when the thread cannot move. *)
Definition wstep (tid : nat) (w : worker) (s : shared) : option (shared * pc) :=
  match at_pc w with
  | Idle => s' ← acquire tid s; Some (s', StartLocked)
  | StartLocked =>
      let '(m1, v) := index (server w) (_connections s) in
      Some (mkShared m1 (_mtx s), StartLoaded v)
  | StartLoaded v =>
      Some (mkShared (assign (server w) (size_add v 1) (_connections s)) (_mtx s),
            StartStored)
  | StartStored => Some (release s, Started)
  | Started => Some (s, Working)
  | Working => s' ← acquire tid s; Some (s', FinishLocked)
  | FinishLocked =>
      let '(m1, v) := index (server w) (_connections s) in
      Some (mkShared m1 (_mtx s),
            if decide (v > 0) then FinishTested else FinishStored)
  | FinishTested =>
      let '(m2, v2) := index (server w) (_connections s) in
      Some (mkShared m2 (_mtx s), FinishLoaded v2)
  | FinishLoaded v =>
      Some (mkShared (assign (server w) (size_sub v 1) (_connections s)) (_mtx s),
            FinishStored)
  | FinishStored => Some (release s, Finished)
  | Finished => Some (s, Done)
  | Done => None
  end.

(** One step of the program, taken by thread [tid]. *)
Definition exec (tid : nat) (σ : state) : option state :=
  w ← workers σ !! tid;
  '(s', p') ← wstep tid w (sh σ);
  Some (mkState s' (<[tid := at_point w p']> (workers σ))).

(** The transition relation: some thread takes a step. *)
Definition step (σ σ' : state) : Prop := ∃ tid, exec tid σ = Some σ'.

(** The execution that follows a schedule, first thread first. *)
Fixpoint run (sched : list nat) (σ : state) : option state :=
  match sched with
  | [] => Some σ
  | tid :: sched => σ1 ← exec tid σ; run sched σ1
  end.

End sem.

(** A shared balancer with the map [m] and a free mutex, and one thread per
    request (the server and the duration [simulate] is started with), none
    of which has taken a step. *)
Definition init (m : list (string * Z)) (pool : list (string * Z)) : state :=
  mkState (mkShared m None) ((λ r, mkWorker r.1 r.2 Idle) <$> pool).

(** ** Vocabulary of the invariant *)

(** The thread is inside a critical section. *)
Definition holding (p : pc) : bool :=
  match p with
  | StartLocked | StartLoaded _ | StartStored
  | FinishLocked | FinishTested | FinishLoaded _ | FinishStored => true
  | Idle | Started | Working | Finished | Done => false
  end.

(** The mutex is held by every thread that is inside a critical section. *)
Definition owned (σ : state) : Prop :=
  ∀ i w, workers σ !! i = Some w → holding (at_pc w) = true → _mtx (sh σ) = Some i.

(** The request of the thread is counted in the map: the thread is
    between its increment and its decrement. *)
Definition in_flight (p : pc) : bool :=
  match p with
  | StartStored | Started | Working
  | FinishLocked | FinishTested | FinishLoaded _ => true
  | _ => false
  end.

(** The value the thread has read and will write back from. *)
Definition loaded (p : pc) : option Z :=
  match p with
  | StartLoaded v | FinishLoaded v => Some v
  | _ => None
  end.

(** The steps the thread still has to take. *)
Definition remaining (p : pc) : nat :=
  match p with
  | Idle => 11 | StartLocked => 10 | StartLoaded _ => 9 | StartStored => 8
  | Started => 7 | Working => 6 | FinishLocked => 5 | FinishTested => 4
  | FinishLoaded _ => 3 | FinishStored => 2 | Finished => 1 | Done => 0
  end.

(** What worker [w] adds to the count of server [s]. *)
Definition share (s : string) (w : worker) : Z :=
  if decide (server w = s) then (if in_flight (at_pc w) then 1 else 0) else 0.

(** The requests in flight on server [s]. *)
Definition flying (s : string) (ws : list worker) : Z :=
  foldr (λ w acc, share s w + acc) 0 ws.

(** The count of server [s] in the shared map. *)
Definition cnt (σ : state) (s : string) : Z :=
  LCSpec.count (to_gmap (_connections (sh σ))) s.

Definition all_done (σ : state) : Prop :=
  Forall (λ w, at_pc w = Done) (workers σ).

Definition measure (σ : state) : nat :=
  sum_list_with (λ w, remaining (at_pc w)) (workers σ).

#[export] Instance all_done_dec σ : Decision (all_done σ).
Proof. unfold all_done. apply _. Defined.

(** The map leaves room for [n] more requests on every server. *)
Definition headroom (m : list (string * Z)) (n : nat) : Prop :=
  Forall (λ e, e.2 + Z.of_nat n ≤ SIZE_MAX) m ∧ Z.of_nat n ≤ SIZE_MAX.

#[export] Instance headroom_dec m n : Decision (headroom m n).
Proof. unfold headroom. apply _. Defined.

Arguments flying : simpl never.
Arguments share : simpl never.

(** ** Counting the requests in flight *)

Lemma flying_cons s w ws : flying s (w :: ws) = share s w + flying s ws.
Proof. done. Qed.

Lemma share_range s w : 0 ≤ share s w ≤ 1.
Proof. unfold share. repeat case_match; lia. Qed.

Lemma flying_range s ws : 0 ≤ flying s ws ≤ Z.of_nat (length ws).
Proof.
  induction ws as [|w ws IH]; [done|]. rewrite flying_cons. simpl length.
  pose proof (share_range s w). lia.
Qed.

Lemma share_le_flying s ws i w : ws !! i = Some w → share s w ≤ flying s ws.
Proof.
  revert i. induction ws as [|w0 ws IH]; intros [|i] Hi; simplify_eq/=.
  - pose proof (flying_range s ws). rewrite flying_cons. lia.
  - specialize (IH _ Hi). pose proof (share_range s w0). rewrite flying_cons. lia.
Qed.

(** Moving one worker changes the requests in flight by its share. *)
Lemma flying_insert s ws i w w' :
  ws !! i = Some w →
  flying s (<[i:=w']> ws) = flying s ws - share s w + share s w'.
Proof.
  revert i. induction ws as [|w0 ws IH]; intros [|i] Hi; simplify_eq/=.
  - rewrite !flying_cons. lia.
  - rewrite !flying_cons, (IH _ Hi). lia.
Qed.

Lemma flying_app s ws1 ws2 : flying s (ws1 ++ ws2) = flying s ws1 + flying s ws2.
Proof.
  induction ws1 as [|w ws1 IH]; [done|].
  rewrite <-app_comm_cons, !flying_cons, IH. lia.
Qed.

Lemma flying_init s (pool : list (string * Z)) :
  flying s ((λ r, mkWorker r.1 r.2 Idle) <$> pool) = 0.
Proof.
  induction pool as [|s0 pool IH]; [done|]. rewrite fmap_cons, flying_cons, IH.
  unfold share. simpl. case_decide; lia.
Qed.

Lemma flying_all_done s ws : Forall (λ w, at_pc w = Done) ws → flying s ws = 0.
Proof.
  induction 1 as [|w ws Hw _ IH]; [done|]. rewrite flying_cons, IH.
  unfold share. rewrite Hw. simpl. case_decide; lia.
Qed.

(** ** The effect of the map operations on the counts *)

Section counts.
Context `{Layout}.
Implicit Types (m : list (string * Z)) (k s : string).

Lemma count_index k m s :
  NoDup m.*1 →
  LCSpec.count (to_gmap (index k m).1) s = LCSpec.count (to_gmap m) s.
Proof.
  intros Hnd. rewrite to_gmap_index by done. unfold LCSpec.count.
  rewrite lookup_insert. case_decide; [|done]. subst.
  by destruct (to_gmap m !! s).
Qed.

Lemma count_assign k v m s :
  k ∈ m.*1 →
  LCSpec.count (to_gmap (assign k v m)) s =
  if decide (k = s) then v else LCSpec.count (to_gmap m) s.
Proof.
  intros Hk. rewrite to_gmap_assign by done. unfold LCSpec.count.
  rewrite lookup_insert. by case_decide.
Qed.

Lemma index_snd_count k m : (index k m).2 = LCSpec.count (to_gmap m) k.
Proof. by rewrite index_value, get_to_gmap. Qed.

End counts.

Lemma flying_le s ws i w :
  ws !! i = Some w → flying s ws ≤ Z.of_nat (length ws) - 1 + share s w.
Proof.
  revert i. induction ws as [|w0 ws IH]; intros [|i] Hi; simplify_eq/=;
    rewrite flying_cons.
  - pose proof (flying_range s ws). lia.
  - specialize (IH _ Hi). pose proof (share_range s w0). lia.
Qed.

Lemma loaded_holding p v : loaded p = Some v → holding p = true.
Proof. by destruct p. Qed.

(** ** The steps of one thread *)

Section steps.
Context `{Layout}.
Implicit Types (w : worker) (s : shared) (p : pc) (σ : state).

Lemma exec_Some tid σ σ' :
  exec tid σ = Some σ' ↔
  ∃ w s' p', workers σ !! tid = Some w ∧ wstep tid w (sh σ) = Some (s', p') ∧
             σ' = mkState s' (<[tid := at_point w p']> (workers σ)).
Proof.
  unfold exec. split.
  - destruct (workers σ !! tid) as [w|] eqn:Hw; [simpl|done].
    destruct (wstep tid w (sh σ)) as [[s' p']|] eqn:Hs; [simpl|done].
    intros [= <-]. by eexists _, _, _.
  - intros (w & s' & p' & -> & Hw & ->). simpl. by rewrite Hw.
Qed.

(** What a step does to the mutex: it takes it, keeps it or gives it
    back, and the thread is inside a critical section accordingly. *)
Lemma wstep_mutex tid w s s' p' :
  wstep tid w s = Some (s', p') →
  (holding (at_pc w) = false ∧ _mtx s = None ∧ _mtx s' = Some tid ∧ holding p' = true) ∨
  (holding (at_pc w) = true ∧ holding p' = true ∧ _mtx s' = _mtx s) ∨
  (holding (at_pc w) = true ∧ holding p' = false ∧ _mtx s' = None) ∨
  (holding (at_pc w) = false ∧ holding p' = false ∧ s' = s).
Proof.
  unfold wstep, acquire, release. destruct w as [srv d p], s as [m mtx]. simpl.
  destruct p, mtx; intros; repeat case_match; simplify_eq/=; auto 10.
Qed.

Lemma insert_worker (ws : list worker) tid w i w0 :
  <[tid := w]> ws !! i = Some w0 →
  (i = tid ∧ w0 = w) ∨ (i ≠ tid ∧ ws !! i = Some w0).
Proof. intros [[-> [<- _]]|[? ?]]%list_lookup_insert_Some; auto. Qed.

(** The mutex stays with the threads inside the critical sections. *)
Section owner.
Context (σ : state) (tid : nat) (w : worker) (s' : shared) (p' : pc).
Context (Hown : owned σ) (Hw : workers σ !! tid = Some w).
Context (Hstep : wstep tid w (sh σ) = Some (s', p')).

(** A thread moves while another is inside a critical section only to
    print, which leaves the shared object alone. *)
Lemma wstep_others i w0 :
  i ≠ tid → workers σ !! i = Some w0 → holding (at_pc w0) = true → s' = sh σ.
Proof.
  intros Hne Hi Hh. pose proof (Hown _ _ Hi Hh) as Hm.
  destruct (wstep_mutex _ _ _ _ _ Hstep)
    as [(_ & Hfree & _)|[(Hh' & _)|[(Hh' & _)|(_ & _ & ->)]]];
    [congruence|..|done]; pose proof (Hown _ _ Hw Hh'); congruence.
Qed.

Lemma wstep_owned : owned (mkState s' (<[tid := at_point w p']> (workers σ))).
Proof.
  intros i w0 [[-> ->]|[Hne Hi]]%insert_worker Hh; simpl in *.
  - destruct (wstep_mutex _ _ _ _ _ Hstep)
      as [(_ & _ & ? & _)|[(Hh' & _ & ->)|[(_ & ? & _)|(_ & ? & _)]]];
      [done| |congruence..].
    by apply (Hown _ w).
  - rewrite (wstep_others i w0) by done. by apply (Hown _ w0).
Qed.

End owner.

Lemma wstep_wf tid w s s' p' :
  UMap.wf (_connections s) → wstep tid w s = Some (s', p') →
  UMap.wf (_connections s').
Proof.
  unfold wstep, acquire, release. destruct w as [srv d p], s as [m mtx]. simpl.
  intros Hwf.
  destruct p, mtx; intros; repeat case_match; simplify_eq/=;
    auto using wf_assign, size_add_range, size_sub_range;
    match goal with Hi : index ?k ?m = (?m1, _) |- UMap.wf ?m1 =>
      replace m1 with (index k m).1 by (by rewrite Hi); by apply wf_index end.
Qed.

(** A value that has just been read is the current count, and the entry
    it was read from exists. *)
Lemma wstep_loaded tid w s s' p' v :
  UMap.wf (_connections s) → wstep tid w s = Some (s', p') →
  loaded (at_pc w) = None → loaded p' = Some v →
  v = LCSpec.count (to_gmap (_connections s')) (server w) ∧
  server w ∈ (_connections s').*1.
Proof.
  unfold wstep, acquire, release. destruct w as [srv d p], s as [m mtx]. simpl.
  intros [Hnd _].
  destruct p, mtx; intros; repeat case_match; simplify_eq/=;
    match goal with Hi : index ?k ?m = (?m1, ?v) |- _ =>
      replace m1 with (index k m).1 by (by rewrite Hi);
      replace v with (index k m).2 by (by rewrite Hi)
    end; (split; [by rewrite count_index, index_snd_count|by apply index_in_keys]).
Qed.

(** What a step does to the counts: the count of every server changes by
    the change of the thread's share in it. *)
Lemma wstep_count tid w s s' p' (k : string) :
  UMap.wf (_connections s) → wstep tid w s = Some (s', p') →
  (∀ v, loaded (at_pc w) = Some v →
     v = LCSpec.count (to_gmap (_connections s)) (server w) ∧
     server w ∈ (_connections s).*1) →
  (if in_flight (at_pc w)
   then 0 < LCSpec.count (to_gmap (_connections s)) (server w)
   else LCSpec.count (to_gmap (_connections s)) (server w) + 1 ≤ SIZE_MAX) →
  0 ≤ LCSpec.count (to_gmap (_connections s)) (server w) ≤ SIZE_MAX →
  LCSpec.count (to_gmap (_connections s')) k =
  LCSpec.count (to_gmap (_connections s)) k - share k w
    + share k (at_point w p').
Proof.
  unfold wstep, acquire, release, share.
  destruct w as [srv d p], s as [m mtx]. simpl. intros [Hnd _] Hstep Hld Hfl Hr.
  destruct p; simplify_option_eq; repeat case_match; simplify_eq/=;
    try lia;
    try (match goal with Hi : index ?k0 ?m = (?m1, ?v) |- _ =>
           replace m1 with (index k0 m).1 by (by rewrite Hi);
           assert (v = LCSpec.count (to_gmap m) k0)
             by (by rewrite <-index_snd_count, Hi)
         end; rewrite count_index by done; lia);
    destruct (Hld _ eq_refl) as [-> Hin]; rewrite count_assign by done;
    case_decide; simplify_eq/=; try lia.
  - rewrite size_add_small by lia. lia.
  - rewrite size_sub_small by lia. lia.
Qed.

(** A thread whose server is tracked leaves the keys of the map, and
    their order, as they are. *)
Lemma wstep_keys tid w s s' p' :
  server w ∈ (_connections s).*1 → wstep tid w s = Some (s', p') →
  (_connections s').*1 = (_connections s).*1.
Proof.
  unfold wstep, acquire, release. destruct w as [srv d p], s as [m mtx]. simpl.
  intros [v Hin]%get_is_Some.
  destruct p; intros; simplify_option_eq; rewrite ?(index_present _ _ _ Hin) in *;
    repeat case_match; simplify_eq/=; by rewrite ?keys_assign.
Qed.

(** A step taken while the mutex is held from outside the pool: the
    thread prints, and would do the same were the mutex free. *)
Lemma wstep_outside tid w s s' p' :
  holding (at_pc w) = false → is_Some (_mtx s) → wstep tid w s = Some (s', p') →
  s' = s ∧ wstep tid w (release s) = Some (release s, p').
Proof.
  unfold wstep, acquire, release. destruct w as [srv d p], s as [m mtx]. simpl.
  intros Hh [i ->]. destruct p; intros; by simplify_eq/=.
Qed.

Lemma wstep_remaining tid w s s' p' :
  wstep tid w s = Some (s', p') → (remaining p' < remaining (at_pc w))%nat.
Proof.
  unfold wstep. destruct w as [srv d p]. simpl.
  destruct p; intros; simplify_option_eq; repeat case_match; simplify_eq/=; lia.
Qed.

End steps.

(** ** The invariant *)

Section invariant.
Context `{Layout}.
Variable base : string → Z.
Variable n : nat.
Hypothesis base_nonneg : ∀ k, 0 ≤ base k.
Hypothesis no_overflow : ∀ k, base k + Z.of_nat n ≤ SIZE_MAX.
Implicit Types (w : worker) (p : pc) (σ : state) (k : string).

(** [base] is the count of every server before the first request, [n] the
    number of threads. *)
Record inv (σ : state) : Prop := {
  inv_size : length (workers σ) = n;
  inv_wf : UMap.wf (_connections (sh σ));
  inv_owner i w :
    workers σ !! i = Some w → holding (at_pc w) = true → _mtx (sh σ) = Some i;
  inv_held i :
    _mtx (sh σ) = Some i →
    ∃ w, workers σ !! i = Some w ∧ holding (at_pc w) = true;
  inv_count k : cnt σ k = base k + flying k (workers σ);
  inv_loaded i w v :
    workers σ !! i = Some w → loaded (at_pc w) = Some v →
    v = cnt σ (server w) ∧ server w ∈ (_connections (sh σ)).*1;
}.

(** Only the thread that holds the mutex is inside a critical section. *)
Lemma inv_exclusive σ i j wi wj :
  inv σ → workers σ !! i = Some wi → workers σ !! j = Some wj →
  holding (at_pc wi) = true → holding (at_pc wj) = true → i = j.
Proof.
  intros Hinv Hi Hj Hhi Hhj.
  pose proof (inv_owner _ Hinv _ _ Hi Hhi). pose proof (inv_owner _ Hinv _ _ Hj Hhj).
  congruence.
Qed.

Lemma inv_count_range σ k : inv σ → 0 ≤ cnt σ k ≤ SIZE_MAX.
Proof.
  intros Hinv. rewrite (inv_count _ Hinv).
  pose proof (flying_range k (workers σ)). rewrite (inv_size _ Hinv) in *.
  specialize (base_nonneg k). specialize (no_overflow k). lia.
Qed.

(** The side conditions of [wstep_count] follow from the invariant. *)
Lemma inv_flight_count σ i w :
  inv σ → workers σ !! i = Some w →
  if in_flight (at_pc w) then 0 < cnt σ (server w)
  else cnt σ (server w) + 1 ≤ SIZE_MAX.
Proof.
  intros Hinv Hi. rewrite (inv_count _ Hinv).
  pose proof (share_le_flying (server w) _ _ _ Hi) as Hle.
  pose proof (flying_le (server w) _ _ _ Hi) as Hge.
  rewrite (inv_size _ Hinv) in Hge. unfold share in *.
  rewrite decide_True in * by done.
  specialize (base_nonneg (server w)). specialize (no_overflow (server w)).
  destruct (in_flight (at_pc w)); lia.
Qed.

Section preservation.
Context (σ : state) (tid : nat) (w : worker) (s' : shared) (p' : pc).
Context (Hinv : inv σ) (Hw : workers σ !! tid = Some w).
Context (Hstep : wstep tid w (sh σ) = Some (s', p')).

Let σ' : state := mkState s' (<[tid := at_point w p']> (workers σ)).

Lemma next_worker i w0 :
  workers σ' !! i = Some w0 →
  (i = tid ∧ w0 = at_point w p') ∨ (i ≠ tid ∧ workers σ !! i = Some w0).
Proof. apply insert_worker. Qed.

Lemma others_outside i w0 :
  i ≠ tid → workers σ !! i = Some w0 → holding (at_pc w0) = true → s' = sh σ.
Proof. by apply (wstep_others σ tid w s' p' (inv_owner _ Hinv)). Qed.

Lemma next_owner i w0 :
  workers σ' !! i = Some w0 → holding (at_pc w0) = true → _mtx s' = Some i.
Proof. by apply (wstep_owned σ tid w s' p' (inv_owner _ Hinv)). Qed.

Lemma next_held i :
  _mtx s' = Some i → ∃ w0, workers σ' !! i = Some w0 ∧ holding (at_pc w0) = true.
Proof.
  intros Hm. pose proof (lookup_lt_Some _ _ _ Hw) as Hlt.
  destruct (wstep_mutex _ _ _ _ _ Hstep)
    as [(_ & _ & ? & ?)|[(Hh' & ? & Heq)|[(_ & _ & ?)|(Hh' & _ & ->)]]];
    [| |congruence|].
  - exists (at_point w p'). split; [|done].
    assert (i = tid) as -> by congruence. by apply list_lookup_insert_eq.
  - exists (at_point w p'). split; [|done].
    pose proof (inv_owner _ Hinv _ _ Hw Hh').
    assert (i = tid) as -> by congruence. by apply list_lookup_insert_eq.
  - destruct (inv_held _ Hinv i Hm) as (w0 & Hi & Hh). exists w0. split; [|done].
    unfold σ'. simpl. rewrite list_lookup_insert_ne; [done|]. congruence.
Qed.

Lemma next_count k : cnt σ' k = base k + flying k (workers σ').
Proof.
  unfold σ', cnt. simpl. rewrite (flying_insert _ _ _ w) by done.
  rewrite (wstep_count _ _ _ _ _ k (inv_wf _ Hinv) Hstep).
  - pose proof (inv_count _ Hinv k) as Hc. unfold cnt in Hc. lia.
  - intros v Hv. by apply (inv_loaded _ Hinv tid).
  - by apply (inv_flight_count _ tid).
  - by apply inv_count_range.
Qed.

Lemma next_loaded i w0 v :
  workers σ' !! i = Some w0 → loaded (at_pc w0) = Some v →
  v = cnt σ' (server w0) ∧ server w0 ∈ (_connections s').*1.
Proof.
  intros [[-> ->]|[Hne Hi]]%next_worker Hv; simpl in *.
  - destruct (loaded (at_pc w)) as [v0|] eqn:Hl.
    + unfold wstep in Hstep. destruct w as [srv d []]; simplify_eq/=.
    + by apply (wstep_loaded tid w (sh σ) s' p'); [apply Hinv|..].
  - pose proof (loaded_holding _ _ Hv) as Hh. unfold cnt. simpl.
    rewrite (others_outside i w0) by done. by apply (inv_loaded _ Hinv i).
Qed.

(** A step keeps the invariant. *)
Lemma next_inv : inv σ'.
Proof.
  split.
  - unfold σ'. simpl. by rewrite length_insert, (inv_size _ Hinv).
  - by apply (wstep_wf tid w (sh σ) s' p'); [apply Hinv|].
  - apply next_owner.
  - apply next_held.
  - apply next_count.
  - apply next_loaded.
Qed.

End preservation.

Lemma exec_inv σ tid σ' : inv σ → exec tid σ = Some σ' → inv σ'.
Proof.
  intros Hinv (w & s' & p' & Hw & Hstep & ->)%exec_Some. by eapply next_inv.
Qed.

Lemma step_inv σ σ' : inv σ → step σ σ' → inv σ'.
Proof. intros Hinv [tid Hexec]. by eapply exec_inv. Qed.

Lemma rtc_inv σ σ' : inv σ → rtc step σ σ' → inv σ'.
Proof. induction 2; eauto using step_inv. Qed.

Lemma run_inv sched σ σ' : inv σ → run sched σ = Some σ' → inv σ'.
Proof.
  revert σ. induction sched as [|tid sched IH]; intros σ Hinv; simpl.
  - by intros [= <-].
  - destruct (exec tid σ) as [σ1|] eqn:Hexec; [simpl|done].
    apply IH. by eapply exec_inv.
Qed.

End invariant.

(** Starting one more thread keeps the invariant, for one more thread. *)
Lemma inv_spawn base n σ w :
  inv base n σ → at_pc w = Idle →
  inv base (S n) (mkState (sh σ) (workers σ ++ [w])).
Proof.
  intros Hinv Hw. split; simpl.
  - rewrite length_app, (inv_size _ _ _ Hinv). simpl. lia.
  - apply Hinv.
  - intros i w0 [Hi|[_ Hi]]%lookup_app_Some Hh; [by eapply inv_owner|].
    apply list_lookup_singleton_Some in Hi as [_ <-]. by rewrite Hw in Hh.
  - intros i Hm. destruct (inv_held _ _ _ Hinv i Hm) as (w0 & Hi & Hh).
    exists w0. split; [|done]. by apply lookup_app_l_Some.
  - intros k. pose proof (inv_count _ _ _ Hinv k) as Hc. unfold cnt in *. simpl.
    rewrite flying_app, (flying_cons k w []). unfold share. rewrite Hw.
    simpl. case_decide; change (flying k []) with 0; lia.
  - intros i w0 v [Hi|[_ Hi]]%lookup_app_Some Hv;
      [by eapply (inv_loaded _ _ _ Hinv)|].
    apply list_lookup_singleton_Some in Hi as [_ <-]. by rewrite Hw in Hv.
Qed.

(** ** Progress and termination *)

Section progress.
Context `{Layout}.
Implicit Types (w : worker) (s : shared) (p : pc) (σ : state).

(** Inside a critical section a thread can always move. *)
Lemma wstep_holding tid w s : holding (at_pc w) = true → is_Some (wstep tid w s).
Proof.
  unfold wstep. destruct w as [srv d p]. simpl.
  destruct p; intros; simplify_eq/=; repeat case_match; by eexists.
Qed.

(** While the mutex is free every thread that is not done can move. *)
Lemma wstep_free tid w s :
  _mtx s = None → at_pc w ≠ Done → holding (at_pc w) = false →
  is_Some (wstep tid w s).
Proof.
  unfold wstep, acquire. destruct w as [srv d p]. simpl. intros -> ??.
  destruct p; simplify_eq/=; by eexists.
Qed.

Lemma exec_is_Some tid σ w :
  workers σ !! tid = Some w → is_Some (wstep tid w (sh σ)) → is_Some (exec tid σ).
Proof. intros Hw [[s' p'] Hs]. unfold exec. rewrite Hw. simpl. by rewrite Hs. Qed.

(** Every step uses up one of the steps that remain. *)
Lemma exec_measure tid σ σ' : exec tid σ = Some σ' → (measure σ' < measure σ)%nat.
Proof.
  intros (w & s' & p' & Hw & Hstep & ->)%exec_Some. unfold measure. simpl.
  pose proof (sum_list_with_insert (λ w, remaining (at_pc w)) _ _ _
                (at_point w p') Hw) as Hsum.
  pose proof (wstep_remaining _ _ _ _ _ Hstep). simpl in *. lia.
Qed.

Lemma run_measure sched σ σ' :
  run sched σ = Some σ' → (length sched + measure σ' ≤ measure σ)%nat.
Proof.
  revert σ. induction sched as [|tid sched IH]; intros σ; simpl.
  - intros [= <-]. lia.
  - destruct (exec tid σ) as [σ1|] eqn:Hexec; [simpl|done].
    intros Hrun%IH. apply exec_measure in Hexec. lia.
Qed.

Lemma measure_init m pool : measure (init m pool) = (11 * length pool)%nat.
Proof.
  unfold measure, init. simpl. induction pool as [|k pool IH]; [done|].
  rewrite fmap_cons. simpl. rewrite IH. lia.
Qed.

Lemma run_rtc sched σ σ' : run sched σ = Some σ' → rtc step σ σ'.
Proof.
  revert σ. induction sched as [|tid sched IH]; intros σ; simpl.
  - by intros [= <-].
  - destruct (exec tid σ) as [σ1|] eqn:Hexec; [simpl|done].
    intros Hrun. eapply rtc_l; [by exists tid|by apply IH].
Qed.

Lemma run_app sched1 sched2 σ σ1 σ2 :
  run sched1 σ = Some σ1 → run sched2 σ1 = Some σ2 →
  run (sched1 ++ sched2) σ = Some σ2.
Proof.
  revert σ. induction sched1 as [|tid sched1 IH]; intros σ; simpl.
  - by intros [= <-].
  - destruct (exec tid σ) as [σ'|]; [simpl|done]. apply IH.
Qed.

End progress.

Section theorems.
Context `{Layout}.
Variable base : string → Z.
Variable n : nat.
Hypothesis base_nonneg : ∀ k, 0 ≤ base k.
Hypothesis no_overflow : ∀ k, base k + Z.of_nat n ≤ SIZE_MAX.
Implicit Types (w : worker) (s : shared) (p : pc) (σ : state).

(** A state that satisfies the invariant and in which some worker is not
    done has a step: the threads never block each other for good. *)
Lemma inv_progress σ : inv base n σ → ¬ all_done σ → ∃ tid, is_Some (exec tid σ).
Proof.
  intros Hinv Hnot. destruct (_mtx (sh σ)) as [i|] eqn:Hm.
  - destruct (inv_held _ _ _ Hinv i Hm) as (w & Hw & Hh).
    exists i. eapply exec_is_Some; [done|]. by apply wstep_holding.
  - apply not_Forall_Exists in Hnot; [|apply _].
    apply Exists_exists in Hnot as (w & Hin & Hnd).
    apply list_elem_of_lookup_1 in Hin as [i Hw].
    exists i. eapply exec_is_Some; [done|]. apply wstep_free; [done..|].
    destruct (holding (at_pc w)) eqn:Hh; [|done].
    pose proof (inv_owner _ _ _ Hinv _ _ Hw Hh). congruence.
Qed.

(** A state without a step is one in which every worker has returned. *)
Lemma inv_stuck σ : inv base n σ → (∀ tid, exec tid σ = None) → all_done σ.
Proof.
  intros Hinv Hstuck. destruct (decide (all_done σ)) as [|Hnd]; [done|].
  destruct (inv_progress σ Hinv Hnd) as (tid & σ' & Hexec).
  by rewrite Hstuck in Hexec.
Qed.

(** Under the invariant a step is the next of the eleven steps of
    [simulate]: the count a thread finds in [OnRequestFinished] counts
    the thread itself, so the decrement is never skipped. *)
Lemma wstep_next σ tid w s' p' :
  inv base n σ → workers σ !! tid = Some w → wstep tid w (sh σ) = Some (s', p') →
  remaining (at_pc w) = S (remaining p').
Proof.
  intros Hinv Hw.
  pose proof (inv_flight_count base n base_nonneg no_overflow σ tid w Hinv Hw) as Hc.
  pose proof (index_snd_count (server w) (_connections (sh σ))) as Hv.
  unfold wstep, cnt in *. destruct w as [srv d p]; simpl in *.
  destruct p; intros; simplify_option_eq; repeat case_match; simplify_eq/=;
    done || lia.
Qed.

Lemma exec_next σ tid σ' :
  inv base n σ → exec tid σ = Some σ' → measure σ = S (measure σ').
Proof.
  intros Hinv (w & s' & p' & Hw & Hstep & ->)%exec_Some. unfold measure. simpl.
  pose proof (sum_list_with_insert (λ w, remaining (at_pc w)) _ _ _
                (at_point w p') Hw) as Hsum.
  pose proof (wstep_next _ _ _ _ _ Hinv Hw Hstep). simpl in *. lia.
Qed.

Lemma run_next sched σ σ' :
  inv base n σ → run sched σ = Some σ' →
  (length sched + measure σ')%nat = measure σ.
Proof.
  revert σ. induction sched as [|tid sched IH]; intros σ Hinv; simpl.
  - by intros [= <-].
  - destruct (exec tid σ) as [σ1|] eqn:Hexec; [simpl|done].
    intros Hrun%IH; [|by eapply exec_inv].
    rewrite (exec_next σ tid σ1 Hinv Hexec). simpl. by f_equal.
Qed.

Lemma measure_all_done σ : all_done σ → measure σ = 0%nat.
Proof.
  unfold measure. induction 1 as [|w ws Hw _ IH]; [done|]. simpl.
  by rewrite Hw, IH.
Qed.

(** From every state that satisfies the invariant some schedule brings
    all workers to the end of [simulate]. *)
Lemma inv_completion σ :
  inv base n σ → ∃ sched σ', run sched σ = Some σ' ∧ all_done σ'.
Proof.
  remember (measure σ) as k eqn:Hk. revert σ Hk.
  induction (lt_wf k) as [k _ IH]. intros σ -> Hinv.
  destruct (decide (all_done σ)) as [Hd|Hnd]; [by exists [], σ|].
  destruct (inv_progress σ Hinv Hnd) as (tid & σ1 & Hexec).
  destruct (IH (measure σ1) (exec_measure _ _ _ Hexec) σ1 eq_refl)
    as (sched & σ' & Hrun & Hdone); [by eapply exec_inv|].
  exists (tid :: sched), σ'. simpl. by rewrite Hexec.
Qed.

End theorems.

(** ** The program of [main] *)

Section program.
Context `{Layout}.
Implicit Types (m : list (string * Z)) (pool : list (string * Z)) (σ : state).

Lemma headroom_count m n k :
  UMap.wf m → headroom m n → LCSpec.count (to_gmap m) k + Z.of_nat n ≤ SIZE_MAX.
Proof.
  intros Hwf [Hall Hn]. unfold LCSpec.count. rewrite <-get_to_gmap.
  destruct (get k m) as [v|] eqn:Hg; simpl; [|lia].
  apply get_Some_elem_of in Hg. rewrite Forall_forall in Hall.
  apply (Hall _ Hg).
Qed.

Lemma count_nonneg m k : UMap.wf m → 0 ≤ LCSpec.count (to_gmap m) k.
Proof. intros Hwf%LeastConnection.wf_bounded. by apply (LCSpec.count_range _ k). Qed.

(** The invariant holds before the first step. *)
Lemma inv_init m pool :
  UMap.wf m → inv (LCSpec.count (to_gmap m)) (length pool) (init m pool).
Proof.
  intros Hwf. split; simpl.
  - by rewrite length_fmap.
  - done.
  - intros i w [k [-> _]]%list_lookup_fmap_Some_1. done.
  - done.
  - intros k. unfold cnt. simpl. rewrite flying_init. lia.
  - intros i w v [k [-> _]]%list_lookup_fmap_Some_1. done.
Qed.

(** The invariant holds in every state the program reaches. *)
Lemma inv_reachable m pool σ :
  UMap.wf m → headroom m (length pool) → rtc step (init m pool) σ →
  inv (LCSpec.count (to_gmap m)) (length pool) σ.
Proof.
  intros Hwf Hroom. apply rtc_inv; [intros; by apply count_nonneg| |by apply inv_init].
  intros k. by apply headroom_count.
Qed.

End program.

(** ** Theorems of the component *)

Section claims.
Context `{Layout}.
Implicit Types (m : list (string * Z)) (pool : list (string * Z)) (σ : state).

(** C4: when every worker has returned from [simulate], the count of every
    server is what it was before the first request, whatever the
    interleaving of the threads was. *)
Theorem workers_restore_counts m pool σ :
  UMap.wf m → headroom m (length pool) →
  rtc step (init m pool) σ → all_done σ →
  ∀ k, cnt σ k = LCSpec.count (to_gmap m) k.
Proof.
  intros Hwf Hroom Hrun Hdone k.
  rewrite (inv_count _ _ _ (inv_reachable m pool σ Hwf Hroom Hrun)).
  rewrite flying_all_done by done. lia.
Qed.

(** C8: in every state the threads reach, the count of a server is its
    initial count plus the number of workers on that server that are
    between their increment and their decrement, and it is representable
    in [size_t]. *)
Theorem workers_count_in_flight m pool σ k :
  UMap.wf m → headroom m (length pool) → rtc step (init m pool) σ →
  cnt σ k = LCSpec.count (to_gmap m) k + flying k (workers σ) ∧
  is_size_t (cnt σ k).
Proof.
  intros Hwf Hroom Hrun.
  pose proof (inv_reachable m pool σ Hwf Hroom Hrun) as Hinv.
  split; [apply Hinv|].
  eapply inv_count_range; [| |done]; intros;
    [by apply count_nonneg|by apply headroom_count].
Qed.

(** C19: at most one thread is inside a critical section, and it is the
    thread recorded as the holder of the mutex. *)
Theorem workers_mutual_exclusion m pool σ i j wi wj :
  UMap.wf m → headroom m (length pool) → rtc step (init m pool) σ →
  workers σ !! i = Some wi → workers σ !! j = Some wj →
  holding (at_pc wi) = true → holding (at_pc wj) = true →
  i = j ∧ _mtx (sh σ) = Some i.
Proof.
  intros Hwf Hroom Hrun Hi Hj Hhi Hhj.
  pose proof (inv_reachable m pool σ Hwf Hroom Hrun) as Hinv.
  split; [by eapply inv_exclusive|by eapply inv_owner].
Qed.

(** C23: the threads never block each other: a reachable state in which
    some worker has not returned has a step. *)
Theorem workers_progress m pool σ :
  UMap.wf m → headroom m (length pool) → rtc step (init m pool) σ →
  ¬ all_done σ → ∃ σ', step σ σ'.
Proof.
  intros Hwf Hroom Hrun Hnd.
  destruct (inv_progress _ _ σ (inv_reachable m pool σ Hwf Hroom Hrun) Hnd)
    as (tid & σ' & Hexec).
  by exists σ', tid.
Qed.

(** C24: the threads run to the end of [simulate].  Every step of an
    execution is the next of the eleven steps of its thread (taking the
    mutex, the lookup, the store and the release of each call, and the
    two output statements): no thread finds the count at zero in
    [OnRequestFinished] and skips the decrement.  So the steps taken
    and the steps that remain add up to eleven per worker, and an
    execution that cannot go on, because no thread has a step, is one in
    which every worker has returned after eleven steps each. *)
Theorem workers_terminate m pool sched σ :
  UMap.wf m → headroom m (length pool) →
  run sched (init m pool) = Some σ →
  (length sched + measure σ)%nat = (11 * length pool)%nat ∧
  ((∀ tid, exec tid σ = None) →
   all_done σ ∧ length sched = (11 * length pool)%nat).
Proof.
  intros Hwf Hroom Hrun.
  pose proof (λ k, count_nonneg m k Hwf) as Hb.
  pose proof (λ k, headroom_count m _ k Hwf Hroom) as Hn.
  pose proof (run_next _ _ Hb Hn _ _ _ (inv_init m pool Hwf) Hrun) as Hlen.
  rewrite measure_init in Hlen. split; [done|]. intros Hstuck.
  assert (all_done σ) as Hdone
    by (eapply inv_stuck; [..|done]; [done..|by eapply run_inv, Hrun; [..|apply inv_init]]).
  split; [done|]. rewrite (measure_all_done σ Hdone) in Hlen. lia.
Qed.

(** Some schedule brings every worker to the end of [simulate], and
    the counts are then the initial ones. *)
Theorem workers_complete m pool :
  UMap.wf m → headroom m (length pool) →
  ∃ sched σ, run sched (init m pool) = Some σ ∧ all_done σ ∧
             ∀ k, cnt σ k = LCSpec.count (to_gmap m) k.
Proof.
  intros Hwf Hroom.
  destruct (inv_completion (LCSpec.count (to_gmap m)) (length pool))
    with (σ := init m pool) as (sched & σ & Hrun & Hdone);
    [intros; by apply count_nonneg|intros; by apply headroom_count
    |by apply inv_init|].
  exists sched, σ. split_and!; [done..|].
  intros k. rewrite (inv_count _ _ _ (run_inv _ _ 
    (λ k, count_nonneg m k Hwf) (λ k, headroom_count m _ k Hwf Hroom)
    _ _ _ (inv_init m pool Hwf) Hrun)).
  rewrite flying_all_done by done. lia.
Qed.

End claims.

(** ** Witnesses: two requests on the same server *)

Definition m3 : list (string * Z) :=
  [("server1", 0); ("server2", 0); ("server3", 0)]%string.

Definition pool2 : list (string * Z) := [("server1", 100); ("server1", 250)]%string.

(** Thread 0 starts, thread 1 starts and finishes, thread 0 finishes. *)
Definition sched2 : list nat :=
  replicate 5 0%nat ++ replicate 11 1%nat ++ replicate 6 0%nat.

(** Thread 0 is working and thread 1 has read the count. *)
Definition st_mid : state :=
  mkState (mkShared [("server1", 1); ("server2", 0); ("server3", 0)]%string (Some 1%nat))
          [mkWorker "server1" 100 Working; mkWorker "server1" 250 (StartLoaded 1)].

Definition st_end : state :=
  mkState (mkShared m3 None)
          [mkWorker "server1" 100 Done; mkWorker "server1" 250 Done].

Lemma wf_m3 : UMap.wf m3.
Proof. apply (bool_decide_unpack _). by vm_compute. Qed.

Lemma headroom_m3 : headroom m3 (length pool2).
Proof. apply (bool_decide_unpack _). by vm_compute. Qed.

Lemma run_mid : run (take 7 sched2) (init m3 pool2) = Some st_mid.
Proof. by vm_compute. Qed.

Lemma run_end : run sched2 (init m3 pool2) = Some st_end.
Proof. by vm_compute. Qed.

Lemma not_done_mid : ¬ all_done st_mid.
Proof. apply (bool_decide_unpack _). by vm_compute. Qed.

Lemma all_done_end : all_done st_end.
Proof. apply (bool_decide_unpack _). by vm_compute. Qed.

Lemma workers_restore_counts_witness :
  cnt st_end "server1" = LCSpec.count (to_gmap m3) "server1".
Proof.
  exact (workers_restore_counts m3 pool2 st_end wf_m3 headroom_m3
           (run_rtc _ _ _ run_end) all_done_end "server1"%string).
Defined.

Lemma workers_count_in_flight_witness :
  cnt st_mid "server1" =
    LCSpec.count (to_gmap m3) "server1" + flying "server1" (workers st_mid) ∧
  is_size_t (cnt st_mid "server1").
Proof.
  exact (workers_count_in_flight m3 pool2 st_mid "server1" wf_m3 headroom_m3
           (run_rtc _ _ _ run_mid)).
Defined.

Lemma workers_mutual_exclusion_witness :
  1%nat = 1%nat ∧ _mtx (sh st_mid) = Some 1%nat.
Proof.
  exact (workers_mutual_exclusion m3 pool2 st_mid 1 1 _ _ wf_m3 headroom_m3
           (run_rtc _ _ _ run_mid) eq_refl eq_refl eq_refl eq_refl).
Defined.

Lemma workers_progress_witness : ∃ σ', step st_mid σ'.
Proof.
  exact (workers_progress m3 pool2 st_mid wf_m3 headroom_m3
           (run_rtc _ _ _ run_mid) not_done_mid).
Defined.

Lemma stuck_end tid : exec tid st_end = None.
Proof. by destruct tid as [|[|tid]]. Qed.

Lemma workers_terminate_witness :
  (length sched2 + measure st_end)%nat = (11 * length pool2)%nat ∧
  all_done st_end ∧ length sched2 = (11 * length pool2)%nat.
Proof.
  destruct (workers_terminate m3 pool2 sched2 st_end wf_m3 headroom_m3 run_end)
    as [Hsum Hend].
  exact (conj Hsum (Hend stuck_end)).
Defined.

Lemma workers_complete_witness :
  ∃ sched σ, run sched (init m3 pool2) = Some σ ∧ all_done σ ∧
             ∀ k, cnt σ k = LCSpec.count (to_gmap m3) k.
Proof. exact (workers_complete m3 pool2 wf_m3 headroom_m3). Defined.

(** The two threads of [sched2] each take eleven steps, and the count of
    [server1] is two while both are working. *)
Example both_working :
  (λ σ, cnt σ "server1") <$>
    run (replicate 5 0%nat ++ replicate 5 1%nat) (init m3 pool2) = Some 2.
Proof. by vm_compute. Qed.

(** A thread cannot enter while another holds the mutex. *)
Example blocked_on_mutex : exec 0 st_mid = None.
Proof. by vm_compute. Qed.

End Conc.
