(* ===== verification/Linear.v ===== *)
(** * The accounting calls of the worker threads are linearizable

    [OnRequestStarted] and [OnRequestFinished] of [leastconnecitonalgo.cpp]
    take [_mtx] for their whole body.  This file states what that is for:
    whatever the interleaving of the threads of [Workers], the shared map
    is the one the sequential class of [LeastConnLB] reaches by taking
    the same calls one after the other, in the order in which their
    critical sections took effect.

    Each call takes effect at one step of the thread that makes it, its
    linearization point [lin_point]: the write through
    [_connections[server]] and, for an [OnRequestFinished] that finds the
    count at zero, the test.  The [history] of an execution is the list
    of the calls in the order of these steps.  The relation [lrel]
    between the interleaved state and the sequential object says that
    the two maps are equal while the mutex is free, and differ by what
    the thread inside its critical section has done so far ([pending])
    while it is held.  [lin_diagram] is the one-step diagram of
    [Simulation], and [workers_linearizable] its consequence for whole
    executions. *)

From Stdlib Require Import ZArith Lia.
From stdpp Require Import base tactics option list strings gmap.
From S2P Require Import Prelude Simulation ConnMap LeastConnLB Workers.

#[local] Open Scope Z_scope.

Module Lin.
Import UMap Conc.

(** The calls of a thread on [srv] that have taken effect when the
    thread is at [p]. *)
Definition effected (p : pc) (srv : string) : list LCSpec.call :=
  match p with
  | Idle | StartLocked | StartLoaded _ => []
  | StartStored | Started | Working
  | FinishLocked | FinishTested | FinishLoaded _ => [LCSpec.Started srv]
  | FinishStored | Finished | Done => [LCSpec.Started srv; LCSpec.Finished srv]
  end.

Section defs.
Context `{Layout}.

(** The call that takes effect at the step the thread is about to take:
    [_connections[server]++] and [_connections[server]--] at their write,
    and the [if (_connections[server] > 0)] that fails at the test. *)
Definition lin_point (w : worker) (s : shared) : list LCSpec.call :=
  match at_pc w with
  | StartLoaded _ => [LCSpec.Started (server w)]
  | FinishLocked =>
      if decide ((index (server w) (_connections s)).2 > 0) then []
      else [LCSpec.Finished (server w)]
  | FinishLoaded _ => [LCSpec.Finished (server w)]
  | _ => []
  end.

(** The same for the step of thread [tid], with the thread named. *)
Definition lin_step (tid : nat) (σ : state) : list (nat * LCSpec.call) :=
  from_option (λ w, (tid,.) <$> lin_point w (sh σ)) [] (workers σ !! tid).

(** The calls of an execution in the order in which they took effect. *)
Definition history (sched : list nat) (σ : state) : list (nat * LCSpec.call) :=
  trace exec lin_step sched σ.

(** The sequential object takes the call of an event. *)
Definition seq_call (e : nat * LCSpec.call) (lb : LeastConnection.t) :
    option LeastConnection.t :=
  LeastConnection.do_call e.2 lb.

(** The bodies of the two calls, and of a list of calls, on the map. *)
Definition body (c : LCSpec.call) (m : list (string * Z)) : list (string * Z) :=
  match c with
  | LCSpec.Started srv => LeastConnection.started_body srv m
  | LCSpec.Finished srv => LeastConnection.finished_body srv m
  end.

Definition bodies (cs : list LCSpec.call) (m : list (string * Z)) :
    list (string * Z) :=
  foldl (λ m c, body c m) m cs.

(** What the thread inside its critical section has done to the map [m]
    the section started from: evaluated [_connections[server]], which may
    have inserted the key, and read the count. *)
Definition pending (w : worker) (m conc : list (string * Z)) : Prop :=
  match at_pc w with
  | StartLoaded v => conc = (index (server w) m).1 ∧ v = (index (server w) m).2
  | FinishTested => conc = (index (server w) m).1 ∧ (index (server w) m).2 > 0
  | FinishLoaded v =>
      conc = (index (server w) m).1 ∧ v = (index (server w) m).2 ∧ v > 0
  | _ => conc = m
  end.

(** The interleaved state [σ] and the sequential object [lb] that has
    taken the calls [h]. *)
Record lrel (h : list (nat * LCSpec.call)) (σ : state)
    (lb : LeastConnection.t) : Prop := {
  l_free : LeastConnection._mtx lb = false;
  l_wf : UMap.wf (LeastConnection._connections lb);
  l_owner : owned σ;
  l_map : match _mtx (sh σ) with
          | Some i => ∃ w, workers σ !! i = Some w ∧ holding (at_pc w) = true ∧
                           pending w (LeastConnection._connections lb)
                                   (_connections (sh σ))
          | None => _connections (sh σ) = LeastConnection._connections lb
          end;
  l_order : ∀ i w, workers σ !! i = Some w →
                   filter (λ e, e.1 = i) h = (i,.) <$> effected (at_pc w) (server w);
  l_bound : Forall (λ e, e.1 < length (workers σ))%nat h;
}.

End defs.

(** ** The sequential object *)

Section sequential.
Context `{Layout}.
Implicit Types (m : list (string * Z)) (srv : string).

Lemma started_body_index srv m :
  LeastConnection.started_body srv m =
  assign srv (size_add (index srv m).2 1) (index srv m).1.
Proof. unfold LeastConnection.started_body. by destruct (index srv m). Qed.

Lemma finished_body_pos srv m :
  NoDup m.*1 → (index srv m).2 > 0 →
  LeastConnection.finished_body srv m =
  assign srv (size_sub (index srv m).2 1) (index srv m).1.
Proof.
  intros Hnd Hpos. unfold LeastConnection.finished_body.
  destruct (index srv m) as [m1 v] eqn:Hi. simpl in *.
  rewrite decide_True by done.
  replace m1 with (index srv m).1 by (by rewrite Hi).
  rewrite index_idemp by done. by rewrite Hi.
Qed.

Lemma finished_body_zero srv m :
  ¬ (index srv m).2 > 0 → LeastConnection.finished_body srv m = (index srv m).1.
Proof.
  intros Hz. unfold LeastConnection.finished_body.
  destruct (index srv m) as [m1 v]. simpl in *. by rewrite decide_False.
Qed.

Lemma runs_seq_call h lb :
  runs seq_call h lb = LeastConnection.run h.*2 lb.
Proof.
  revert lb. induction h as [|e h IH]; intros lb; simpl; [done|].
  change (seq_call e lb) with (LeastConnection.do_call e.2 lb).
  destruct (LeastConnection.do_call e.2 lb); simpl; [apply IH|done].
Qed.

Lemma runs_tagged (tid : nat) cs lb :
  runs seq_call ((tid,.) <$> cs) lb = LeastConnection.run cs lb.
Proof.
  rewrite runs_seq_call, <-list_fmap_compose. by rewrite list_fmap_id.
Qed.

Lemma run_free cs m :
  LeastConnection.run cs (LeastConnection.mk m false) =
  Some (LeastConnection.mk (bodies cs m) false).
Proof.
  revert m. induction cs as [|[srv|srv] cs IH]; intros m; [done|apply IH..].
Qed.

Lemma wf_bodies cs m : UMap.wf m → UMap.wf (bodies cs m).
Proof.
  revert m. induction cs as [|[srv|srv] cs IH]; intros m Hwf; simpl; [done|..];
    apply IH; simpl;
    [by apply LeastConnection.wf_started_body
    |by apply LeastConnection.wf_finished_body].
Qed.

Lemma bodies_gmap cs m :
  UMap.wf m → to_gmap (bodies cs m) = LCSpec.run cs (to_gmap m).
Proof.
  revert m. induction cs as [|[srv|srv] cs IH]; intros m Hwf; [done|..]; simpl.
  - rewrite IH by (by apply LeastConnection.wf_started_body).
    by rewrite LeastConnection.started_body_gmap by apply Hwf.
  - rewrite IH by (by apply LeastConnection.wf_finished_body).
    by rewrite LeastConnection.finished_body_gmap by apply Hwf.
Qed.

End sequential.

(** ** The events of one thread *)

Lemma filter_tagged (tid i : nat) (cs : list LCSpec.call) :
  filter (λ e : nat * LCSpec.call, e.1 = i) ((tid,.) <$> cs) =
  if decide (tid = i) then (tid,.) <$> cs else [].
Proof.
  induction cs as [|c cs IH]; [by case_decide|].
  rewrite fmap_cons, filter_cons, IH. simpl. by repeat case_decide.
Qed.

Section steps.
Context `{Layout}.
Implicit Types (w : worker) (s : shared) (p : pc) (m : list (string * Z)).

Lemma lin_point_outside w s : holding (at_pc w) = false → lin_point w s = [].
Proof. unfold lin_point. by destruct (at_pc w). Qed.

Lemma pending_outside w m conc :
  holding (at_pc w) = false → pending w m conc ↔ conc = m.
Proof. unfold pending. by destruct (at_pc w). Qed.

(** A step adds its linearization point to the calls of the thread that
    have taken effect. *)
Lemma wstep_effected tid w s s' p' :
  wstep tid w s = Some (s', p') →
  effected (at_pc w) (server w) ++ lin_point w s = effected p' (server w).
Proof.
  unfold wstep, lin_point. destruct w as [srv d p]. simpl.
  destruct p; intros; repeat case_match; simplify_option_eq; done.
Qed.

(** The step of a thread that may touch the map, against the sequential
    object: the calls of its linearization point take the map [m] of the
    object to a map that the thread is as far from as it was. *)
Lemma wstep_pending tid w s s' p' m :
  UMap.wf m → pending w m (_connections s) → wstep tid w s = Some (s', p') →
  pending (at_point w p') (bodies (lin_point w s) m) (_connections s').
Proof.
  intros [Hnd _]. destruct w as [srv d p], s as [conc mtx].
  unfold wstep, pending, lin_point, acquire, release. simpl.
  destruct p, mtx; simpl; intros Hp Hs; destruct_and?; simplify_option_eq;
    rewrite ?started_body_index; try rewrite index_idemp in Hs by done; try done;
    destruct (index srv m) as [m1 v1] eqn:Hi; simpl in *;
    repeat case_decide; simplify_option_eq;
    rewrite ?finished_body_pos, ?finished_body_zero, ?Hi by (rewrite ?Hi; done);
    done.
Qed.

End steps.

(** ** The diagram *)

Section diagram.
Context `{Layout}.
Context (h : list (nat * LCSpec.call)) (σ : state) (lb : LeastConnection.t).
Context (tid : nat) (w : worker) (s' : shared) (p' : pc).
Context (Hrel : lrel h σ lb) (Hw : workers σ !! tid = Some w).
Context (Hstep : wstep tid w (sh σ) = Some (s', p')).

Let σ' : state := mkState s' (<[tid := at_point w p']> (workers σ)).
Let m' : list (string * Z) :=
  bodies (lin_point w (sh σ)) (LeastConnection._connections lb).

Lemma lin_calls :
  runs seq_call (lin_step tid σ) lb = Some (LeastConnection.mk m' false).
Proof.
  unfold lin_step. rewrite Hw. cbn [from_option]. rewrite runs_tagged.
  pose proof (l_free _ _ _ Hrel) as Hfree. destruct lb as [m mtx].
  simpl in Hfree. subst mtx. apply run_free.
Qed.

Lemma lin_order i w0 :
  workers σ' !! i = Some w0 →
  filter (λ e, e.1 = i) (h ++ lin_step tid σ) =
  (i,.) <$> effected (at_pc w0) (server w0).
Proof.
  unfold lin_step. rewrite Hw. cbn [from_option].
  rewrite filter_app, filter_tagged.
  intros [[-> ->]|[Hne Hi]]%insert_worker.
  - rewrite decide_True, (l_order _ _ _ Hrel _ _ Hw), <-fmap_app by done.
    by rewrite (wstep_effected _ _ _ _ _ Hstep).
  - rewrite decide_False, app_nil_r by done. by apply (l_order _ _ _ Hrel).
Qed.

(** The thread that moves prints, or it is the thread the two maps
    differ by, and has the mutex after the step when it is inside a
    critical section. *)
Lemma lin_acting :
  (holding (at_pc w) = false ∧ s' = sh σ) ∨
  (pending w (LeastConnection._connections lb) (_connections (sh σ)) ∧
   _mtx s' = if holding p' then Some tid else None).
Proof.
  pose proof (l_map _ _ _ Hrel) as Hmap.
  destruct (wstep_mutex _ _ _ _ _ Hstep)
    as [(Hh & Hfree & -> & ->)|[(Hh & -> & ->)|[(Hh & -> & ->)|(Hh & _ & ->)]]];
    [right|right|right|by left].
  - rewrite Hfree in Hmap. by rewrite pending_outside.
  - rewrite (l_owner _ _ _ Hrel _ _ Hw Hh) in *.
    destruct Hmap as (w1 & ? & _ & ?). by simplify_eq.
  - rewrite (l_owner _ _ _ Hrel _ _ Hw Hh) in *.
    destruct Hmap as (w1 & ? & _ & ?). by simplify_eq.
Qed.

Lemma lin_map :
  match _mtx s' with
  | Some i => ∃ w0, workers σ' !! i = Some w0 ∧ holding (at_pc w0) = true ∧
                    pending w0 m' (_connections s')
  | None => _connections s' = m'
  end.
Proof.
  pose proof (lookup_lt_Some _ _ _ Hw) as Hlt. unfold m'.
  destruct lin_acting as [[Hout ->]|[Hp ->]].
  - rewrite lin_point_outside by done. simpl.
    pose proof (l_map _ _ _ Hrel) as Hmap.
    destruct (_mtx (sh σ)) as [i|]; [|done].
    destruct Hmap as (w1 & Hi & Hh & Hp). exists w1.
    rewrite list_lookup_insert_ne; [done|]. intros <-. congruence.
  - pose proof (wstep_pending _ _ _ _ _ _ (l_wf _ _ _ Hrel) Hp Hstep) as Hp'.
    destruct (holding p') eqn:Hh'; [|by apply pending_outside in Hp'].
    exists (at_point w p'). split; [by apply list_lookup_insert_eq|done].
Qed.

Lemma lin_bound :
  Forall (λ e, e.1 < length (workers σ'))%nat (h ++ lin_step tid σ).
Proof.
  pose proof (lookup_lt_Some _ _ _ Hw) as Hlt. simpl.
  rewrite length_insert. apply Forall_app_2; [apply (l_bound _ _ _ Hrel)|].
  unfold lin_step. rewrite Hw. simpl. by apply Forall_fmap, Forall_true.
Qed.

End diagram.

Section linearizable.
Context `{Layout}.

(** One step of a thread against the sequential object. *)
Lemma lin_diagram tid σ σ' h lb :
  lrel h σ lb → exec tid σ = Some σ' →
  ∃ lb', runs seq_call (lin_step tid σ) lb = Some lb' ∧
         lrel (h ++ lin_step tid σ) σ' lb'.
Proof.
  intros Hrel (w & s' & p' & Hw & Hs & ->)%exec_Some.
  eexists. split; [by eapply lin_calls|]. split; simpl.
  - done.
  - apply wf_bodies, (l_wf _ _ _ Hrel).
  - by apply wstep_owned; [apply (l_owner _ _ _ Hrel)|..].
  - by eapply lin_map.
  - by eapply lin_order.
  - by apply (lin_bound h σ lb tid w s' p').
Qed.

(** A thread that is started has made no call. *)
Lemma lrel_spawn h σ lb w :
  lrel h σ lb → at_pc w = Idle → lrel h (mkState (sh σ) (workers σ ++ [w])) lb.
Proof.
  intros [Hfree Hwf Hown Hmap Hord Hb] Hw.
  split; simpl; [done..| | | |].
  - intros i w0 [[_ Hi]|[-> <-]]%lookup_snoc_Some Hh; [by eapply Hown|].
    by rewrite Hw in Hh.
  - destruct (_mtx (sh σ)) as [i|]; [|done].
    destruct Hmap as (w0 & Hi & Hh & Hp). exists w0.
    by rewrite lookup_app_l by (by eapply lookup_lt_Some).
  - intros i w0 [[_ Hi]|[-> <-]]%lookup_snoc_Some; [by apply Hord|].
    rewrite Hw. simpl.
    apply filter_none. eapply Forall_impl; [exact Hb|]. simpl. lia.
  - rewrite length_app. eapply Forall_impl; [exact Hb|]. simpl. lia.
Qed.

Lemma lrel_init m pool :
  UMap.wf m → lrel [] (init m pool) (LeastConnection.mk m false).
Proof.
  intros Hwf. split; simpl; [done..| | | |done].
  - intros i w [r [-> _]]%list_lookup_fmap_Some. done.
  - done.
  - intros i w [r [-> _]]%list_lookup_fmap_Some. done.
Qed.

Lemma run_runs sched σ : run sched σ = runs exec sched σ.
Proof.
  revert σ. induction sched as [|tid sched IH]; intros σ; simpl; [done|].
  destruct (exec tid σ); simpl; [apply IH|done].
Qed.

Lemma run_lrel m pool sched σ :
  UMap.wf m → run sched (init m pool) = Some σ →
  lrel (history sched (init m pool)) σ
       (LeastConnection.mk (bodies (history sched (init m pool)).*2 m) false).
Proof.
  intros Hwf Hrun. rewrite run_runs in Hrun.
  destruct (simulation_runs exec seq_call lin_step lrel lin_diagram
              _ _ _ _ _ (lrel_init m pool Hwf) Hrun) as (lb & Hlb & Hrel).
  rewrite runs_seq_call, run_free in Hlb. by simplify_eq/=.
Qed.

End linearizable.

(** ** The theorems *)

Section claims.
Context `{Layout}.
Implicit Types (m : list (string * Z)) (pool : list (string * Z)) (σ : state).

(** C5: the accounting calls are linearizable.  For every interleaving of
    the worker threads, the sequential [LeastConnection] takes the calls
    of the history one after the other, each call returning; whenever
    the mutex is free the shared map is the map of that sequential
    object; and the calls of each thread are in the history in the order
    in which the thread made them, as far as it has come. *)
Theorem workers_linearizable m pool sched σ :
  UMap.wf m → run sched (init m pool) = Some σ →
  ∃ m', LeastConnection.run (history sched (init m pool)).*2
          (LeastConnection.mk m false) = Some (LeastConnection.mk m' false) ∧
        (_mtx (sh σ) = None → _connections (sh σ) = m') ∧
        ∀ tid w, workers σ !! tid = Some w →
                 filter (λ e, e.1 = tid) (history sched (init m pool)) =
                 (tid,.) <$> effected (at_pc w) (server w).
Proof.
  intros Hwf Hrun. pose proof (run_lrel _ _ _ _ Hwf Hrun) as Hrel.
  eexists. split; [apply run_free|]. split; [|apply (l_order _ _ _ Hrel)].
  intros Hfree. pose proof (l_map _ _ _ Hrel) as Hmap. by rewrite Hfree in Hmap.
Qed.

(** Between two critical sections the counts of the shared map are
    the ones the specification [LCSpec] computes from the history: the
    interleaved program refines the map of counts through the order of
    its linearization points. *)
Theorem history_counts m pool sched σ :
  UMap.wf m → run sched (init m pool) = Some σ → _mtx (sh σ) = None →
  to_gmap (_connections (sh σ)) =
  LCSpec.run (history sched (init m pool)).*2 (to_gmap m).
Proof.
  intros Hwf Hrun Hfree. pose proof (l_map _ _ _ (run_lrel _ _ _ _ Hwf Hrun)) as Hmap.
  rewrite Hfree in Hmap. simpl in Hmap. rewrite Hmap. by apply bodies_gmap.
Qed.

End claims.

(** ** The theorems at work *)

(** The history of [sched2]: thread 1 starts and finishes between the
    two calls of thread 0. *)
Example history_sched2 :
  history sched2 (init m3 pool2) =
  [(0%nat, LCSpec.Started "server1"); (1%nat, LCSpec.Started "server1");
   (1%nat, LCSpec.Finished "server1"); (0%nat, LCSpec.Finished "server1")].
Proof. by vm_compute. Qed.

(** While thread 1 is inside its critical section its call is not in
    the history yet. *)
Example history_mid :
  history (take 7 sched2) (init m3 pool2) = [(0%nat, LCSpec.Started "server1")].
Proof. by vm_compute. Qed.

Lemma workers_linearizable_witness :
  ∃ m', LeastConnection.run (history sched2 (init m3 pool2)).*2
          (LeastConnection.mk m3 false) = Some (LeastConnection.mk m' false) ∧
        (_mtx (sh st_end) = None → _connections (sh st_end) = m') ∧
        ∀ tid w, workers st_end !! tid = Some w →
                 filter (λ e, e.1 = tid) (history sched2 (init m3 pool2)) =
                 (tid,.) <$> effected (at_pc w) (server w).
Proof. exact (workers_linearizable m3 pool2 sched2 st_end wf_m3 run_end). Defined.

Lemma history_counts_witness :
  to_gmap (_connections (sh st_end)) =
  LCSpec.run (history sched2 (init m3 pool2)).*2 (to_gmap m3).
Proof. exact (history_counts m3 pool2 sched2 st_end wf_m3 run_end eq_refl). Defined.

End Lin.
