(* ===== verification/MainLC.v ===== *)
(** * [main] of [leastconnecitonalgo.cpp]

    The main thread constructs the balancer over three servers and runs
    sixteen times: [GetNextServer], a thread running [simulate] on the
    answer for a random duration, a pause, [printConnections].  It then
    joins the threads in the order it started them and prints a last line.

    [Module LCMain] is the program as a transition system: the threads of
    [Conc], the position of the main thread ([mpc]) and what has been
    written to [std::cout] ([event], one output statement at a time, with
    [render] for the text).  A step is taken by the main thread or by a
    worker ([label]); the value [std::rand] returns comes with the label.
    [GetNextServer] takes no mutex: its scan is a sequence of steps of
    the main thread, one for each comparison of [std::min_element]
    ([scan_step]), and workers may move between two of them.
    [printConnections] takes the mutex, so it waits for a worker inside a
    critical section and workers wait for it; it prints its heading and
    its lines one step at a time ([print_step]), and the workers, which
    print outside the mutex, may print in between.

    The theorems: the invariant of the program (the map keeps the keys the
    constructor gave it, a count is the number of requests in flight, at
    most sixteen threads exist); every count is zero at the exit; a scan
    that is not interrupted is a call of [GetNextServer] and selects a
    server of least count; the only race is between a comparison of
    the scan and the store of a worker on the same count.  Which
    executions there are (progress, termination, the race, the
    interrupted scan) is in [MainRuns]; what the console shows is in
    [Console]. *)

From Stdlib Require Import ZArith Lia.
From stdpp Require Import base tactics option list strings gmap relations pretty.
From S2P Require Import Prelude Simulation ConnMap LeastConnLB Workers.

#[local] Open Scope Z_scope.

Module LCMain.
Import UMap Conc.

(** ** The console *)

(** One output statement of the program. *)
Inductive event : Type :=
| EvStart (server : string) (duration : Z)
| EvDone (server : string)
| EvHeading
| EvEntry (e : string * Z)
| EvAllCompleted.

#[export] Instance event_eq_dec : EqDecision event.
Proof. solve_decision. Defined.

(** The newline character. *)
Definition nl : string := String (Ascii.ascii_of_nat 10) "".

(** One line of [printConnections]: [" " << it->first << "->" << it->second
    << std::endl]. *)
Definition render_entry (e : string * Z) : string :=
  " " +:+ e.1 +:+ "->" +:+ pretty e.2 +:+ nl.

(** The first output statement of [printConnections]. *)
Definition render_heading : string := "Current connections:" +:+ nl.

(** The output of [printConnections]: the heading and a line for each
    entry, in the order of the iteration. *)
Definition render_connections (entries : list (string * Z)) : string :=
  render_heading +:+ foldr (λ e acc, render_entry e +:+ acc) "" entries.

(** The first output statement of [simulate]. *)
Definition render_start (server : string) (duration : Z) : string :=
  "[START] Request sent to " +:+ server +:+ " (handling for " +:+
  pretty duration +:+ "ms)" +:+ nl.

(** The second output statement of [simulate]. *)
Definition render_done (server : string) : string :=
  "[DONE ] Request completed on " +:+ server +:+ nl.

(** The last output statement of [main]. *)
Definition render_all_completed : string := "All requests completed." +:+ nl.

(** The characters an output statement writes. *)
Definition render (ev : event) : string :=
  match ev with
  | EvStart server duration => render_start server duration
  | EvDone server => render_done server
  | EvHeading => render_heading
  | EvEntry e => render_entry e
  | EvAllCompleted => render_all_completed
  end.

(** What a worker writes with the step it takes from where it is:
    the two output statements of [simulate]. *)
Definition emits (w : worker) : list event :=
  match at_pc w with
  | Started => [EvStart (server w) (duration w)]
  | Finished => [EvDone (server w)]
  | _ => []
  end.

(** ** The main thread *)

(** Where the main thread is.  [i] is the loop counter, [smallest] and
    [first] the two iterators of [std::min_element] and [it] the iterator
    of [printConnections] as positions in the map, [j] the thread that is
    being joined. *)
Inductive mpc : Type :=
| MSelect (i : Z)
| MScan (i : Z) (smallest first : nat)
| MSpawn (i : Z) (server : string)
| MLock (i : Z)
| MPrint (i : Z)
| MEntry (i : Z) (it : nat)
| MUnlock (i : Z)
| MJoin (j : nat)
| MExit.

#[export] Instance mpc_eq_dec : EqDecision mpc.
Proof. solve_decision. Defined.

(** The program: the balancer and the threads, the main thread, the
    console. *)
Record prog : Type := mkProg {
  conc : state;
  at_main : mpc;
  cout : list event;
}.

(** The main thread as a holder of the mutex; the workers are numbered
    from zero in the order they are started. *)
Definition MAIN : nat := 16.

(** [std::vector<std::string> servers]. *)
Definition servers : list string := ["server1"; "server2"; "server3"]%string.

(** The test [i <= 15] of the loop: into the body, or on to the joins. *)
Definition loop_test (i : Z) : mpc :=
  if decide (i ≤ 15) then MSelect i else MJoin 0.

(** [int duration = 100 + (std::rand() % 900)], [r] being what [std::rand]
    returns. *)
Definition duration_of (r : Z) : Z := 100 + Z.rem r 900.

(** One step of the scan of [GetNextServer] over the map as it is when
    the step is taken: the next comparison of [std::min_element], or, at
    the end of the range, [least_load_server->first]. *)
Definition scan_step (m : list (string * Z)) (i : Z) (smallest first : nat) :
    option mpc :=
  match m !! first with
  | Some a =>
      b ← m !! smallest;
      Some (MScan i (if comp a b then first else smallest) (S first))
  | None => e ← m !! smallest; Some (MSpawn i e.1)
  end.

(** One turn of the loop of [printConnections]: the line of the entry
    under the iterator, or, at the end of the range, out of the loop. *)
Definition print_step (m : list (string * Z)) (i : Z) (it : nat) :
    mpc * list event :=
  match m !! it with
  | Some e => (MEntry i (S it), [EvEntry e])
  | None => (MUnlock i, [])
  end.

Section sem.
Context `{Layout}.

(** The state when the loop is entered: the balancer is constructed, no
    thread runs, nothing is printed. *)
Definition init : result prog :=
  lb ← LeastConnection.make servers;
  Ok (mkProg (mkState (mkShared (LeastConnection._connections lb) None) [])
             (loop_test 0) []).

(** One step of the main thread. *)
Definition mstep (r : Z) (σ : prog) : option prog :=
  let c := conc σ in
  let s := sh c in
  match at_main σ with
  | MSelect i => Some (mkProg c (MScan i 0 1) (cout σ))
  | MScan i smallest first =>
      p ← scan_step (_connections s) i smallest first;
      Some (mkProg c p (cout σ))
  | MSpawn i server =>
      let w := mkWorker server (duration_of r) Idle in
      Some (mkProg (mkState s (workers c ++ [w])) (MLock i) (cout σ))
  | MLock i =>
      s' ← acquire MAIN s;
      Some (mkProg (mkState s' (workers c)) (MPrint i) (cout σ))
  | MPrint i => Some (mkProg c (MEntry i 0) (cout σ ++ [EvHeading]))
  | MEntry i it =>
      let '(p, evs) := print_step (_connections s) i it in
      Some (mkProg c p (cout σ ++ evs))
  | MUnlock i =>
      Some (mkProg (mkState (release s) (workers c))
                   (loop_test (i + 1)) (cout σ))
  | MJoin j =>
      match workers c !! j with
      | Some w =>
          if decide (at_pc w = Done)
          then Some (mkProg c (MJoin (S j)) (cout σ)) else None
      | None => Some (mkProg c MExit (cout σ ++ [EvAllCompleted]))
      end
  | MExit => None
  end.

(** One step of worker [tid], with what it prints. *)
Definition wexec (tid : nat) (σ : prog) : option prog :=
  w ← workers (conc σ) !! tid;
  c' ← Conc.exec tid (conc σ);
  Some (mkProg c' (at_main σ) (cout σ ++ emits w)).

(** Who takes a step: the main thread, with the next value of
    [std::rand], or a worker. *)
Inductive label : Type :=
| LMain (r : Z)
| LWorker (tid : nat).

(** [std::rand] returns a value that is not negative. *)
Definition valid (l : label) : Prop :=
  match l with LMain r => 0 ≤ r | LWorker _ => True end.

Definition exec (l : label) (σ : prog) : option prog :=
  match l with
  | LMain r => mstep r σ
  | LWorker tid => wexec tid σ
  end.

(** The transition relation of the program. *)
Definition step (σ σ' : prog) : Prop := ∃ l, valid l ∧ exec l σ = Some σ'.

(** The execution along a sequence of labels. *)
Fixpoint run (ls : list label) (σ : prog) : option prog :=
  match ls with
  | [] => Some σ
  | l :: ls => σ1 ← exec l σ; run ls σ1
  end.

(** [int main()]: the balancer is constructed, which may throw, and the
    program runs along the labels [ls]; when the main thread has come
    to [return 0], the exit status and what is on [std::cout]. *)
Definition main (ls : list label) : result (option (Z * list event)) :=
  σ0 ← init;
  Ok (σ ← run ls σ0;
      if decide (at_main σ = MExit) then Some (0, cout σ) else None).

End sem.

#[export] Instance valid_dec l : Decision (valid l).
Proof. destruct l; apply _. Defined.

(** ** The invariant of the program *)

(** The main thread is inside [printConnections], holding the mutex. *)
Definition main_holds (p : mpc) : bool :=
  match p with MPrint _ | MEntry _ _ | MUnlock _ => true | _ => false end.

(** The threads as they see each other: a mutex held by the main thread
    is a mutex none of them holds. *)
Definition view (σ : prog) : state :=
  if main_holds (at_main σ)
  then mkState (release (sh (conc σ))) (workers (conc σ))
  else conc σ.

(** The number of threads started when the main thread is at [p]. *)
Definition spawned (p : mpc) (n : nat) : Prop :=
  match p with
  | MSelect i | MScan i _ _ | MSpawn i _ => 0 ≤ i ≤ 15 ∧ n = Z.to_nat i
  | MLock i | MPrint i | MEntry i _ | MUnlock i =>
      0 ≤ i ≤ 15 ∧ n = Z.to_nat (i + 1)
  | MJoin j => n = 16%nat ∧ (j ≤ 16)%nat
  | MExit => n = 16%nat
  end.

(** The threads the main thread has joined have returned. *)
Definition joined (p : mpc) (ws : list worker) : Prop :=
  match p with
  | MJoin j => ∀ k w, (k < j)%nat → ws !! k = Some w → at_pc w = Done
  | MExit => Forall (λ w, at_pc w = Done) ws
  | _ => True
  end.

(** Thread [k] is one of those [join] has returned for. *)
Definition waited (p : mpc) (k : nat) : Prop :=
  match p with MJoin j => (k < j)%nat | MExit => True | _ => False end.

(** ** Accesses to the map *)

Inductive access : Type := Read | Write.

(** What the next step of a worker does to the count of its server: the
    lookup of [operator[]], or the store through the reference it
    returned. *)
Definition worker_access (q : pc) : option access :=
  match q with
  | StartLocked | FinishLocked | FinishTested => Some Read
  | StartLoaded _ | FinishLoaded _ => Some Write
  | _ => None
  end.

(** The servers whose count the next step of the main thread reads: the
    two entries a comparison of the scan looks at, the entry
    [printConnections] prints. *)
Definition main_reads (σ : prog) : list string :=
  let m := _connections (sh (conc σ)) in
  match at_main σ with
  | MScan _ smallest first =>
      match m !! first with
      | Some a => a.1 :: (fst <$> option_list (m !! smallest))
      | None => []
      end
  | MEntry _ it => fst <$> option_list (m !! it)
  | _ => []
  end.

Definition conflict (a b : access) : bool :=
  match a, b with Read, Read => false | _, _ => true end.

(** Two threads are about to access the count of the same server and one
    of them writes: the main thread and a worker, or two workers. *)
Definition race (σ : prog) : Prop :=
  (∃ tid w, workers (conc σ) !! tid = Some w ∧
     worker_access (at_pc w) = Some Write ∧ server w ∈ main_reads σ) ∨
  (∃ i j wi wj a b, i ≠ j ∧
     workers (conc σ) !! i = Some wi ∧ workers (conc σ) !! j = Some wj ∧
     server wi = server wj ∧
     worker_access (at_pc wi) = Some a ∧ worker_access (at_pc wj) = Some b ∧
     conflict a b = true).

Section invariant.
Context `{Layout}.
Implicit Types (σ : prog) (w : worker) (p : mpc).

(** The map the constructor builds, and its keys in iteration order. *)
Definition map0 : list (string * Z) := LeastConnection.init_map [] servers.
Definition keys0 : list string := map0.*1.

(** The scan designates an entry of the map, and the thread is started on
    one of its keys. *)
Definition selected (p : mpc) : Prop :=
  match p with
  | MScan _ smallest _ => (smallest < length keys0)%nat
  | MSpawn _ server => server ∈ keys0
  | _ => True
  end.

(** The state [init] returns. *)
Definition start : prog := mkProg (mkState (mkShared map0 None) []) (MSelect 0) [].

Record minv σ : Prop := {
  m_conc : inv (λ _, 0) (length (workers (conc σ))) (view σ);
  m_mutex : main_holds (at_main σ) = true → _mtx (sh (conc σ)) = Some MAIN;
  m_keys : (_connections (sh (conc σ))).*1 = keys0;
  m_pool : Forall (λ w, server w ∈ keys0 ∧ 100 ≤ duration w ≤ 999)
                  (workers (conc σ));
  m_spawned : spawned (at_main σ) (length (workers (conc σ)));
  m_selected : selected (at_main σ);
  m_joined : joined (at_main σ) (workers (conc σ));
}.

Lemma init_start : init = Ok start.
Proof. done. Qed.

Lemma wf_map0 : UMap.wf map0.
Proof. apply LeastConnection.wf_init_map. split; constructor. Qed.

Lemma count_map0 k : LCSpec.count (to_gmap map0) k = 0.
Proof.
  unfold LCSpec.count, map0.
  rewrite LeastConnection.lookup_init_map by constructor.
  by case_decide.
Qed.

Lemma keys0_servers k : k ∈ keys0 ↔ k ∈ servers.
Proof.
  unfold keys0. rewrite <-get_is_Some, get_to_gmap. unfold map0.
  rewrite LeastConnection.lookup_init_map by constructor.
  change (to_gmap [] !! k) with (@None Z).
  case_decide; split; (done || by intros [? ?]).
Qed.

Lemma map0_nonempty : map0 ≠ [].
Proof. by apply LeastConnection.init_map_nonempty. Qed.

Lemma keys0_perm : keys0 ≡ₚ servers.
Proof.
  apply NoDup_Permutation;
    [apply wf_map0|by apply (bool_decide_unpack _)|apply keys0_servers].
Qed.

Lemma length_keys0 : length keys0 = 3%nat.
Proof. by rewrite keys0_perm. Qed.

(** The map the constructor builds has three entries, each with count
    zero. *)
Lemma map0_zero : ∃ k1 k2 k3, map0 = [(k1, 0); (k2, 0); (k3, 0)].
Proof.
  pose proof length_keys0 as Hlen. unfold keys0 in Hlen. rewrite length_fmap in Hlen.
  assert (Forall (λ e, e.2 = 0) map0) as Hall.
  { apply Forall_forall. intros [k v] Hkv. pose proof (count_map0 k) as Hc.
    unfold LCSpec.count in Hc.
    by rewrite <-get_to_gmap, (elem_of_get k v) in Hc by (done || apply wf_map0). }
  destruct map0 as [|[k1 ?] [|[k2 ?] [|[k3 ?] [|]]]]; simplify_eq/=.
  exists k1, k2, k3. repeat (apply Forall_cons in Hall as [? Hall]).
  by simplify_eq/=.
Qed.

Lemma view_free σ : main_holds (at_main σ) = false → view σ = conc σ.
Proof. unfold view. by intros ->. Qed.

Lemma duration_of_range r : 0 ≤ r → 100 ≤ duration_of r ≤ 999.
Proof.
  intros Hr. unfold duration_of. pose proof (Z.rem_bound_pos r 900 Hr). lia.
Qed.

(** The invariant holds when the loop is entered. *)
Lemma minv_start : minv start.
Proof.
  split; simpl; try done.
  - rewrite view_free by done.
    destruct (inv_init map0 [] wf_map0) as [? ? ? ? Hc ?]. split; try done.
    intros k. rewrite Hc. by rewrite count_map0.
Qed.

End invariant.

(** ** Steps of the workers keep the invariant *)

Section workers.
Context `{Layout}.
Implicit Types (σ : prog) (w : worker) (p : mpc).

Lemma workers_view σ : workers (view σ) = workers (conc σ).
Proof. unfold view. by destruct (main_holds (at_main σ)). Qed.

Lemma spawned_le p n : spawned p n → (n ≤ 16)%nat.
Proof. destruct p; simpl; lia. Qed.

Lemma minv_threads σ : minv σ → (length (workers (conc σ)) ≤ 16)%nat.
Proof. intros Hinv. eapply spawned_le, Hinv. Qed.

(** The invariant of [Conc] carries over to the next state of the
    threads. *)
Lemma minv_exec σ tid c' :
  minv σ → Conc.exec tid (view σ) = Some c' →
  inv (λ _, 0) (length (workers (conc σ))) c'.
Proof.
  intros Hinv Hexec. pose proof (minv_threads σ Hinv).
  eapply (exec_inv (λ _, 0)); [done| |apply Hinv|done].
  intros _. size_lia.
Qed.

(** A step of a worker, spelled out. *)
Lemma wexec_Some tid σ σ' :
  wexec tid σ = Some σ' ↔
  ∃ w s' (q : pc),
    workers (conc σ) !! tid = Some w ∧ wstep tid w (sh (conc σ)) = Some (s', q) ∧
    σ' = mkProg (mkState s' (<[tid:=at_point w q]> (workers (conc σ))))
                (at_main σ) (cout σ ++ emits w).
Proof.
  unfold wexec. split.
  - destruct (workers (conc σ) !! tid) as [w|] eqn:Hw; [simpl|done].
    destruct (Conc.exec tid (conc σ)) as [c'|] eqn:Hc; [simpl|done].
    apply exec_Some in Hc as (w0 & s' & q & Hw0 & Hstep & ->). simplify_eq.
    intros [= <-]. by exists w, s', q.
  - intros (w & s' & q & Hw & Hstep & ->). rewrite Hw. simpl.
    by rewrite (proj2 (exec_Some _ _ _) (ex_intro _ w (ex_intro _ s'
                 (ex_intro _ q (conj Hw (conj Hstep eq_refl)))))).
Qed.

(** While the main thread prints, no worker is inside a critical
    section. *)
Lemma printing_outside σ tid w :
  minv σ → main_holds (at_main σ) = true →
  workers (conc σ) !! tid = Some w → holding (at_pc w) = false.
Proof.
  intros Hinv Hm Hw. destruct (holding (at_pc w)) eqn:Hh; [|done].
  rewrite <-workers_view in Hw.
  pose proof (inv_owner _ _ _ (m_conc _ Hinv) _ _ Hw Hh) as Ho.
  unfold view in Ho. by rewrite Hm in Ho.
Qed.

(** A worker's step is a step of the threads as they see each other, and
    it leaves a mutex the main thread holds alone. *)
Lemma wexec_view tid σ σ' :
  minv σ → wexec tid σ = Some σ' →
  Conc.exec tid (view σ) = Some (view σ') ∧ at_main σ' = at_main σ ∧
  _mtx (sh (conc σ')) = (if main_holds (at_main σ) then Some MAIN
                         else _mtx (sh (conc σ'))).
Proof.
  intros Hinv (w & s' & p' & Hw & Hstep & ->)%wexec_Some.
  unfold view at 1 2. simpl.
  destruct (main_holds (at_main σ)) eqn:Hm;
    [|split_and!; [apply exec_Some; by exists w, s', p'|done..]].
  pose proof (m_mutex _ Hinv Hm) as Hmtx.
  destruct (wstep_outside _ _ _ _ _ (printing_outside σ tid w Hinv Hm Hw)
              (mk_is_Some _ _ Hmtx) Hstep) as [-> Hstep'].
  split_and!; [|done..]. apply exec_Some. by exists w, (release (sh (conc σ))), p'.
Qed.

Lemma exec_workers tid (c c' : state) :
  Conc.exec tid c = Some c' →
  ∃ w (q : pc), workers c !! tid = Some w ∧ at_pc w ≠ Done ∧
          workers c' = <[tid:=at_point w q]> (workers c) ∧
          (server w ∈ (_connections (sh c)).*1 →
           (_connections (sh c')).*1 = (_connections (sh c)).*1).
Proof.
  intros (w & s' & p' & Hw & Hstep & ->)%exec_Some. exists w, p'.
  split_and!; [done| |done|intros; by eapply wstep_keys].
  intros Hd. unfold wstep in Hstep. by rewrite Hd in Hstep.
Qed.

Lemma joined_insert p ws tid w (q : pc) :
  ws !! tid = Some w → at_pc w ≠ Done → joined p ws →
  joined p (<[tid:=at_point w q]> ws).
Proof.
  intros Hw Hnd. destruct p; simpl; try done.
  - intros Hj k w0 Hk [[-> _]|[? Hw0]]%list_lookup_insert_Some; [|by eauto].
    by destruct Hnd; eapply Hj.
  - intros Hall. rewrite Forall_lookup in Hall. by destruct Hnd; eapply Hall.
Qed.

(** A step of a worker keeps the invariant. *)
Lemma minv_wexec tid σ σ' : minv σ → wexec tid σ = Some σ' → minv σ'.
Proof.
  intros Hinv Hexec.
  destruct (wexec_view tid σ σ' Hinv Hexec) as (Hview & Hmain & Hmtx).
  pose proof (minv_exec _ _ _ Hinv Hview) as Hconc.
  unfold wexec in Hexec.
  destruct (workers (conc σ) !! tid) as [w|] eqn:Hw; [simpl in Hexec|done].
  destruct (Conc.exec tid (conc σ)) as [c'|] eqn:Hc; simplify_eq/=.
  destruct (exec_workers _ _ _ Hc) as (w0 & p' & Hw0 & Hnd & Hws & Hkeys).
  simplify_eq. pose proof (m_pool _ Hinv) as Hpool.
  pose proof (proj1 (Forall_lookup _ _) Hpool _ _ Hw) as [Hsrv Hdur].
  split; simpl; rewrite ?Hws, ?length_insert; try apply Hinv.
  - done.
  - intros Hm. by rewrite Hm in Hmtx.
  - rewrite Hkeys; [apply Hinv|]. by rewrite (m_keys _ Hinv).
  - by apply Forall_insert.
  - by apply joined_insert; [..|apply Hinv].
Qed.

End workers.

(** ** Steps of the main thread keep the invariant *)

Section main.
Context `{Layout}.
Implicit Types (σ : prog) (w : worker) (p : mpc) (c : state).

(** Open the invariant of a state whose main thread is at a known
    position, and the invariant to prove. *)
Ltac minv_open Hinv :=
  destruct Hinv as [Hconc Hmtx Hkeys Hpool Hsp Hsel Hj];
  split; unfold view in *; simpl in *; try done.

Lemma GetNextServer_tracked (m : list (string * Z)) server lb' :
  LeastConnection.GetNextServer (LeastConnection.mk m false) = Some (server, lb') →
  server ∈ m.*1.
Proof.
  unfold LeastConnection.GetNextServer. simpl.
  destruct (m !! min_element comp m) as [[k v]|] eqn:Hk; intros; simplify_eq/=.
  apply list_elem_of_lookup_2 in Hk. by apply (list_elem_of_fmap_2 fst _ (server, v)).
Qed.

Lemma minv_select c i out :
  minv (mkProg c (MSelect i) out) → minv (mkProg c (MScan i 0 1) out).
Proof. intros Hinv. minv_open Hinv. rewrite length_keys0. lia. Qed.

(** A step of the scan stays in the scan or ends it. *)
Lemma scan_step_pc (m : list (string * Z)) i smallest first p :
  scan_step m i smallest first = Some p →
  (∃ smallest' first', p = MScan i smallest' first') ∨
  (∃ server, p = MSpawn i server).
Proof.
  unfold scan_step. destruct (m !! first); intros; simplify_option_eq; eauto.
Qed.

(** A step of the scan designates an entry of the map, and at the end
    one of its keys. *)
Lemma scan_step_selected (m : list (string * Z)) i smallest first p :
  m.*1 = keys0 → (smallest < length keys0)%nat →
  scan_step m i smallest first = Some p →
  selected p ∧ main_holds p = false ∧ spawned p = spawned (MSelect i) ∧
  joined p = joined (MSelect i).
Proof.
  intros Hkeys Hsm. unfold scan_step.
  assert (length keys0 = length m) as Hlen by (by rewrite <-Hkeys, length_fmap).
  destruct (m !! first) as [a|] eqn:Ha; intros; simplify_option_eq;
    (split; [|done]).
  - apply lookup_lt_Some in Ha. simpl. case_match; lia.
  - rewrite <-Hkeys. by eapply (list_elem_of_fmap_2 fst), list_elem_of_lookup_2.
Qed.

Lemma minv_scan c i smallest first p out :
  minv (mkProg c (MScan i smallest first) out) →
  scan_step (_connections (sh c)) i smallest first = Some p →
  minv (mkProg c p out).
Proof.
  intros Hinv Hstep.
  destruct (scan_step_selected _ _ _ _ _ (m_keys _ Hinv) (m_selected _ Hinv) Hstep)
    as (Hsel' & Hm & Hsp' & Hj').
  destruct Hinv as [Hconc Hmtx Hkeys Hpool Hsp Hsel Hj].
  split; unfold view in *; simpl in *; rewrite ?Hm, ?Hsp', ?Hj'; done.
Qed.

Lemma minv_spawn c i server out d :
  minv (mkProg c (MSpawn i server) out) → 100 ≤ d ≤ 999 →
  minv (mkProg (mkState (sh c) (workers c ++ [mkWorker server d Idle])) (MLock i) out).
Proof.
  intros Hinv Hd. minv_open Hinv.
  - rewrite length_app, Nat.add_1_r. by apply inv_spawn.
  - apply Forall_app. split; [done|]. by constructor.
  - rewrite length_app. simpl. lia.
Qed.

Lemma minv_lock c s' i out :
  minv (mkProg c (MLock i) out) → acquire MAIN (sh c) = Some s' →
  minv (mkProg (mkState s' (workers c)) (MPrint i) out).
Proof.
  intros Hinv. unfold acquire. destruct c as [[m [?|]] ws]; [done|].
  intros [= <-]. by minv_open Hinv.
Qed.

Lemma minv_print c i out ev :
  minv (mkProg c (MPrint i) out) → minv (mkProg c (MEntry i 0) (out ++ [ev])).
Proof. intros Hinv. by minv_open Hinv. Qed.

(** A turn of the loop of [printConnections] stays in [printConnections]. *)
Lemma print_step_pc (m : list (string * Z)) i it p evs :
  print_step m i it = (p, evs) →
  (∃ e, m !! it = Some e ∧ p = MEntry i (S it) ∧ evs = [EvEntry e]) ∨
  (m !! it = None ∧ p = MUnlock i ∧ evs = []).
Proof.
  unfold print_step. destruct (m !! it) as [e|]; intros; simplify_eq; eauto.
Qed.

Lemma minv_entry c i it p evs out :
  minv (mkProg c (MEntry i it) out) →
  print_step (_connections (sh c)) i it = (p, evs) →
  minv (mkProg c p (out ++ evs)).
Proof.
  intros Hinv [(e & _ & -> & ->)|(_ & -> & ->)]%print_step_pc; by minv_open Hinv.
Qed.

Lemma minv_unlock c i out :
  minv (mkProg c (MUnlock i) out) →
  minv (mkProg (mkState (release (sh c)) (workers c)) (loop_test (i + 1)) out).
Proof.
  intros Hinv. unfold loop_test.
  case_decide; minv_open Hinv; lia.
Qed.

Lemma minv_join c j w out :
  minv (mkProg c (MJoin j) out) → workers c !! j = Some w → at_pc w = Done →
  minv (mkProg c (MJoin (S j)) out).
Proof.
  intros Hinv Hw Hd. pose proof (lookup_lt_Some _ _ _ Hw). minv_open Hinv; [lia|].
  intros k w0 Hk Hw0.
  destruct (decide (k = j)) as [->|]; [by simplify_eq|]. apply (Hj k); [lia|done].
Qed.

Lemma minv_exit c j out ev :
  minv (mkProg c (MJoin j) out) → workers c !! j = None →
  minv (mkProg c MExit (out ++ [ev])).
Proof.
  intros Hinv Hw%lookup_ge_None. minv_open Hinv; [lia|].
  apply Forall_lookup. intros k w0 Hw0. apply (Hj k); [|done].
  apply lookup_lt_Some in Hw0. lia.
Qed.

(** A step of the main thread keeps the invariant. *)
Lemma minv_mstep r σ σ' : minv σ → 0 ≤ r → mstep r σ = Some σ' → minv σ'.
Proof.
  intros Hinv Hr. unfold mstep. destruct σ as [c p out]. simpl.
  destruct p; intros; simplify_option_eq; repeat case_match; simplify_eq/=.
  - by apply minv_select.
  - by eapply minv_scan.
  - by apply minv_spawn, duration_of_range.
  - by apply minv_lock.
  - by apply minv_print.
  - by eapply minv_entry.
  - by apply minv_unlock.
  - by eapply minv_join.
  - by eapply minv_exit.
Qed.

End main.

(** Name what a step of the scan or of the loop of [printConnections]
    leads to. *)
Ltac step_inside :=
  try match goal with
      | H : scan_step _ _ _ _ = Some _ |- _ =>
          apply scan_step_pc in H as [(? & ? & ->)|(? & ->)]
      | H : print_step _ _ _ = _ |- _ =>
          apply print_step_pc in H as [(? & _ & -> & ->)|(_ & -> & ->)]
      end.

Section started.
Context `{Layout}.

(** The main thread starts threads and changes none. *)
Lemma mstep_workers r σ σ' :
  mstep r σ = Some σ' →
  ∃ ws, workers (conc σ') = workers (conc σ) ++ ws ∧
        Forall (λ w, at_pc w = Idle) ws.
Proof.
  unfold mstep. destruct σ as [c p out]. simpl.
  destruct p; intros; simplify_option_eq; repeat case_match; simplify_eq/=;
    step_inside; simpl; try (exists []; by rewrite app_nil_r).
  eexists [_]. by split; [|constructor].
Qed.

(** What a step of the main thread writes. *)
Definition memits (σ : prog) : list event :=
  match at_main σ with
  | MPrint _ => [EvHeading]
  | MEntry i it => (print_step (_connections (sh (conc σ))) i it).2
  | MJoin j => if workers (conc σ) !! j is Some _ then [] else [EvAllCompleted]
  | _ => []
  end.

Lemma mstep_cout r σ σ' : mstep r σ = Some σ' → cout σ' = cout σ ++ memits σ.
Proof.
  unfold mstep, memits. destruct σ as [c p out]. simpl.
  destruct p; intros; simplify_option_eq; repeat case_match; simplify_eq/=;
    by rewrite ?app_nil_r.
Qed.

(** A thread [join] has returned for has left [simulate] and takes no
    step. *)
Lemma waited_done σ k w :
  joined (at_main σ) (workers (conc σ)) → waited (at_main σ) k →
  workers (conc σ) !! k = Some w → at_pc w = Done.
Proof.
  destruct (at_main σ); simpl; try done; [by eauto|].
  rewrite Forall_lookup. by eauto.
Qed.

Lemma wexec_waited tid σ σ' :
  joined (at_main σ) (workers (conc σ)) → wexec tid σ = Some σ' →
  ¬ waited (at_main σ) tid.
Proof.
  intros Hj (w & s' & q & Hw & Hstep & _)%wexec_Some Hwait.
  unfold wstep in Hstep. by rewrite (waited_done σ tid w Hj Hwait Hw) in Hstep.
Qed.

(** A step of the main thread returns from the [join] of one thread, or
    leaves the loop of the joins when no thread is left. *)
Lemma mstep_waited r σ σ' k :
  mstep r σ = Some σ' → waited (at_main σ') k →
  waited (at_main σ) k ∨ at_main σ = MJoin k ∨ workers (conc σ) !! k = None.
Proof.
  unfold mstep. destruct σ as [c p out]. simpl.
  destruct p; intros; simplify_option_eq; repeat case_match; simplify_eq/=;
    step_inside; unfold loop_test in *; repeat case_decide; simpl in *;
    try done; try lia.
  - destruct (decide (k = j)) as [->|]; [by right; left|left; lia].
  - destruct (decide (k < j)%nat); [by left|right; right].
    apply lookup_ge_None. etrans; [by eapply lookup_ge_None_1|lia].
Qed.

(** The step to the end of [main] writes the last line. *)
Lemma mstep_exit r σ σ' :
  mstep r σ = Some σ' → at_main σ' = MExit → memits σ = [EvAllCompleted].
Proof.
  unfold mstep, memits. destruct σ as [c p out]. simpl.
  destruct p; intros Hstep; simplify_option_eq; repeat case_match;
    simplify_eq/=; step_inside; unfold loop_test in *; by repeat case_decide.
Qed.

End started.


(** ** Reachable states *)

Section reach.
Context `{Layout}.
Implicit Types (σ : prog) (ls : list label).

Lemma minv_exec_label l σ σ' : minv σ → valid l → exec l σ = Some σ' → minv σ'.
Proof.
  destruct l as [r|tid]; simpl; intros Hinv Hv Hexec;
    [by eapply minv_mstep|by eapply minv_wexec].
Qed.

Lemma minv_step σ σ' : minv σ → step σ σ' → minv σ'.
Proof. intros Hinv (l & Hv & Hexec). by eapply minv_exec_label. Qed.

Lemma minv_rtc σ σ' : minv σ → rtc step σ σ' → minv σ'.
Proof. induction 2; eauto using minv_step. Qed.

(** The invariant holds in every state the program reaches. *)
Lemma minv_reachable σ0 σ : init = Ok σ0 → rtc step σ0 σ → minv σ.
Proof.
  rewrite init_start. intros [= <-]. apply minv_rtc, minv_start.
Qed.

(** [run] is the execution of [Simulation] along [exec]. *)
Lemma main_run_runs ls σ : run ls σ = runs exec ls σ.
Proof.
  revert σ. induction ls as [|l ls IH]; intros σ; simpl; [done|].
  destruct (exec l σ); simpl; [apply IH|done].
Qed.

Lemma main_run_rtc ls σ σ' : Forall valid ls → run ls σ = Some σ' → rtc step σ σ'.
Proof.
  intros Hv. revert σ. induction Hv as [|l ls Hl _ IH]; intros σ; simpl.
  - by intros [= <-].
  - destruct (exec l σ) as [σ1|] eqn:Hexec; [simpl|done].
    intros Hrun. eapply rtc_l; [by exists l|by apply IH].
Qed.

End reach.

(** ** Theorems on the state of the program *)

Section state_claims.
Context `{Layout}.
Implicit Types (σ : prog) (w : worker) (p : mpc).

Lemma cnt_view σ k : cnt (view σ) k = cnt (conc σ) k.
Proof. unfold view, cnt. by destruct (main_holds (at_main σ)). Qed.

Lemma minv_count σ k : minv σ → cnt (conc σ) k = flying k (workers (conc σ)).
Proof.
  intros Hinv. rewrite <-cnt_view, (inv_count _ _ _ (m_conc _ Hinv)).
  by rewrite workers_view.
Qed.

Lemma worker_access_holding (q : pc) a : worker_access q = Some a → holding q = true.
Proof. by destruct q. Qed.

Lemma minv_wf σ : minv σ → UMap.wf (_connections (sh (conc σ))).
Proof.
  intros Hinv. pose proof (inv_wf _ _ _ (m_conc _ Hinv)) as Hwf.
  unfold view in Hwf. by destruct (main_holds (at_main σ)).
Qed.

Lemma minv_nonempty σ : minv σ → _connections (sh (conc σ)) ≠ [].
Proof.
  intros Hinv Hnil. pose proof (m_keys _ Hinv) as Hk. rewrite Hnil in Hk.
  pose proof map0_nonempty. unfold keys0 in Hk. by destruct map0.
Qed.

Lemma minv_length σ : minv σ → length (_connections (sh (conc σ))) = 3%nat.
Proof.
  intros Hinv. by rewrite <-length_keys0, <-(m_keys _ Hinv), length_fmap.
Qed.

(** The main thread reads a count in the scan and in [printConnections]
    only. *)
Lemma reads_scanning σ k :
  k ∈ main_reads σ →
  (∃ i smallest first, at_main σ = MScan i smallest first) ∨
  main_holds (at_main σ) = true.
Proof.
  unfold main_reads.
  destruct (at_main σ); try (by intros ?%elem_of_nil); by eauto.
Qed.

Lemma mstep_scan r c i smallest first out p :
  scan_step (_connections (sh c)) i smallest first = Some p →
  mstep r (mkProg c (MScan i smallest first) out) = Some (mkProg c p out).
Proof. unfold mstep. simpl. by intros ->. Qed.

(** The comparisons of the scan, one after the other on a map that no
    worker changes, compute what [std::min_element] computes. *)
Lemma scan_run r c i out l pre smallest b :
  _connections (sh c) = pre ++ l → (pre ++ l) !! smallest = Some b →
  run (replicate (S (length l)) (LMain r))
      (mkProg c (MScan i smallest (length pre)) out) =
  (e ← (pre ++ l) !! min_element_from comp (smallest, b) (length pre) l;
   Some (mkProg c (MSpawn i e.1) out)).
Proof.
  revert pre smallest b. induction l as [|x l IH]; intros pre sm b Hm Hb.
  - simpl. unfold mstep, scan_step. simpl. rewrite Hm, Hb.
    rewrite (proj2 (lookup_ge_None _ _)) by (rewrite length_app; simpl; lia).
    done.
  - change (replicate (S (length (x :: l))) (LMain r))
      with (LMain r :: replicate (S (length l)) (LMain r)).
    cbn [run exec].
    rewrite (mstep_scan r c i sm (length pre) out
               (MScan i (if comp x b then length pre else sm) (S (length pre))))
      by (unfold scan_step; by rewrite Hm, list_lookup_middle, Hb).
    cbn [mbind option_bind min_element_from fst snd].
    rewrite (cons_middle x pre l), app_assoc in Hm, Hb |- *.
    replace (S (length pre)) with (length (pre ++ [x]))
      by (rewrite length_app; simpl; lia).
    destruct (comp x b); [|by apply IH].
    apply IH; [done|]. rewrite <-app_assoc. by apply list_lookup_middle.
Qed.

(** From the top of the loop body, the main thread alone comes to the
    creation of a thread on the server [GetNextServer] returns. *)
Lemma select_run r c i out n server lb' :
  length (_connections (sh c)) = n →
  LeastConnection.GetNextServer (LeastConnection.mk (_connections (sh c)) false) =
    Some (server, lb') →
  run (replicate (S n) (LMain r)) (mkProg c (MSelect i) out) =
  Some (mkProg c (MSpawn i server) out).
Proof.
  unfold LeastConnection.GetNextServer. simpl.
  destruct (_connections (sh c)) as [|x l] eqn:Hm; [done|].
  intros <- Hcall. simpl in Hcall.
  change (run (replicate (S (length l)) (LMain r))
              (mkProg c (MScan i 0 (length [x])) out) =
          Some (mkProg c (MSpawn i server) out)).
  rewrite (scan_run r c i out l [x] 0 x Hm eq_refl). simpl.
  by destruct (_ !! _) as [e|]; simplify_eq/=.
Qed.

(** At the end of [main] no request is in flight. *)
Lemma minv_exit_count σ k : minv σ → at_main σ = MExit → cnt (conc σ) k = 0.
Proof.
  intros Hinv Hexit. pose proof (m_joined _ Hinv) as Hj. rewrite Hexit in Hj.
  rewrite minv_count by done. by apply flying_all_done.
Qed.

(** C12: when the main thread has reached the end of [main], sixteen
    threads were started and all have returned, the mutex is free, the
    map has the keys the constructor gave it and every count is zero. *)
Theorem main_exit_counts σ0 σ k :
  init = Ok σ0 → rtc step σ0 σ → at_main σ = MExit →
  length (workers (conc σ)) = 16%nat ∧ all_done (conc σ) ∧
  (_connections (sh (conc σ))).*1 = keys0 ∧ cnt (conc σ) k = 0.
Proof.
  intros Hinit Hrun Hexit. pose proof (minv_reachable σ0 σ Hinit Hrun) as Hinv.
  pose proof (m_spawned _ Hinv) as Hn. pose proof (m_joined _ Hinv) as Hj.
  rewrite Hexit in Hn, Hj.
  split_and!; [done|done|apply Hinv|by apply minv_exit_count].
Qed.

(** In every state the program reaches, the count of a server is the
    number of workers on that server between their increment and their
    decrement, which is at most the number of threads started and at
    most sixteen, and the map has the keys the constructor gave it, in
    the order it gave them: no call inserts a server. *)
Theorem main_counts_in_flight σ0 σ k :
  init = Ok σ0 → rtc step σ0 σ →
  cnt (conc σ) k = flying k (workers (conc σ)) ∧
  0 ≤ cnt (conc σ) k ≤ Z.of_nat (length (workers (conc σ))) ≤ 16 ∧
  (_connections (sh (conc σ))).*1 = keys0.
Proof.
  intros Hinit Hrun. pose proof (minv_reachable σ0 σ Hinit Hrun) as Hinv.
  pose proof (minv_threads _ Hinv). rewrite minv_count by done.
  pose proof (flying_range k (workers (conc σ))).
  split_and!; [done|lia..|apply Hinv].
Qed.

(** C30: a scan that no worker interrupts is a call of [GetNextServer]:
    from the top of the loop body, four steps of the main thread alone
    lead to the creation of a thread on the server the call returns on
    the map as it is, which is one of the three servers and has the least
    count of all. *)
Theorem select_alone_least σ0 σ i r :
  init = Ok σ0 → rtc step σ0 σ → at_main σ = MSelect i →
  ∃ server,
    run (replicate 4 (LMain r)) σ =
      Some (mkProg (conc σ) (MSpawn i server) (cout σ)) ∧
    LeastConnection.GetNextServer
      (LeastConnection.mk (_connections (sh (conc σ))) false) =
      Some (server, LeastConnection.mk (_connections (sh (conc σ))) false) ∧
    server ∈ servers ∧
    LCSpec.least (to_gmap (_connections (sh (conc σ)))) server.
Proof.
  intros Hinit Hrun Hsel. pose proof (minv_reachable σ0 σ Hinit Hrun) as Hinv.
  destruct (LeastConnection.lc_GetNextServer_counts
              (LeastConnection.mk (_connections (sh (conc σ))) false))
    as (server & v & Hcall & Hv & Hmin);
    [split_and!; [by apply minv_wf|by apply minv_nonempty|done]|].
  exists server. split_and!; [|done| |by exists v].
  - pose proof (minv_length σ Hinv) as Hlen.
    destruct σ as [c p out]. cbn [at_main conc cout] in *. subst p.
    by apply (select_run r c i out 3 server _ Hlen Hcall).
  - apply keys0_servers. rewrite <-(m_keys _ Hinv). by eapply GetNextServer_tracked.
Qed.

(** C13: the accesses of the workers to a count never race with each other
    nor with [printConnections]: whenever two threads are about to access
    the count of a server and one of them writes, the reader is the main
    thread in the scan of [GetNextServer] and the writer is the worker
    that holds the mutex. *)
Theorem race_only_select σ0 σ :
  init = Ok σ0 → rtc step σ0 σ → race σ →
  ∃ i smallest first tid w,
    at_main σ = MScan i smallest first ∧ workers (conc σ) !! tid = Some w ∧
    worker_access (at_pc w) = Some Write ∧ server w ∈ main_reads σ ∧
    _mtx (sh (conc σ)) = Some tid.
Proof.
  intros Hinit Hrun Hrace. pose proof (minv_reachable σ0 σ Hinit Hrun) as Hinv.
  destruct Hrace as [(tid & w & Hw & Hb & Hin)
                    |(i & j & wi & wj & a & b & Hne & Hi & Hj & _ & Ha & Hb & _)].
  - pose proof (worker_access_holding _ _ Hb) as Hh.
    destruct (reads_scanning σ _ Hin) as [(i & sm & f & Hp)|Hm];
      [|by rewrite (printing_outside σ tid w) in Hh].
    exists i, sm, f, tid, w. split_and!; [done..|].
    rewrite <-(view_free σ) by by rewrite Hp.
    apply (inv_owner _ _ _ (m_conc _ Hinv) _ w); [by rewrite workers_view|done].
  - rewrite <-workers_view in Hi, Hj.
    by destruct Hne; eapply (inv_exclusive _ _ _ i j wi wj (m_conc _ Hinv));
      eauto using worker_access_holding.
Qed.

End state_claims.

(** ** Witnesses: the map of libstdc++, three schedules *)

(** Each worker runs to its end as soon as it is started; [std::rand]
    returns [1000 * i + 7] in iteration [i]. *)
Definition seq_sched : list label :=
  mjoin ((λ i : nat, replicate 12 (LMain (1000 * Z.of_nat i + 7)) ++
                     replicate 11 (LWorker i)) <$> seq 0 16) ++
  replicate 17 (LMain 0).

(** The first worker has read the count of its server when the main
    thread, back in [GetNextServer], comes to its first comparison. *)
Definition race_sched : list label :=
  replicate 13 (LMain 7) ++ replicate 2 (LWorker 0).

(** The first worker is waiting when the main thread comes back to the
    top of the loop body. *)
Definition select_sched : list label :=
  replicate 12 (LMain 7) ++ replicate 5 (LWorker 0).

Definition st_exit : prog := default start (run seq_sched start).
Definition st_race : prog := default start (run race_sched start).
Definition st_select : prog := default start (run select_sched start).

Lemma valid_seq_sched : Forall valid seq_sched.
Proof. apply (bool_decide_unpack _). by vm_compute. Qed.

Lemma valid_race_sched : Forall valid race_sched.
Proof. apply (bool_decide_unpack _). by vm_compute. Qed.

Lemma run_exit : run seq_sched start = Some st_exit.
Proof. by vm_compute. Qed.

Lemma run_race : run race_sched start = Some st_race.
Proof. by vm_compute. Qed.

Lemma reach_exit : rtc step start st_exit.
Proof. exact (main_run_rtc _ _ _ valid_seq_sched run_exit). Qed.

Lemma reach_race : rtc step start st_race.
Proof. exact (main_run_rtc _ _ _ valid_race_sched run_race). Qed.

Lemma reach_select : rtc step start st_select.
Proof.
  apply (main_run_rtc select_sched); [apply (bool_decide_unpack _)|]; by vm_compute.
Qed.

Lemma race_st_race : race st_race.
Proof.
  left. exists 0%nat, (mkWorker "server3" 107 (StartLoaded 0)).
  split_and!; [done..|]. apply (bool_decide_unpack _). by vm_compute.
Qed.

Lemma main_exit_counts_witness :
  length (workers (conc st_exit)) = 16%nat ∧ all_done (conc st_exit) ∧
  (_connections (sh (conc st_exit))).*1 = keys0 ∧ cnt (conc st_exit) "server1" = 0.
Proof. exact (main_exit_counts start st_exit "server1" init_start reach_exit eq_refl). Defined.

Lemma main_counts_in_flight_witness :
  cnt (conc st_race) "server3" = flying "server3" (workers (conc st_race)) ∧
  0 ≤ cnt (conc st_race) "server3" ≤ Z.of_nat (length (workers (conc st_race))) ≤ 16 ∧
  (_connections (sh (conc st_race))).*1 = keys0.
Proof. exact (main_counts_in_flight start st_race "server3" init_start reach_race). Defined.

Lemma select_alone_least_witness :
  ∃ server,
    run (replicate 4 (LMain 7)) st_select =
      Some (mkProg (conc st_select) (MSpawn 1 server) (cout st_select)) ∧
    LeastConnection.GetNextServer
      (LeastConnection.mk (_connections (sh (conc st_select))) false) =
      Some (server, LeastConnection.mk (_connections (sh (conc st_select))) false) ∧
    server ∈ servers ∧
    LCSpec.least (to_gmap (_connections (sh (conc st_select)))) server.
Proof. exact (select_alone_least start st_select 1 7 init_start reach_select eq_refl). Defined.

Lemma race_only_select_witness :
  ∃ i smallest first tid w,
    at_main st_race = MScan i smallest first ∧
    workers (conc st_race) !! tid = Some w ∧
    worker_access (at_pc w) = Some Write ∧ server w ∈ main_reads st_race ∧
    _mtx (sh (conc st_race)) = Some tid.
Proof. exact (race_only_select start st_race init_start reach_race race_st_race). Defined.

End LCMain.
