(* ===== verification/MainRuns.v ===== *)
(** * The executions of [main] of [leastconnecitonalgo.cpp]

    Which executions the program of [MainLC] has.  None is stuck before
    the end of [main]: the main thread waits for the mutex or in a
    [join] only while a worker can move ([main_progress]).  All are
    finite: [cost] bounds the steps that remain, and is 385 at the start
    ([main_terminates]); so an execution that cannot go on is one in
    which [main] has returned ([main_returns]).  One leads to the race between the scan of
    [GetNextServer] and the store of a worker ([select_races]), and one
    to a selection that no state of the map justifies, whatever the
    order of the map ([select_torn]). *)

From Stdlib Require Import ZArith Lia.
From stdpp Require Import base tactics option list strings gmap relations pretty.
From S2P Require Import Prelude Simulation ConnMap LeastConnLB Workers MainLC.

#[local] Open Scope Z_scope.

Module LCRuns.
Import UMap Conc LCMain.

(** ** Progress and termination *)

(** The steps the main thread still takes, and the steps of the threads
    it will still start. *)
Definition main_cost (p : mpc) : nat :=
  match p with
  | MSelect i => Z.to_nat (15 - i) * 23 + 40
  | MScan i _ first => Z.to_nat (15 - i) * 23 + 37 + (3 - first)
  | MSpawn i _ => Z.to_nat (15 - i) * 23 + 36
  | MLock i => Z.to_nat (15 - i) * 23 + 24
  | MPrint i => Z.to_nat (15 - i) * 23 + 23
  | MEntry i it => Z.to_nat (15 - i) * 23 + 19 + (3 - it)
  | MUnlock i => Z.to_nat (15 - i) * 23 + 18
  | MJoin j => 17 - j
  | MExit => 0
  end.

(** The steps the program still takes, at most. *)
Definition cost (σ : prog) : nat := main_cost (at_main σ) + measure (conc σ).

Section progress.
Context `{Layout}.
Implicit Types (σ : prog) (w : worker) (p : mpc) (ls : list label).

Lemma scan_step_is_Some (m : list (string * Z)) i smallest first :
  (smallest < length m)%nat → is_Some (scan_step m i smallest first).
Proof.
  intros [b Hb]%lookup_lt_is_Some. unfold scan_step. rewrite Hb.
  by destruct (m !! first); eexists.
Qed.

Lemma wexec_is_Some tid σ : is_Some (Conc.exec tid (conc σ)) → is_Some (wexec tid σ).
Proof.
  intros [c' Hc]. unfold wexec. rewrite Hc.
  apply exec_Some in Hc as (w & _ & _ & -> & _). by eexists.
Qed.

Lemma worker_step σ : (∃ tid, is_Some (Conc.exec tid (conc σ))) → ∃ σ', step σ σ'.
Proof.
  intros [tid [σ' Hs]%wexec_is_Some]. by exists σ', (LWorker tid).
Qed.

Lemma main_step σ : is_Some (mstep 0 σ) → ∃ σ', step σ σ'.
Proof. intros [σ' Hs]. by exists σ', (LMain 0). Qed.

(** A state that satisfies the invariant and is not the exit has a step:
    the main thread waits only for a worker that can move. *)
Lemma minv_progress σ : minv σ → at_main σ ≠ MExit → ∃ σ', step σ σ'.
Proof.
  intros Hinv Hne. pose proof (minv_threads _ Hinv) as Hlen.
  assert (main_holds (at_main σ) = false → ¬ all_done (conc σ) →
          ∃ σ', step σ σ') as Hworkers.
  { intros Hm Hnd. apply worker_step.
    eapply (inv_progress (λ _, 0)); [|done].
    rewrite <-(view_free σ Hm). apply Hinv. }
  destruct (at_main σ) as [i|i sm f|i srv|i|i|i it|i|j|] eqn:Hp; [..|done];
    try (apply main_step; unfold mstep; rewrite Hp; simpl;
         try destruct (print_step _ _ _); by eexists).
  - apply main_step. unfold mstep. rewrite Hp.
    destruct (scan_step_is_Some (_connections (sh (conc σ))) i sm f) as [p ->];
      [|by eexists].
    pose proof (m_selected _ Hinv) as Hsm. rewrite Hp in Hsm. simpl in Hsm.
    by rewrite (minv_length σ Hinv), <-length_keys0.
  - destruct (_mtx (sh (conc σ))) as [tid|] eqn:Hm.
    + apply Hworkers; [done|]. intros Hall.
      rewrite <-(view_free σ) in Hm by by rewrite Hp.
      destruct (inv_held _ _ _ (m_conc _ Hinv) _ Hm) as (w & Hw & Hh).
      rewrite workers_view in Hw. unfold all_done in Hall.
      rewrite Forall_lookup in Hall. by rewrite (Hall _ _ Hw) in Hh.
    + apply main_step. unfold mstep, acquire. rewrite Hp, Hm. by eexists.
  - destruct (workers (conc σ) !! j) as [w|] eqn:Hw;
      [destruct (decide (at_pc w = Done)) as [Hd|Hnd]|].
    + apply main_step. unfold mstep. rewrite Hp, Hw, decide_True by done. by eexists.
    + apply Hworkers; [done|]. intros Hall. unfold all_done in Hall.
      rewrite Forall_lookup in Hall. by apply Hnd, (Hall j).
    + apply main_step. unfold mstep. rewrite Hp, Hw. by eexists.
Qed.

(** A step of the scan over three entries uses up one of the steps that
    remain. *)
Lemma scan_step_cost (m : list (string * Z)) i smallest first p :
  length m = 3%nat → scan_step m i smallest first = Some p →
  (main_cost p < main_cost (MScan i smallest first))%nat.
Proof.
  intros Hlen. unfold scan_step.
  destruct (m !! first) as [a|] eqn:Ha; intros; simplify_option_eq; [|lia].
  apply lookup_lt_Some in Ha. lia.
Qed.

Lemma print_step_cost (m : list (string * Z)) i it p evs :
  length m = 3%nat → print_step m i it = (p, evs) →
  (main_cost p < main_cost (MEntry i it))%nat.
Proof.
  intros Hlen [(e & He%lookup_lt_Some & -> & _)|(_ & -> & _)]%print_step_pc;
    simpl; lia.
Qed.

Lemma measure_app (ws : list worker) w :
  sum_list_with (λ w, remaining (at_pc w)) (ws ++ [w]) =
  (sum_list_with (λ w, remaining (at_pc w)) ws + remaining (at_pc w))%nat.
Proof. rewrite sum_list_with_app. simpl. lia. Qed.

(** Every step uses up one of the steps that remain. *)
Lemma exec_cost l σ σ' : minv σ → exec l σ = Some σ' → (cost σ' < cost σ)%nat.
Proof.
  intros Hinv. pose proof (m_spawned _ Hinv) as Hsp. unfold cost.
  destruct l as [r|tid]; simpl.
  - pose proof (minv_length σ Hinv) as Hlen.
    unfold mstep. destruct σ as [c p out]. simpl in *.
    destruct p; intros; simplify_option_eq; repeat case_match; simplify_eq/=;
      try (by apply Nat.add_lt_mono_r;
              first [eapply scan_step_cost|eapply print_step_cost]);
      unfold measure, loop_test; simpl; rewrite ?measure_app; simpl;
      try case_decide; simpl; lia.
  - unfold wexec. destruct (workers (conc σ) !! tid); [simpl|done].
    destruct (Conc.exec tid (conc σ)) as [c'|] eqn:Hc; intros; simplify_eq/=.
    apply exec_measure in Hc. lia.
Qed.

Lemma run_cost ls σ σ' :
  minv σ → Forall valid ls → run ls σ = Some σ' →
  (length ls + cost σ' ≤ cost σ)%nat.
Proof.
  intros Hinv Hv. revert σ Hinv.
  induction Hv as [|l ls Hl _ IH]; intros σ Hinv; simpl.
  - intros [= <-]. lia.
  - destruct (exec l σ) as [σ1|] eqn:Hexec; [simpl|done].
    intros Hrun%IH; [|by eapply minv_exec_label].
    pose proof (exec_cost _ _ _ Hinv Hexec). lia.
Qed.

(** From a state that satisfies the invariant the program can run to
    its exit. *)
Lemma minv_completion σ :
  minv σ → ∃ ls σ', Forall valid ls ∧ run ls σ = Some σ' ∧ at_main σ' = MExit.
Proof.
  remember (cost σ) as k eqn:Hk. revert σ Hk.
  induction (lt_wf k) as [k _ IH]. intros σ -> Hinv.
  destruct (decide (at_main σ = MExit)) as [Hd|Hnd]; [by exists [], σ|].
  destruct (minv_progress σ Hinv Hnd) as (σ1 & l & Hl & Hexec).
  destruct (IH (cost σ1) (exec_cost _ _ _ Hinv Hexec) σ1 eq_refl)
    as (ls & σ' & Hv & Hrun & Hexit); [by eapply minv_exec_label|].
  exists (l :: ls), σ'. simpl. rewrite Hexec. by split_and!; [constructor|..].
Qed.

(** C20: no reachable state but the end of [main] is stuck: the program
    does not deadlock on the mutex or in a join. *)
Theorem main_progress σ0 σ :
  init = Ok σ0 → rtc step σ0 σ → at_main σ ≠ MExit → ∃ σ', step σ σ'.
Proof. intros Hinit Hrun. by apply minv_progress, (minv_reachable σ0). Qed.

(** C21: every execution of the program is finite, with at most 385
    steps (twelve of the main thread and eleven of the worker for each of
    the sixteen requests, sixteen joins and the last line), and some
    execution reaches the end of [main]. *)
Theorem main_terminates σ0 :
  init = Ok σ0 →
  (∀ ls σ, Forall valid ls → run ls σ0 = Some σ → (length ls + cost σ ≤ 385)%nat) ∧
  (∃ ls σ, Forall valid ls ∧ run ls σ0 = Some σ ∧ at_main σ = MExit).
Proof.
  rewrite init_start. intros [= <-]. split.
  - intros ls σ Hv Hrun. by apply (run_cost _ _ _ minv_start Hv) in Hrun.
  - apply minv_completion, minv_start.
Qed.

(** C22: [main] returns.  An execution that cannot go on has come to
    [return 0]: whatever the interleaving and the values of [std::rand],
    when no thread has a step left the constructor has not thrown, the
    main thread is at the end of [main], which returns the status 0, and
    every count is zero again.  No execution ends in a deadlock or with
    a request in flight. *)
Theorem main_returns ls σ :
  Forall valid ls → run ls start = Some σ →
  (∀ l, valid l → exec l σ = None) →
  main ls = Ok (Some (0, cout σ)) ∧ ∀ k, cnt (conc σ) k = 0.
Proof.
  intros Hv Hrun Hstuck.
  assert (minv σ) as Hinv
    by (eapply minv_rtc; [apply minv_start|by eapply main_run_rtc]).
  destruct (decide (at_main σ = MExit)) as [Hexit|Hne].
  - unfold main. rewrite init_start. simpl. rewrite Hrun. simpl.
    rewrite decide_True by done. split; [done|]. intros k.
    by apply minv_exit_count.
  - destruct (minv_progress σ Hinv Hne) as (σ' & l & Hl & Hexec).
    by rewrite (Hstuck l Hl) in Hexec.
Qed.

(** C14: the race is there: a state is reachable in which the main thread
    is about to compare two counts in the scan of [GetNextServer] while a
    worker, holding the mutex, is about to store one of them. *)
Theorem select_races σ0 :
  init = Ok σ0 →
  ∃ ls σ, Forall valid ls ∧ run ls σ0 = Some σ ∧ race σ.
Proof.
  rewrite init_start. intros [= <-].
  exists (replicate 13 (LMain 0) ++ replicate 2 (LWorker 0)).
  destruct map0_zero as (k1 & k2 & k3 & Hm). unfold start. rewrite Hm.
  eexists. split_and!; [by repeat constructor| |].
  - simpl. unfold wexec, Conc.exec, wstep, at_point, index. simpl.
    by rewrite decide_True by done.
  - left. exists 0%nat, (mkWorker k1 (duration_of 0) (StartLoaded 0)).
    split_and!; [done..|]. unfold main_reads. simpl. set_solver.
Qed.

End progress.

(** ** The scan is not atomic *)

(** Three iterations whose first two workers print their first line and
    whose third has not started; then the fourth scan, during which the
    second worker finishes and the third starts. *)
Definition torn_pre : list label :=
  replicate 12 (LMain 0) ++ replicate 5 (LWorker 0) ++
  replicate 12 (LMain 0) ++ replicate 5 (LWorker 1) ++ replicate 12 (LMain 0).
Definition torn_scan : list label :=
  replicate 2 (LMain 0) ++ replicate 5 (LWorker 1) ++ replicate 3 (LWorker 2) ++
  replicate 2 (LMain 0).

(** One of the servers has fewer connections than [server]. *)
Definition not_least (σ : prog) (server : string) : Prop :=
  Exists (λ s, cnt (conc σ) s < cnt (conc σ) server) servers.

Section torn.
Context `{Layout}.
Implicit Types (σ : prog) (ls : list label) (ks : list string).

(** The top of the first iteration when the map iterates [ks]. *)
Definition start_of ks : prog :=
  mkProg (mkState (mkShared ((λ k, (k, 0)) <$> ks) None) []) (MSelect 0) [].

(** The scan that starts in [σ1] and runs along [ls] ends with [server],
    which has not the least count in any state on the way. *)
Definition torn σ1 ls (i : Z) (server : string) : Prop :=
  at_main σ1 = MSelect i ∧
  at_main <$> run ls σ1 = Some (MSpawn i server) ∧
  Forall (λ n, from_option (λ σ, not_least σ server) False (run (take n ls) σ1))
         (seq 0 (S (length ls))).

Definition torn_at ks : Prop :=
  from_option (λ σ1, torn σ1 torn_scan 3 (default "" (head ks))) False
              (run torn_pre (start_of ks)).

#[local] Instance from_option_dec {A} (P : A → Prop) (Q : Prop) (x : option A) :
  (∀ a, Decision (P a)) → Decision Q → Decision (from_option P Q x).
Proof. destruct x; apply _. Defined.

#[local] Instance torn_at_dec ks : Decision (torn_at ks).
Proof. unfold torn_at, torn, not_least. apply _. Defined.

(** Whatever the order of the three servers in the map, the schedule
    tears the scan. *)
Lemma torn_permutations : Forall torn_at (permutations servers).
Proof. apply (bool_decide_unpack _). by vm_compute. Qed.

Lemma start_start_of : start = start_of keys0.
Proof.
  destruct map0_zero as (k1 & k2 & k3 & Hm). unfold start, start_of, keys0.
  by rewrite Hm.
Qed.

Lemma torn_start : torn_at keys0.
Proof.
  pose proof torn_permutations as Hall. rewrite Forall_forall in Hall.
  apply Hall, permutations_Permutation. by rewrite keys0_perm.
Qed.

Lemma not_least_spec σ server :
  minv σ → not_least σ server →
  ¬ LCSpec.least (to_gmap (_connections (sh (conc σ)))) server.
Proof.
  intros Hinv (s & Hs & Hlt)%Exists_exists (v & Hv & Hmin).
  assert (is_Some (to_gmap (_connections (sh (conc σ))) !! s)) as [v' Hv'].
  { rewrite <-get_to_gmap, get_is_Some, (m_keys _ Hinv). by apply keys0_servers. }
  specialize (Hmin _ _ Hv'). unfold cnt, LCSpec.count in Hlt.
  rewrite Hv, Hv' in Hlt. simpl in Hlt. lia.
Qed.

(** What holds after every prefix up to the length of the schedule holds
    after every prefix. *)
Lemma run_prefixes (P : prog → Prop) ls σ1 :
  Forall (λ n, from_option P False (run (take n ls) σ1)) (seq 0 (S (length ls))) →
  ∀ n σ, run (take n ls) σ1 = Some σ → P σ.
Proof.
  intros Hall n σ Hrun. rewrite Forall_forall in Hall.
  destruct (decide (n ≤ length ls)%nat) as [Hle|Hgt].
  - specialize (Hall n). rewrite Hrun in Hall. apply Hall, elem_of_seq. lia.
  - rewrite take_ge in Hrun by lia. specialize (Hall (length ls)).
    rewrite take_ge, Hrun in Hall by lia. apply Hall, elem_of_seq. lia.
Qed.

(** C15: the scan of [GetNextServer] is not atomic: whatever the order in
    which the map iterates its entries, some execution of [main] calls
    [GetNextServer] and starts a thread on the server it returns although
    that server had not the least count in any state between the call
    and the return. *)
Theorem select_torn σ0 :
  init = Ok σ0 →
  ∃ ls1 ls2 σ1 σ2 i server,
    Forall valid (ls1 ++ ls2) ∧ run ls1 σ0 = Some σ1 ∧ at_main σ1 = MSelect i ∧
    run ls2 σ1 = Some σ2 ∧ at_main σ2 = MSpawn i server ∧
    ∀ n σ, run (take n ls2) σ1 = Some σ →
           ¬ LCSpec.least (to_gmap (_connections (sh (conc σ)))) server.
Proof.
  rewrite init_start. intros [= <-]. pose proof torn_start as Ht.
  unfold torn_at in Ht. rewrite <-start_start_of in Ht.
  destruct (run torn_pre start) as [σ1|] eqn:H1; [|done].
  destruct Ht as (Hsel & Hend & Hall).
  destruct (run torn_scan σ1) as [σ2|] eqn:H2; [|done]. injection Hend as Hend.
  assert (Forall valid torn_pre ∧ Forall valid torn_scan) as [Hv1 Hv2]
    by (split; apply (bool_decide_unpack _); by vm_compute).
  exists torn_pre, torn_scan, σ1, σ2, 3, (default "" (head keys0)).
  split_and!; [by apply Forall_app|done..|].
  intros n σ Hn.
  apply not_least_spec; [|exact (run_prefixes (λ σ, not_least σ _) _ _ Hall n σ Hn)].
  eapply minv_rtc; [apply minv_start|].
  transitivity σ1; [exact (main_run_rtc _ _ _ Hv1 H1)|].
  by apply (main_run_rtc (take n torn_scan)); [apply Forall_take|].
Qed.

End torn.

(** ** Witnesses *)

Lemma main_progress_witness : ∃ σ', step st_race σ'.
Proof. exact (main_progress start st_race init_start reach_race ltac:(done)). Defined.

Lemma main_terminates_witness :
  (∀ ls σ, Forall valid ls → run ls start = Some σ → (length ls + cost σ ≤ 385)%nat) ∧
  (∃ ls σ, Forall valid ls ∧ run ls start = Some σ ∧ at_main σ = MExit).
Proof. exact (main_terminates start init_start). Defined.

Lemma select_torn_witness :
  ∃ ls1 ls2 σ1 σ2 i server,
    Forall valid (ls1 ++ ls2) ∧ run ls1 start = Some σ1 ∧ at_main σ1 = MSelect i ∧
    run ls2 σ1 = Some σ2 ∧ at_main σ2 = MSpawn i server ∧
    ∀ n σ, run (take n ls2) σ1 = Some σ →
           ¬ LCSpec.least (to_gmap (_connections (sh (conc σ)))) server.
Proof. exact (select_torn start init_start). Defined.

Lemma stuck_st_exit l : valid l → exec l st_exit = None.
Proof.
  intros _. destruct l as [r|tid]; [done|].
  destruct (decide (tid < 16)%nat) as [Hlt|Hge].
  - do 16 (destruct tid as [|tid]; [by vm_compute|]). lia.
  - unfold exec, wexec. by rewrite (lookup_ge_None_2 _ tid) by (vm_compute; lia).
Qed.

Lemma main_returns_witness :
  main seq_sched = Ok (Some (0, cout st_exit)) ∧ ∀ k, cnt (conc st_exit) k = 0.
Proof. exact (main_returns seq_sched st_exit valid_seq_sched run_exit stuck_st_exit). Defined.

Lemma select_races_witness :
  ∃ ls σ, Forall valid ls ∧ run ls start = Some σ ∧ race σ.
Proof. exact (select_races start init_start). Defined.

(** The schedule [seq_sched] has the 385 steps of the bound. *)
Example seq_sched_length : length seq_sched = 385%nat ∧ cost start = 385%nat.
Proof. by vm_compute. Qed.

End LCRuns.
