(* ===== verification/Timed.v ===== *)
(** * The program of [leastconnecitonalgo.cpp] with a clock

    [simulate] sleeps for the duration of its request between its two
    calls, and [main] sleeps for 100 ms before each call of
    [printConnections].  [std::this_thread::sleep_for] blocks the thread
    for at least the duration it is given.  [MainLC] leaves the pauses
    out; this file puts them in and shows what they change.

    A state of [Module LCTimed] is a state of the program of [MainLC],
    the time [now], and for each thread that has called [sleep_for] the
    time of the call.  A step is a step of the program ([Move]), the call
    of [sleep_for] by the thread that has come to it ([Sleep]), or the
    passing of time ([Tick]); the step that follows the pause in the
    code is enabled when the duration has passed since the call.

    [simulate] is the function run by one thread with no other thread
    moving, as a function of the balancer, the console and the time.

    The theorems: a thread that is not interrupted does what the
    sequential [simulate] does, and does not finish its request before
    the duration has passed ([simulate_serial]); [main] returns no
    earlier than 1600 ms after it started, every thread having slept
    for its duration ([main_takes_1600ms]).  Time passes in any amount
    between two steps, so the pauses delay steps and forbid none: the
    program with the pauses reaches the states the program without them
    reaches ([sleep_transparent]), which is why the theorems of
    [MainLC], [Console] and [MainLinear] on reachable states hold of
    it. *)

From Stdlib Require Import ZArith Lia.
From stdpp Require Import base tactics option list strings gmap relations.
From S2P Require Import Prelude Simulation ConnMap LeastConnLB Workers MainLC.

#[local] Open Scope Z_scope.

Module LCTimed.
Import UMap Conc LCMain.

(** The program, the clock, and the times at which the threads that are
    asleep or have slept called [sleep_for]: the main thread for the
    pause it is in, each worker for its one pause. *)
Record tprog : Type := mkTimed {
  untimed : prog;
  now : Z;
  nap_main : option Z;
  naps : gmap nat Z;
}.

Inductive tlabel : Type :=
| Tick (d : Z)
| Sleep (who : option nat)
| Move (l : label).

(** Time does not go back. *)
Definition tvalid (l : tlabel) : Prop :=
  match l with Tick d => 0 ≤ d | Sleep _ => True | Move l => valid l end.

#[export] Instance tvalid_dec l : Decision (tvalid l).
Proof. destruct l; apply _. Defined.

(** [std::this_thread::sleep_for(std::chrono::milliseconds(100))] of
    [main] comes before [printConnections]. *)
Definition main_sleeps (p : mpc) : bool :=
  match p with MLock _ => true | _ => false end.

(** [std::this_thread::sleep_for(std::chrono::milliseconds(duration))]
    of [simulate] comes before [OnRequestFinished]. *)
Definition worker_sleeps (q : pc) : bool :=
  match q with Working => true | _ => false end.

(** The thread has returned from its pause. *)
Definition past_sleep (q : pc) : bool :=
  match q with
  | FinishLocked | FinishTested | FinishLoaded _ | FinishStored | Finished
  | Done => true
  | _ => false
  end.

(** [sleep_for] called at [t0] with duration [d] may return. *)
Definition awake (t0 : option Z) (d : Z) (t : Z) : bool :=
  match t0 with Some t0 => bool_decide (t0 + d ≤ t) | None => false end.

Section sem.
Context `{Layout}.

(** One step of the program with the clock. *)
Definition texec (l : tlabel) (τ : tprog) : option tprog :=
  let σ := untimed τ in
  match l with
  | Tick d => Some (mkTimed σ (now τ + d) (nap_main τ) (naps τ))
  | Sleep None =>
      if main_sleeps (at_main σ) && bool_decide (nap_main τ = None)
      then Some (mkTimed σ (now τ) (Some (now τ)) (naps τ))
      else None
  | Sleep (Some tid) =>
      w ← workers (conc σ) !! tid;
      if worker_sleeps (at_pc w) && bool_decide (naps τ !! tid = None)
      then Some (mkTimed σ (now τ) (nap_main τ) (<[tid := now τ]> (naps τ)))
      else None
  | Move (LMain r) =>
      if main_sleeps (at_main σ)
      then if awake (nap_main τ) 100 (now τ)
           then σ' ← mstep r σ; Some (mkTimed σ' (now τ) None (naps τ))
           else None
      else σ' ← mstep r σ; Some (mkTimed σ' (now τ) (nap_main τ) (naps τ))
  | Move (LWorker tid) =>
      w ← workers (conc σ) !! tid;
      if worker_sleeps (at_pc w) && negb (awake (naps τ !! tid) (duration w) (now τ))
      then None
      else σ' ← wexec tid σ; Some (mkTimed σ' (now τ) (nap_main τ) (naps τ))
  end.

(** The execution along a list of labels. *)
Definition trun (ls : list tlabel) (τ : tprog) : option tprog := runs texec ls τ.

(** The state when the loop of [main] is entered, at time zero. *)
Definition tstart : tprog := mkTimed start 0 None ∅.

(** [void simulate(LeastConnection& lb, const std::string& server,
    const size_t duration)] run with no other thread moving: the
    balancer, what is on [std::cout] and the time, after the call.
    [sleep_for] returns when the duration has passed. *)
Definition simulate (server : string) (duration : Z)
    (lb : LeastConnection.t) (out : list event) (t : Z) :
    option (LeastConnection.t * list event * Z) :=
  lb1 ← LeastConnection.OnRequestStarted server lb;
  let out1 := out ++ [EvStart server duration] in
  let t1 := t + duration in
  lb2 ← LeastConnection.OnRequestFinished server lb1;
  Some (lb2, out1 ++ [EvDone server], t1).

End sem.

Section timing.
Context `{Layout}.

(** The pause before the step with label [l], when the thread that
    moves has come to its call of [sleep_for]: the call, and the time
    that lets it return. *)
Definition nap (l : label) (σ : prog) : list tlabel :=
  match l with
  | LMain _ => if main_sleeps (at_main σ) then [Sleep None; Tick 100] else []
  | LWorker tid =>
      match workers (conc σ) !! tid with
      | Some w =>
          if worker_sleeps (at_pc w)
          then [Sleep (Some tid); Tick (Z.max 0 (duration w))] else []
      | None => []
      end
  end.

(** An execution of the program with its pauses put in. *)
Definition timing (ls : list label) (σ : prog) : list tlabel :=
  filled exec (λ l σ, nap l σ ++ [Move l]) ls σ.

End timing.

(** No thread is asleep: the main thread is not in a pause, and the
    workers that have called [sleep_for] have returned from it. *)
Definition rested (τ : tprog) : Prop :=
  nap_main τ = None ∧
  ∀ tid t0, naps τ !! tid = Some t0 →
    ∃ w, workers (conc (untimed τ)) !! tid = Some w ∧ past_sleep (at_pc w) = true.

(** The time that has passed when the main thread is at [p]: 100 ms for
    each pause it has returned from.  [nap] is the time at which it
    called [sleep_for], while it is in the pause. *)
Definition elapsed (p : mpc) (nap : option Z) (t : Z) : Prop :=
  match p with
  | MSelect i | MScan i _ _ | MSpawn i _ => 100 * i ≤ t ∧ nap = None
  | MLock i => 100 * i ≤ t ∧ ∀ t0, nap = Some t0 → 100 * i ≤ t0
  | MPrint i | MEntry i _ | MUnlock i => 100 * (i + 1) ≤ t ∧ nap = None
  | MJoin _ | MExit => 1600 ≤ t ∧ nap = None
  end.

(** The clock and the pauses: a thread that has returned from
    [sleep_for] called it at least its duration ago. *)
Record tinv (τ : tprog) : Prop := {
  t_now : 0 ≤ now τ;
  t_main : elapsed (at_main (untimed τ)) (nap_main τ) (now τ);
  t_naps : ∀ tid t0, naps τ !! tid = Some t0 → 0 ≤ t0 ≤ now τ;
  t_slept : ∀ tid w, workers (conc (untimed τ)) !! tid = Some w →
                     past_sleep (at_pc w) = true →
                     ∃ t0, naps τ !! tid = Some t0 ∧ t0 + duration w ≤ now τ;
}.

(** The step of the program a label stands for. *)
Definition moves (l : tlabel) : list label :=
  match l with Move l => [l] | _ => [] end.

(** ** Forgetting the clock *)

Section forget.
Context `{Layout}.
Implicit Types (τ : tprog) (σ : prog) (l : tlabel).

(** What a step of the program with the clock is, label by label. *)
Lemma texec_Some l τ τ' :
  texec l τ = Some τ' →
  match l with
  | Tick d => τ' = mkTimed (untimed τ) (now τ + d) (nap_main τ) (naps τ)
  | Sleep None =>
      main_sleeps (at_main (untimed τ)) = true ∧ nap_main τ = None ∧
      τ' = mkTimed (untimed τ) (now τ) (Some (now τ)) (naps τ)
  | Sleep (Some tid) =>
      ∃ w, workers (conc (untimed τ)) !! tid = Some w ∧
           worker_sleeps (at_pc w) = true ∧
           τ' = mkTimed (untimed τ) (now τ) (nap_main τ) (<[tid := now τ]> (naps τ))
  | Move (LMain r) =>
      ∃ σ', mstep r (untimed τ) = Some σ' ∧
            (main_sleeps (at_main (untimed τ)) = true →
             awake (nap_main τ) 100 (now τ) = true) ∧
            τ' = mkTimed σ' (now τ)
                   (if main_sleeps (at_main (untimed τ)) then None else nap_main τ)
                   (naps τ)
  | Move (LWorker tid) =>
      ∃ w σ', workers (conc (untimed τ)) !! tid = Some w ∧
              wexec tid (untimed τ) = Some σ' ∧
              (worker_sleeps (at_pc w) = true →
               awake (naps τ !! tid) (duration w) (now τ) = true) ∧
              τ' = mkTimed σ' (now τ) (nap_main τ) (naps τ)
  end.
Proof.
  unfold texec. destruct l as [d|[tid|]|[r|tid]]; simpl.
  - by intros [= <-].
  - destruct (workers (conc (untimed τ)) !! tid) as [w|]; [simpl|done].
    destruct (worker_sleeps (at_pc w)) eqn:Hs; [simpl|done].
    case_bool_decide; [|done]. intros [= <-]. by exists w.
  - destruct (main_sleeps (at_main (untimed τ))); [simpl|done].
    case_bool_decide; [|done]. by intros [= <-].
  - destruct (main_sleeps (at_main (untimed τ)));
      [destruct (awake (nap_main τ) 100 (now τ)); [|done]|];
      (destruct (mstep r (untimed τ)) as [σ'|]; [simpl|done]);
      intros [= <-]; by exists σ'.
  - destruct (workers (conc (untimed τ)) !! tid) as [w|]; [simpl|done].
    destruct (worker_sleeps (at_pc w)) eqn:Hs; simpl;
      [destruct (awake (naps τ !! tid) (duration w) (now τ)) eqn:Ha; [simpl|done]|];
      (destruct (wexec tid (untimed τ)) as [σ'|]; [simpl|done]);
      intros [= <-]; exists w, σ'; by rewrite Hs.
Qed.

Lemma texec_untimed l τ τ' :
  texec l τ = Some τ' → runs exec (moves l) (untimed τ) = Some (untimed τ').
Proof.
  intros Hl%texec_Some. destruct l as [d|[tid|]|[r|tid]]; simpl.
  - by subst.
  - by destruct Hl as (w & _ & _ & ->).
  - by destruct Hl as (_ & _ & ->).
  - destruct Hl as (σ' & -> & _ & ->). done.
  - destruct Hl as (w & σ' & _ & -> & _ & ->). done.
Qed.

Lemma trun_untimed tls τ τ' :
  trun tls τ = Some τ' → run (tls ≫= moves) (untimed τ) = Some (untimed τ').
Proof. rewrite main_run_runs. apply runs_forget, texec_untimed. Qed.

Lemma tvalid_moves l : tvalid l → Forall valid (moves l).
Proof. destruct l; simpl; by repeat constructor. Qed.

End forget.

(** ** Putting the pauses in *)

Section pauses.
Context `{Layout}.
Implicit Types (τ : tprog) (σ : prog) (w : worker).

Lemma wstep_past_sleep tid w s s' (q : pc) :
  wstep tid w s = Some (s', q) →
  (worker_sleeps (at_pc w) = true ∨ past_sleep (at_pc w) = true) →
  past_sleep q = true.
Proof.
  unfold wstep. destruct w as [srv d []]; simpl; intros Hs [?|?];
    repeat case_match; by simplify_option_eq.
Qed.

Lemma rested_main σ' τ (t' : Z) :
  rested τ →
  (∃ ws, workers (conc σ') = workers (conc (untimed τ)) ++ ws ∧
         Forall (λ w, at_pc w = Idle) ws) →
  rested (mkTimed σ' t' None (naps τ)).
Proof.
  intros [_ Hn] (ws & Hws & _). split; [done|]. simpl. intros tid t0 Ht.
  destruct (Hn _ _ Ht) as (w & Hw & Hp). exists w.
  rewrite Hws. split; [by apply lookup_app_l_Some|done].
Qed.

Lemma rested_worker τ tid w s' (q : pc) t (t' : Z) :
  rested τ → workers (conc (untimed τ)) !! tid = Some w →
  wstep tid w (sh (conc (untimed τ))) = Some (s', q) →
  (∀ i, t !! i = naps τ !! i ∨ (i = tid ∧ past_sleep q = true)) →
  rested (mkTimed (mkProg (mkState s' (<[tid:=at_point w q]>
                                         (workers (conc (untimed τ)))))
                          (at_main (untimed τ))
                          (cout (untimed τ) ++ emits w))
                  t' None t).
Proof.
  intros [_ Hn] Hw Hstep Ht. split; [done|]. simpl. intros i t0 Hi.
  pose proof (lookup_lt_Some _ _ _ Hw) as Hlt.
  destruct (decide (i = tid)) as [->|Hne].
  - exists (at_point w q). rewrite list_lookup_insert_eq by done.
    split; [done|]. simpl. destruct (Ht tid) as [Heq|[_ ?]]; [|done].
    rewrite Heq in Hi. destruct (Hn _ _ Hi) as (w0 & ? & ?). simplify_eq.
    eapply wstep_past_sleep; eauto.
  - rewrite list_lookup_insert_ne by done. apply (Hn i t0).
    by destruct (Ht i) as [<-|[? _]].
Qed.

(** The steps of the program with the clock, when they are enabled. *)
Lemma texec_sleep_main τ :
  main_sleeps (at_main (untimed τ)) = true → nap_main τ = None →
  texec (Sleep None) τ = Some (mkTimed (untimed τ) (now τ) (Some (now τ)) (naps τ)).
Proof. intros Hs Hm. unfold texec. by rewrite Hs, Hm. Qed.

Lemma texec_move_main r τ σ' :
  (main_sleeps (at_main (untimed τ)) = true → awake (nap_main τ) 100 (now τ) = true) →
  mstep r (untimed τ) = Some σ' →
  texec (Move (LMain r)) τ =
  Some (mkTimed σ' (now τ)
          (if main_sleeps (at_main (untimed τ)) then None else nap_main τ) (naps τ)).
Proof.
  intros Ha Hstep. unfold texec.
  destruct (main_sleeps (at_main (untimed τ))); [rewrite Ha by done|];
    by rewrite Hstep.
Qed.

Lemma texec_sleep_worker tid w τ :
  workers (conc (untimed τ)) !! tid = Some w →
  worker_sleeps (at_pc w) = true → naps τ !! tid = None →
  texec (Sleep (Some tid)) τ =
  Some (mkTimed (untimed τ) (now τ) (nap_main τ) (<[tid := now τ]> (naps τ))).
Proof. intros Hw Hs Hn. unfold texec. rewrite Hw. simpl. by rewrite Hs, Hn. Qed.

Lemma texec_move_worker tid w τ σ' :
  workers (conc (untimed τ)) !! tid = Some w →
  (worker_sleeps (at_pc w) = true →
   awake (naps τ !! tid) (duration w) (now τ) = true) →
  wexec tid (untimed τ) = Some σ' →
  texec (Move (LWorker tid)) τ = Some (mkTimed σ' (now τ) (nap_main τ) (naps τ)).
Proof.
  intros Hw Ha Hstep. unfold texec. rewrite Hw. simpl.
  destruct (worker_sleeps (at_pc w)); [rewrite Ha by done|]; by rewrite Hstep.
Qed.

Lemma texec_tick d τ :
  texec (Tick d) τ = Some (mkTimed (untimed τ) (now τ + d) (nap_main τ) (naps τ)).
Proof. done. Qed.

Lemma awake_after t d : awake (Some t) d (t + Z.max 0 d) = true.
Proof. unfold awake. apply bool_decide_eq_true. lia. Qed.

(** A step of the main thread, with the pause that precedes it in the
    code. *)
Lemma timed_main r τ σ' :
  rested τ → mstep r (untimed τ) = Some σ' →
  ∃ τ', trun (nap (LMain r) (untimed τ) ++ [Move (LMain r)]) τ = Some τ' ∧
        untimed τ' = σ' ∧ rested τ'.
Proof.
  intros Hr Hstep. pose proof Hr as [Hm Hn]. unfold trun, nap.
  pose proof (mstep_workers _ _ _ Hstep) as Hws.
  destruct (main_sleeps (at_main (untimed τ))) eqn:Hs; cbn [app runs].
  - rewrite texec_sleep_main by done. cbn [mbind option_bind].
    rewrite texec_tick. cbn [mbind option_bind untimed now nap_main naps].
    rewrite (texec_move_main r _ σ'); [|intros _; apply (awake_after _ 100)|done].
    cbn [untimed now nap_main naps]. rewrite Hs.
    eexists. split_and!; [done..|]. by apply rested_main.
  - rewrite (texec_move_main r _ σ'), Hs, Hm by (done || by rewrite Hs).
    eexists. split_and!; [done..|]. by apply rested_main.
Qed.

(** A step of a worker, with the pause that precedes it in the code. *)
Lemma timed_worker tid τ σ' :
  rested τ → wexec tid (untimed τ) = Some σ' →
  ∃ τ', trun (nap (LWorker tid) (untimed τ) ++ [Move (LWorker tid)]) τ = Some τ' ∧
        untimed τ' = σ' ∧ rested τ'.
Proof.
  intros Hr Hexec. pose proof Hr as [Hm Hn]. unfold trun, nap.
  pose proof Hexec as (w & s' & q & Hw & Hstep & Hσ')%wexec_Some. rewrite Hw.
  destruct (worker_sleeps (at_pc w)) eqn:Hs; cbn [app runs].
  - assert (naps τ !! tid = None) as Hnone.
    { destruct (naps τ !! tid) as [t0|] eqn:Ht; [|done].
      destruct (Hn _ _ Ht) as (w0 & ? & Hp). simplify_eq. by destruct (at_pc w). }
    rewrite (texec_sleep_worker tid w) by done. cbn [mbind option_bind].
    rewrite texec_tick. cbn [mbind option_bind untimed now nap_main naps].
    rewrite (texec_move_worker tid w _ σ');
      [|done|intros _; cbn [naps now]; rewrite lookup_insert_eq; apply awake_after
       |done].
    eexists. split_and!; [done..|]. subst σ'. cbn [nap_main naps now untimed].
    rewrite Hm. apply rested_worker; [done..|]. intros i.
    destruct (decide (i = tid)) as [->|Hne]; [right|left; by rewrite lookup_insert_ne].
    split; [done|]. eapply wstep_past_sleep; eauto.
  - rewrite (texec_move_worker tid w _ σ') by (done || by rewrite Hs).
    eexists. split_and!; [done..|]. subst σ'. rewrite Hm.
    apply rested_worker; [done..|]. by left.
Qed.

Lemma timed_move l τ σ' :
  rested τ → exec l (untimed τ) = Some σ' →
  ∃ τ', trun (nap l (untimed τ) ++ [Move l]) τ = Some τ' ∧
        untimed τ' = σ' ∧ rested τ'.
Proof. destruct l; [apply timed_main|apply timed_worker]. Qed.

Lemma tvalid_nap l σ : valid l → Forall tvalid (nap l σ ++ [Move l]).
Proof.
  intros Hl. apply Forall_app_2; [|by repeat constructor].
  unfold nap. destruct l; repeat case_match; repeat constructor; simpl; lia.
Qed.

End pauses.

(** ** The time the pauses take *)

Section time.
Context `{Layout}.
Implicit Types (τ : tprog) (σ : prog) (w : worker).

Lemma elapsed_mono p nap t t' : t ≤ t' → elapsed p nap t → elapsed p nap t'.
Proof. unfold elapsed. destruct p; intros ? [? ?]; split; (done || lia). Qed.

Lemma wstep_slept tid w s s' (q : pc) :
  wstep tid w s = Some (s', q) → past_sleep q = true →
  worker_sleeps (at_pc w) = true ∨ past_sleep (at_pc w) = true.
Proof.
  unfold wstep. destruct w as [srv d []]; simpl; intros;
    repeat case_match; simplify_option_eq; auto.
Qed.

Lemma tinv_start : tinv tstart.
Proof. split; simpl; [done|by split|by intros ?? ?%lookup_empty_Some|done]. Qed.

Lemma tinv_tick d τ :
  0 ≤ d → tinv τ → tinv (mkTimed (untimed τ) (now τ + d) (nap_main τ) (naps τ)).
Proof.
  intros Hd [Hn Hm Hs Hp]. split; simpl.
  - lia.
  - apply (elapsed_mono _ _ (now τ)); [lia|done].
  - intros tid t0 Ht. specialize (Hs _ _ Ht). lia.
  - intros tid w Hw Hq. destruct (Hp _ _ Hw Hq) as (t0 & ? & ?).
    exists t0. split; [done|lia].
Qed.

(** The main thread leaves its pause 100 ms after it entered it. *)
Lemma elapsed_mstep r σ σ' nap t :
  mstep r σ = Some σ' → elapsed (at_main σ) nap t →
  (main_sleeps (at_main σ) = true → awake nap 100 t = true) →
  elapsed (at_main σ') (if main_sleeps (at_main σ) then None else nap) t.
Proof.
  unfold mstep, awake. destruct σ as [c p out]. simpl.
  destruct p; intros Hs [Ht Hn] Ha; simplify_option_eq; repeat case_match;
    simplify_eq/=; step_inside; unfold loop_test; try case_decide; simpl;
    try (split; (done || lia));
    pose proof (bool_decide_eq_true_1 _ (Ha eq_refl));
    pose proof (Hn _ eq_refl); split; (done || lia).
Qed.

Lemma tinv_main r τ σ' :
  tinv τ → mstep r (untimed τ) = Some σ' →
  (main_sleeps (at_main (untimed τ)) = true → awake (nap_main τ) 100 (now τ) = true) →
  tinv (mkTimed σ' (now τ)
          (if main_sleeps (at_main (untimed τ)) then None else nap_main τ) (naps τ)).
Proof.
  intros [Hn Hm Hs Hp] Hstep Ha. split; simpl; [done| |done|].
  - by eapply elapsed_mstep.
  - destruct (mstep_workers _ _ _ Hstep) as (ws & -> & Hidle).
    intros tid w [?|[_ Hw]]%lookup_app_Some Hq; [by eapply Hp|].
    rewrite Forall_lookup in Hidle. by rewrite (Hidle _ _ Hw) in Hq.
Qed.

Lemma tinv_worker tid τ σ' w :
  tinv τ → workers (conc (untimed τ)) !! tid = Some w →
  wexec tid (untimed τ) = Some σ' →
  (worker_sleeps (at_pc w) = true →
   awake (naps τ !! tid) (duration w) (now τ) = true) →
  tinv (mkTimed σ' (now τ) (nap_main τ) (naps τ)).
Proof.
  intros [Hn Hm Hs Hp] Hw (w0 & s' & q & Hw0 & Hstep & ->)%wexec_Some Ha.
  simplify_eq. split; simpl; [done..|]. intros i wi Hi Hq.
  apply insert_worker in Hi as [[-> ->]|[Hne Hi]]; [|by eapply Hp].
  destruct (wstep_slept _ _ _ _ _ Hstep Hq) as [Hsl|Hps]; [|by apply (Hp tid w)].
  specialize (Ha Hsl). unfold awake in Ha.
  destruct (naps τ !! tid) as [t0|]; [|done].
  exists t0. split; [done|]. by apply bool_decide_eq_true_1 in Ha.
Qed.

Lemma tinv_sleep_worker tid τ w :
  tinv τ → workers (conc (untimed τ)) !! tid = Some w →
  worker_sleeps (at_pc w) = true →
  tinv (mkTimed (untimed τ) (now τ) (nap_main τ) (<[tid := now τ]> (naps τ))).
Proof.
  intros [Hn Hm Hs Hp] Hw Hsl. split; simpl; [done..| |].
  - intros i t0 [[-> <-]|[_ Hi]]%lookup_insert_Some; [lia|by eapply Hs].
  - intros i wi Hi Hq. destruct (decide (i = tid)) as [->|Hne].
    + simplify_eq. by destruct (at_pc w).
    + rewrite lookup_insert_ne by done. by eapply Hp.
Qed.

Lemma tinv_sleep_main τ :
  tinv τ → main_sleeps (at_main (untimed τ)) = true →
  tinv (mkTimed (untimed τ) (now τ) (Some (now τ)) (naps τ)).
Proof.
  intros [Hn He Hns Hp] Hs. split; simpl; [done| |done..].
  destruct (at_main (untimed τ)); try done. simpl in *.
  destruct He as [He _]. split; [done|]. by intros t0 [= <-].
Qed.

(** Steps keep the invariant of the clock. *)
Lemma tinv_texec l τ τ' : tvalid l → tinv τ → texec l τ = Some τ' → tinv τ'.
Proof.
  intros Hv Hinv Hl%texec_Some. destruct l as [d|[tid|]|[r|tid]]; simpl in *.
  - subst. by apply tinv_tick.
  - destruct Hl as (w & Hw & Hs & ->). by eapply tinv_sleep_worker.
  - destruct Hl as (Hs & _ & ->). by apply tinv_sleep_main.
  - destruct Hl as (σ' & Hstep & Ha & ->). by apply (tinv_main r).
  - destruct Hl as (w & σ' & Hw & Hstep & Ha & ->). by apply (tinv_worker tid τ σ' w).
Qed.

Lemma tinv_trun tls τ τ' :
  Forall tvalid tls → tinv τ → trun tls τ = Some τ' → tinv τ'.
Proof.
  intros Hv Hinv. apply (runs_invariant texec tinv tvalid); [|done..].
  intros l τ1 τ2 ? ? ?. by apply (tinv_texec l τ1).
Qed.

End time.

(** ** One thread on its own *)

Section serial.
Context `{Layout}.
Implicit Types (ws : list worker) (w : worker) (q : pc) (s : shared).

(** A step of thread [tid], on a state that shows where the thread
    is. *)
Lemma texec_move_at ws tid w q s s' q' p out t nm ns :
  (tid < length ws)%nat → wstep tid (at_point w q) s = Some (s', q') →
  (worker_sleeps q = true → awake (ns !! tid) (duration w) t = true) →
  texec (Move (LWorker tid))
    (mkTimed (mkProg (mkState s (<[tid:=at_point w q]> ws)) p out) t nm ns) =
  Some (mkTimed (mkProg (mkState s' (<[tid:=at_point w q']> ws)) p
                        (out ++ emits (at_point w q))) t nm ns).
Proof.
  intros Hlt Hstep Ha.
  apply (texec_move_worker tid (at_point w q)); simpl;
    [by rewrite list_lookup_insert_eq|done|].
  apply wexec_Some. exists (at_point w q), s', q'. simpl.
  by rewrite list_lookup_insert_eq, list_insert_insert_eq.
Qed.

(** The thread is asleep until the duration has passed. *)
Lemma texec_asleep ws tid w s p out t t0 nm ns :
  (tid < length ws)%nat → ns !! tid = Some t0 → t < t0 + duration w →
  texec (Move (LWorker tid))
    (mkTimed (mkProg (mkState s (<[tid:=at_point w Working]> ws)) p out) t nm ns) =
  None.
Proof.
  intros Hlt Hn Ht. unfold texec. simpl. rewrite list_lookup_insert_eq by done.
  simpl. rewrite Hn. simpl. by rewrite bool_decide_eq_false_2 by lia.
Qed.

(** Take the next step of thread [tid] in a goal on [trun]. *)
Ltac move_tid Hi :=
  cbn [runs];
  erewrite texec_move_at;
    [|eassumption|unfold wstep; simpl; rewrite ?Hi; reflexivity|done];
  cbn [mbind option_bind emits at_point at_pc server duration];
  rewrite ?app_nil_r.

(** The four steps from [Idle] are [OnRequestStarted], and the fifth
    writes the START line. *)
Lemma trun_started ws tid w m p out t nm ns :
  (tid < length ws)%nat →
  trun (replicate 5 (Move (LWorker tid)))
    (mkTimed (mkProg (mkState (mkShared m None) (<[tid:=at_point w Idle]> ws)) p out)
             t nm ns) =
  Some (mkTimed (mkProg (mkState (mkShared (LeastConnection.started_body (server w) m)
                                           None)
                                 (<[tid:=at_point w Working]> ws)) p
                        (out ++ [EvStart (server w) (duration w)])) t nm ns).
Proof.
  intros Hlt. unfold LeastConnection.started_body, trun.
  destruct (index (server w) m) as [m1 v] eqn:Hi. simpl replicate.
  by do 5 move_tid Hi.
Qed.

(** The steps from [Working], once the thread is awake, are
    [OnRequestFinished], five when the count is positive and three when
    it is zero, and the last one writes the DONE line. *)
Lemma trun_finished ws tid w m p out t nm ns :
  (tid < length ws)%nat → awake (ns !! tid) (duration w) t = true →
  ∃ k, (k ≤ 6)%nat ∧
    trun (replicate k (Move (LWorker tid)))
      (mkTimed (mkProg (mkState (mkShared m None) (<[tid:=at_point w Working]> ws))
                       p out) t nm ns) =
    Some (mkTimed (mkProg (mkState (mkShared (LeastConnection.finished_body (server w) m)
                                             None)
                                   (<[tid:=at_point w Done]> ws)) p
                          (out ++ [EvDone (server w)])) t nm ns).
Proof.
  intros Hlt Ha. unfold LeastConnection.finished_body, trun.
  destruct (index (server w) m) as [m1 v] eqn:Hi.
  destruct (decide (v > 0)) as [Hv|Hv].
  - destruct (index (server w) m1) as [m2 v2] eqn:Hi2.
    exists 6%nat. split; [lia|]. simpl replicate.
    do 2 move_tid Hi. rewrite decide_True by done. by do 4 move_tid Hi2.
  - exists 4%nat. split; [lia|]. simpl replicate.
    do 2 move_tid Hi. rewrite decide_False by done. by do 2 move_tid Hi.
Qed.

(** The whole of [simulate]: the two calls with the pause between
    them, and no step of the second call before the duration has
    passed. *)
Lemma trun_alone ws tid w m p out t nm ns :
  (tid < length ws)%nat → ns !! tid = None →
  let τ := mkTimed (mkProg (mkState (mkShared m None) (<[tid:=at_point w Idle]> ws))
                           p out) t nm ns in
  ∃ k, (k ≤ 6)%nat ∧
    trun (replicate 5 (Move (LWorker tid)) ++
          [Sleep (Some tid); Tick (duration w)] ++
          replicate k (Move (LWorker tid))) τ =
    Some (mkTimed
            (mkProg (mkState (mkShared (LeastConnection.finished_body (server w)
                                          (LeastConnection.started_body (server w) m))
                                       None)
                             (<[tid:=at_point w Done]> ws)) p
                    ((out ++ [EvStart (server w) (duration w)]) ++ [EvDone (server w)]))
            (t + duration w) nm (<[tid:=t]> ns)) ∧
    ∀ d, d < duration w →
      trun (replicate 5 (Move (LWorker tid)) ++
            [Sleep (Some tid); Tick d; Move (LWorker tid)]) τ = None.
Proof.
  intros Hlt Hn τ. unfold τ, trun.
  pose proof (trun_started ws tid w m p out t nm ns Hlt) as Hstart.
  destruct (trun_finished ws tid w (LeastConnection.started_body (server w) m) p
              (out ++ [EvStart (server w) (duration w)]) (t + duration w) nm
              (<[tid:=t]> ns) Hlt)
    as (k & Hk & Hfin).
  { rewrite lookup_insert_eq. apply bool_decide_eq_true. lia. }
  assert (∀ d, runs texec (replicate 5 (Move (LWorker tid)) ++ [Sleep (Some tid); Tick d])
                 (mkTimed (mkProg (mkState (mkShared m None)
                                           (<[tid:=at_point w Idle]> ws)) p out) t nm ns) =
               Some (mkTimed (mkProg (mkState (mkShared
                                        (LeastConnection.started_body (server w) m) None)
                                        (<[tid:=at_point w Working]> ws)) p
                                     (out ++ [EvStart (server w) (duration w)]))
                             (t + d) nm (<[tid:=t]> ns))) as Hnap.
  { intros d. unfold trun in Hstart. rewrite runs_app, Hstart.
    cbn [mbind option_bind runs].
    rewrite (texec_sleep_worker tid (at_point w Working))
      by (simpl; by rewrite ?list_lookup_insert_eq).
    cbn [mbind option_bind]. by rewrite texec_tick. }
  exists k. split_and!; [done| |].
  - change [Sleep (Some tid); Tick (duration w)]
      with ([Sleep (Some tid); Tick (duration w)] ++ []).
    rewrite app_assoc, (app_assoc _ _ []), app_nil_r, runs_app, Hnap.
    exact Hfin.
  - intros d Hd.
    change [Sleep (Some tid); Tick d; Move (LWorker tid)]
      with ([Sleep (Some tid); Tick d] ++ [Move (LWorker tid)]).
    rewrite app_assoc, runs_app, Hnap. cbn [mbind option_bind runs].
    by rewrite (texec_asleep _ _ _ _ _ _ _ t)
      by (done || lia || by rewrite lookup_insert_eq).
Qed.

End serial.

(** ** The theorems *)

Section claims.
Context `{Layout}.
Implicit Types (τ : tprog) (σ : prog).

(** C17: a thread that no other thread interrupts executes [simulate].
    From the first statement of [simulate] with the mutex free, the
    steps of the thread alone (five up to the call of [sleep_for], the
    pause, at most six after it) leave the map that [OnRequestStarted]
    followed by [OnRequestFinished] leaves, the mutex free, the START
    line and the DONE line on the console after what was there, and the
    clock later by the duration, as the sequential [simulate] says; and
    the thread does not come to [OnRequestFinished] before the duration
    has passed. *)
Theorem simulate_serial tid w τ :
  workers (conc (untimed τ)) !! tid = Some w → at_pc w = Idle →
  _mtx (sh (conc (untimed τ))) = None → naps τ !! tid = None →
  ∃ k lb' out' t',
    (k ≤ 6)%nat ∧
    simulate (server w) (duration w)
      (LeastConnection.mk (_connections (sh (conc (untimed τ)))) false)
      (cout (untimed τ)) (now τ) = Some (lb', out', t') ∧
    out' = cout (untimed τ) ++ [EvStart (server w) (duration w); EvDone (server w)] ∧
    trun (replicate 5 (Move (LWorker tid)) ++
          [Sleep (Some tid); Tick (duration w)] ++
          replicate k (Move (LWorker tid))) τ =
    Some (mkTimed
            (mkProg (mkState (mkShared (LeastConnection._connections lb') None)
                             (<[tid:=at_point w Done]> (workers (conc (untimed τ)))))
                    (at_main (untimed τ)) out')
            t' (nap_main τ) (<[tid:=now τ]> (naps τ))) ∧
    ∀ d, d < duration w →
      trun (replicate 5 (Move (LWorker tid)) ++
            [Sleep (Some tid); Tick d; Move (LWorker tid)]) τ = None.
Proof.
  destruct τ as [[[[m mtx] ws] p out] t nm ns], w as [srv d q]. simpl.
  intros Hw -> -> Hn. pose proof (lookup_lt_Some _ _ _ Hw) as Hlt.
  destruct (trun_alone ws tid (mkWorker srv d Idle) m p out t nm ns Hlt Hn)
    as (k & Hk & Hrun & Hearly).
  change (at_point (mkWorker srv d Idle) Idle) with (mkWorker srv d Idle) in *.
  rewrite (list_insert_id ws tid _ Hw) in Hrun, Hearly.
  eexists k, _, _, _. split_and!; [done|done|by rewrite <-app_assoc|..]; done.
Qed.

(** The clock forbids no interleaving: time passes in any amount
    between two steps, so a state of the program is reached by an
    execution with the clock, in which the step after a [sleep_for]
    waits for the duration to pass, exactly when it is reached by an
    execution of the program without the pauses.  This is a fact of the
    layer, which holds wherever the pauses stand; what the pauses of
    the code do is in [simulate_serial] and [main_takes_1600ms]. *)
Theorem sleep_transparent σ :
  (∃ tls τ, Forall tvalid tls ∧ trun tls tstart = Some τ ∧ untimed τ = σ) ↔
  (∃ ls, Forall valid ls ∧ run ls start = Some σ).
Proof.
  setoid_rewrite main_run_runs.
  apply (layer_reach exec texec untimed moves texec_untimed rested
           (λ l σ, nap l σ ++ [Move l]) timed_move valid tvalid
           tvalid_moves tvalid_nap tstart σ).
  by split.
Qed.

(** C31: [main] returns no earlier than 1600 ms after it entered its loop,
    and by then each of its threads has called [sleep_for] with a
    duration of at least 100 ms and that duration has passed since the
    call. *)
Theorem main_takes_1600ms tls τ :
  Forall tvalid tls → trun tls tstart = Some τ → at_main (untimed τ) = MExit →
  1600 ≤ now τ ∧
  ∀ tid w, workers (conc (untimed τ)) !! tid = Some w →
           100 ≤ duration w ∧
           ∃ t0, naps τ !! tid = Some t0 ∧ 0 ≤ t0 ∧ t0 + duration w ≤ now τ.
Proof.
  intros Hv Hrun Hexit.
  pose proof (tinv_trun _ _ _ Hv tinv_start Hrun) as [_ Hm Hn Hs].
  assert (minv (untimed τ)) as Hinv.
  { apply (layer_invariant exec texec untimed moves texec_untimed valid tvalid
             tvalid_moves minv tls tstart); [|done|apply minv_start|done].
    intros l σ1 σ2 ? ? ?. by apply (minv_exec_label l σ1). }
  pose proof (m_joined _ Hinv) as Hj. pose proof (m_pool _ Hinv) as Hpool.
  rewrite Hexit in Hm, Hj. simpl in *. split; [apply Hm|]. intros tid w Hw.
  rewrite Forall_lookup in Hj, Hpool.
  split; [apply (Hpool _ _ Hw)|].
  destruct (Hs tid w Hw) as (t0 & Ht0 & Hle); [by rewrite (Hj _ _ Hw)|].
  exists t0. split_and!; [done| |done]. apply (Hn _ _ Ht0).
Qed.

End claims.

(** ** The theorems at work *)

(** The execution [seq_sched] of [MainLC] with its pauses. *)
Definition timed_exit : tprog :=
  default tstart (trun (timing seq_sched start) tstart).

Lemma trun_exit : trun (timing seq_sched start) tstart = Some timed_exit.
Proof. by vm_compute. Qed.

Lemma tvalid_exit : Forall tvalid (timing seq_sched start).
Proof.
  apply (filled_ok _ _ valid tvalid), valid_seq_sched. apply tvalid_nap.
Qed.

(** The first thread has been created and has not moved. *)
Definition timed_spawned : tprog :=
  default tstart (trun (replicate 5 (Move (LMain 7))) tstart).

Definition first_worker : worker := mkWorker "server3" 107 Idle.

Lemma simulate_serial_witness :
  ∃ k lb' out' t',
    (k ≤ 6)%nat ∧
    simulate "server3" 107
      (LeastConnection.mk (_connections (sh (conc (untimed timed_spawned)))) false)
      (cout (untimed timed_spawned)) (now timed_spawned) = Some (lb', out', t') ∧
    out' = cout (untimed timed_spawned) ++ [EvStart "server3" 107; EvDone "server3"] ∧
    trun (replicate 5 (Move (LWorker 0)) ++ [Sleep (Some 0%nat); Tick 107] ++
          replicate k (Move (LWorker 0))) timed_spawned =
    Some (mkTimed
            (mkProg (mkState (mkShared (LeastConnection._connections lb') None)
                             (<[0%nat:=at_point first_worker Done]>
                                (workers (conc (untimed timed_spawned)))))
                    (at_main (untimed timed_spawned)) out')
            t' (nap_main timed_spawned) (<[0%nat:=now timed_spawned]> (naps timed_spawned))) ∧
    ∀ d, d < 107 →
      trun (replicate 5 (Move (LWorker 0)) ++
            [Sleep (Some 0%nat); Tick d; Move (LWorker 0)]) timed_spawned = None.
Proof.
  exact (simulate_serial 0 first_worker timed_spawned eq_refl eq_refl eq_refl eq_refl).
Defined.

(** The thread alone, with the pause of 107 ms it asks for. *)
Example simulate_first :
  (λ τ, (_connections (sh (conc (untimed τ))), render <$> cout (untimed τ), now τ)) <$>
    trun (replicate 5 (Move (LWorker 0)) ++ [Sleep (Some 0%nat); Tick 107] ++
          replicate 6 (Move (LWorker 0))) timed_spawned =
  Some ([("server3", 0); ("server2", 0); ("server1", 0)]%string,
        ["[START] Request sent to server3 (handling for 107ms)" +:+ nl;
         "[DONE ] Request completed on server3" +:+ nl], 107).
Proof. by vm_compute. Qed.

Lemma main_takes_1600ms_witness :
  1600 ≤ now timed_exit ∧
  ∀ tid w, workers (conc (untimed timed_exit)) !! tid = Some w →
           100 ≤ duration w ∧
           ∃ t0, naps timed_exit !! tid = Some t0 ∧ 0 ≤ t0 ∧
                 t0 + duration w ≤ now timed_exit.
Proof.
  exact (main_takes_1600ms _ timed_exit tvalid_exit trun_exit eq_refl).
Defined.

(** In that execution every thread runs to its end before the next is
    started, so the pauses add up: sixteen pauses of [main] and the
    sixteen durations. *)
Example now_timed_exit :
  now timed_exit =
  1600 + Z.of_nat (sum_list_with (λ w, Z.to_nat (duration w))
                     (workers (conc (untimed timed_exit)))).
Proof. by vm_compute. Qed.

End LCTimed.
