(* ===== verification/Console.v ===== *)
(** * The console of [leastconnecitonalgo.cpp]

    What the program of [MainLC] writes to [std::cout], as the list of the
    output statements it has executed.  The workers print their two lines
    outside the mutex, [printConnections] prints its heading and its
    lines under it, so lines of workers fall between the lines of a
    table, and yet every table is the map as it was at one moment.

    [Module LCConsole] holds the invariant of the console ([cinv]): the
    START and DONE lines are those of the workers that have passed the
    statement, the lines of [printConnections] form whole tables followed
    by the part of the table being printed ([shows]), and the last line
    of [main] is there at the exit only.  The theorems:
    [snapshots_consistent] and [all_completed_last]. *)

From Stdlib Require Import ZArith Lia.
From stdpp Require Import base tactics option list strings gmap relations pretty.
From S2P Require Import Prelude ConnMap LeastConnLB Workers MainLC.

#[local] Open Scope Z_scope.

Module LCConsole.
Import UMap Conc LCMain.

(** ** Counting the lines *)

Definition is_start (ev : event) : bool :=
  match ev with EvStart _ _ => true | _ => false end.
Definition is_done (ev : event) : bool :=
  match ev with EvDone _ => true | _ => false end.

(** The output statements of [printConnections]. *)
Definition is_conn (ev : event) : bool :=
  match ev with EvHeading | EvEntry _ => true | _ => false end.

(** The worker has printed its first line, its second line. *)
Definition has_started (q : pc) : bool :=
  match q with
  | Working | FinishLocked | FinishTested | FinishLoaded _ | FinishStored
  | Finished | Done => true
  | _ => false
  end.
Definition has_finished (q : pc) : bool :=
  match q with Done => true | _ => false end.

Definition count_ev (f : event → bool) (out : list event) : nat :=
  sum_list_with (λ ev, if f ev then 1 else 0)%nat out.
Definition count_pc (f : pc → bool) (ws : list worker) : nat :=
  sum_list_with (λ w, if f (at_pc w) then 1 else 0)%nat ws.

(** What [printConnections] has written, without the lines of the
    workers that came between. *)
Definition conn (out : list event) : list event := filter (λ ev, is_conn ev) out.

(** What a call of [printConnections] writes when the map is [t]. *)
Definition block (t : list (string * Z)) : list event :=
  EvHeading :: (EvEntry <$> t).

(** The calls of [printConnections] that have returned when the main
    thread is at [p]. *)
Definition prints (p : mpc) : nat :=
  match p with
  | MSelect i | MScan i _ _ | MSpawn i _ | MLock i | MPrint i | MEntry i _
  | MUnlock i => Z.to_nat i
  | MJoin _ | MExit => 16
  end.

(** What the call of [printConnections] in progress has written, the map
    being [m]. *)
Definition printing (p : mpc) (m : list (string * Z)) : list event :=
  match p with
  | MEntry _ it => block (take it m)
  | MUnlock _ => block m
  | _ => []
  end.

(** The table of the call of [printConnections] that returns at the next
    step of the main thread. *)
Definition returned (p : mpc) (m : list (string * Z)) : list (list (string * Z)) :=
  match p with MUnlock _ => [m] | _ => [] end.

(** The last line is the last event, and is there at the exit only. *)
Definition last_line (p : mpc) (out : list event) : Prop :=
  match p with
  | MExit => ∃ pre, out = pre ++ [EvAllCompleted] ∧ EvAllCompleted ∉ pre
  | _ => EvAllCompleted ∉ out
  end.

Section console.
Context `{Layout}.
Implicit Types (σ : prog) (w : worker) (p : mpc) (out : list event).
Implicit Types (t : list (string * Z)) (ts : list (list (string * Z))).

(** A table [printConnections] may print: the servers of the constructor
    in the order of the map, each with at most sixteen connections. *)
Definition table_ok t : Prop := t.*1 = keys0 ∧ Forall (λ e, 0 ≤ e.2 ≤ 16) t.

(** The console shows the tables [ts] of the calls that have returned,
    then what the call in progress has written of the map as it is. *)
Definition shows σ ts : Prop :=
  length ts = prints (at_main σ) ∧ Forall table_ok ts ∧
  conn (cout σ) =
    mjoin (block <$> ts) ++ printing (at_main σ) (_connections (sh (conc σ))).

Record cinv σ : Prop := {
  c_start : count_ev is_start (cout σ) = count_pc has_started (workers (conc σ));
  c_done : count_ev is_done (cout σ) = count_pc has_finished (workers (conc σ));
  c_last : last_line (at_main σ) (cout σ);
  c_conn : ∃ ts, shows σ ts;
}.

Lemma count_ev_app f out1 out2 :
  count_ev f (out1 ++ out2) = (count_ev f out1 + count_ev f out2)%nat.
Proof. apply sum_list_with_app. Qed.

Lemma conn_app out1 out2 : conn (out1 ++ out2) = conn out1 ++ conn out2.
Proof. apply filter_app. Qed.

Lemma count_pc_insert f ws tid w (q : pc) :
  ws !! tid = Some w →
  (count_pc f (<[tid:=at_point w q]> ws) + (if f (at_pc w) then 1 else 0) =
   count_pc f ws + (if f q then 1 else 0))%nat.
Proof.
  intros Hw. apply (sum_list_with_insert (λ w, if f (at_pc w) then 1 else 0)%nat
                      _ _ _ (at_point w q) Hw).
Qed.

Lemma count_pc_all f ws :
  Forall (λ w, f (at_pc w) = true) ws → count_pc f ws = length ws.
Proof.
  induction 1 as [|w ws Hw _ IH]; [done|]. unfold count_pc in *. simpl.
  by rewrite Hw, IH.
Qed.

Lemma count_pc_spawn f ws srv d :
  f Idle = false → count_pc f (ws ++ [mkWorker srv d Idle]) = count_pc f ws.
Proof.
  intros Hf. unfold count_pc. rewrite sum_list_with_app. simpl. rewrite Hf. lia.
Qed.

(** What a step of a worker prints, and what it makes of the worker. *)
Lemma wstep_emits tid w s s' (q : pc) :
  wstep tid w s = Some (s', q) →
  (count_ev is_start (emits w) + (if has_started (at_pc w) then 1 else 0) =
     (if has_started q then 1 else 0))%nat ∧
  (count_ev is_done (emits w) + (if has_finished (at_pc w) then 1 else 0) =
     (if has_finished q then 1 else 0))%nat ∧
  conn (emits w) = [] ∧ (EvAllCompleted ∉ emits w).
Proof.
  unfold wstep, emits. destruct w as [srv d q0]. simpl.
  destruct q0; intros; simplify_option_eq; repeat case_match; simplify_eq/=;
    split_and!; try done;
    first [apply not_elem_of_nil|by intros ?%list_elem_of_singleton].
Qed.

(** The map, under the invariant, is a table [printConnections] may
    print. *)
Lemma minv_table σ : minv σ → table_ok (_connections (sh (conc σ))).
Proof.
  intros Hinv. split; [apply Hinv|]. apply Forall_forall. intros [k v] Hkv.
  pose proof (minv_count σ k Hinv) as Hc. unfold cnt, LCSpec.count in Hc.
  rewrite <-get_to_gmap, (elem_of_get k v) in Hc
    by (done || apply (minv_wf _ Hinv)).
  pose proof (flying_range k (workers (conc σ))).
  pose proof (minv_threads _ Hinv). simpl in *. lia.
Qed.

(** While the main thread is inside [printConnections], the steps of the
    workers leave the map as it is. *)
Lemma wexec_printing tid σ σ' :
  minv σ → wexec tid σ = Some σ' →
  printing (at_main σ') (_connections (sh (conc σ'))) =
  printing (at_main σ) (_connections (sh (conc σ))).
Proof.
  intros Hinv Hexec.
  destruct (wexec_view tid σ σ' Hinv Hexec) as (_ & Hmain & _). rewrite Hmain.
  destruct (main_holds (at_main σ)) eqn:Hm; [|by destruct (at_main σ)].
  apply wexec_Some in Hexec as (w & s' & q & Hw & Hstep & ->). simpl.
  by destruct (wstep_outside _ _ _ _ _ (printing_outside σ tid w Hinv Hm Hw)
                 (mk_is_Some _ _ (m_mutex _ Hinv Hm)) Hstep) as [-> _].
Qed.

(** The lines of the workers are not lines of a table. *)
Lemma shows_wexec tid σ σ' ts :
  minv σ → shows σ ts → wexec tid σ = Some σ' → shows σ' ts.
Proof.
  intros Hinv (Hn & Hts & Hc) Hexec.
  pose proof (wexec_printing _ _ _ Hinv Hexec) as Hp.
  destruct (wexec_view _ _ _ Hinv Hexec) as (_ & Hmain & _).
  unfold shows. rewrite Hp, Hmain. split_and!; [done..|].
  apply wexec_Some in Hexec as (w & s' & q & Hw & Hstep & ->). simpl.
  destruct (wstep_emits _ _ _ _ _ Hstep) as (_ & _ & Ec & _).
  by rewrite conn_app, Ec, app_nil_r.
Qed.

(** Steps keep the invariant of the console. *)
Lemma cinv_start : cinv start.
Proof. split; simpl; [done..|apply not_elem_of_nil|by exists []]. Qed.

Lemma cinv_wexec tid σ σ' : minv σ → cinv σ → wexec tid σ = Some σ' → cinv σ'.
Proof.
  intros Hinv [Hs Hd Hl [ts Hts]] Hexec.
  pose proof (shows_wexec _ _ _ _ Hinv Hts Hexec) as Hts'.
  apply wexec_Some in Hexec as (w & s' & q & Hw & Hstep & ->). simpl in *.
  destruct (wstep_emits _ _ _ _ _ Hstep) as (Es & Ed & Ec & El).
  pose proof (count_pc_insert has_started _ _ _ q Hw).
  pose proof (count_pc_insert has_finished _ _ _ q Hw).
  split; simpl; rewrite ?count_ev_app; [lia..| |].
  - destruct (at_main σ) eqn:Hq; simpl in *;
      try (rewrite elem_of_app; by intros [?|?]).
    pose proof (m_joined _ Hinv) as Hall. rewrite Hq in Hall. simpl in Hall.
    rewrite Forall_lookup in Hall. unfold wstep in Hstep.
    by rewrite (Hall _ _ Hw) in Hstep.
  - by exists ts.
Qed.

Lemma block_take_S t it e :
  t !! it = Some e → block (take (S it) t) = block (take it t) ++ [EvEntry e].
Proof. intros He. unfold block. by rewrite (take_S_r _ _ _ He), fmap_app. Qed.

Lemma shows_scan c i smallest first p out ts :
  shows (mkProg c (MScan i smallest first) out) ts →
  scan_step (_connections (sh c)) i smallest first = Some p →
  shows (mkProg c p out) ts.
Proof. by intros Hs [(sm & f & ->)|(srv & ->)]%scan_step_pc. Qed.

Lemma shows_entry c i it p evs out ts :
  shows (mkProg c (MEntry i it) out) ts →
  print_step (_connections (sh c)) i it = (p, evs) →
  shows (mkProg c p (out ++ evs)) ts.
Proof.
  intros (Hn & Hts & Hc) [(e & He & -> & ->)|(Hnone & -> & ->)]%print_step_pc;
    (split_and!; [done..|]); simpl in *.
  - by rewrite conn_app, Hc, (block_take_S _ _ _ He), app_assoc.
  - by rewrite app_nil_r, Hc, take_ge by (by apply lookup_ge_None).
Qed.

(** A step of the main thread and the tables on the console: the step
    out of [printConnections] completes a table. *)
Lemma shows_mstep r σ σ' ts :
  minv σ → shows σ ts → mstep r σ = Some σ' →
  shows σ' (ts ++ returned (at_main σ) (_connections (sh (conc σ)))).
Proof.
  intros Hinv Hs. pose proof (m_spawned _ Hinv) as Hsp.
  pose proof (minv_table σ Hinv) as Hm.
  unfold mstep. destruct σ as [c p out]. simpl in *.
  destruct p; intros; simplify_option_eq; repeat case_match; simplify_eq/=;
    rewrite ?app_nil_r;
    try (by eapply shows_scan); try (by eapply shows_entry);
    destruct Hs as (Hn & Hts & Hc); unfold shows; simpl in *;
    rewrite ?conn_app, ?Hc; simpl; rewrite ?app_nil_r; try done.
  rewrite fmap_app, join_app, length_app. simpl. rewrite !app_nil_r.
  unfold loop_test.
  split_and!; [case_decide; simpl; lia|by apply Forall_app_2, Forall_singleton|].
  case_decide; simpl; by rewrite app_nil_r.
Qed.

Lemma cinv_mstep r σ σ' : minv σ → cinv σ → mstep r σ = Some σ' → cinv σ'.
Proof.
  intros Hinv [Hs Hd Hl [ts Hc]] Hstep. pose proof (m_spawned _ Hinv) as Hsp.
  split; [..|eexists; by eapply shows_mstep]; revert Hstep;
    unfold mstep; destruct σ as [c p out]; simpl in *;
    destruct p; intros; simplify_option_eq; repeat case_match; simplify_eq/=;
    step_inside;
    rewrite ?count_ev_app, ?count_pc_spawn by done; simpl;
    rewrite ?elem_of_app, ?list_elem_of_singleton, ?elem_of_nil;
    unfold loop_test; try case_decide; simpl; try done; try lia;
    try (by intros [?|?]); by exists out.
Qed.

Lemma cinv_exec l σ σ' : minv σ → cinv σ → exec l σ = Some σ' → cinv σ'.
Proof. destruct l; simpl; [by apply cinv_mstep|by apply cinv_wexec]. Qed.

Lemma cinv_rtc σ σ' : rtc step σ σ' → minv σ ∧ cinv σ → minv σ' ∧ cinv σ'.
Proof.
  induction 1 as [|σ1 σ2 σ3 (l & Hv & Hexec) _ IH]; [done|].
  intros [Hm Hc]. apply IH.
  split; [by eapply minv_exec_label|by eapply cinv_exec].
Qed.

Lemma cinv_reachable σ0 σ : init = Ok σ0 → rtc step σ0 σ → minv σ ∧ cinv σ.
Proof.
  rewrite init_start. intros [= <-] Hrun. apply (cinv_rtc _ _ Hrun).
  split; [apply minv_start|apply cinv_start].
Qed.

(** The text of a table is the text of its lines. *)
Lemma render_block t :
  foldr (λ ev acc, render ev +:+ acc) "" (block t) = render_connections t.
Proof.
  unfold render_connections, block. simpl. f_equal.
  induction t as [|e t IH]; [done|]. simpl. f_equal. exact IH.
Qed.

(** The line "All requests completed." is the last thing the program
    prints, and before it come the two lines of each of the sixteen
    workers and the sixteen tables of [printConnections]. *)
Theorem all_completed_last σ0 σ :
  init = Ok σ0 → rtc step σ0 σ → EvAllCompleted ∈ cout σ →
  ∃ pre ts, cout σ = pre ++ [EvAllCompleted] ∧
            count_ev is_start pre = 16%nat ∧ count_ev is_done pre = 16%nat ∧
            length ts = 16%nat ∧ conn pre = mjoin (block <$> ts).
Proof.
  intros Hinit Hrun Hin.
  destruct (cinv_reachable σ0 σ Hinit Hrun) as [Hm [Hs Hd Hl (ts & Hn & _ & Hc)]].
  pose proof (m_spawned _ Hm) as Hsp. pose proof (m_joined _ Hm) as Hj.
  destruct (at_main σ); try done. simpl in *.
  destruct Hl as (pre & Hout & _). exists pre, ts. rewrite Hout in *.
  rewrite count_ev_app in Hs, Hd. rewrite conn_app, !app_nil_r in Hc. simpl in *.
  rewrite count_pc_all in Hs, Hd by (eapply Forall_impl; [exact Hj|];
                                    intros ? Hq; by rewrite Hq).
  split_and!; [done|lia..|done|done].
Qed.

(** What [printConnections] has put on the console, whatever the
    workers printed in between, is a sequence of whole tables, one for
    each call that has returned, each listing the servers of the
    constructor in the order of the map with a count between zero and
    sixteen, followed by what the call in progress has written: the
    heading and the first entries of the map as it is now. *)
Theorem snapshots_consistent σ0 σ :
  init = Ok σ0 → rtc step σ0 σ →
  ∃ ts, length ts = prints (at_main σ) ∧
        Forall (λ t, t.*1 = keys0 ∧ Forall (λ e, 0 ≤ e.2 ≤ 16) t) ts ∧
        conn (cout σ) =
          mjoin (block <$> ts) ++
          printing (at_main σ) (_connections (sh (conc σ))).
Proof.
  intros Hinit Hrun.
  by destruct (cinv_reachable σ0 σ Hinit Hrun) as [_ [_ _ _ Hc]].
Qed.

End console.

(** ** Witnesses *)

Lemma completed_st_exit : EvAllCompleted ∈ cout st_exit.
Proof. apply (bool_decide_unpack _). by vm_compute. Qed.

Lemma all_completed_last_witness :
  ∃ pre ts, cout st_exit = pre ++ [EvAllCompleted] ∧
            count_ev is_start pre = 16%nat ∧ count_ev is_done pre = 16%nat ∧
            length ts = 16%nat ∧ conn pre = mjoin (block <$> ts).
Proof.
  exact (all_completed_last start st_exit init_start reach_exit completed_st_exit).
Defined.

Lemma snapshots_consistent_witness :
  ∃ ts, length ts = prints (at_main st_race) ∧
        Forall (λ t, t.*1 = keys0 ∧ Forall (λ e, 0 ≤ e.2 ≤ 16) t) ts ∧
        conn (cout st_race) =
          mjoin (block <$> ts) ++
          printing (at_main st_race) (_connections (sh (conc st_race))).
Proof. exact (snapshots_consistent start st_race init_start reach_race). Defined.

(** What the console shows when the first worker prints its first line
    while the main thread is in the loop of [printConnections]: the line
    falls between two lines of the table. *)
Example console_text :
  (λ σ, render <$> cout σ) <$>
    run (replicate 5 (LMain 7) ++ replicate 4 (LWorker 0) ++
         replicate 3 (LMain 7) ++ [LWorker 0] ++ replicate 2 (LMain 7)) start =
  Some ["Current connections:" +:+ nl; " server3->1" +:+ nl;
        "[START] Request sent to server3 (handling for 107ms)" +:+ nl;
        " server2->0" +:+ nl; " server1->0" +:+ nl].
Proof. by vm_compute. Qed.

End LCConsole.
