(* ===== verification/Stream.v ===== *)
(** * The characters on [std::cout]

    [simulate] and [main] write to [std::cout] from seventeen threads.
    The stream is synchronized, so the accesses do not race, but nothing
    keeps the characters of two threads apart: an output statement is not
    one action of the stream.  [MainLC] and [Console] take it for one;
    this file goes down to the characters.

    A state of [Module LCStream] is a state of the program of [MainLC],
    for each thread the characters of its last output statement that
    are still to come ([pend]), and the characters that have reached the
    console, each with the thread that wrote it ([screen]).  A step is a
    step of the program ([Step]) or one character reaching the console
    ([Put]).  A thread takes its next step once the characters of its
    last statement are out, and [join] returns for a thread once the
    characters of the thread's last line are out ([awaited]).

    The theorems: what a thread has written, read off the console in
    order, is the text of the output statements it has executed, whatever
    falls between ([console_per_thread]); for the main thread that text
    is the tables of [printConnections] one after the other
    ([screen_tables]); a character of thread [k] comes after [k] whole
    tables ([start_after_tables]); the last line of [main] comes after
    every character of every thread ([last_line_last]); and the program
    reaches the same states whether the characters are followed or not
    ([stream_transparent]). *)

From Stdlib Require Import ZArith Lia Ascii String.
From stdpp Require Import base tactics option list strings gmap relations pretty.
From S2P Require Import Prelude Simulation ConnMap LeastConnLB Workers MainLC Console.

#[local] Open Scope Z_scope.

Module LCStream.
Import UMap Conc LCMain LCConsole.

(** The characters of an output statement. *)
Definition chars (ev : event) : list ascii := list_ascii_of_string (render ev).

(** The thread that takes a step: the main thread is [None]. *)
Definition actor (l : label) : option nat :=
  match l with LMain _ => None | LWorker tid => Some tid end.

(** The output statements of [main] and of [printConnections], which the
    main thread executes. *)
Definition is_main (ev : event) : bool :=
  match ev with EvHeading | EvEntry _ | EvAllCompleted => true | _ => false end.

Record sprog : Type := mkStream {
  base : prog;
  pend : gmap (option nat) (list ascii);
  screen : list (option nat * ascii);
}.

Inductive slabel : Type :=
| Put (who : option nat)
| Step (l : label).

Definition svalid (l : slabel) : Prop :=
  match l with Put _ => True | Step l => valid l end.

#[export] Instance svalid_dec l : Decision (svalid l).
Proof. destruct l; apply _. Defined.

(** The characters thread [who] has still to write. *)
Definition queue (ρ : sprog) (who : option nat) : list ascii :=
  default [] (pend ρ !! who).

(** The characters of thread [who] on the console, in order. *)
Definition own (who : option nat) (scr : list (option nat * ascii)) : list ascii :=
  (filter (λ x, x.1 = who) scr).*2.

(** The text on the console. *)
Definition text (scr : list (option nat * ascii)) : string :=
  string_of_list_ascii scr.*2.

Section sem.
Context `{Layout}.

(** The output statement a step executes. *)
Definition said (l : label) (σ : prog) : list event :=
  match l with
  | LMain _ => memits σ
  | LWorker tid => from_option emits [] (workers (conc σ) !! tid)
  end.

(** The threads whose characters are out before the step is taken:
    the thread that takes it, whose last output statement is over, and
    the thread [join] returns for, which has left [simulate]. *)
Definition awaited (l : label) (σ : prog) : list (option nat) :=
  actor l ::
  match l, at_main σ with LMain _, MJoin j => [Some j] | _, _ => [] end.

(** One step: a character of [who] reaches the console, or a thread that
    has written what it had to write takes a step of the program. *)
Definition sexec (l : slabel) (ρ : sprog) : option sprog :=
  match l with
  | Put who =>
      match queue ρ who with
      | c :: cs =>
          Some (mkStream (base ρ) (<[who := cs]> (pend ρ)) (screen ρ ++ [(who, c)]))
      | [] => None
      end
  | Step l =>
      if decide (Forall (λ who, queue ρ who = []) (awaited l (base ρ))) then
        σ' ← exec l (base ρ);
        Some (mkStream σ' (<[actor l := said l (base ρ) ≫= chars]> (pend ρ))
                       (screen ρ))
      else None
  end.

Definition sruns (ls : list slabel) (ρ : sprog) : option sprog := runs sexec ls ρ.

(** The state when the loop of [main] is entered. *)
Definition sstart : sprog := mkStream start ∅ [].

(** What thread [who] has written and has still to write in all: the
    text of the output statements it has executed. *)
Definition spoken (who : option nat) (σ : prog) : list ascii :=
  match who with
  | None => filter (λ ev, is_main ev) (cout σ) ≫= chars
  | Some tid =>
      match workers (conc σ) !! tid with
      | Some w =>
          (if has_started (at_pc w)
           then chars (EvStart (server w) (duration w)) else []) ++
          (if has_finished (at_pc w) then chars (EvDone (server w)) else [])
      | None => []
      end
  end.

End sem.

(** ** What each thread writes *)

Section spoken.
Context `{Layout}.
Implicit Types (ρ : sprog) (σ : prog) (w : worker) (who : option nat).

Lemma filter_main_memits σ : filter (λ ev, is_main ev) (memits σ) = memits σ.
Proof.
  unfold memits, print_step. destruct (at_main σ); try done; by repeat case_match.
Qed.

Lemma filter_main_emits w : filter (λ ev, is_main ev) (emits w) = [].
Proof. unfold emits. by destruct (at_pc w). Qed.

(** A step of a worker adds its output statement to what the worker has
    written. *)
Lemma wstep_spoken tid w s s' (q : pc) :
  wstep tid w s = Some (s', q) →
  (if has_started q then chars (EvStart (server w) (duration w)) else []) ++
  (if has_finished q then chars (EvDone (server w)) else []) =
  ((if has_started (at_pc w) then chars (EvStart (server w) (duration w)) else []) ++
   (if has_finished (at_pc w) then chars (EvDone (server w)) else [])) ++
  (emits w ≫= chars).
Proof.
  unfold wstep, emits. destruct w as [srv d []]; simpl; intros;
    repeat case_match; simplify_option_eq; by rewrite ?app_nil_r.
Qed.

(** A step of the program adds the output statement it executes to what
    the thread that takes it has written, and nothing to what the others
    have. *)
Lemma spoken_exec l σ σ' who :
  exec l σ = Some σ' →
  spoken who σ' =
  spoken who σ ++ (if decide (who = actor l) then said l σ ≫= chars else []).
Proof.
  destruct l as [r|tid0]; simpl; intros Hexec.
  - pose proof (mstep_cout _ _ _ Hexec) as Hcout.
    destruct (mstep_workers _ _ _ Hexec) as (ws & Hws & Hidle).
    destruct who as [tid|]; simpl.
    + rewrite app_nil_r, Hws.
      destruct (workers (conc σ) !! tid) as [w|] eqn:Hw;
        [by rewrite (lookup_app_l_Some _ _ _ _ Hw)|].
      rewrite lookup_app_r by (by apply lookup_ge_None).
      destruct (ws !! _) as [w|] eqn:Hw'; [|done].
      rewrite Forall_lookup in Hidle. by rewrite (Hidle _ _ Hw').
    + by rewrite Hcout, filter_app, bind_app, filter_main_memits.
  - apply wexec_Some in Hexec as (w & s' & q & Hw & Hstep & ->).
    pose proof (lookup_lt_Some _ _ _ Hw) as Hlt. destruct who as [tid|]; simpl.
    + case_decide; simplify_eq.
      * rewrite list_lookup_insert_eq, Hw by done. simpl.
        by apply wstep_spoken with tid0 (sh (conc σ)) s'.
      * rewrite list_lookup_insert_ne, app_nil_r by congruence. done.
    + by rewrite filter_app, filter_main_emits, !app_nil_r.
Qed.

End spoken.

(** ** The invariant of the console *)

(** What a thread has written, with what it has still to write, is the
    text of the output statements it has executed. *)
Definition sinv `{Layout} (ρ : sprog) : Prop :=
  ∀ who, own who (screen ρ) ++ queue ρ who = spoken who (base ρ).

Lemma own_snoc who scr who0 c :
  own who (scr ++ [(who0, c)]) = own who scr ++ (if decide (who0 = who) then [c] else []).
Proof.
  unfold own. rewrite filter_app, fmap_app. f_equal.
  rewrite filter_cons, filter_nil. simpl. by case_decide.
Qed.

Lemma queue_insert ρ b scr a x who :
  queue (mkStream b (<[a := x]> (pend ρ)) scr) who =
  if decide (a = who) then x else queue ρ who.
Proof.
  unfold queue. simpl. case_decide as Ha; [subst; by rewrite lookup_insert_eq|].
  by rewrite lookup_insert_ne.
Qed.

Section invariant.
Context `{Layout}.
Implicit Types (ρ : sprog) (σ : prog) (who : option nat).

(** The two steps. *)
Lemma sexec_Some l ρ ρ' :
  sexec l ρ = Some ρ' →
  match l with
  | Put who =>
      ∃ c cs, queue ρ who = c :: cs ∧
        ρ' = mkStream (base ρ) (<[who := cs]> (pend ρ)) (screen ρ ++ [(who, c)])
  | Step l =>
      ∃ σ', Forall (λ who, queue ρ who = []) (awaited l (base ρ)) ∧
        exec l (base ρ) = Some σ' ∧
        ρ' = mkStream σ' (<[actor l := said l (base ρ) ≫= chars]> (pend ρ))
                      (screen ρ)
  end.
Proof.
  unfold sexec. destruct l as [who|l].
  - destruct (queue ρ who) as [|c cs]; [done|]. intros [= <-]. by exists c, cs.
  - case_decide; [|done]. destruct (exec l (base ρ)) as [σ'|]; [simpl|done].
    intros [= <-]. by exists σ'.
Qed.

Lemma awaited_actor ρ l :
  Forall (λ who, queue ρ who = []) (awaited l (base ρ)) → queue ρ (actor l) = [].
Proof. by intros [? _]%Forall_cons_1. Qed.

Lemma sinv_start : sinv sstart.
Proof. by intros [tid|]. Qed.

Lemma sinv_put who ρ c cs :
  sinv ρ → queue ρ who = c :: cs →
  sinv (mkStream (base ρ) (<[who := cs]> (pend ρ)) (screen ρ ++ [(who, c)])).
Proof.
  intros Hinv Hq who'. cbn [screen base]. rewrite queue_insert, own_snoc.
  rewrite <-(Hinv who'). case_decide as Hw; [subst who'|by rewrite app_nil_r].
  by rewrite Hq, <-app_assoc.
Qed.

Lemma sinv_step l ρ σ' :
  sinv ρ → queue ρ (actor l) = [] → exec l (base ρ) = Some σ' →
  sinv (mkStream σ' (<[actor l := said l (base ρ) ≫= chars]> (pend ρ)) (screen ρ)).
Proof.
  intros Hinv Hq Hexec who. cbn [screen base]. rewrite queue_insert.
  rewrite (spoken_exec _ _ _ who Hexec), <-(Hinv who).
  destruct (decide (actor l = who)) as [<-|Hne].
  - by rewrite decide_True, Hq, app_nil_r.
  - by rewrite decide_False, app_nil_r.
Qed.

(** Steps keep the invariant. *)
Lemma sinv_sexec l ρ ρ' : sinv ρ → sexec l ρ = Some ρ' → sinv ρ'.
Proof.
  intros Hinv Hl%sexec_Some. destruct l as [who|l].
  - destruct Hl as (c & cs & Hq & ->). by apply sinv_put.
  - destruct Hl as (σ' & Hq%awaited_actor & Hexec & ->). by apply sinv_step.
Qed.

Lemma sinv_sruns ls ρ ρ' : sinv ρ → sruns ls ρ = Some ρ' → sinv ρ'.
Proof.
  intros Hinv. apply (runs_invariant sexec sinv (λ _, True)); [|by apply Forall_true|done].
  intros l ρ1 ρ2 ? _ ?. by apply (sinv_sexec l ρ1).
Qed.

End invariant.

(** ** Following the characters or not *)

(** The step of the program a label stands for. *)
Definition steps (l : slabel) : list label :=
  match l with Step l => [l] | Put _ => [] end.

(** No thread has characters to write. *)
Definition quiet (ρ : sprog) : Prop := ∀ who, queue ρ who = [].

Section flush.
Context `{Layout}.
Implicit Types (ρ : sprog) (σ : prog) (who : option nat).

(** A step of the program, and the characters of its output statement
    one after the other. *)
Definition flush (l : label) (σ : prog) : list slabel :=
  Step l :: replicate (length (said l σ ≫= chars)) (Put (actor l)).

Lemma sexec_base l ρ ρ' :
  sexec l ρ = Some ρ' → runs exec (steps l) (base ρ) = Some (base ρ').
Proof.
  intros Hl%sexec_Some. destruct l as [who|l]; simpl.
  - by destruct Hl as (c & cs & _ & ->).
  - destruct Hl as (σ' & _ & Hexec & ->). by rewrite Hexec.
Qed.

(** The characters a thread has to write reach the console one by one,
    and the other threads keep theirs. *)
Lemma put_all who cs ρ :
  queue ρ who = cs →
  ∃ ρ', sruns (replicate (length cs) (Put who)) ρ = Some ρ' ∧ base ρ' = base ρ ∧
        queue ρ' who = [] ∧ ∀ who', who' ≠ who → queue ρ' who' = queue ρ who'.
Proof.
  unfold sruns. revert ρ. induction cs as [|c cs IH]; intros ρ Hq; simpl.
  - by exists ρ.
  - rewrite Hq. simpl.
    destruct (IH (mkStream (base ρ) (<[who := cs]> (pend ρ)) (screen ρ ++ [(who, c)])))
      as (ρ' & Hρ' & Hb & Hq' & Ho); [by rewrite queue_insert, decide_True|].
    exists ρ'. split_and!; [done..|]. intros who' Hne.
    by rewrite (Ho _ Hne), queue_insert, decide_False.
Qed.

Lemma stream_move l ρ σ' :
  quiet ρ → exec l (base ρ) = Some σ' →
  ∃ ρ', sruns (flush l (base ρ)) ρ = Some ρ' ∧ base ρ' = σ' ∧ quiet ρ'.
Proof.
  intros Hquiet Hexec. unfold flush, sruns. cbn [runs sexec].
  rewrite decide_True, Hexec by (apply Forall_forall; intros; apply Hquiet).
  cbn [mbind option_bind].
  destruct (put_all (actor l) (said l (base ρ) ≫= chars)
              (mkStream σ' (<[actor l := said l (base ρ) ≫= chars]> (pend ρ))
                        (screen ρ)))
    as (ρ' & Hρ' & Hb & Hq & Ho); [by rewrite queue_insert, decide_True|].
  exists ρ'. split_and!; [done..|]. intros who.
  destruct (decide (who = actor l)) as [->|Hne]; [done|].
  rewrite (Ho _ Hne), queue_insert, decide_False by done. apply Hquiet.
Qed.

Lemma svalid_steps l : svalid l → Forall valid (steps l).
Proof. destruct l; simpl; by repeat constructor. Qed.

Lemma svalid_flush l σ : valid l → Forall svalid (flush l σ).
Proof. intros Hl. constructor; [done|]. by apply Forall_replicate. Qed.

End flush.

(** ** The threads that have returned, and the last line *)

(** The characters of the last line of [main]. *)
Definition closing (p : mpc) : list ascii :=
  match p with MExit => chars EvAllCompleted | _ => [] end.

Lemma own_app who scr1 scr2 : own who (scr1 ++ scr2) = own who scr1 ++ own who scr2.
Proof. unfold own. by rewrite filter_app, fmap_app. Qed.

Lemma own_tagged who who' cs :
  own who ((who',.) <$> cs) = if decide (who' = who) then cs else [].
Proof.
  unfold own. induction cs as [|c cs IH]; [by case_decide|].
  rewrite fmap_cons, filter_cons. simpl. case_decide; simpl; [by f_equal|done].
Qed.

(** The output statements of the main thread are those of
    [printConnections] and, at the end, the last line. *)
Lemma main_lines p out :
  last_line p out →
  filter (λ ev, is_main ev) out =
  conn out ++ match p with MExit => [EvAllCompleted] | _ => [] end.
Proof.
  assert (∀ pre, EvAllCompleted ∉ pre → filter (λ ev, is_main ev) pre = conn pre)
    as Hpre.
  { unfold conn. induction pre as [|ev pre IH]; [done|].
    rewrite not_elem_of_cons, !filter_cons. intros [Hne Hpre].
    rewrite (IH Hpre). by destruct ev. }
  destruct p; simpl; rewrite ?app_nil_r; try by apply Hpre.
  intros (pre & -> & Hnot). by rewrite conn_app, filter_app, Hpre, app_nil_r.
Qed.

(** The characters of a table are the text [printConnections] writes. *)
Lemma chars_block t : block t ≫= chars = list_ascii_of_string (render_connections t).
Proof.
  rewrite <-render_block. generalize (block t). intros evs.
  induction evs as [|ev evs IH]; [done|]. cbn [foldr].
  by rewrite bind_cons, IH, list_ascii_of_string_app.
Qed.

(** The characters of the tables [ts], one after the other. *)
Definition tables_text (ts : list (list (string * Z))) : list ascii :=
  ts ≫= λ t, list_ascii_of_string (render_connections t).

Lemma chars_tables ts : mjoin (block <$> ts) ≫= chars = tables_text ts.
Proof.
  induction ts as [|t ts IH]; [done|].
  change (mjoin (block <$> t :: ts)) with (block t ++ mjoin (block <$> ts)).
  unfold tables_text. by rewrite bind_app, bind_cons, chars_block, IH.
Qed.

(** What the main thread is writing: the part of the table in progress,
    or the last line. *)
Definition rest `{Layout} (σ : prog) : list ascii :=
  (printing (at_main σ) (_connections (sh (conc σ))) ≫= chars) ++
  closing (at_main σ).

Section returned.
Context `{Layout}.
Implicit Types (ρ : sprog) (σ : prog) (who : option nat).

(** The invariant: the program and its console as [MainLC] and
    [Console] have them; the threads [join] has returned for have no
    character left to write; at the end of [main] only characters of
    the last line are still added. *)
Record jinv ρ : Prop := {
  j_prog : minv (base ρ);
  j_cons : cinv (base ρ);
  j_text : sinv ρ;
  j_quiet : ∀ k, waited (at_main (base ρ)) k → queue ρ (Some k) = [];
  j_last : at_main (base ρ) = MExit →
           ∃ scr done, screen ρ = scr ++ ((None,.) <$> done) ∧
                       done ++ queue ρ None = chars EvAllCompleted;
}.

(** A thread that does not exist has nothing to write. *)
Lemma sinv_absent ρ k :
  sinv ρ → workers (conc (base ρ)) !! k = None → queue ρ (Some k) = [].
Proof.
  intros Hinv Hk. specialize (Hinv (Some k)). simpl in Hinv. rewrite Hk in Hinv.
  by apply app_eq_nil in Hinv as [_ ?].
Qed.

Lemma jinv_start : jinv sstart.
Proof. split; [apply minv_start|apply cinv_start|apply sinv_start|done..]. Qed.

Lemma jinv_put who ρ c cs :
  jinv ρ → queue ρ who = c :: cs →
  jinv (mkStream (base ρ) (<[who := cs]> (pend ρ)) (screen ρ ++ [(who, c)])).
Proof.
  intros [Hm Hc Hs Hq Hl] Hwho.
  assert (∀ k, waited (at_main (base ρ)) k → who ≠ Some k) as Hne.
  { intros k Hk ->. by rewrite (Hq k Hk) in Hwho. }
  split; cbn [base screen]; [done|done|by apply sinv_put|..].
  - intros k Hk. rewrite queue_insert, decide_False by by apply Hne. by apply Hq.
  - intros Hexit. destruct who as [k|]; [by destruct (Hne k); [rewrite Hexit|]|].
    destruct (Hl Hexit) as (scr & done & -> & Hd). exists scr, (done ++ [c]).
    rewrite fmap_app, queue_insert, decide_True, <-!app_assoc by done.
    split; [done|]. simpl. by rewrite <-Hd, Hwho.
Qed.

Lemma jinv_worker tid ρ σ' :
  jinv ρ → queue ρ (Some tid) = [] → wexec tid (base ρ) = Some σ' →
  jinv (mkStream σ' (<[Some tid := said (LWorker tid) (base ρ) ≫= chars]> (pend ρ))
                 (screen ρ)).
Proof.
  intros [Hm Hc Hs Hq Hl] Hwho Hstep.
  pose proof (wexec_waited tid _ _ (m_joined _ Hm) Hstep) as Hne.
  assert (at_main σ' = at_main (base ρ)) as Hp
    by (by apply wexec_Some in Hstep as (? & ? & ? & _ & _ & ->)).
  split; cbn [base screen]; rewrite ?Hp;
    [by eapply minv_wexec|by eapply cinv_wexec
    |by apply (sinv_step (LWorker tid))|..].
  - intros k Hk. rewrite queue_insert, decide_False by congruence. by apply Hq.
  - intros Hexit. destruct Hne. by rewrite Hexit.
Qed.

Lemma jinv_main r ρ σ' :
  jinv ρ → 0 ≤ r →
  Forall (λ who, queue ρ who = []) (awaited (LMain r) (base ρ)) →
  mstep r (base ρ) = Some σ' →
  jinv (mkStream σ' (<[None := said (LMain r) (base ρ) ≫= chars]> (pend ρ))
                 (screen ρ)).
Proof.
  intros [Hm Hc Hs Hq Hl] Hr Hwait Hstep.
  split; cbn [base screen];
    [by eapply minv_mstep|by eapply cinv_mstep
    |by apply (sinv_step (LMain r)); [|apply awaited_actor|]|..].
  - intros k Hk. rewrite queue_insert, decide_False by done.
    destruct (mstep_waited r _ _ k Hstep Hk) as [Hold|[Hj|Hnone]];
      [by apply Hq| |by apply sinv_absent].
    unfold awaited in Hwait. rewrite Hj in Hwait.
    by apply Forall_cons_1 in Hwait as [_ [? _]%Forall_cons_1].
  - intros Hexit. exists (screen ρ), []. rewrite queue_insert, decide_True by done.
    simpl. by rewrite (mstep_exit r _ _ Hstep Hexit), !app_nil_r.
Qed.

Lemma jinv_sexec l ρ ρ' : jinv ρ → svalid l → sexec l ρ = Some ρ' → jinv ρ'.
Proof.
  intros Hinv Hv Hl%sexec_Some. destruct l as [who|[r|tid]].
  - destruct Hl as (c & cs & Hq & ->). by apply jinv_put.
  - destruct Hl as (σ' & Hq & Hexec & ->). by apply jinv_main.
  - destruct Hl as (σ' & Hq%awaited_actor & Hexec & ->). by apply jinv_worker.
Qed.

Lemma jinv_sruns sls ρ :
  Forall svalid sls → sruns sls sstart = Some ρ → jinv ρ.
Proof.
  intros Hv. apply (runs_invariant sexec jinv svalid); [|done|apply jinv_start].
  intros l ρ1 ρ2 ? ? ?. by apply (jinv_sexec l ρ1).
Qed.

(** What the main thread has written and has still to write: the
    tables of [printConnections] and, at the end, the last line. *)
Lemma shows_text ρ ts :
  sinv ρ → cinv (base ρ) → shows (base ρ) ts →
  own None (screen ρ) ++ queue ρ None = tables_text ts ++ rest (base ρ).
Proof.
  intros Hs [_ _ Hlast _] (_ & _ & Hconn). rewrite (Hs None). simpl. unfold rest.
  rewrite (main_lines _ _ Hlast), Hconn, !bind_app, chars_tables, <-app_assoc.
  do 2 f_equal. destruct (at_main (base ρ)); simpl; by rewrite ?app_nil_r.
Qed.

Lemma jinv_tables ρ :
  jinv ρ →
  ∃ ts, length ts = prints (at_main (base ρ)) ∧ Forall table_ok ts ∧
    own None (screen ρ) ++ queue ρ None = tables_text ts ++ rest (base ρ).
Proof.
  intros [_ Hc Hs _ _]. destruct (c_conn _ Hc) as (ts & Hts). exists ts.
  split_and!; [apply Hts..|by apply shows_text].
Qed.

(** A thread [join] has returned for has its two lines on the
    console. *)
Lemma jinv_returned ρ tid w :
  jinv ρ → waited (at_main (base ρ)) tid →
  workers (conc (base ρ)) !! tid = Some w →
  own (Some tid) (screen ρ) =
  chars (EvStart (server w) (duration w)) ++ chars (EvDone (server w)).
Proof.
  intros [Hm _ Hs Hq _] Hwait Hw. specialize (Hs (Some tid)). simpl in Hs.
  rewrite Hw, (Hq tid Hwait), app_nil_r in Hs.
  by rewrite (waited_done _ tid w (m_joined _ Hm) Hwait Hw) in Hs.
Qed.

End returned.

(** ** The tables come before the threads *)

(** A character of thread [tid] on the console comes after [tid] whole
    tables: the thread is created after the calls of [printConnections]
    of the iterations before its own have returned. *)
Definition ordered `{Layout} (scr : list (option nat * ascii)) : Prop :=
  ∀ n tid c, scr !! n = Some (Some tid, c) →
    ∃ ts, length ts = tid ∧ Forall table_ok ts ∧
          tables_text ts `prefix_of` own None (take n scr).

Section ordered.
Context `{Layout}.
Implicit Types (ρ : sprog) (σ : prog) (who : option nat).

(** The main thread has written the tables [ts] in full, and [pre] of
    what it is writing. *)
Definition written ρ : Prop :=
  ∃ ts pre, shows (base ρ) ts ∧ own None (screen ρ) = tables_text ts ++ pre ∧
            pre ++ queue ρ None = rest (base ρ).

Lemma written_start : written sstart.
Proof. by exists [], []. Qed.

Lemma written_put who ρ c cs :
  written ρ → queue ρ who = c :: cs →
  written (mkStream (base ρ) (<[who := cs]> (pend ρ)) (screen ρ ++ [(who, c)])).
Proof.
  intros (ts & pre & Hsh & Hown & Hpre) Hq. unfold written. cbn [base screen].
  destruct who as [k|].
  - exists ts, pre. by rewrite own_snoc, queue_insert, !decide_False, app_nil_r.
  - exists ts, (pre ++ [c]).
    rewrite own_snoc, queue_insert, !decide_True, Hown, <-!app_assoc by done.
    split_and!; [done..|]. simpl. by rewrite <-Hpre, Hq.
Qed.

Lemma written_worker tid ρ σ' x :
  minv (base ρ) → written ρ → wexec tid (base ρ) = Some σ' →
  written (mkStream σ' (<[Some tid := x]> (pend ρ)) (screen ρ)).
Proof.
  intros Hm (ts & pre & Hsh & Hown & Hpre) Hstep. unfold written.
  cbn [base screen]. exists ts, pre. rewrite queue_insert, decide_False by done.
  split_and!; [by eapply shows_wexec|done|]. rewrite Hpre. unfold rest.
  rewrite (wexec_printing tid _ _ Hm Hstep).
  by destruct (wexec_view tid _ _ Hm Hstep) as (_ & -> & _).
Qed.

(** A step that writes is not the return of [printConnections]. *)
Lemma memits_returned σ m : memits σ ≠ [] → returned (at_main σ) m = [].
Proof. unfold memits. by destruct (at_main σ). Qed.

Lemma written_main r ρ σ' :
  minv (base ρ) → written ρ → queue ρ None = [] → mstep r (base ρ) = Some σ' →
  let ρ' := mkStream σ' (<[None := memits (base ρ) ≫= chars]> (pend ρ)) (screen ρ) in
  sinv ρ' → cinv σ' → written ρ'.
Proof.
  intros Hm (ts & pre & Hsh & Hown & Hpre) Hq Hstep ρ' Hs' Hc'.
  pose proof (shows_mstep r _ _ ts Hm Hsh Hstep) as Hsh'.
  pose proof (shows_text ρ' _ Hs' Hc' Hsh') as Htext. unfold ρ' in Htext |- *.
  unfold written. cbn [base screen] in *.
  rewrite queue_insert, decide_True in Htext |- * by done.
  destruct (decide (memits (base ρ) = [])) as [Hnone|Hsome].
  - rewrite Hnone, app_nil_r in Htext. rewrite Hnone. eexists _, _.
    split_and!; [done|exact Htext|by rewrite app_nil_r].
  - rewrite (memits_returned _ _ Hsome), app_nil_r in Hsh', Htext.
    exists ts, pre. split_and!; [done..|].
    rewrite Hown, <-app_assoc in Htext. by apply app_inv_head in Htext.
Qed.

(** When thread [tid] exists, the tables of the iterations before its
    own are on the console. *)
Lemma tables_before ρ tid :
  minv (base ρ) → written ρ → is_Some (workers (conc (base ρ)) !! tid) →
  ∃ ts, length ts = tid ∧ Forall table_ok ts ∧
        tables_text ts `prefix_of` own None (screen ρ).
Proof.
  intros Hm (ts & pre & (Hn & Hok & _) & Hown & _) Htid%lookup_lt_is_Some.
  assert (tid ≤ length ts)%nat as Hle.
  { pose proof (m_spawned _ Hm) as Hsp. rewrite Hn.
    destruct (at_main (base ρ)); simpl in *; lia. }
  exists (take tid ts). split_and!; [by rewrite length_take_le|by apply Forall_take|].
  assert (tables_text ts = tables_text (take tid ts) ++ tables_text (drop tid ts))
    as Hts by (unfold tables_text; by rewrite <-bind_app, take_drop).
  rewrite Hown, Hts, <-app_assoc. by apply prefix_app_r.
Qed.

Lemma ordered_put scr who c :
  ordered scr →
  (∀ tid, who = Some tid →
     ∃ ts, length ts = tid ∧ Forall table_ok ts ∧
           tables_text ts `prefix_of` own None scr) →
  ordered (scr ++ [(who, c)]).
Proof.
  intros Hord Hnew n tid c' [[Hn Hl]|[-> Heq]]%lookup_snoc_Some.
  - rewrite take_app_le by lia. by apply (Hord n tid c').
  - simplify_eq. rewrite take_app_length. by apply Hnew.
Qed.

(** The invariant of this section with the one before. *)
Record oinv ρ : Prop := {
  o_join : jinv ρ;
  o_written : written ρ;
  o_ordered : ordered (screen ρ);
}.

Lemma oinv_start : oinv sstart.
Proof. split; [apply jinv_start|apply written_start|by intros n tid c].  Qed.

Lemma oinv_sexec l ρ ρ' : oinv ρ → svalid l → sexec l ρ = Some ρ' → oinv ρ'.
Proof.
  intros [Hj Hw Ho] Hv Hl. pose proof (jinv_sexec l ρ ρ' Hj Hv Hl) as Hj'.
  split; [done|..]; apply sexec_Some in Hl; destruct l as [who|[r|tid]].
  - destruct Hl as (c & cs & Hq & ->). by apply written_put.
  - destruct Hl as (σ' & Hq%awaited_actor & Hexec & ->).
    by apply (written_main r ρ σ'); [apply Hj| | | |apply Hj'..].
  - destruct Hl as (σ' & _ & Hexec & ->). by apply written_worker; [apply Hj|..].
  - destruct Hl as (c & cs & Hq & ->). apply ordered_put; [done|].
    intros tid ->. apply tables_before; [apply Hj|done|].
    destruct (workers (conc (base ρ)) !! tid) eqn:Htid; [done|].
    by rewrite (sinv_absent ρ tid (j_text _ Hj) Htid) in Hq.
  - by destruct Hl as (σ' & _ & _ & ->).
  - by destruct Hl as (σ' & _ & _ & ->).
Qed.

Lemma oinv_sruns sls ρ :
  Forall svalid sls → sruns sls sstart = Some ρ → oinv ρ.
Proof.
  intros Hv. apply (runs_invariant sexec oinv svalid); [|done|apply oinv_start].
  intros l ρ1 ρ2 ? ? ?. by apply (oinv_sexec l ρ1).
Qed.

End ordered.

(** ** The theorems *)

Section claims.
Context `{Layout}.
Implicit Types (ρ : sprog) (σ : prog) (who : option nat).

(** C27: what each thread writes arrives whole and in order.  In every
    state of the program in which the characters reach the console one by
    one, the characters of a thread on the console, followed by those of
    its last output statement that are still to come, are the text of
    the output statements the thread has executed: for the main thread
    the headings and lines of [printConnections] and the last line of
    [main], for a worker its START line and its DONE line.  Characters
    of other threads may fall anywhere between them. *)
Theorem console_per_thread sls ρ who :
  sruns sls sstart = Some ρ →
  own who (screen ρ) ++ queue ρ who = spoken who (base ρ).
Proof. intros Hrun. by apply (sinv_sruns sls sstart ρ sinv_start). Qed.

(** C35: the tables on the console, character by character.  In every
    state of the program the characters the main thread has written,
    whatever the workers wrote between them, followed by those of its
    last output statement that are still to come, are the text of
    [printConnections] for one table after the other, each of the three
    servers with a count between zero and sixteen, then the part of the
    table in progress, and at the end of [main] the last line. *)
Theorem screen_tables sls ρ :
  Forall svalid sls → sruns sls sstart = Some ρ →
  ∃ ts, length ts = prints (at_main (base ρ)) ∧
    Forall (λ t, t.*1 = keys0 ∧ Forall (λ e, 0 ≤ e.2 ≤ 16) t) ts ∧
    own None (screen ρ) ++ queue ρ None =
      tables_text ts ++
      (printing (at_main (base ρ)) (_connections (sh (conc (base ρ)))) ≫= chars) ++
      closing (at_main (base ρ)).
Proof. intros Hv Hrun. by apply (jinv_tables ρ), (jinv_sruns sls). Qed.

(** C28: the last line is the last text on the console.  When the main
    thread has reached the end of [main], the console is a text [scr]
    followed by characters of the line "All requests completed." alone;
    [scr] holds, for each of the sixteen threads, its START line and its
    DONE line in full, and of the main thread the sixteen tables: [join]
    returns for a thread when the thread has written its last line. *)
Theorem last_line_last sls ρ :
  Forall svalid sls → sruns sls sstart = Some ρ → at_main (base ρ) = MExit →
  ∃ scr done ts,
    screen ρ = scr ++ ((None,.) <$> done) ∧
    done ++ queue ρ None = chars EvAllCompleted ∧
    length (workers (conc (base ρ))) = 16%nat ∧
    (∀ tid w, workers (conc (base ρ)) !! tid = Some w →
       own (Some tid) scr =
       chars (EvStart (server w) (duration w)) ++ chars (EvDone (server w))) ∧
    length ts = 16%nat ∧ own None scr = tables_text ts.
Proof.
  intros Hv Hrun Hexit. pose proof (jinv_sruns sls ρ Hv Hrun) as Hinv.
  destruct (j_last _ Hinv Hexit) as (scr & done & Hscr & Hdone).
  destruct (jinv_tables ρ Hinv) as (ts & Hn & _ & Hts). unfold rest in Hts.
  pose proof (m_spawned _ (j_prog _ Hinv)) as Hsp.
  rewrite Hexit in Hn, Hts, Hsp. exists scr, done, ts. split_and!; try done.
  - intros tid w Hw. rewrite <-(jinv_returned ρ tid w Hinv), Hscr by by rewrite ?Hexit.
    by rewrite own_app, own_tagged, decide_False, app_nil_r.
  - rewrite Hscr, own_app, own_tagged, decide_True, <-app_assoc, Hdone in Hts by done.
    simpl in Hts. by apply app_inv_tail in Hts.
Qed.

(** C29: the tables come before the threads.  Thread [tid] is created
    in iteration [tid] of the loop of [main], after the calls of
    [printConnections] of the iterations before have returned: wherever
    a character of the thread stands on the console, the text of [tid]
    whole tables is among the characters of the main thread before
    it. *)
Theorem start_after_tables sls ρ n tid c :
  Forall svalid sls → sruns sls sstart = Some ρ →
  screen ρ !! n = Some (Some tid, c) →
  ∃ ts, length ts = tid ∧
    Forall (λ t, t.*1 = keys0 ∧ Forall (λ e, 0 ≤ e.2 ≤ 16) t) ts ∧
    tables_text ts `prefix_of` own None (take n (screen ρ)).
Proof. intros Hv Hrun. by apply (o_ordered ρ), (oinv_sruns sls). Qed.

(** The program reaches the same states whether the characters are
    followed one by one or each output statement is taken for one
    step. *)
Theorem stream_transparent σ :
  (∃ sls ρ, Forall svalid sls ∧ sruns sls sstart = Some ρ ∧ base ρ = σ) ↔
  (∃ ls, Forall valid ls ∧ run ls start = Some σ).
Proof.
  setoid_rewrite main_run_runs.
  by apply (layer_reach exec sexec base steps sexec_base quiet flush stream_move
              valid svalid svalid_steps svalid_flush sstart σ).
Qed.

End claims.

(** ** The theorems at work *)

(** The first worker has started its request and printed nothing of its
    START line yet when the main thread comes to the heading of
    [printConnections]; the two lines then reach the console together. *)
Definition mixed : list slabel :=
  replicate 5 (Step (LMain 7)) ++ replicate 5 (Step (LWorker 0)) ++
  replicate 2 (Step (LMain 7)) ++ replicate 8 (Put None) ++
  replicate 8 (Put (Some 0%nat)) ++ replicate 4 (Put None).

Definition st_mixed : sprog := default sstart (sruns mixed sstart).

Lemma sruns_mixed : sruns mixed sstart = Some st_mixed.
Proof. by vm_compute. Qed.

Example text_mixed : text (screen st_mixed) = "Current [START] conn".
Proof. by vm_compute. Qed.

Example own_mixed :
  string_of_list_ascii (own None (screen st_mixed)) = "Current conn" ∧
  string_of_list_ascii (own (Some 0%nat) (screen st_mixed)) = "[START] ".
Proof. by vm_compute. Qed.

(** The execution [seq_sched] of [MainLC] with the characters of each
    output statement after it. *)
Definition stream_sched : list slabel := filled exec flush seq_sched start.

Definition stream_exit : sprog := default sstart (sruns stream_sched sstart).

Lemma sruns_exit : sruns stream_sched sstart = Some stream_exit.
Proof. by vm_compute. Qed.

Lemma svalid_exit : Forall svalid stream_sched.
Proof.
  apply (filled_ok _ _ valid svalid), valid_seq_sched. apply svalid_flush.
Qed.

Lemma screen_tables_witness :
  ∃ ts, length ts = prints (at_main (base st_mixed)) ∧
    Forall (λ t, t.*1 = keys0 ∧ Forall (λ e, 0 ≤ e.2 ≤ 16) t) ts ∧
    own None (screen st_mixed) ++ queue st_mixed None =
      tables_text ts ++
      (printing (at_main (base st_mixed))
         (_connections (sh (conc (base st_mixed)))) ≫= chars) ++
      closing (at_main (base st_mixed)).
Proof.
  apply (screen_tables mixed st_mixed); [|exact sruns_mixed].
  apply (bool_decide_unpack _). by vm_compute.
Defined.

Lemma last_line_last_witness :
  ∃ scr done ts,
    screen stream_exit = scr ++ ((None,.) <$> done) ∧
    done ++ queue stream_exit None = chars EvAllCompleted ∧
    length (workers (conc (base stream_exit))) = 16%nat ∧
    (∀ tid w, workers (conc (base stream_exit)) !! tid = Some w →
       own (Some tid) scr =
       chars (EvStart (server w) (duration w)) ++ chars (EvDone (server w))) ∧
    length ts = 16%nat ∧ own None scr = tables_text ts.
Proof. exact (last_line_last _ stream_exit svalid_exit sruns_exit eq_refl). Defined.

(** The end of what that execution leaves on the console. *)
Example text_exit :
  string_of_list_ascii (drop 2315 (screen stream_exit).*2) =
  ("[DONE ] Request completed on server3" +:+ nl +:+
   "All requests completed." +:+ nl).
Proof. by vm_compute. Qed.

(** The second thread writes its first line as soon as it is created:
    one table is on the console before it, and no more. *)
Definition eager : list slabel :=
  filled exec flush (replicate 17 (LMain 7) ++ replicate 5 (LWorker 1)) start.

Definition st_eager : sprog := default sstart (sruns eager sstart).

Lemma sruns_eager : sruns eager sstart = Some st_eager.
Proof. by vm_compute. Qed.

Lemma svalid_eager : Forall svalid eager.
Proof. apply (bool_decide_unpack _). by vm_compute. Qed.

Example text_eager :
  text (screen st_eager) =
  render_connections [("server3", 0); ("server2", 0); ("server1", 0)] +:+
  "[START] Request sent to server3 (handling for 107ms)" +:+ nl.
Proof. by vm_compute. Qed.

Lemma start_after_tables_witness :
  ∃ ts, length ts = 1%nat ∧
    Forall (λ t, t.*1 = keys0 ∧ Forall (λ e, 0 ≤ e.2 ≤ 16) t) ts ∧
    tables_text ts `prefix_of` own None (take 57 (screen st_eager)).
Proof.
  exact (start_after_tables eager st_eager 57 1 "[" svalid_eager sruns_eager eq_refl).
Defined.

Lemma console_per_thread_witness :
  own (Some 0%nat) (screen st_mixed) ++ queue st_mixed (Some 0%nat) =
  spoken (Some 0%nat) (base st_mixed).
Proof. exact (console_per_thread mixed st_mixed (Some 0%nat) sruns_mixed). Defined.

End LCStream.
