(* ===== verification/MainLinear.v ===== *)
(** * The program of [leastconnecitonalgo.cpp] against the sequential class

    The calls of [main] and of its threads on the shared
    [LeastConnection], in the order in which they take effect, are an
    execution of the sequential class of [LeastConnLB]: the accounting
    calls of the workers at the linearization points of [Linear], each
    call of [printConnections] at the step that releases the mutex.  The
    tables on the console are the tables [printConnections] returns in
    that sequential execution.

    [GetNextServer] is not in the history.  It reads the map without the
    mutex, in as many steps as the map has entries, and need not return
    what it would return at any one moment ([LCMain.select_torn]).

    [Module LCLin] holds the operations [op], the history
    [main_history], the relation [mrel] and its diagram, and the theorem
    [main_linearizable]. *)

From Stdlib Require Import ZArith Lia.
From stdpp Require Import base tactics option list strings gmap relations.
From S2P Require Import Prelude Simulation ConnMap LeastConnLB Workers.
From S2P Require Import Linear MainLC Console.

#[local] Open Scope Z_scope.

Module LCLin.
Import UMap Conc Lin LCMain LCConsole.

(** A call on the balancer that has taken effect: an accounting call of
    thread [tid], or a call of [printConnections] with the table it
    printed. *)
Inductive op : Type :=
| Call (tid : nat) (c : LCSpec.call)
| Print (t : list (string * Z)).

Definition call_of (e : nat * LCSpec.call) : op := Call e.1 e.2.

Definition calls (h : list op) : list (nat * LCSpec.call) :=
  omap (λ o, match o with Call tid c => Some (tid, c) | Print _ => None end) h.

Definition tables (h : list op) : list (list (string * Z)) :=
  omap (λ o, match o with Print t => Some t | Call _ _ => None end) h.

Section defs.
Context `{Layout}.

(** The sequential object takes the call; its [printConnections] prints
    the table of the call. *)
Definition seq_op (o : op) (lb : LeastConnection.t) : option LeastConnection.t :=
  match o with
  | Call _ c => LeastConnection.do_call c lb
  | Print t =>
      '(t', lb') ← LeastConnection.printConnections lb;
      if decide (t' = t) then Some lb' else None
  end.

(** What takes effect at the step with label [l]. *)
Definition lin_label (l : label) (σ : prog) : list op :=
  match l with
  | LWorker tid => call_of <$> lin_step tid (conc σ)
  | LMain _ => Print <$> returned (at_main σ) (_connections (sh (conc σ)))
  end.

(** The calls of an execution of the program in the order in which they
    took effect. *)
Definition main_history (ls : list label) (σ : prog) : list op :=
  trace exec lin_label ls σ.

(** The program and the sequential object that has taken the calls [h]. *)
Record mrel (h : list op) (σ : prog) (lb : LeastConnection.t) : Prop := {
  r_inv : minv σ;
  r_calls : lrel (calls h) (view σ) lb;
  r_tables : shows σ (tables h);
}.

End defs.

(** ** The two kinds of call in a history *)

Lemma calls_app h1 h2 : calls (h1 ++ h2) = calls h1 ++ calls h2.
Proof. apply omap_app. Qed.

Lemma tables_app h1 h2 : tables (h1 ++ h2) = tables h1 ++ tables h2.
Proof. apply omap_app. Qed.

Lemma calls_call es : calls (call_of <$> es) = es.
Proof. induction es as [|[tid c] es IH]; [done|]. by rewrite <-IH at 2. Qed.

Lemma tables_call es : tables (call_of <$> es) = [].
Proof. by induction es. Qed.

Lemma calls_print ts : calls (Print <$> ts) = [].
Proof. by induction ts. Qed.

Lemma tables_print ts : tables (Print <$> ts) = ts.
Proof. induction ts as [|t ts IH]; [done|]. by rewrite <-IH at 2. Qed.

Section steps.
Context `{Layout}.
Implicit Types (σ : prog) (lb : LeastConnection.t) (h : list op).

Lemma runs_call es lb : runs seq_op (call_of <$> es) lb = runs seq_call es lb.
Proof.
  revert lb. induction es as [|e es IH]; intros lb; simpl; [done|].
  change (seq_call e lb) with (LeastConnection.do_call e.2 lb).
  destruct (LeastConnection.do_call e.2 lb); simpl; [apply IH|done].
Qed.

Lemma lin_step_view tid σ : lin_step tid (view σ) = lin_step tid (conc σ).
Proof. unfold view. by destruct (main_holds (at_main σ)). Qed.

(** A step of the main thread starts a thread or leaves the threads as
    they see each other. *)
Lemma mstep_view r σ σ' :
  mstep r σ = Some σ' →
  view σ' = view σ ∨
  ∃ w, at_pc w = Idle ∧ view σ' = mkState (sh (view σ)) (workers (view σ) ++ [w]).
Proof.
  unfold mstep, view, acquire, release. destruct σ as [[[m mtx] ws] p out].
  simpl. destruct p; intros; simplify_option_eq; repeat case_match;
    simplify_eq/=; step_inside; simplify_eq/=; eauto.
  right. by eexists (mkWorker _ _ Idle).
Qed.

(** The map of the sequential object is the shared map while no worker
    is inside a critical section. *)
Lemma mrel_map h σ lb :
  mrel h σ lb → _mtx (sh (view σ)) = None →
  _connections (sh (conc σ)) = LeastConnection._connections lb.
Proof.
  intros [_ Hrel _] Hfree. pose proof (l_map _ _ _ Hrel) as Hmap.
  rewrite Hfree in Hmap. rewrite <-Hmap. unfold view.
  by destruct (main_holds (at_main σ)).
Qed.

(** The table of a call of [printConnections] that returns is the one
    the sequential object prints. *)
Lemma runs_returned h σ lb :
  mrel h σ lb →
  runs seq_op (Print <$> returned (at_main σ) (_connections (sh (conc σ)))) lb =
  Some lb.
Proof.
  intros Hrel. destruct (at_main σ) eqn:Hp; try done. simpl.
  rewrite (mrel_map h σ lb Hrel) by (unfold view; by rewrite Hp).
  pose proof (l_free _ _ _ (r_calls _ _ _ Hrel)) as Hfree.
  destruct lb as [m mtx]. simpl in *. subst mtx.
  unfold LeastConnection.printConnections. simpl. by rewrite decide_True.
Qed.

(** One step of the program against the sequential object. *)
Lemma main_diagram l σ σ' h lb :
  mrel h σ lb → guarded valid exec l σ = Some σ' →
  ∃ lb', runs seq_op (lin_label l σ) lb = Some lb' ∧
         mrel (h ++ lin_label l σ) σ' lb'.
Proof.
  intros Hrel Hexec. unfold guarded in Hexec. case_decide as Hv; [|done].
  pose proof (minv_exec_label _ _ _ (r_inv _ _ _ Hrel) Hv Hexec) as Hinv'.
  destruct Hrel as [Hinv Hcalls Htables]. destruct l as [r|tid]; simpl in *.
  - exists lb. split; [by apply (runs_returned h)|].
    split; [done| |].
    + rewrite calls_app, calls_print, app_nil_r.
      destruct (mstep_view _ _ _ Hexec) as [->|(w & Hw & ->)];
        [done|by apply lrel_spawn].
    + rewrite tables_app, tables_print. by apply (shows_mstep r σ).
  - destruct (wexec_view _ _ _ Hinv Hexec) as (Hview & _).
    destruct (lin_diagram _ _ _ _ _ Hcalls Hview) as (lb' & Hlb & Hrel').
    rewrite lin_step_view in Hlb, Hrel'.
    exists lb'. rewrite runs_call. split; [done|]. split; [done| |].
    + by rewrite calls_app, calls_call.
    + rewrite tables_app, tables_call, app_nil_r. by apply (shows_wexec tid σ).
Qed.

Lemma mrel_start : mrel [] start (LeastConnection.mk map0 false).
Proof.
  split; [apply minv_start|apply (lrel_init map0 []), wf_map0|by split_and!].
Qed.

Lemma run_mrel ls σ :
  Forall valid ls → run ls start = Some σ →
  ∃ lb, runs seq_op (main_history ls start) (LeastConnection.mk map0 false) =
          Some lb ∧ mrel (main_history ls start) σ lb.
Proof.
  intros Hv Hrun. rewrite main_run_runs, <-(runs_guarded valid) in Hrun by done.
  destruct (simulation_runs (guarded valid exec) seq_op lin_label mrel
              main_diagram _ _ _ _ _ mrel_start Hrun) as (lb & Hlb & Hrel).
  rewrite trace_guarded in Hlb, Hrel by done. by exists lb.
Qed.

End steps.

(** ** The theorems *)

Section claims.
Context `{Layout}.
Implicit Types (σ : prog) (ls : list label).

(** C10: the program is linearizable.  In every execution of [main] and
    its threads, the accounting calls of the threads and the calls of
    [printConnections], in the order in which they took effect, are an
    execution of the sequential [LeastConnection] from the map of the
    constructor, in which every call returns and every
    [printConnections] prints the table of the history.  The tables on
    the console are those tables, in that order, followed by what the
    call in progress has written; the shared map is the map of the
    sequential object whenever no thread is inside a critical section;
    and each thread's calls are in the history in the order in which the
    thread made them. *)
Theorem main_linearizable σ0 ls σ :
  init = Ok σ0 → Forall valid ls → run ls σ0 = Some σ →
  ∃ lb, runs seq_op (main_history ls σ0) (LeastConnection.mk map0 false) = Some lb ∧
        conn (cout σ) =
          mjoin (block <$> tables (main_history ls σ0)) ++
          printing (at_main σ) (_connections (sh (conc σ))) ∧
        (_mtx (sh (view σ)) = None →
         _connections (sh (conc σ)) = LeastConnection._connections lb) ∧
        ∀ tid w, workers (conc σ) !! tid = Some w →
                 filter (λ e, e.1 = tid) (calls (main_history ls σ0)) =
                 (tid,.) <$> effected (at_pc w) (server w).
Proof.
  rewrite init_start. intros [= <-] Hv Hrun.
  destruct (run_mrel ls σ Hv Hrun) as (lb & Hlb & Hrel).
  exists lb. split_and!; [done|apply Hrel|by apply (mrel_map _ _ _ Hrel)|].
  intros tid w Hw. apply (l_order _ _ _ (r_calls _ _ _ Hrel)).
  by rewrite workers_view.
Qed.

(** When [main] returns, every thread has made its two calls, the
    history holds sixteen calls of [printConnections], and the map of
    the sequential object that has taken the history is the shared
    map. *)
Theorem exit_history σ0 ls σ :
  init = Ok σ0 → Forall valid ls → run ls σ0 = Some σ → at_main σ = MExit →
  ∃ lb, runs seq_op (main_history ls σ0) (LeastConnection.mk map0 false) = Some lb ∧
        LeastConnection._connections lb = _connections (sh (conc σ)) ∧
        length (tables (main_history ls σ0)) = 16%nat ∧
        length (workers (conc σ)) = 16%nat ∧
        ∀ tid w, workers (conc σ) !! tid = Some w →
                 filter (λ e, e.1 = tid) (calls (main_history ls σ0)) =
                 [(tid, LCSpec.Started (server w)); (tid, LCSpec.Finished (server w))].
Proof.
  rewrite init_start. intros [= <-] Hv Hrun Hexit.
  destruct (run_mrel ls σ Hv Hrun) as (lb & Hlb & Hrel).
  pose proof (r_inv _ _ _ Hrel) as Hinv.
  pose proof (m_joined _ Hinv) as Hj. pose proof (m_spawned _ Hinv) as Hsp.
  destruct (r_tables _ _ _ Hrel) as (Hn & _). rewrite Hexit in *. simpl in *.
  exists lb. split_and!; [done| |done..|].
  - symmetry. apply (mrel_map _ _ _ Hrel).
    assert (view σ = conc σ) as -> by (unfold view; by rewrite Hexit).
    destruct (_mtx (sh (conc σ))) as [i|] eqn:Hm; [|done].
    destruct (inv_held _ _ _ (m_conc _ Hinv) i) as (w & Hw & Hh).
    { unfold view. by rewrite Hexit. }
    rewrite workers_view in Hw. rewrite Forall_lookup in Hj.
    by rewrite (Hj _ _ Hw) in Hh.
  - intros tid w Hw. rewrite Forall_lookup in Hj.
    rewrite (l_order _ _ _ (r_calls _ _ _ Hrel) tid w) by (by rewrite workers_view).
    by rewrite (Hj _ _ Hw).
Qed.

End claims.

(** ** The theorems at work *)

(** Two turns of the loop of [main]: the first thread starts its request
    before the first table is printed and finishes it after the second
    thread has started its own. *)
Definition lin_sched : list label :=
  replicate 5 (LMain 7) ++ replicate 4 (LWorker 0) ++ replicate 3 (LMain 7) ++
  [LWorker 0] ++ replicate 4 (LMain 7) ++ replicate 5 (LMain 11) ++
  replicate 4 (LWorker 1) ++ replicate 6 (LWorker 0) ++ replicate 7 (LMain 11).

Definition st_lin : prog := default start (run lin_sched start).

Lemma valid_lin_sched : Forall valid lin_sched.
Proof. apply (bool_decide_unpack _). by vm_compute. Qed.

Lemma run_lin : run lin_sched start = Some st_lin.
Proof. by vm_compute. Qed.

Example history_lin_sched :
  main_history lin_sched start =
  [Call 0 (LCSpec.Started "server3");
   Print [("server3", 1); ("server2", 0); ("server1", 0)];
   Call 1 (LCSpec.Started "server2");
   Call 0 (LCSpec.Finished "server3");
   Print [("server3", 0); ("server2", 1); ("server1", 0)]].
Proof. by vm_compute. Qed.

Lemma main_linearizable_witness :
  ∃ lb, runs seq_op (main_history lin_sched start)
          (LeastConnection.mk map0 false) = Some lb ∧
        conn (cout st_lin) =
          mjoin (block <$> tables (main_history lin_sched start)) ++
          printing (at_main st_lin) (_connections (sh (conc st_lin))) ∧
        (_mtx (sh (view st_lin)) = None →
         _connections (sh (conc st_lin)) = LeastConnection._connections lb) ∧
        ∀ tid w, workers (conc st_lin) !! tid = Some w →
                 filter (λ e, e.1 = tid) (calls (main_history lin_sched start)) =
                 (tid,.) <$> effected (at_pc w) (server w).
Proof.
  exact (main_linearizable start lin_sched st_lin init_start valid_lin_sched run_lin).
Defined.

Lemma exit_history_witness :
  ∃ lb, runs seq_op (main_history seq_sched start)
          (LeastConnection.mk map0 false) = Some lb ∧
        LeastConnection._connections lb = _connections (sh (conc st_exit)) ∧
        length (tables (main_history seq_sched start)) = 16%nat ∧
        length (workers (conc st_exit)) = 16%nat ∧
        ∀ tid w, workers (conc st_exit) !! tid = Some w →
                 filter (λ e, e.1 = tid) (calls (main_history seq_sched start)) =
                 [(tid, LCSpec.Started (server w)); (tid, LCSpec.Finished (server w))].
Proof.
  exact (exit_history start seq_sched st_exit init_start valid_seq_sched run_exit
           eq_refl).
Defined.

End LCLin.
